(** * CPU scheduling simulator: the scheduling engine of
      [src/services/schedulingAlgorithms.ts]

    The source file holds two revisions of the engine, one after the other.
    The first one (lines 1-802) is embedded in [Module V1], the second one
    (lines 803-1604) in [Module V2].  Definitions shared by both (the data
    model of [src/types.ts], the helpers) come first.

    Conventions of the embedding:
    - a JavaScript number holding an integer is a [Z]; [Infinity] is a
      constructor of [num]; the two averages of a result, the only numbers
      of the engine that are not integers, are IEEE 754 doubles
      ([SpecFloat.spec_float] at precision 53);
    - the working copy [localProcesses] is a [list Process]; an object
      reference into it (the running process, a member of the ready queue)
      is the index of the object in that list, so that a mutation through
      the reference is an update of the list at that index;
    - a [while] loop is a function with fuel that returns [None] when the
      fuel runs out; termination theorems give the fuel that is enough;
    - a generator is the list of the values it yields. *)

From Stdlib Require SpecFloat.
From stdpp Require Import base list strings gmap pretty.
From Stdlib Require Import ZArith Lia Ascii Sorted.

Local Open Scope Z_scope.

(** ** Data model ([src/types.ts]) *)

Inductive ProcessState : Set :=
| NotArrived | Waiting | Running | Completed.

Record Process : Set := mkProcess {
  id : Z;
  name : string;
  arrivalTime : Z;
  burstTime : Z;
  priority : option Z;
  remainingTime : Z;
  color : string;
  completionTime : Z;
  turnaroundTime : Z;
  waitingTime : Z;
  state : ProcessState
}.

Record GanttEntry : Set := mkGanttEntry {
  processName : string;
  start : Z;
  end_ : Z;
  gcolor : string
}.

(** A JavaScript number that need not be an integer: a double (binary64,
    53 bits of precision, exponents below 1024). *)
Definition double : Set := SpecFloat.spec_float.

Record AlgorithmResult : Set := mkResult {
  rname : string;
  ganttChart : list GanttEntry;
  processes : list Process;
  avgWaitingTime : double;
  avgTurnaroundTime : double;
  totalTime : Z
}.

(** The element type of a timeline: [{ processName, color } | null]. *)
Record TimelineInfo : Set := mkInfo {
  ti_processName : string;
  ti_color : string
}.

Abbreviation Timeline := (list (option TimelineInfo)).

(** [number] values that may be [Infinity] ([p.priority ?? Infinity],
    [let minArrivalTime = Infinity]). *)
Inductive num : Set :=
| Fin (z : Z)
| Infinity.

Definition num_ltb (a b : num) : bool :=
  match a, b with
  | Fin x, Fin y => x <? y
  | Fin _, Infinity => true
  | Infinity, _ => false
  end.

Definition num_eqb (a b : num) : bool :=
  match a, b with
  | Fin x, Fin y => x =? y
  | Infinity, Infinity => true
  | _, _ => false
  end.

(** [p.priority ?? Infinity] *)
Definition priority_or_inf (p : Process) : num :=
  match priority p with
  | Some v => Fin v
  | None => Infinity
  end.

(** ** Field updates *)

Definition set_remainingTime (p : Process) (v : Z) : Process :=
  mkProcess (id p) (name p) (arrivalTime p) (burstTime p) (priority p) v
            (color p) (completionTime p) (turnaroundTime p) (waitingTime p)
            (state p).

Definition set_state (p : Process) (s : ProcessState) : Process :=
  mkProcess (id p) (name p) (arrivalTime p) (burstTime p) (priority p)
            (remainingTime p) (color p) (completionTime p) (turnaroundTime p)
            (waitingTime p) s.

(** The three assignments every engine makes when a process completes:
    [p.completionTime = c; p.turnaroundTime = p.completionTime -
    p.arrivalTime; p.waitingTime = p.turnaroundTime - p.burstTime]. *)
Definition commit (p : Process) (c : Z) : Process :=
  mkProcess (id p) (name p) (arrivalTime p) (burstTime p) (priority p)
            (remainingTime p) (color p) c (c - arrivalTime p)
            (c - arrivalTime p - burstTime p) (state p).

Definition set_end (e : GanttEntry) (v : Z) : GanttEntry :=
  mkGanttEntry (processName e) (start e) v (gcolor e).

(** [{ processName: p.name, color: p.color }] *)
Definition info_of (p : Process) : TimelineInfo :=
  mkInfo (name p) (color p).

(** ** Helpers of the source *)

(** [JSON.parse(JSON.stringify(processes))]: a deep copy; on values it is
    the identity. *)
Definition cloneProcesses (processes : list Process) : list Process :=
  processes.

(** [createEmptyResult(name)] *)
Definition createEmptyResult (nm : string) : AlgorithmResult :=
  mkResult nm [] [] (SpecFloat.S754_zero false) (SpecFloat.S754_zero false)
           0.

(** [l.reduce((acc, p) => acc + f(p), 0)] *)
Definition sum_of (f : Process -> Z) (l : list Process) : Z :=
  fold_left (fun acc p => acc + f p) l 0.

(** The JavaScript number that holds the integer [z]: the double nearest
    to [z], which is [z] itself below 2^53 in absolute value. *)
Definition double_of_Z (z : Z) : double :=
  SpecFloat.binary_normalize 53 1024 z 0 false.

(** [a + b] and [a / b] on JavaScript numbers: the operations of doubles,
    rounded to the nearest double. *)
Definition double_add (a b : double) : double := SpecFloat.SFadd 53 1024 a b.

Definition double_div (a b : double) : double := SpecFloat.SFdiv 53 1024 a b.

(** [total / n] *)
Definition average (total : Z) (n : nat) : double :=
  double_div (double_of_Z total) (double_of_Z (Z.of_nat n)).

(** [Array.prototype.sort] with a comparator: a stable sort.  [cmp a b] is
    the number the comparator returns; [a] goes after [b] when it is
    positive. *)
Fixpoint sort_insert {A} (cmp : A -> A -> Z) (x : A) (l : list A) : list A :=
  match l with
  | [] => [x]
  | y :: l' => if 0 <? cmp x y then y :: sort_insert cmp x l' else x :: l
  end.

Fixpoint js_sort {A} (cmp : A -> A -> Z) (l : list A) : list A :=
  match l with
  | [] => []
  | x :: l' => sort_insert cmp x (js_sort cmp l')
  end.

(** [a - b || c]: [c] when the difference is zero. *)
Definition js_or (a b : Z) : Z := if a =? 0 then b else a.

(** [l.map((p, i) => [i, p])]: every element with its index, the way the
    embedding names an object of [localProcesses]. *)
Definition indexed (l : list Process) : list (nat * Process) := imap pair l.

(** [l.reduce(f)] without an initial value, on a list that may be empty
    (the source only calls it on non-empty lists). *)
Definition reduce1 {A} (f : A -> A -> A) (l : list A) : option A :=
  match l with
  | [] => None
  | x :: rest => Some (fold_left f rest x)
  end.

(** [p.state === 'completed'] *)
Definition is_completed (p : Process) : bool :=
  match state p with
  | Completed => true
  | _ => false
  end.

(** The reducer of the SJF and non-preemptive Priority selections, on the
    key [key] ([burstTime], or [priority ?? Infinity]):
    [if (prev.key < curr.key) return prev; if (prev.key > curr.key) return
    curr; return prev.arrivalTime < curr.arrivalTime ? prev : curr]. *)
Definition pick (key : Process -> num) (prev curr : nat * Process)
    : nat * Process :=
  if num_ltb (key prev.2) (key curr.2) then prev
  else if num_ltb (key curr.2) (key prev.2) then curr
  else if arrivalTime prev.2 <? arrivalTime curr.2 then prev
  else curr.

(** The [forEach] selection of the preemptive engines (and of the second
    revision's SJF): the accumulator is [(index, minKey, minArrivalTime)],
    [None] standing for the index [-1]. *)
Definition scan_step (key : Process -> num) (ready : Process -> bool)
    (acc : option nat * num * num) (ip : nat * Process)
    : option nat * num * num :=
  let '(idx, minKey, minArrivalTime) := acc in
  let p := ip.2 in
  if ready p then
    if num_ltb (key p) minKey then (Some ip.1, key p, Fin (arrivalTime p))
    else if num_eqb (key p) minKey then
      if num_ltb (Fin (arrivalTime p)) minArrivalTime
      then (Some ip.1, minKey, Fin (arrivalTime p))
      else acc
    else acc
  else acc.

Definition scan (key : Process -> num) (ready : Process -> bool)
    (l : list Process) : option nat :=
  (fold_left (scan_step key ready) (indexed l) (None, Infinity, Infinity)).1.1.

Definition key_burst (p : Process) : num := Fin (burstTime p).
Definition key_remaining (p : Process) : num := Fin (remainingTime p).

(** The comparators passed to [sort]. *)
Definition cmp_arrival_id (a b : Process) : Z :=
  js_or (arrivalTime a - arrivalTime b) (id a - id b).
Definition cmp_id (a b : nat * Process) : Z := id a.2 - id b.2.

(** The safety ceilings of the two Round Robin batch engines. *)
Definition ceiling_v1 : Z := 20000.
Definition ceiling_v2 : Z := 10000.
Definition rr_break_message : string :=
  "Breaking Round Robin loop, possible infinite loop detected.".

(** The variables of a Round Robin loop. *)
Record RRState : Set := mkRR {
  rr_procs : list Process;
  rr_queue : list nat;
  rr_timeline : Timeline;
  rr_time : Z;
  rr_completed : nat;
  rr_running : option nat;
  rr_quantum : Z
}.

(** The variables of the other batch loops; [bs_done] is
    [completedProcessIds] (first revision) or [isCompleted] (second
    revision), unused by the preemptive loops. *)
Record BState : Set := mkB {
  bs_procs : list Process;
  bs_time : Z;
  bs_completed : nat;
  bs_timeline : Timeline;
  bs_done : list Z
}.

(** [completedProcessIds.has(x)], [isCompleted[x]] *)
Definition mem_id (x : Z) (l : list Z) : bool := existsb (Z.eqb x) l.

(** [for (let i = 0; i < k; i++) timeline.push(x)] *)
Definition push_n (timeline : Timeline) (k : Z) (x : option TimelineInfo)
    : Timeline :=
  timeline ++ replicate (Z.to_nat k) x.

(** The object a batch engine returns; [G] is the timeline builder of the
    revision, [n] the number of processes, [total] the value of
    [totalTime]. *)
Definition mk_result (nm : string) (timeline : Timeline)
    (G : Timeline -> list GanttEntry) (l : list Process) (n : nat)
    (total : Z) : AlgorithmResult :=
  mkResult nm (G timeline) l
           (average (sum_of waitingTime l) n)
           (average (sum_of turnaroundTime l) n)
           total.

(** ** Stepwise output *)

(** The object a generator yields:
    [{ time, runningProcess, readyQueue, processes, eventMessage }].  An
    event holds the values its objects have when it is yielded. *)
Record TickEvent : Set := mkEvent {
  time : Z;
  runningProcess : option Process;
  readyQueue : list Process;
  ev_processes : list Process;
  eventMessage : string
}.

Definition same_id (p q : Process) : bool := id p =? id q.

(** [updateProcessStates(processes, runningProcess, readyQueue,
    currentTime)] *)
Definition updateProcessStates (l : list Process)
    (running : option Process) (queue : list Process) (currentTime : Z)
    : list Process :=
  (fun p =>
     if is_completed p then p
     else if match running with
             | Some r => same_id p r
             | None => false
             end
     then set_state p Running
     else if existsb (same_id p) queue then set_state p Waiting
     else if currentTime <? arrivalTime p then set_state p NotArrived
     else if 0 <? remainingTime p then set_state p Waiting
     else p) <$> l.

(** Pieces of the event messages. *)
Definition is_space (c : ascii) : bool :=
  let n := nat_of_ascii c in
  ((9 <=? n)%nat && (n <=? 13)%nat) || (n =? 32)%nat.

Fixpoint trim_left (s : string) : string :=
  match s with
  | EmptyString => EmptyString
  | String c s' => if is_space c then trim_left s' else s
  end.

Fixpoint trim_right (s : string) : string :=
  match s with
  | EmptyString => EmptyString
  | String c s' =>
      match trim_right s' with
      | EmptyString => if is_space c then EmptyString else String c EmptyString
      | r => String c r
      end
  end.

(** [s.trim()], for the white space of ASCII. *)
Definition trim (s : string) : string := trim_right (trim_left s).

Definition is_empty (s : string) : bool :=
  match s with
  | EmptyString => true
  | _ => false
  end.

(** [`${l.map(p => p.name).join(', ')} arrive${l.length > 1 ? '' : 's'}. `] *)
Definition arrive_message (l : list Process) : string :=
  String.concat ", " (name <$> l)
  +:+ " arrive" +:+ (if (1 <? length l)%nat then "" else "s") +:+ ". ".

Definition all_complete : string := "All processes complete.".
Definition cpu_idle : string := "CPU is idle.".

(** The last event of every generator. *)
Definition final_event (l : list Process) (currentTime : Z) : TickEvent :=
  mkEvent currentTime None [] (updateProcessStates l None [] currentTime)
          all_complete.

Definition idle_event (l : list Process) (currentTime : Z) (msg : string)
    : TickEvent :=
  mkEvent currentTime None [] (updateProcessStates l None [] currentTime) msg.

(** [while (currentTime < arrival) { yield idle; currentTime++ }], for [k]
    iterations. *)
Fixpoint idle_events (k : nat) (l : list Process) (currentTime : Z)
    : list TickEvent :=
  match k with
  | O => []
  | S k' =>
      idle_event l currentTime cpu_idle :: idle_events k' l (currentTime + 1)
  end.

(** The objects at the indices [q]. *)
Definition deref (l : list Process) (q : list nat) : list Process :=
  omap (fun i => l !! i) q.

(** [for (let i = 0; i < burst; i++) { p.remainingTime--; yield ...;
    eventMessage = ""; currentTime++ }] for the process at index [i] and [k]
    iterations; [rq] computes the ready queue that is shown. *)
Fixpoint run_ticks (rq : list Process -> Z -> list Process) (k : nat)
    (l : list Process) (i : nat) (currentTime : Z) (msg : string)
    : list TickEvent * list Process * Z :=
  match k with
  | O => ([], l, currentTime)
  | S k' =>
      match l !! i with
      | None => ([], l, currentTime)
      | Some p =>
          let p := set_remainingTime p (remainingTime p - 1) in
          let l := <[i := p]> l in
          let ev := mkEvent currentTime (Some p) (rq l currentTime)
                      (updateProcessStates l (Some p) (rq l currentTime)
                                           currentTime) msg in
          let '(evs, l', t') := run_ticks rq k' l i (currentTime + 1) "" in
          (ev :: evs, l', t')
      end
  end.

(** The variables of the generator loops other than Round Robin;
    [sim_last] is [lastRunningProcessId]. *)
Record SimState : Set := mkSim {
  sim_procs : list Process;
  sim_time : Z;
  sim_completed : nat;
  sim_last : option Z
}.

(** ** First revision (lines 1-802) *)

Module V1.

(** [buildGanttChart]: [i] is the loop variable, [chart] and
    [currentEntry] the two locals. *)
Fixpoint buildGanttChart_loop (timeline : Timeline) (i : Z)
    (chart : list GanttEntry) (currentEntry : option GanttEntry)
    : list GanttEntry :=
  match timeline with
  | [] =>
      match currentEntry with
      | Some e => chart ++ [e]
      | None => chart
      end
  | Some info :: rest =>
      match currentEntry with
      | Some e =>
          if String.eqb (processName e) (ti_processName info)
          then buildGanttChart_loop rest (i + 1) chart
                 (Some (set_end e (i + 1)))
          else buildGanttChart_loop rest (i + 1) (chart ++ [e])
                 (Some (mkGanttEntry (ti_processName info) i (i + 1)
                                     (ti_color info)))
      | None =>
          buildGanttChart_loop rest (i + 1) chart
            (Some (mkGanttEntry (ti_processName info) i (i + 1)
                                (ti_color info)))
      end
  | None :: rest =>
      match currentEntry with
      | Some e => buildGanttChart_loop rest (i + 1) (chart ++ [e]) None
      | None => buildGanttChart_loop rest (i + 1) chart None
      end
  end.

Definition buildGanttChart (timeline : Timeline) : list GanttEntry :=
  match timeline with
  | [] => []
  | _ => buildGanttChart_loop timeline 0 [] None
  end.

(** *** Batch engines *)

(** The body of [localProcesses.forEach] in [runFCFS]; the accumulator is
    [(currentTime, timeline, the processes already visited)]. *)
Definition fcfs_body (acc : Z * Timeline * list Process) (p : Process)
    : Z * Timeline * list Process :=
  let '(currentTime, timeline, visited) := acc in
  let '(currentTime, timeline) :=
    if currentTime <? arrivalTime p
    then (arrivalTime p, push_n timeline (arrivalTime p - currentTime) None)
    else (currentTime, timeline) in
  let p := commit p (currentTime + burstTime p) in
  (completionTime p,
   push_n timeline (burstTime p) (Some (info_of p)),
   visited ++ [p]).

Definition runFCFS (processes : list Process) : AlgorithmResult :=
  let nm := "First-Come, First-Served (FCFS)"%string in
  match processes with
  | [] => createEmptyResult nm
  | _ =>
      let localProcesses := js_sort cmp_arrival_id (cloneProcesses processes) in
      let '(currentTime, timeline, localProcesses) :=
        fold_left fcfs_body localProcesses (0, [], []) in
      mk_result nm timeline buildGanttChart localProcesses
                (length localProcesses) currentTime
  end.

(** One iteration of the [while (completed < n)] loop of [runSJF] and of
    [runPriorityNonPreemptive], which differ in the key compared. *)
Definition np_body (key : Process -> num) (s : BState) : BState :=
  let readyQueue :=
    List.filter (fun ip : nat * Process =>
                   (arrivalTime ip.2 <=? bs_time s)
                   && negb (mem_id (id ip.2) (bs_done s)))
                (indexed (bs_procs s)) in
  match reduce1 (pick key) readyQueue with
  | None =>
      mkB (bs_procs s) (bs_time s + 1) (bs_completed s)
          (bs_timeline s ++ [None]) (bs_done s)
  | Some (i, currentProcess) =>
      let '(currentTime, timeline) :=
        if bs_time s <? arrivalTime currentProcess
        then (arrivalTime currentProcess,
              push_n (bs_timeline s)
                     (arrivalTime currentProcess - bs_time s) None)
        else (bs_time s, bs_timeline s) in
      let timeline :=
        push_n timeline (burstTime currentProcess)
               (Some (info_of currentProcess)) in
      let executionEndTime := currentTime + burstTime currentProcess in
      mkB (<[i := commit currentProcess executionEndTime]> (bs_procs s))
          executionEndTime
          (S (bs_completed s))
          timeline
          (id currentProcess :: bs_done s)
  end.

Fixpoint np_loop (key : Process -> num) (fuel : nat) (s : BState)
    : option BState :=
  if (bs_completed s <? length (bs_procs s))%nat then
    match fuel with
    | O => None
    | S fuel' => np_loop key fuel' (np_body key s)
    end
  else Some s.

Definition result_of (nm : string) (s : BState) : AlgorithmResult :=
  mk_result nm (bs_timeline s) buildGanttChart (bs_procs s)
            (length (bs_procs s)) (bs_time s).

Definition run_np (key : Process -> num) (nm : string) (fuel : nat)
    (processes : list Process) : option AlgorithmResult :=
  match processes with
  | [] => Some (createEmptyResult nm)
  | _ =>
      result_of nm <$>
        np_loop key fuel (mkB (cloneProcesses processes) 0 0 [] [])
  end.

Definition runSJF := run_np key_burst "Non-Preemptive SJF".
Definition runPriorityNonPreemptive :=
  run_np priority_or_inf "Non-Preemptive Priority".

(** One iteration of the [while (completed !== n)] loop of [runSRTF] and
    of [runPriorityPreemptive].  [None] is the [TypeError] of an index
    outside [localProcesses], which the selection never returns. *)
Definition ready_now (t : Z) (p : Process) : bool :=
  (arrivalTime p <=? t) && (0 <? remainingTime p).

Definition pre_body (key : Process -> num) (s : BState) : option BState :=
  match scan key (ready_now (bs_time s)) (bs_procs s) with
  | None =>
      Some (mkB (bs_procs s) (bs_time s + 1) (bs_completed s)
                (bs_timeline s ++ [None]) (bs_done s))
  | Some i =>
      currentProcess ← bs_procs s !! i;
      let timeline := bs_timeline s ++ [Some (info_of currentProcess)] in
      let currentProcess :=
        set_remainingTime currentProcess (remainingTime currentProcess - 1) in
      let currentTime := bs_time s + 1 in
      if remainingTime currentProcess =? 0
      then Some (mkB (<[i := commit currentProcess currentTime]> (bs_procs s))
                     currentTime (S (bs_completed s)) timeline (bs_done s))
      else Some (mkB (<[i := currentProcess]> (bs_procs s))
                     currentTime (bs_completed s) timeline (bs_done s))
  end.

Fixpoint pre_loop (key : Process -> num) (fuel : nat) (s : BState)
    : option BState :=
  if (bs_completed s =? length (bs_procs s))%nat then Some s
  else
    match fuel with
    | O => None
    | S fuel' => pre_body key s ≫= pre_loop key fuel'
    end.

Definition run_pre (key : Process -> num) (nm : string) (fuel : nat)
    (processes : list Process) : option AlgorithmResult :=
  match processes with
  | [] => Some (createEmptyResult nm)
  | _ =>
      result_of nm <$>
        pre_loop key fuel (mkB (cloneProcesses processes) 0 0 [] [])
  end.

Definition runSRTF := run_pre key_remaining "Preemptive SJF (SRTF)".
Definition runPriorityPreemptive :=
  run_pre priority_or_inf "Preemptive Priority".

(** [runRoundRobin]: the four steps of one iteration, then the iteration
    and the loop with its safety break.  The running process is an index
    into [localProcesses]; the branches for an index outside the list are
    never taken (see [rr_inv]). *)
Definition rr_retire (timeQuantum : Z) (s : RRState) : RRState :=
  match rr_running s with
  | None => s
  | Some i =>
      match rr_procs s !! i with
      | None => s
      | Some runningProcess =>
          if remainingTime runningProcess =? 0 then
            mkRR (<[i := commit runningProcess (rr_time s)]> (rr_procs s))
                 (rr_queue s) (rr_timeline s) (rr_time s)
                 (S (rr_completed s)) None (rr_quantum s)
          else if rr_quantum s =? timeQuantum then
            mkRR (rr_procs s) (rr_queue s ++ [i]) (rr_timeline s) (rr_time s)
                 (rr_completed s) None (rr_quantum s)
          else s
      end
  end.

Definition rr_arrivals (s : RRState) : list nat :=
  fst <$> js_sort cmp_id
            (List.filter (fun ip : nat * Process =>
                            arrivalTime ip.2 =? rr_time s)
                         (indexed (rr_procs s))).

Definition rr_enqueue (s : RRState) : RRState :=
  mkRR (rr_procs s) (rr_queue s ++ rr_arrivals s) (rr_timeline s) (rr_time s)
       (rr_completed s) (rr_running s) (rr_quantum s).

Definition rr_dispatch (s : RRState) : RRState :=
  match rr_running s, rr_queue s with
  | None, i :: rest =>
      mkRR (rr_procs s) rest (rr_timeline s) (rr_time s) (rr_completed s)
           (Some i) 0
  | _, _ => s
  end.

Definition rr_execute (s : RRState) : RRState :=
  match rr_running s with
  | Some i =>
      match rr_procs s !! i with
      | Some runningProcess =>
          mkRR (<[i := set_remainingTime runningProcess
                         (remainingTime runningProcess - 1)]> (rr_procs s))
               (rr_queue s)
               (rr_timeline s ++ [Some (info_of runningProcess)])
               (rr_time s + 1) (rr_completed s) (rr_running s)
               (rr_quantum s + 1)
      | None =>
          mkRR (rr_procs s) (rr_queue s) (rr_timeline s) (rr_time s + 1)
               (rr_completed s) (rr_running s) (rr_quantum s)
      end
  | None =>
      mkRR (rr_procs s) (rr_queue s) (rr_timeline s ++ [None])
           (rr_time s + 1) (rr_completed s) None (rr_quantum s)
  end.

Definition rr_body (timeQuantum : Z) (s : RRState) : RRState :=
  rr_execute (rr_dispatch (rr_enqueue (rr_retire timeQuantum s))).

(** The loop returns the state it stops in and what it wrote with
    [console.error]. *)
Fixpoint rr_loop (timeQuantum : Z) (fuel : nat) (s : RRState)
    : option (RRState * list string) :=
  if (rr_completed s <? length (rr_procs s))%nat then
    match fuel with
    | O => None
    | S fuel' =>
        let s' := rr_body timeQuantum s in
        if ceiling_v1 <? rr_time s' then Some (s', [rr_break_message])
        else rr_loop timeQuantum fuel' s'
    end
  else Some (s, []).

Definition rr_init (processes : list Process) : RRState :=
  mkRR (cloneProcesses processes) [] [] 0 0 None 0.

Definition rr_result (s : RRState) : AlgorithmResult :=
  mk_result "Round Robin" (rr_timeline s) buildGanttChart (rr_procs s)
            (length (rr_procs s)) (rr_time s).

(** The safety break bounds the loop by [ceiling_v1 + 1] iterations, which
    is the fuel given here (see [runRoundRobin_total]). *)
Definition runRoundRobin (processes : list Process) (timeQuantum : Z)
    : option (AlgorithmResult * list string) :=
  match processes with
  | [] => Some (createEmptyResult "Round Robin", [])
  | _ =>
      prod_map rr_result Datatypes.id <$>
        rr_loop timeQuantum (Z.to_nat (ceiling_v1 + 1)) (rr_init processes)
  end.

(** *** Stepwise engines *)

(** [simulateFCFS]: the outer loop takes the head of [queue] at every
    iteration, so it is a recursion on the queue. *)
Fixpoint fcfs_sim_loop (n : nat) (queue : list nat) (l : list Process)
    (currentTime : Z) (completed : nat) : list TickEvent * list Process * Z :=
  if (completed <? n)%nat then
    match queue with
    | [] => ([], l, currentTime)
    | i :: rest =>
        match l !! i with
        | None => ([], l, currentTime)
        | Some currentProcess =>
            let idle :=
              idle_events (Z.to_nat (arrivalTime currentProcess - currentTime))
                          l currentTime in
            let currentTime := Z.max currentTime (arrivalTime currentProcess) in
            let msg := name currentProcess +:+ " arrives. CPU starts running "
                       +:+ name currentProcess +:+ "." in
            let '(ticks, l, currentTime) :=
              run_ticks (fun l _ => deref l rest)
                        (Z.to_nat (burstTime currentProcess)) l i
                        currentTime msg in
            match l !! i with
            | None => (idle ++ ticks, l, currentTime)
            | Some currentProcess =>
                let currentProcess :=
                  set_state (commit currentProcess currentTime) Completed in
                let l := <[i := currentProcess]> l in
                let ev :=
                  mkEvent (currentTime - 1) (Some currentProcess) []
                    (updateProcessStates l None (deref l rest)
                                         (currentTime - 1))
                    (name currentProcess +:+ " completes execution.") in
                let '(evs, l', t') :=
                  fcfs_sim_loop n rest l currentTime (S completed) in
                (idle ++ ticks ++ ev :: evs, l', t')
            end
        end
    end
  else ([], l, currentTime).

Definition simulateFCFS (processes : list Process) : list TickEvent :=
  match processes with
  | [] => []
  | _ =>
      let localProcesses := js_sort cmp_arrival_id (cloneProcesses processes) in
      let '(evs, l, currentTime) :=
        fcfs_sim_loop (length localProcesses) (seq 0 (length localProcesses))
                      localProcesses 0 0 in
      evs ++ [final_event l currentTime]
  end.

Definition newly_arrived (l : list Process) (t : Z) : list Process :=
  List.filter (fun p => arrivalTime p =? t) l.

(** One iteration of the loop of [simulateSJF] and of
    [simulatePriorityNonPreemptive]; [why] is the text in brackets of the
    selection message. *)
Definition np_sim_body (key : Process -> num) (why : string) (s : SimState)
    : list TickEvent * SimState :=
  let l := sim_procs s in
  let t := sim_time s in
  let newlyArrived := newly_arrived l t in
  let eventMessage :=
    if (0 <? length newlyArrived)%nat then arrive_message newlyArrived
    else ""%string in
  let readyQueue :=
    List.filter (fun ip : nat * Process =>
                   (arrivalTime ip.2 <=? t) && negb (is_completed ip.2))
                (indexed l) in
  match reduce1 (pick key) readyQueue with
  | None =>
      ([idle_event l t (if is_empty eventMessage then cpu_idle
                        else eventMessage)],
       mkSim l (t + 1) (sim_completed s) (sim_last s))
  | Some (i, processToRun) =>
      let eventMessage :=
        eventMessage +:+ "CPU selects " +:+ name processToRun
        +:+ " (" +:+ why +:+ ")." in
      let rq (l : list Process) (t : Z) :=
        List.filter (fun p => (arrivalTime p <=? t) && negb (is_completed p)
                              && negb (same_id p processToRun)) l in
      let '(ticks, l, t) :=
        run_ticks rq (Z.to_nat (burstTime processToRun)) l i t eventMessage in
      match l !! i with
      | None => (ticks, mkSim l t (sim_completed s) (sim_last s))
      | Some processToRun =>
          let processToRun := set_state (commit processToRun t) Completed in
          let l := <[i := processToRun]> l in
          (ticks ++
           [mkEvent (t - 1) (Some processToRun) []
                    (updateProcessStates l None [] (t - 1))
                    (name processToRun +:+ " completes execution.")],
           mkSim l t (S (sim_completed s)) (sim_last s))
      end
  end.

Fixpoint np_sim_loop (key : Process -> num) (why : string) (fuel : nat)
    (s : SimState) : option (list TickEvent * SimState) :=
  if (sim_completed s <? length (sim_procs s))%nat then
    match fuel with
    | O => None
    | S fuel' =>
        let '(evs, s') := np_sim_body key why s in
        '(evs', s'') ← np_sim_loop key why fuel' s';
        Some (evs ++ evs', s'')
    end
  else Some ([], s).

Definition finish (r : list TickEvent * SimState) : list TickEvent :=
  r.1 ++ [final_event (sim_procs r.2) (sim_time r.2)].

Definition sim_np (key : Process -> num) (why : string) (fuel : nat)
    (processes : list Process) : option (list TickEvent) :=
  match processes with
  | [] => Some []
  | _ =>
      finish <$>
        np_sim_loop key why fuel (mkSim (cloneProcesses processes) 0 0 None)
  end.

Definition simulateSJF := sim_np key_burst "shortest job".
Definition simulatePriorityNonPreemptive :=
  sim_np priority_or_inf "highest priority".

(** One iteration of the loop of [simulateSRTF] and of
    [simulatePriorityPreemptive]. *)
Definition pre_sim_body (key : Process -> num) (why : string) (s : SimState)
    : list TickEvent * SimState :=
  let l := sim_procs s in
  let t := sim_time s in
  let newlyArrived := newly_arrived l t in
  let eventMessage :=
    if (0 <? length newlyArrived)%nat then arrive_message newlyArrived
    else ""%string in
  let readyQueue :=
    List.filter (fun ip : nat * Process => ready_now t ip.2) (indexed l) in
  match reduce1 (pick key) readyQueue with
  | Some (i, runningProcess) =>
      let eventMessage :=
        if match sim_last s with
           | Some last => negb (last =? id runningProcess)
           | None => true
           end
        then
          match sim_last s ≫= (fun last => List.find (fun p => id p =? last) l)
          with
          | Some lastProcess =>
              if 0 <? remainingTime lastProcess
              then eventMessage +:+ name runningProcess +:+ " preempts "
                   +:+ name lastProcess +:+ " (" +:+ why +:+ ")."
              else eventMessage +:+ "CPU starts running "
                   +:+ name runningProcess +:+ "."
          | None =>
              eventMessage +:+ "CPU starts running "
              +:+ name runningProcess +:+ "."
          end
        else eventMessage in
      let others :=
        snd <$> List.filter (fun ip : nat * Process =>
                               negb (same_id ip.2 runningProcess)) readyQueue in
      let runningProcess :=
        set_remainingTime runningProcess (remainingTime runningProcess - 1) in
      let '(runningProcess, completed, eventMessage) :=
        if remainingTime runningProcess =? 0
        then (set_state (commit runningProcess (t + 1)) Completed,
              S (sim_completed s),
              eventMessage +:+ " " +:+ name runningProcess
              +:+ " completes execution.")
        else (runningProcess, sim_completed s, eventMessage) in
      let l := <[i := runningProcess]> l in
      ([mkEvent t (Some runningProcess) others
                (updateProcessStates l (Some runningProcess) others t)
                (trim eventMessage)],
       mkSim l (t + 1) completed (Some (id runningProcess)))
  | None =>
      let eventMessage := eventMessage +:+ cpu_idle in
      let others := snd <$> readyQueue in
      ([mkEvent t None others (updateProcessStates l None others t)
                (trim eventMessage)],
       mkSim l (t + 1) (sim_completed s) None)
  end.

Fixpoint pre_sim_loop (key : Process -> num) (why : string) (fuel : nat)
    (s : SimState) : option (list TickEvent * SimState) :=
  if (sim_completed s <? length (sim_procs s))%nat then
    match fuel with
    | O => None
    | S fuel' =>
        let '(evs, s') := pre_sim_body key why s in
        '(evs', s'') ← pre_sim_loop key why fuel' s';
        Some (evs ++ evs', s'')
    end
  else Some ([], s).

Definition sim_pre (key : Process -> num) (why : string) (fuel : nat)
    (processes : list Process) : option (list TickEvent) :=
  match processes with
  | [] => Some []
  | _ =>
      finish <$>
        pre_sim_loop key why fuel (mkSim (cloneProcesses processes) 0 0 None)
  end.

Definition simulateSRTF := sim_pre key_remaining "shorter remaining time".
Definition simulatePriorityPreemptive :=
  sim_pre priority_or_inf "higher priority".

(** [simulateRoundRobin]: the steps of [runRoundRobin], which also set
    [state] and compose the message.  The timeline field of the state is
    not used. *)
Definition rr_sim_retire (timeQuantum : Z) (s : RRState) : string * RRState :=
  match rr_running s with
  | None => (""%string, s)
  | Some i =>
      match rr_procs s !! i with
      | None => (""%string, s)
      | Some runningProcess =>
          if remainingTime runningProcess =? 0 then
            (name runningProcess +:+ " completes execution. ",
             mkRR (<[i := commit (set_state runningProcess Completed)
                                 (rr_time s)]> (rr_procs s))
                  (rr_queue s) (rr_timeline s) (rr_time s)
                  (S (rr_completed s)) None (rr_quantum s))
          else if rr_quantum s =? timeQuantum then
            ("Time quantum for " +:+ name runningProcess
             +:+ " expires. Moved to back of queue. ",
             mkRR (rr_procs s) (rr_queue s ++ [i]) (rr_timeline s) (rr_time s)
                  (rr_completed s) None (rr_quantum s))
          else (""%string, s)
      end
  end.

Definition rr_sim_enqueue (s : RRState) : string * RRState :=
  let newlyArrived := newly_arrived (rr_procs s) (rr_time s) in
  if (0 <? length newlyArrived)%nat
  then (arrive_message newlyArrived, rr_enqueue s)
  else (""%string, s).

Definition rr_sim_dispatch (s : RRState) : string * RRState :=
  match rr_running s, rr_queue s with
  | None, i :: rest =>
      (match rr_procs s !! i with
       | Some p => "CPU takes " +:+ name p +:+ " from queue."
       | None => ""
       end,
       mkRR (rr_procs s) rest (rr_timeline s) (rr_time s) (rr_completed s)
            (Some i) 0)
  | _, _ => (""%string, s)
  end.

Definition rr_sim_execute (s : RRState) : RRState :=
  match rr_running s with
  | Some i =>
      match rr_procs s !! i with
      | Some runningProcess =>
          mkRR (<[i := set_remainingTime runningProcess
                         (remainingTime runningProcess - 1)]> (rr_procs s))
               (rr_queue s) (rr_timeline s) (rr_time s) (rr_completed s)
               (rr_running s) (rr_quantum s + 1)
      | None => s
      end
  | None => s
  end.

Definition rr_sim_body (timeQuantum : Z) (s : RRState)
    : TickEvent * RRState :=
  let '(m1, s) := rr_sim_retire timeQuantum s in
  let '(m2, s) := rr_sim_enqueue s in
  let '(m3, s) := rr_sim_dispatch s in
  let s := rr_sim_execute s in
  let eventMessage := m1 +:+ m2 +:+ m3 in
  let eventMessage :=
    match rr_running s with
    | Some _ => eventMessage
    | None => if is_empty eventMessage then cpu_idle else eventMessage
    end in
  let queue := deref (rr_procs s) (rr_queue s) in
  let running := rr_running s ≫= (fun i => rr_procs s !! i) in
  (mkEvent (rr_time s) running queue
           (updateProcessStates (rr_procs s) running queue (rr_time s))
           (trim eventMessage),
   mkRR (rr_procs s) (rr_queue s) (rr_timeline s) (rr_time s + 1)
        (rr_completed s) (rr_running s) (rr_quantum s)).

Fixpoint rr_sim_loop (timeQuantum : Z) (fuel : nat) (s : RRState)
    : option (list TickEvent * RRState) :=
  if (rr_completed s <? length (rr_procs s))%nat then
    match fuel with
    | O => None
    | S fuel' =>
        let '(ev, s') := rr_sim_body timeQuantum s in
        '(evs, s'') ← rr_sim_loop timeQuantum fuel' s';
        Some (ev :: evs, s'')
    end
  else Some ([], s).

Definition simulateRoundRobin (fuel : nat) (processes : list Process)
    (timeQuantum : Z) : option (list TickEvent) :=
  match processes with
  | [] => Some []
  | _ =>
      (fun r : list TickEvent * RRState =>
         r.1 ++ [final_event (rr_procs r.2) (rr_time r.2)]) <$>
        rr_sim_loop timeQuantum fuel (rr_init processes)
  end.

End V1.

(** ** Second revision (lines 803-1604)

    [runSRTF], [runPriorityPreemptive], [updateProcessStates] and the
    generators other than [simulateFCFS], [simulateSJF] and
    [simulateRoundRobin] have the same text as in the first revision.  Of
    the functions that differ, those the statements below are about are
    embedded here: the timeline builder, the SJF selection and the two
    Round Robin engines. *)

Module V2.

(** [buildGanttChart]: the test of the first revision, negated. *)
Fixpoint buildGanttChart_loop (timeline : Timeline) (i : Z)
    (chart : list GanttEntry) (currentEntry : option GanttEntry)
    : list GanttEntry :=
  match timeline with
  | [] =>
      match currentEntry with
      | Some e => chart ++ [e]
      | None => chart
      end
  | Some currentProcess :: rest =>
      if match currentEntry with
         | None => true
         | Some e =>
             negb (String.eqb (processName e) (ti_processName currentProcess))
         end
      then
        buildGanttChart_loop rest (i + 1)
          (match currentEntry with
           | Some e => chart ++ [e]
           | None => chart
           end)
          (Some (mkGanttEntry (ti_processName currentProcess) i (i + 1)
                              (ti_color currentProcess)))
      else
        buildGanttChart_loop rest (i + 1) chart
          ((fun e => set_end e (i + 1)) <$> currentEntry)
  | None :: rest =>
      match currentEntry with
      | Some e => buildGanttChart_loop rest (i + 1) (chart ++ [e]) None
      | None => buildGanttChart_loop rest (i + 1) chart None
      end
  end.

Definition buildGanttChart (timeline : Timeline) : list GanttEntry :=
  match timeline with
  | [] => []
  | _ => buildGanttChart_loop timeline 0 [] None
  end.

(** [runSJF]: the selection is a [forEach] scan; [bs_done] holds the ids
    [k] with [isCompleted[k] = true].  The array is allocated with
    [maxId + 1] cells, which throws when the largest id is below -1; the
    model is for ids from 0 on, as the application numbers them. *)
Definition sjf_body (s : BState) : option BState :=
  match scan key_burst
             (fun p => (arrivalTime p <=? bs_time s)
                       && negb (mem_id (id p) (bs_done s)))
             (bs_procs s) with
  | None =>
      Some (mkB (bs_procs s) (bs_time s + 1) (bs_completed s)
                (bs_timeline s ++ [None]) (bs_done s))
  | Some i =>
      currentProcess ← bs_procs s !! i;
      let '(currentTime, timeline) :=
        if bs_time s <? arrivalTime currentProcess
        then (arrivalTime currentProcess,
              push_n (bs_timeline s)
                     (arrivalTime currentProcess - bs_time s) None)
        else (bs_time s, bs_timeline s) in
      let timeline :=
        push_n timeline (burstTime currentProcess)
               (Some (info_of currentProcess)) in
      let executionEndTime := currentTime + burstTime currentProcess in
      Some (mkB (<[i := commit currentProcess executionEndTime]> (bs_procs s))
                executionEndTime (S (bs_completed s)) timeline
                (id currentProcess :: bs_done s))
  end.

Fixpoint sjf_loop (fuel : nat) (s : BState) : option BState :=
  if (bs_completed s <? length (bs_procs s))%nat then
    match fuel with
    | O => None
    | S fuel' => sjf_body s ≫= sjf_loop fuel'
    end
  else Some s.

Definition runSJF (fuel : nat) (processes : list Process)
    : option AlgorithmResult :=
  let nm := "Non-Preemptive SJF"%string in
  match processes with
  | [] => Some (createEmptyResult nm)
  | _ =>
      (fun s => mk_result nm (bs_timeline s) buildGanttChart (bs_procs s)
                          (length (bs_procs s)) (bs_time s)) <$>
        sjf_loop fuel (mkB (cloneProcesses processes) 0 0 [] [])
  end.

(** [runRoundRobin]: the arrivals are enqueued first, then the running
    process is retired. *)
Definition rr_arrivals (s : RRState) : list nat :=
  fst <$> js_sort cmp_id
            (List.filter (fun ip : nat * Process =>
                            (arrivalTime ip.2 =? rr_time s)
                            && (0 <? remainingTime ip.2))
                         (indexed (rr_procs s))).

Definition rr_enqueue (s : RRState) : RRState :=
  mkRR (rr_procs s) (rr_queue s ++ rr_arrivals s) (rr_timeline s) (rr_time s)
       (rr_completed s) (rr_running s) (rr_quantum s).

Definition rr_retire (timeQuantum : Z) (s : RRState) : RRState :=
  match rr_running s with
  | None => s
  | Some i =>
      match rr_procs s !! i with
      | None => s
      | Some runningProcess =>
          if remainingTime runningProcess =? 0 then
            mkRR (<[i := commit runningProcess (rr_time s)]> (rr_procs s))
                 (rr_queue s) (rr_timeline s) (rr_time s)
                 (S (rr_completed s)) None 0
          else if rr_quantum s =? timeQuantum then
            mkRR (rr_procs s) (rr_queue s ++ [i]) (rr_timeline s) (rr_time s)
                 (rr_completed s) None 0
          else s
      end
  end.

Definition rr_body (timeQuantum : Z) (s : RRState) : RRState :=
  V1.rr_execute (V1.rr_dispatch (rr_retire timeQuantum (rr_enqueue s))).

(** The loop returns the state it stops in and what it wrote with
    [console.error]. *)
Fixpoint rr_loop (timeQuantum : Z) (fuel : nat) (s : RRState)
    : option (RRState * list string) :=
  if (rr_completed s <? length (rr_procs s))%nat then
    match fuel with
    | O => None
    | S fuel' =>
        let s' := rr_body timeQuantum s in
        if ceiling_v2 <? rr_time s' then Some (s', [rr_break_message])
        else rr_loop timeQuantum fuel' s'
    end
  else Some (s, []).

Definition rr_result (s : RRState) : AlgorithmResult :=
  mk_result "Round Robin" (rr_timeline s) buildGanttChart (rr_procs s)
            (length (rr_procs s)) (rr_time s - 1).

Definition runRoundRobin (processes : list Process) (timeQuantum : Z)
    : option (AlgorithmResult * list string) :=
  match processes with
  | [] => Some (createEmptyResult "Round Robin", [])
  | _ =>
      prod_map rr_result Datatypes.id <$>
        rr_loop timeQuantum (Z.to_nat (ceiling_v2 + 1)) (V1.rr_init processes)
  end.

(** [simulateRoundRobin]: arrivals first and in list order, then the
    running process is taken off the CPU; a process completes in the tick
    of its last execution. *)
Definition rr_sim_enqueue (s : RRState) : string * RRState :=
  let newlyArrived :=
    List.filter (fun ip : nat * Process => arrivalTime ip.2 =? rr_time s)
                (indexed (rr_procs s)) in
  if (0 <? length newlyArrived)%nat then
    (String.concat ", " (name <$> (snd <$> newlyArrived))
     +:+ " arrive" +:+ (if (1 <? length newlyArrived)%nat then "" else "s")
     +:+ ". Ready queue: ["
     +:+ String.concat ", "
           ((name <$> deref (rr_procs s) (rr_queue s))
            ++ (name <$> (snd <$> newlyArrived)))
     +:+ "]. ",
     mkRR (rr_procs s) (rr_queue s ++ (fst <$> newlyArrived)) (rr_timeline s)
          (rr_time s) (rr_completed s) (rr_running s) (rr_quantum s))
  else (""%string, s).

Definition rr_sim_release (timeQuantum : Z) (s : RRState)
    : string * RRState :=
  match rr_running s with
  | None => (""%string, s)
  | Some i =>
      match rr_procs s !! i with
      | None => (""%string, s)
      | Some runningProcess =>
          if (remainingTime runningProcess =? 0)
             || (rr_quantum s =? timeQuantum)
          then
            if 0 <? remainingTime runningProcess then
              ((if rr_quantum s =? timeQuantum
                then "Time quantum for " +:+ name runningProcess
                     +:+ " expires. "
                else "")
               +:+ name runningProcess +:+ " moved to back of queue.",
               mkRR (rr_procs s) (rr_queue s ++ [i]) (rr_timeline s)
                    (rr_time s) (rr_completed s) None (rr_quantum s))
            else
              (""%string,
               mkRR (rr_procs s) (rr_queue s) (rr_timeline s) (rr_time s)
                    (rr_completed s) None (rr_quantum s))
          else (""%string, s)
      end
  end.

Definition rr_sim_execute (s : RRState) : string * RRState :=
  match rr_running s with
  | Some i =>
      match rr_procs s !! i with
      | Some runningProcess =>
          let runningProcess :=
            set_remainingTime runningProcess
                              (remainingTime runningProcess - 1) in
          if remainingTime runningProcess =? 0 then
            (" " +:+ name runningProcess +:+ " completes execution.",
             mkRR (<[i := set_state (commit runningProcess (rr_time s + 1))
                                    Completed]> (rr_procs s))
                  (rr_queue s) (rr_timeline s) (rr_time s)
                  (S (rr_completed s)) (rr_running s) (rr_quantum s + 1))
          else
            (""%string,
             mkRR (<[i := runningProcess]> (rr_procs s))
                  (rr_queue s) (rr_timeline s) (rr_time s) (rr_completed s)
                  (rr_running s) (rr_quantum s + 1))
      | None => (""%string, s)
      end
  | None => (""%string, s)
  end.

Definition rr_sim_body (timeQuantum : Z) (s : RRState)
    : TickEvent * RRState :=
  let '(m1, s) := rr_sim_enqueue s in
  let '(m2, s) := rr_sim_release timeQuantum s in
  let '(m3, s) := V1.rr_sim_dispatch s in
  let '(m4, s) := rr_sim_execute s in
  let eventMessage := m1 +:+ m2 +:+ m3 +:+ m4 in
  let eventMessage :=
    match rr_running s with
    | Some _ => eventMessage
    | None => if is_empty eventMessage then cpu_idle else eventMessage
    end in
  let queue := deref (rr_procs s) (rr_queue s) in
  let running := rr_running s ≫= (fun i => rr_procs s !! i) in
  (mkEvent (rr_time s) running queue
           (updateProcessStates (rr_procs s) running queue (rr_time s))
           (trim eventMessage),
   mkRR (rr_procs s) (rr_queue s) (rr_timeline s) (rr_time s + 1)
        (rr_completed s) (rr_running s) (rr_quantum s)).

Fixpoint rr_sim_loop (timeQuantum : Z) (fuel : nat) (s : RRState)
    : option (list TickEvent * RRState) :=
  if (rr_completed s <? length (rr_procs s))%nat then
    match fuel with
    | O => None
    | S fuel' =>
        let '(ev, s') := rr_sim_body timeQuantum s in
        '(evs, s'') ← rr_sim_loop timeQuantum fuel' s';
        Some (ev :: evs, s'')
    end
  else Some ([], s).

Definition simulateRoundRobin (fuel : nat) (processes : list Process)
    (timeQuantum : Z) : option (list TickEvent) :=
  match processes with
  | [] => Some []
  | _ =>
      (fun r : list TickEvent * RRState =>
         r.1 ++ [final_event (rr_procs r.2) (rr_time r.2)]) <$>
        rr_sim_loop timeQuantum fuel (V1.rr_init processes)
  end.

End V2.

(** * Vocabulary of the statements *)

(** The input contract: what [handleAddProcess] of [src/App.tsx] builds
    (unique ids, fields in range, [remainingTime] equal to [burstTime],
    state ['not arrived']). *)
Record valid_process (p : Process) : Prop := mkValid {
  vp_arrival : 0 <= arrivalTime p;
  vp_burst : 0 < burstTime p;
  vp_priority : forall v, priority p = Some v -> 0 <= v;
  vp_remaining : remainingTime p = burstTime p;
  vp_state : state p = NotArrived
}.

Definition valid_input (l : list Process) : Prop :=
  Forall valid_process l /\ NoDup (id <$> l).

(** A process as the application creates it, without priority. *)
Definition proc (i : Z) (nm : string) (arrival burst : Z) : Process :=
  mkProcess i nm arrival burst None burst "" 0 0 0 NotArrived.

(** The six policies and the two engines over them. *)
Inductive Policy : Set :=
| FCFS | SJF | SRTF | PriorityNP | PriorityP | RoundRobin.

Definition run_batch (pol : Policy) (timeQuantum : Z) (fuel : nat)
    (l : list Process) : option AlgorithmResult :=
  match pol with
  | FCFS => Some (V1.runFCFS l)
  | SJF => V1.runSJF fuel l
  | SRTF => V1.runSRTF fuel l
  | PriorityNP => V1.runPriorityNonPreemptive fuel l
  | PriorityP => V1.runPriorityPreemptive fuel l
  | RoundRobin => fst <$> V1.runRoundRobin l timeQuantum
  end.

Definition run_stepwise (pol : Policy) (timeQuantum : Z) (fuel : nat)
    (l : list Process) : option (list TickEvent) :=
  match pol with
  | FCFS => Some (V1.simulateFCFS l)
  | SJF => V1.simulateSJF fuel l
  | SRTF => V1.simulateSRTF fuel l
  | PriorityNP => V1.simulatePriorityNonPreemptive fuel l
  | PriorityP => V1.simulatePriorityPreemptive fuel l
  | RoundRobin => V1.simulateRoundRobin fuel l timeQuantum
  end.

(** Views of a result. *)
Definition segments (chart : list GanttEntry) : list (string * Z * Z) :=
  (fun e => (processName e, start e, end_ e)) <$> chart.

Definition metrics (l : list Process) : list (string * Z * Z * Z) :=
  (fun p => (name p, completionTime p, turnaroundTime p, waitingTime p))
    <$> l.

Definition completions (l : list Process) : list (string * Z) :=
  (fun p => (name p, completionTime p)) <$> l.

(** The processes of the last event of an exhausted generator. *)
Definition final_processes (evs : list TickEvent) : list Process :=
  from_option ev_processes [] (last evs).

(** The time the chart gives to the name [nm]. *)
Definition duration_of (nm : string) (chart : list GanttEntry) : Z :=
  foldr (fun e acc =>
           if String.eqb (processName e) nm then end_ e - start e + acc
           else acc) 0 chart.

(** The equations of the derived metrics. *)
Definition metrics_ok (p : Process) : Prop :=
  turnaroundTime p = completionTime p - arrivalTime p
  /\ waitingTime p = turnaroundTime p - burstTime p
  /\ 0 <= waitingTime p.

(** ** Vocabulary of the timeline builder *)

(** The name the timeline has at tick [i]: [None] when the CPU is idle at
    [i] or [i] is outside the timeline. *)
Definition name_at (timeline : Timeline) (i : Z) : option string :=
  if i <? 0 then None
  else ti_processName <$> (timeline !! Z.to_nat i ≫= fun x => x).

(** The name the chart shows at tick [i]: the name of the first entry
    whose interval holds [i]. *)
Definition shown_at (chart : list GanttEntry) (i : Z) : option string :=
  processName
    <$> List.find (fun e => (start e <=? i) && (i <? end_ e)) chart.

(** The entries come in increasing order and do not overlap: every entry
    is a non-empty interval that starts at [lo] or later, and the entries
    after it start where it ends or later. *)
Fixpoint ordered_from (lo : Z) (chart : list GanttEntry) : Prop :=
  match chart with
  | [] => True
  | e :: rest => lo <= start e /\ start e < end_ e /\ ordered_from (end_ e) rest
  end.

(** No entry could be merged with the next one: two neighbours that touch
    have different names. *)
Fixpoint maximal (chart : list GanttEntry) : Prop :=
  match chart with
  | e1 :: (e2 :: _) as rest =>
      (end_ e1 = start e2 -> processName e1 <> processName e2) /\ maximal rest
  | _ => True
  end.

(** The number of ticks of the timeline that carry the name [nm]. *)
Definition ticks_of (nm : string) (timeline : Timeline) : Z :=
  foldr (fun x acc =>
           match x with
           | Some info =>
               if String.eqb (ti_processName info) nm then 1 + acc else acc
           | None => acc
           end) 0 timeline.

(** No two entries of a chart overlap. *)
Definition no_overlap (chart : list GanttEntry) : Prop :=
  forall (a b : nat) ea eb,
    (a < b)%nat -> chart !! a = Some ea -> chart !! b = Some eb ->
    start ea < end_ ea /\ end_ ea <= start eb /\ start eb < end_ eb.

(** ** Vocabulary of the engine invariants *)

(** The fields of a process that no engine assigns. *)
Definition statics (p : Process) : Z * string * Z * Z :=
  (id p, name p, arrivalTime p, burstTime p).

(** The three derived metrics. *)
Definition metrics3 (p : Process) : Z * Z * Z :=
  (completionTime p, turnaroundTime p, waitingTime p).

Definition zsum {A} (f : A -> Z) (l : list A) : Z :=
  foldr (fun x acc => f x + acc) 0 l.

(** The burst times of the processes named [nm], added up. *)
Definition bursts (nm : string) (l : list Process) : Z :=
  zsum (fun p => if String.eqb (name p) nm then burstTime p else 0) l.

(** The ticks the processes named [nm] have executed so far. *)
Definition work (nm : string) (l : list Process) : Z :=
  zsum (fun p => if String.eqb (name p) nm
                 then burstTime p - remainingTime p else 0) l.

(** The latest arrival time of a list of processes. *)
Definition max_arrival (l : list Process) : Z :=
  foldr (fun p acc => Z.max (arrivalTime p) acc) 0 l.

(** A process of the result that the engine has not committed: it has the
    metrics of the input process with its id. *)
Definition untouched (l : list Process) (p : Process) : Prop :=
  exists p0, p0 ∈ l /\ id p0 = id p /\ metrics3 p = metrics3 p0.

(** What a complete run returns for the input [l]: the processes of the
    input, all with committed metrics, and a chart that gives every name
    the burst times of the processes that carry it. *)
Definition result_ok (l : list Process) (r : AlgorithmResult) : Prop :=
  statics <$> processes r ≡ₚ statics <$> l
  /\ Forall metrics_ok (processes r)
  /\ (forall nm, duration_of nm (ganttChart r) = bursts nm l)
  /\ ordered_from 0 (ganttChart r).

(** The burst time the process at index [i] contributes to the name
    [nm]. *)
Definition burst_at (nm : string) (l : list Process) (i : nat) : Z :=
  match l !! i with
  | Some p => if String.eqb (name p) nm then burstTime p else 0
  | None => 0
  end.

(** The invariant of the loop of [runSJF] and
    [runPriorityNonPreemptive] on the input [l]; [D] holds the indices of
    the processes that have run. *)
Definition np_inv (l : list Process) (s : BState) (D : list nat) : Prop :=
  statics <$> bs_procs s = statics <$> l
  /\ NoDup D
  /\ length D = bs_completed s
  /\ (forall i, i ∈ D ->
        exists p, bs_procs s !! i = Some p /\ metrics_ok p
                  /\ id p ∈ bs_done s)
  /\ (forall d, d ∈ bs_done s ->
        exists i p, i ∈ D /\ bs_procs s !! i = Some p /\ id p = d)
  /\ (forall nm, ticks_of nm (bs_timeline s) = zsum (burst_at nm l) D).

(** The measure that decreases at every iteration of a batch loop that
    completes one process per iteration or idles. *)
Definition np_measure (l : list Process) (s : BState) : nat :=
  (length l - bs_completed s) + Z.to_nat (max_arrival l - bs_time s).

(** The invariant of the loop of [runSRTF] and [runPriorityPreemptive]
    on the input [l]; [D] holds the indices of the finished processes. *)
Definition pre_inv (l : list Process) (s : BState) (D : list nat) : Prop :=
  statics <$> bs_procs s = statics <$> l
  /\ (forall (i : nat) p, bs_procs s !! i = Some p ->
        0 <= remainingTime p
        /\ (remainingTime p = burstTime p
            \/ arrivalTime p + burstTime p - remainingTime p <= bs_time s))
  /\ NoDup D
  /\ length D = bs_completed s
  /\ (forall i : nat,
        i ∈ D <-> exists p, bs_procs s !! i = Some p /\ remainingTime p = 0)
  /\ (forall (i : nat) p, bs_procs s !! i = Some p -> remainingTime p = 0 ->
        metrics_ok p)
  /\ (forall nm, ticks_of nm (bs_timeline s) = work nm (bs_procs s)).

(** The measure that decreases at every tick of a preemptive loop. *)
Definition pre_measure (l : list Process) (ps : list Process) (t : Z) : nat :=
  Z.to_nat (zsum remainingTime ps) + Z.to_nat (max_arrival l - t).

(** ** The Round Robin step, once for both engines

    [runRoundRobin] and [simulateRoundRobin] of the first revision make
    the same assignments to the scheduling variables; the generator also
    sets [state] when it retires a process and keeps no timeline.
    [core_body mark push] is that common step: [mark] is what retiring
    does to the process besides the metrics, [push] tells whether the
    timeline is kept.  [rr_body_core] and [rr_sim_body_core] relate the two
    engines to it.  [reset] is what retiring does to the quantum counter:
    nothing in the first revision, [quantumCounter = 0] in the batch engine
    of the second one. *)
Definition core_retire (mark : Process -> Process) (reset : Z -> Z)
    (timeQuantum : Z) (s : RRState) : RRState :=
  match rr_running s with
  | None => s
  | Some i =>
      match rr_procs s !! i with
      | None => s
      | Some runningProcess =>
          if remainingTime runningProcess =? 0 then
            mkRR (<[i := commit (mark runningProcess) (rr_time s)]>
                    (rr_procs s))
                 (rr_queue s) (rr_timeline s) (rr_time s)
                 (S (rr_completed s)) None (reset (rr_quantum s))
          else if rr_quantum s =? timeQuantum then
            mkRR (rr_procs s) (rr_queue s ++ [i]) (rr_timeline s) (rr_time s)
                 (rr_completed s) None (reset (rr_quantum s))
          else s
      end
  end.

Definition core_execute (push : bool) (s : RRState) : RRState :=
  match rr_running s with
  | Some i =>
      match rr_procs s !! i with
      | Some runningProcess =>
          mkRR (<[i := set_remainingTime runningProcess
                         (remainingTime runningProcess - 1)]> (rr_procs s))
               (rr_queue s)
               (if push
                then rr_timeline s ++ [Some (info_of runningProcess)]
                else rr_timeline s)
               (rr_time s + 1) (rr_completed s) (rr_running s)
               (rr_quantum s + 1)
      | None =>
          mkRR (rr_procs s) (rr_queue s) (rr_timeline s) (rr_time s + 1)
               (rr_completed s) (rr_running s) (rr_quantum s)
      end
  | None =>
      mkRR (rr_procs s) (rr_queue s)
           (if push then rr_timeline s ++ [None] else rr_timeline s)
           (rr_time s + 1) (rr_completed s) None (rr_quantum s)
  end.

Definition core_body (mark : Process -> Process) (push : bool)
    (timeQuantum : Z) (s : RRState) : RRState :=
  core_execute push
    (V1.rr_dispatch
       (V1.rr_enqueue (core_retire mark (fun z => z) timeQuantum s))).

(** What [mark] may do: it keeps the scheduling fields. *)
Definition keeps_schedule (mark : Process -> Process) : Prop :=
  forall p, statics (mark p) = statics p
            /\ remainingTime (mark p) = remainingTime p
            /\ metrics3 (mark p) = metrics3 p.

(** The invariant of the Round Robin loop on the input [l].  [D] holds
    the indices of the retired processes; [b] is the arrival horizon (the
    processes that arrive before [b] have been enqueued); [pos] tells
    whether the running process is known to have work left. *)
Definition rr_inv (l : list Process) (s : RRState) (D : list nat) (b : Z)
    (pos : bool) : Prop :=
  statics <$> rr_procs s = statics <$> l
  /\ (forall (i : nat) p, rr_procs s !! i = Some p ->
        0 <= remainingTime p
        /\ (remainingTime p = burstTime p
            \/ arrivalTime p + burstTime p - remainingTime p <= rr_time s)
        /\ (b <= arrivalTime p -> remainingTime p = burstTime p)
        /\ (arrivalTime p < b -> 0 < remainingTime p ->
            i ∈ rr_queue s \/ rr_running s = Some i))
  /\ (forall i, i ∈ rr_queue s ->
        exists p, rr_procs s !! i = Some p /\ arrivalTime p < b
                  /\ 0 < remainingTime p)
  /\ (forall r, rr_running s = Some r ->
        (r ∉ rr_queue s)
        /\ exists p, rr_procs s !! r = Some p /\ arrivalTime p < b
                     /\ (if pos then 0 < remainingTime p else True))
  /\ NoDup (rr_queue s)
  /\ NoDup D
  /\ length D = rr_completed s
  /\ (forall i : nat,
        i ∈ D <-> exists p, rr_procs s !! i = Some p /\ remainingTime p = 0
                            /\ rr_running s <> Some i)
  /\ (forall (i : nat) p, rr_procs s !! i = Some p -> i ∈ D -> metrics_ok p)
  /\ (forall (i : nat) p p0, rr_procs s !! i = Some p -> l !! i = Some p0 ->
        metrics_ok p \/ metrics3 p = metrics3 p0).

(** The measure that decreases at every iteration of the loop. *)
Definition rr_measure (l : list Process) (s : RRState) : nat :=
  Z.to_nat (zsum remainingTime (rr_procs s))
  + (length l - rr_completed s)
  + Z.to_nat (max_arrival l - rr_time s).

(** The input of the examples of the specification. *)
Definition example_input : list Process :=
  [proc 1 "P1" 0 5; proc 2 "P2" 1 3; proc 3 "P3" 2 1].

(** A bound on the ticks a Round Robin run takes: the burst times, one
    more tick to retire each process, and the latest arrival. *)
Definition tick_bound (l : list Process) : Z :=
  zsum burstTime l + Z.of_nat (length l) + max_arrival l.

(** The invariant of the loop of [simulateSJF] and
    [simulatePriorityNonPreemptive]; [D] holds the indices of the
    processes in state ['completed']. *)
Definition np_sim_inv (l : list Process) (s : SimState) (D : list nat)
    : Prop :=
  statics <$> sim_procs s = statics <$> l
  /\ NoDup D
  /\ length D = sim_completed s
  /\ (forall i : nat,
        i ∈ D <-> exists p, sim_procs s !! i = Some p
                            /\ is_completed p = true).

Definition np_sim_measure (l : list Process) (s : SimState) : nat :=
  (length l - sim_completed s) + Z.to_nat (max_arrival l - sim_time s).

(** The invariant of the loop of [simulateSRTF] and
    [simulatePriorityPreemptive]; [D] holds the indices of the finished
    processes. *)
Definition pre_sim_inv (l : list Process) (s : SimState) (D : list nat)
    : Prop :=
  statics <$> sim_procs s = statics <$> l
  /\ (forall (i : nat) p, sim_procs s !! i = Some p -> 0 <= remainingTime p)
  /\ NoDup D
  /\ length D = sim_completed s
  /\ (forall i : nat,
        i ∈ D <-> exists p, sim_procs s !! i = Some p /\ remainingTime p = 0).

(** Who runs at every event of a generator. *)
Definition runners (evs : list TickEvent) : list (Z * option string) :=
  (fun e => (time e, name <$> runningProcess e)) <$> evs.

(** * The application ([src/App.tsx])

    The handlers that build the process list the engines are called on.
    The state of the component is reduced to the two variables these
    handlers assign: [processes] and [error]. *)

(** A [number] argument, as far as the tests of the handlers tell numbers
    apart: [NaN], an integer, or any other number (a fraction or an
    infinity), for which [Number.isInteger] is false and every test below
    has the same outcome. *)
Inductive number : Set :=
| JNaN
| JInt (z : Z)
| JOther.

Definition isNaN (x : number) : bool :=
  match x with
  | JNaN => true
  | _ => false
  end.

(** [Number.isInteger(x)] *)
Definition isInteger (x : number) : bool :=
  match x with
  | JInt _ => true
  | _ => false
  end.

(** [x < 0 || !Number.isInteger(x)] *)
Definition negative_or_fraction (x : number) : bool :=
  match x with
  | JInt z => (z <? 0) || negb (isInteger x)
  | _ => true
  end.

(** [x <= 0 || !Number.isInteger(x)] *)
Definition not_positive_or_fraction (x : number) : bool :=
  match x with
  | JInt z => (z <=? 0) || negb (isInteger x)
  | _ => true
  end.

(** [x >= 0 && Number.isInteger(x)] *)
Definition nonnegative_integer (x : number) : bool :=
  match x with
  | JInt z => (0 <=? z) && isInteger x
  | _ => false
  end.

(** The integer a validated number holds. *)
Definition int_of (x : number) : Z :=
  match x with
  | JInt z => z
  | _ => 0
  end.

Record AppState : Set := mkApp {
  app_processes : list Process;
  app_error : string
}.

(** [Math.max(...l)], which the source calls on non-empty lists only. *)
Definition Math_max (l : list Z) : Z :=
  match l with
  | [] => 0
  | x :: rest => fold_left Z.max rest x
  end.

(** [prev.length > 0 ? Math.max(...prev.map(p => p.id)) + 1 : 1] *)
Definition new_id (prev : list Process) : Z :=
  if (0 <? length prev)%nat then Math_max (id <$> prev) + 1 else 1.

(** [colors[(newId - 1) % colors.length]]; [None] is [undefined], the value
    of an index that is negative, outside the array or [NaN]. *)
Definition color_at (colors : list string) (newId : Z) : option string :=
  match colors with
  | [] => None
  | _ =>
      let k := Z.rem (newId - 1) (Z.of_nat (length colors)) in
      if k <? 0 then None else colors !! Z.to_nat k
  end.

(** The object [handleAddProcess] appends.  [PROCESS_COLORS] comes from
    [src/constants], which is not part of the sources at hand: it is an
    argument.  An [undefined] colour is written as the empty string;
    [color_at_in_bounds] shows that the lookup is within the array. *)
Definition new_process (PROCESS_COLORS : list string) (newId : Z)
    (arrival burst : Z) (prio : option Z) : Process :=
  mkProcess newId ("P" +:+ pretty newId) arrival burst prio burst
            (default ""%string (color_at PROCESS_COLORS newId))
            0 0 0 NotArrived.

(** [handleAddProcess(arrivalTime, burstTime, priority)]: the new state
    and the boolean returned. *)
Definition handleAddProcess (PROCESS_COLORS : list string)
    (arrival burst : number) (prio : option number) (st : AppState)
    : AppState * bool :=
  if isNaN arrival || isNaN burst then
    (mkApp (app_processes st)
           "Arrival and Burst Time must be valid integers.", false)
  else if negative_or_fraction arrival then
    (mkApp (app_processes st)
           "Arrival Time must be a non-negative integer.", false)
  else if not_positive_or_fraction burst then
    (mkApp (app_processes st)
           "Burst Time must be a positive integer.", false)
  else if match prio with
          | Some v => isNaN v || negative_or_fraction v
          | None => false
          end then
    (mkApp (app_processes st)
           "Priority must be a valid non-negative integer if provided.",
     false)
  else
    let prev := app_processes st in
    (mkApp (prev ++ [new_process PROCESS_COLORS (new_id prev)
                                 (int_of arrival) (int_of burst)
                                 (int_of <$> prio)])
           "", true).

(** [handleRemoveProcess(idToRemove)] *)
Definition handleRemoveProcess (idToRemove : Z) (l : list Process)
    : list Process :=
  List.filter (fun p => negb (id p =? idToRemove)) l.

Definition set_priority (p : Process) (v : Z) : Process :=
  mkProcess (id p) (name p) (arrivalTime p) (burstTime p) (Some v)
            (remainingTime p) (color p) (completionTime p) (turnaroundTime p)
            (waitingTime p) (state p).

(** The list [handlePrioritySubmit(priorities)] computes and hands to
    [setProcesses] and to the simulation. *)
Definition handlePrioritySubmit (priorities : gmap Z number)
    (l : list Process) : list Process :=
  (fun p =>
     match priorities !! id p with
     | Some newPriority =>
         if nonnegative_integer newPriority
         then set_priority p (int_of newPriority)
         else p
     | None => p
     end) <$> l.

(** [processes.filter(p => p.priority === null)] of
    [checkPrioritiesAndRun]: the processes the modal asks about. *)
Definition processesWithoutPriority (l : list Process) : list Process :=
  List.filter (fun p => match priority p with None => true | _ => false end) l.

(** The lists the handlers can reach from the initial empty one:
    [handleAddProcess], [handleRemoveProcess], [handleReorderProcesses]
    (the list component hands over a reordering of the list it shows) and
    [handlePrioritySubmit]; [handleReset] goes back to the empty list. *)
Inductive reachable (PROCESS_COLORS : list string) : list Process -> Prop :=
| reach_initial : reachable PROCESS_COLORS []
| reach_add l arrival burst prio err :
    reachable PROCESS_COLORS l ->
    reachable PROCESS_COLORS
      (app_processes
         (handleAddProcess PROCESS_COLORS arrival burst prio (mkApp l err)).1)
| reach_remove l idToRemove :
    reachable PROCESS_COLORS l ->
    reachable PROCESS_COLORS (handleRemoveProcess idToRemove l)
| reach_reorder l reorderedProcesses :
    reachable PROCESS_COLORS l -> reorderedProcesses ≡ₚ l ->
    reachable PROCESS_COLORS reorderedProcesses
| reach_priorities l priorities :
    reachable PROCESS_COLORS l ->
    reachable PROCESS_COLORS (handlePrioritySubmit priorities l).

(** What [handleAddProcess] has given every process of the list. *)
Definition as_created (p : Process) : Prop :=
  1 <= id p
  /\ name p = ("P" +:+ pretty (id p))%string
  /\ completionTime p = 0 /\ turnaroundTime p = 0 /\ waitingTime p = 0.

(** What the handlers keep. *)
Definition list_inv (l : list Process) : Prop :=
  Forall valid_process l /\ NoDup (id <$> l) /\ Forall as_created l.

(** * The chart component (the [GanttChart] component that follows
      [src/App.tsx] in the sources, lines 552-698) *)

Record CombinedGanttSegment : Set := mkSegment {
  cs_processName : string;
  cs_color : string;
  cs_start : Z;
  cs_end : Z;
  cs_parts : list GanttEntry
}.

(** The loop of [combineGanttSegments]: [combined] and
    [currentCombinedSegment] are its two locals. *)
Fixpoint combine_loop (chartData : list GanttEntry)
    (combined : list CombinedGanttSegment)
    (currentCombinedSegment : option CombinedGanttSegment)
    : list CombinedGanttSegment :=
  match chartData with
  | [] =>
      match currentCombinedSegment with
      | Some c => combined ++ [c]
      | None => combined
      end
  | entry :: rest =>
      match currentCombinedSegment with
      | Some c =>
          if String.eqb (cs_processName c) (processName entry)
          then combine_loop rest combined
                 (Some (mkSegment (cs_processName c) (cs_color c) (cs_start c)
                                  (end_ entry) (cs_parts c ++ [entry])))
          else combine_loop rest (combined ++ [c])
                 (Some (mkSegment (processName entry) (gcolor entry)
                                  (start entry) (end_ entry) [entry]))
      | None =>
          combine_loop rest combined
            (Some (mkSegment (processName entry) (gcolor entry)
                             (start entry) (end_ entry) [entry]))
      end
  end.

(** [combineGanttSegments(chartData)] *)
Definition combineGanttSegments (chartData : list GanttEntry)
    : list CombinedGanttSegment :=
  match chartData with
  | [] => []
  | _ => combine_loop chartData [] None
  end.

(** A combined segment is a run of entries of one name: it has the name
    and the colour of its first part, starts where the first part starts
    and ends where the last part ends. *)
Definition run_of (c : CombinedGanttSegment) : Prop :=
  exists e rest,
    cs_parts c = e :: rest
    /\ cs_processName c = processName e
    /\ cs_color c = gcolor e
    /\ cs_start c = start e
    /\ cs_end c = end_ (List.last rest e)
    /\ Forall (fun x => processName x = processName e) rest.

(** Neighbours in the list have different names. *)
Fixpoint names_alternate (l : list CombinedGanttSegment) : Prop :=
  match l with
  | c1 :: (c2 :: _) as rest =>
      cs_processName c1 <> cs_processName c2 /\ names_alternate rest
  | _ => True
  end.

(** The interval a combined segment is drawn on. *)
Definition drawn (c : CombinedGanttSegment) : GanttEntry :=
  mkGanttEntry (cs_processName c) (cs_start c) (cs_end c) (cs_color c).

(** The time the parts of a segment have run. *)
Definition run_time (c : CombinedGanttSegment) : Z :=
  zsum (fun e => end_ e - start e) (cs_parts c).

(** * The live simulation ([runLiveSimulation] of [src/App.tsx]) *)

Record LiveSimulationState : Set := mkLive {
  ls_algorithmName : string;
  ls_time : Z;
  ls_runningProcessName : option string;
  ls_readyQueue : list Process;
  ls_ganttChart : list GanttEntry;
  ls_processes : list Process;
  ls_eventLog : list string
}.

(** The state [runLiveSimulation] starts from:
    [JSON.parse(JSON.stringify(procs)).map(p => ({...p, state: 'not
    arrived'}))] and empty fields. *)
Definition initialSimState (algorithmName : string) (procs : list Process)
    : LiveSimulationState :=
  mkLive algorithmName 0 None [] []
         ((fun p => set_state p NotArrived) <$> cloneProcesses procs) [].

(** What [step] does to the chart with the value the generator yields:
    the last entry is extended when it has the name of the running process
    and ends at the time of the event, a new entry is pushed otherwise. *)
Definition live_chart (ganttChart : list GanttEntry) (value : TickEvent)
    : list GanttEntry :=
  match runningProcess value with
  | Some running =>
      match last ganttChart with
      | Some lastEntry =>
          if String.eqb (processName lastEntry) (name running)
             && (end_ lastEntry =? time value)
          then <[(length ganttChart - 1)%nat :=
                   set_end lastEntry (time value + 1)]> ganttChart
          else ganttChart
               ++ [mkGanttEntry (name running) (time value) (time value + 1)
                                (color running)]
      | None =>
          ganttChart
          ++ [mkGanttEntry (name running) (time value) (time value + 1)
                           (color running)]
      end
  | None => ganttChart
  end.

(** The function [step] hands to [setSimulationState] for the value
    [value] of the generator. *)
Definition live_step (prevState : LiveSimulationState) (value : TickEvent)
    : LiveSimulationState :=
  mkLive (ls_algorithmName prevState)
         (time value + 1)
         (name <$> runningProcess value)
         (readyQueue value)
         (live_chart (ls_ganttChart prevState) value)
         (ev_processes value)
         (if is_empty (eventMessage value) then ls_eventLog prevState
          else ls_eventLog prevState
               ++ ["[Time " +:+ pretty (time value) +:+ "]: "
                   +:+ eventMessage value]).

(** The state after the values [evs] of a generator. *)
Definition live_run (algorithmName : string) (procs : list Process)
    (evs : list TickEvent) : LiveSimulationState :=
  fold_left live_step evs (initialSimState algorithmName procs).

(** Who runs at every event, as a timeline. *)
Definition timeline_of (evs : list TickEvent) : Timeline :=
  (fun e => info_of <$> runningProcess e) <$> evs.

(** The events come one per tick, from the tick [t0] on. *)
Definition one_per_tick (t0 : Z) (evs : list TickEvent) : Prop :=
  forall (i : nat) ev, evs !! i = Some ev -> time ev = t0 + Z.of_nat i.

(** * Vocabulary of the comparison of the two engines *)

(** A process without its [state], the field the batch engines do not
    use. *)
Definition erase (p : Process) : Process := set_state p NotArrived.

(** Two Round Robin states that agree on everything but the [state] of
    the processes and the timeline. *)
Definition same_schedule (a b : RRState) : Prop :=
  erase <$> rr_procs a = erase <$> rr_procs b
  /\ rr_queue a = rr_queue b
  /\ rr_time a = rr_time b
  /\ rr_completed a = rr_completed b
  /\ rr_running a = rr_running b
  /\ rr_quantum a = rr_quantum b.

(** What [mark] may do in this comparison: it changes the state only. *)
Definition only_state (mark : Process -> Process) : Prop :=
  forall p, erase (mark p) = erase p.

(** The process that runs in a Round Robin state. *)
Definition rr_runner (s : RRState) : option Process :=
  rr_running s ≫= fun i => rr_procs s !! i.

(** The references of a Round Robin state point into [localProcesses]. *)
Definition indices_ok (s : RRState) : Prop :=
  Forall (fun i => (i < length (rr_procs s))%nat) (rr_queue s)
  /\ (forall i, rr_running s = Some i -> (i < length (rr_procs s))%nat).

(** A process without its progress: the [state] and the [remainingTime],
    which the non-preemptive batch engines leave as they are. *)
Definition forget_progress (p : Process) : Process :=
  set_remainingTime (erase p) (burstTime p).

(** A state of the batch loop and a state of the generator loop of a
    non-preemptive policy that agree: the same processes up to their
    progress, the same clock, the same count, and the ids in
    [completedProcessIds] are those of the processes in state
    ['completed']. *)
Definition np_same (a : BState) (b : SimState) : Prop :=
  forget_progress <$> bs_procs a = forget_progress <$> sim_procs b
  /\ bs_time a = sim_time b
  /\ bs_completed a = sim_completed b
  /\ (forall (i : nat) pa pb,
        bs_procs a !! i = Some pa -> sim_procs b !! i = Some pb ->
        mem_id (id pa) (bs_done a) = is_completed pb)
  /\ NoDup (id <$> bs_procs a)
  /\ Forall (fun p => 0 < burstTime p) (bs_procs a).

(** A selection key that does not look at the progress of a process. *)
Definition static_key (key : Process -> num) : Prop :=
  forall p, key (forget_progress p) = key p.

(** * Vocabulary of the schedules *)

(** The latest completion time of a list of processes (0 for the empty
    list). *)
Definition max_completion (l : list Process) : Z :=
  foldr (fun p acc => Z.max (completionTime p) acc) 0 l.

(** What the timeline tells about a run on the input [l] that has reached
    the tick [t] with the working copy [procs], of which the processes at
    the indices in [committed] have their metrics:
    - the timeline has one entry per tick;
    - a tick that is not idle carries the name of a process of the input
      that has arrived by then;
    - the committed processes have completed [lag] ticks before [t] or
      earlier;
    - at an idle tick, every process that has arrived is committed and
      has completed by then. *)
Definition trace_inv (l procs : list Process) (committed : nat -> Prop)
    (timeline : Timeline) (t lag : Z) : Prop :=
  Z.of_nat (length timeline) = t
  /\ (forall (j : nat) info, timeline !! j = Some (Some info) ->
        exists p, p ∈ l /\ name p = ti_processName info
                  /\ arrivalTime p <= Z.of_nat j)
  /\ (forall (i : nat) p, procs !! i = Some p -> committed i ->
        completionTime p + lag <= t)
  /\ (forall j : nat, timeline !! j = Some None ->
        forall (i : nat) p, procs !! i = Some p ->
          arrivalTime p <= Z.of_nat j ->
          committed i /\ completionTime p <= Z.of_nat j).

(** The committed processes of the loops: the ids in
    [completedProcessIds] (SJF and non-preemptive Priority), no remaining
    time (SRTF and preemptive Priority), no remaining time and off the CPU
    (Round Robin). *)
Definition np_committed (s : BState) (i : nat) : Prop :=
  exists p, bs_procs s !! i = Some p /\ mem_id (id p) (bs_done s) = true.

Definition pre_committed (s : BState) (i : nat) : Prop :=
  exists p, bs_procs s !! i = Some p /\ remainingTime p = 0.

Definition rr_committed (s : RRState) (i : nat) : Prop :=
  exists p, rr_procs s !! i = Some p /\ remainingTime p = 0
            /\ rr_running s <> Some i.

(** The engine has just completed its last process: some process has
    completed [lag] ticks before [t]. *)
Definition just_completed (procs : list Process) (t lag : Z) : Prop :=
  exists p, p ∈ procs /\ completionTime p + lag = t.

(** What is shown of the chart of a result: nothing runs before it
    arrives, the chart lies within the total time, and the CPU idles only
    when nothing waits. *)
Definition chart_ok (l : list Process) (r : AlgorithmResult) : Prop :=
  (forall e, e ∈ ganttChart r ->
     exists p, p ∈ l /\ name p = processName e
               /\ arrivalTime p <= start e)
  /\ (forall e, e ∈ ganttChart r -> 0 <= start e /\ end_ e <= totalTime r)
  /\ (forall j, 0 <= j < totalTime r -> shown_at (ganttChart r) j = None ->
        forall p, p ∈ processes r -> arrivalTime p <= j ->
          completionTime p <= j).

(** The same with the time the schedule takes: [lag] ticks after the last
    completion. *)
Definition schedule_ok (l : list Process) (r : AlgorithmResult) (lag : Z)
    : Prop :=
  (l <> [] -> totalTime r = max_completion (processes r) + lag)
  /\ chart_ok l r.

(** [runRoundRobin] of the first revision runs one more iteration to
    retire the last process; the other engines commit a process in the
    iteration of its last tick. *)
Definition retire_lag (pol : Policy) : Z :=
  match pol with
  | RoundRobin => 1
  | _ => 0
  end.

(** The order of [localProcesses] in the FCFS engines: by arrival time,
    then by id. *)
Definition by_arrival_id (a b : Process) : Prop :=
  arrivalTime a < arrivalTime b
  \/ (arrivalTime a = arrivalTime b /\ id a <= id b).

(** ** The states an event shows

    The state the display should give a process in an event: what the
    running process of the event, the remaining time and the arrival time
    of the process tell. *)
Definition true_state (ev : TickEvent) (p : Process) : ProcessState :=
  if match runningProcess ev with
     | Some r => same_id p r
     | None => false
     end
  then Running
  else if remainingTime p =? 0 then Completed
  else if arrivalTime p <=? time ev then Waiting
  else NotArrived.

(** The [state] of the processes of [localProcesses] in the loop of
    [simulateRoundRobin]: ['completed'] once retired, and as in the input
    before. *)
Definition states_marked (s : RRState) : Prop :=
  forall (i : nat) p, rr_procs s !! i = Some p ->
    (state p = Completed /\ remainingTime p = 0 /\ rr_running s <> Some i)
    \/ (state p = NotArrived
        /\ ~ (remainingTime p = 0 /\ rr_running s <> Some i)).

(** An event shows every process in its true state, and as waiting
    exactly the processes of its ready queue. *)
Definition event_ok (ev : TickEvent) : Prop :=
  forall p, p ∈ ev_processes ev ->
    state p = true_state ev p
    /\ (state p = Waiting <-> id p ∈ (id <$> readyQueue ev)).

(** The same for the generators that mark a process as completed in the
    tick of its last step: a process without remaining time is completed,
    also when it is the running process of the event. *)
Definition settled_state (ev : TickEvent) (p : Process) : ProcessState :=
  if remainingTime p =? 0 then Completed
  else if match runningProcess ev with
          | Some r => same_id p r
          | None => false
          end
  then Running
  else if arrivalTime p <=? time ev then Waiting
  else NotArrived.

(** The [state] of the processes of [localProcesses] in the loops of
    [simulateSRTF] and [simulatePriorityPreemptive]. *)
Definition states_settled (l : list Process) : Prop :=
  forall (i : nat) p, l !! i = Some p ->
    (state p = Completed /\ remainingTime p = 0)
    \/ (state p = NotArrived /\ 0 < remainingTime p).

Definition event_settled (ev : TickEvent) : Prop :=
  forall p, p ∈ ev_processes ev ->
    state p = settled_state ev p
    /\ (state p = Waiting <-> id p ∈ (id <$> readyQueue ev)).

(** The [state] of the processes of [localProcesses] in the loops of
    [simulateSJF] and [simulatePriorityNonPreemptive], between two runs. *)
Definition states_fresh (l : list Process) : Prop :=
  forall (i : nat) p, l !! i = Some p ->
    (state p = Completed /\ remainingTime p = 0)
    \/ (state p = NotArrived /\ remainingTime p = burstTime p
        /\ 0 < burstTime p).

(** An event of a non-preemptive generator: a tick of a run, or an event
    with an empty ready queue (the CPU is idle, a process has completed,
    all processes have completed). *)
Definition event_np (ev : TickEvent) : Prop :=
  event_ok ev
  \/ (readyQueue ev = []
      /\ forall p, p ∈ ev_processes ev -> state p = settled_state ev p).

(** What an event of [simulateFCFS] shows: while a process runs or
    completes, every other unfinished process is waiting, whether or not
    it has arrived (the ready queue passed to [updateProcessStates] is the
    rest of the sorted list). *)
Definition fcfs_state (ev : TickEvent) (p : Process) : ProcessState :=
  match runningProcess ev with
  | Some r =>
      if same_id p r then (if is_completed r then Completed else Running)
      else if remainingTime p =? 0 then Completed
      else Waiting
  | None => settled_state ev p
  end.

Definition event_fcfs (ev : TickEvent) : Prop :=
  (forall p, p ∈ ev_processes ev -> state p = fcfs_state ev p)
  /\ (forall r, runningProcess ev = Some r -> is_completed r = false ->
        forall p, p ∈ ev_processes ev ->
          (state p = Waiting <-> id p ∈ (id <$> readyQueue ev))).

(** The processes of [localProcesses] in the loop of [simulateFCFS]:
    completed, or untouched and in the queue. *)
Definition fcfs_marked (l : list Process) (queue : list nat) : Prop :=
  forall (j : nat) x, l !! j = Some x ->
    (state x = Completed /\ remainingTime x = 0 /\ j ∉ queue)
    \/ (state x = NotArrived /\ remainingTime x = burstTime x
        /\ 0 < burstTime x /\ j ∈ queue).

(** The number of processes named [nm]. *)
Definition named (nm : string) (l : list Process) : Z :=
  zsum (fun p => if String.eqb (name p) nm then 1 else 0) l.

(** The events a non-preemptive generator has yielded with a running
    process named [nm], told from [localProcesses]: for every completed
    process its ticks and its completion event. *)
Definition tally (nm : string) (l : list Process) : Z :=
  zsum (fun p => if String.eqb (name p) nm && is_completed p
                 then burstTime p + 1 else 0) l.

(** * Vocabulary of the selection policies *)

(** The order of the selections: the smaller key goes first, and on equal
    keys the earlier arrival. *)
Definition precedes (key : Process -> num) (p q : Process) : Prop :=
  num_ltb (key q) (key p) = false
  /\ (num_ltb (key p) (key q) = false -> arrivalTime p <= arrivalTime q).

(** The time a process that ran in one piece was started. *)
Definition start_of (p : Process) : Z := completionTime p - burstTime p.

(** What the loop of [runSJF] and [runPriorityNonPreemptive] keeps: a
    process that has run completed in the past, and every other process
    that had arrived when it was started had completed by then or comes
    after it in the order of the selection. *)
Definition policy_kept (key : Process -> num) (procs : list Process)
    (done : list Z) (t : Z) : Prop :=
  forall (i j : nat) p q,
    procs !! i = Some p -> procs !! j = Some q -> i <> j ->
    mem_id (id p) done = true ->
    completionTime p <= t
    /\ (arrivalTime q <= start_of p ->
        (mem_id (id q) done = true /\ completionTime q <= start_of p)
        \/ precedes key p q).

(** The processes of [l] are served one after the other from the time
    [t]: each one starts when its predecessor has completed, or when it
    arrives if that is later. *)
Fixpoint served_from (t : Z) (l : list Process) : Prop :=
  match l with
  | [] => True
  | p :: l' =>
      start_of p = Z.max t (arrivalTime p)
      /\ served_from (completionTime p) l'
  end.

(** The running process of an event of a preemptive generator goes first
    among the processes of the ready queue.  The event holds the running
    process after its tick; it was selected with one more tick of
    remaining time. *)
Definition event_policy (key : Process -> num) (ev : TickEvent) : Prop :=
  match runningProcess ev with
  | Some r =>
      forall x, x ∈ readyQueue ev ->
        precedes key (set_remainingTime r (remainingTime r + 1)) x
  | None => readyQueue ev = []
  end.

(** * Properties *)

Lemma valid_proc i nm a b : 0 <= a -> 0 < b -> valid_process (proc i nm a b).
Proof. intros; constructor; simpl; auto; discriminate. Qed.

(** ** The examples of the specification *)

(** C1: on two processes that tie on remaining time and arrival time the
    batch engine of SRTF and its generator give different completion times:
    [runSRTF] keeps the first process of a tie, the reducer of
    [simulateSRTF] the last one. *)
Theorem C1_srtf_batch_and_stepwise_disagree :
  let input := [proc 1 "P1" 0 2; proc 2 "P2" 0 2] in
  (metrics ∘ processes <$> run_batch SRTF 1 4 input)
    = Some [("P1", 2, 2, 0); ("P2", 4, 4, 2)]
  /\ (metrics ∘ final_processes <$> run_stepwise SRTF 1 4 input)
    = Some [("P1", 4, 4, 2); ("P2", 2, 2, 0)].
Proof. split; reflexivity. Qed.

(** C4: in the second revision the arrival of tick 2 is enqueued before
    the process whose quantum expires at tick 2, so tick 2 goes to the new
    process [P2]; the first revision re-enqueues [P1] first and gives it
    tick 2.  The generator of the second revision has the order of its
    batch engine, and enqueues simultaneous arrivals in list order, not by
    id. *)
Theorem C4_second_revision_enqueues_arrival_first :
  let input := [proc 1 "P1" 0 5; proc 2 "P2" 2 3] in
  rr_timeline (Nat.iter 3 (V2.rr_body 2) (V1.rr_init input)) !! 2%nat
    = Some (Some (mkInfo "P2" ""))
  /\ rr_timeline (Nat.iter 3 (V1.rr_body 2) (V1.rr_init input)) !! 2%nat
    = Some (Some (mkInfo "P1" ""))
  /\ rr_queue (V2.rr_retire 2 (V2.rr_enqueue
                 (Nat.iter 2 (V2.rr_body 2) (V1.rr_init input))))
    = [1%nat; 0%nat]
  /\ rr_queue (V1.rr_enqueue (V1.rr_retire 2
                 (Nat.iter 2 (V1.rr_body 2) (V1.rr_init input))))
    = [0%nat; 1%nat]
  /\ (segments ∘ ganttChart ∘ fst <$> V2.runRoundRobin input 2)
     = Some [("P1", 0, 2); ("P2", 2, 4); ("P1", 4, 6); ("P2", 6, 7);
             ("P1", 7, 8)]
  /\ (segments ∘ ganttChart ∘ fst <$> V1.runRoundRobin input 2)
     = Some [("P1", 0, 4); ("P2", 4, 6); ("P1", 6, 7); ("P2", 7, 8)]
  /\ (take 3 ∘ runners <$> V2.simulateRoundRobin 9 input 2)
     = Some [(0, Some "P1"); (1, Some "P1"); (2, Some "P2")]
  /\ (take 3 ∘ runners <$> V1.simulateRoundRobin 9 input 2)
     = Some [(0, Some "P1"); (1, Some "P1"); (2, Some "P1")]
  /\ (take 2 ∘ runners
        <$> V2.simulateRoundRobin 3 [proc 2 "P2" 0 1; proc 1 "P1" 0 1] 2)
     = Some [(0, Some "P2"); (1, Some "P1")]
  /\ (take 2 ∘ runners
        <$> V1.simulateRoundRobin 3 [proc 2 "P2" 0 1; proc 1 "P1" 0 1] 2)
     = Some [(0, Some "P1"); (1, Some "P2")].
Proof. repeat split; vm_compute; reflexivity. Qed.

(** C5: the example of the specification.  Both revisions return the
    segments of the specification except the last one, which is
    [P1:[7,8)]: the two bursts add up to 8 ticks and the CPU is never idle,
    so [P1] completes at 8. *)
Theorem C5_round_robin_example :
  let input := [proc 1 "P1" 0 5; proc 2 "P2" 1 3] in
  let expected :=
    ([("P1", 0, 2); ("P2", 2, 4); ("P1", 4, 6); ("P2", 6, 7); ("P1", 7, 8)],
     [("P1", 8); ("P2", 7)]) in
  ((fun r => (segments (ganttChart r.1), completions (processes r.1)))
     <$> V1.runRoundRobin input 2) = Some expected
  /\ ((fun r => (segments (ganttChart r.1), completions (processes r.1)))
        <$> V2.runRoundRobin input 2) = Some expected.
Proof. split; vm_compute; reflexivity. Qed.

(** C5 as the specification states it (last segment [P1:[7,9)], [P1]
    completing at 9) does not hold. *)
Lemma C5_spec_segments_refuted :
  ~ ((fun r => (segments (ganttChart r.1), completions (processes r.1)))
       <$> V1.runRoundRobin [proc 1 "P1" 0 5; proc 2 "P2" 1 3] 2)
    = Some ([("P1", 0, 2); ("P2", 2, 4); ("P1", 4, 6); ("P2", 6, 7);
             ("P1", 7, 9)],
            [("P1", 9); ("P2", 7)]).
Proof. vm_compute. discriminate. Qed.

(** C7: on a tie of burst time and arrival time the SJF selections do not
    look at the id.  The reducer of the first revision (batch and stepwise)
    keeps the last process of the tie in list order, here [P2] although
    [P1] has the smaller id; the scan of the second revision keeps the
    first one; either result changes with the order of the input list. *)
Theorem C7_sjf_tie_follows_list_order :
  let p1 := proc 1 "P1" 0 2 in
  let p2 := proc 2 "P2" 0 2 in
  (segments ∘ ganttChart <$> V1.runSJF 2 [p1; p2])
    = Some [("P2", 0, 2); ("P1", 2, 4)]
  /\ (segments ∘ ganttChart <$> V1.runSJF 2 [p2; p1])
    = Some [("P1", 0, 2); ("P2", 2, 4)]
  /\ (completions ∘ final_processes <$> V1.simulateSJF 2 [p1; p2])
    = Some [("P1", 4); ("P2", 2)]
  /\ (segments ∘ ganttChart <$> V2.runSJF 2 [p1; p2])
    = Some [("P1", 0, 2); ("P2", 2, 4)]
  /\ (segments ∘ ganttChart <$> V2.runSJF 2 [p2; p1])
    = Some [("P2", 0, 2); ("P1", 2, 4)].
Proof. repeat split; vm_compute; reflexivity. Qed.

(** C8: [runRoundRobin] of the first revision needs one more iteration
    after the last tick of execution to retire the last process, and
    returns the tick counter after it: [totalTime] is the last completion
    time plus one.  The second revision returns [currentTime - 1]. *)
Theorem C8_round_robin_total_time_off_by_one :
  let input := [proc 1 "P1" 0 1] in
  ((fun r => (completions (processes r.1), totalTime r.1))
     <$> V1.runRoundRobin input 1) = Some ([("P1", 1)], 2)
  /\ ((fun r => (completions (processes r.1), totalTime r.1))
        <$> V2.runRoundRobin input 1) = Some ([("P1", 1)], 1).
Proof. split; vm_compute; reflexivity. Qed.

(** ** The timeline builder *)

Section Builder.

(** The entry that is still open, as a list. *)
Let flush (cur : option GanttEntry) : list GanttEntry :=
  match cur with
  | Some e => [e]
  | None => []
  end.

Let fresh (info : TimelineInfo) (i : Z) : GanttEntry :=
  mkGanttEntry (ti_processName info) i (i + 1) (ti_color info).

Lemma loop_v2_v1 tl : forall i chart cur,
  V2.buildGanttChart_loop tl i chart cur
  = V1.buildGanttChart_loop tl i chart cur.
Proof.
  induction tl as [|[info|] tl IH]; intros i chart cur; simpl; auto.
  - destruct cur as [e|]; simpl; auto.
    destruct (String.eqb (processName e) (ti_processName info)); simpl; auto.
  - destruct cur; auto.
Qed.

Lemma buildGanttChart_v2_v1 tl :
  V2.buildGanttChart tl = V1.buildGanttChart tl.
Proof.
  destruct tl as [|x tl]; [reflexivity|].
  exact (loop_v2_v1 (x :: tl) 0 [] None).
Qed.

(** The entries already pushed are a prefix of the result. *)
Lemma loop_acc tl : forall i chart cur,
  V1.buildGanttChart_loop tl i chart cur
  = chart ++ V1.buildGanttChart_loop tl i [] cur.
Proof.
  induction tl as [|[info|] tl IH]; intros i chart cur; simpl.
  - destruct cur; simpl; auto using app_nil_r.
  - destruct cur as [e|]; auto.
    destruct (String.eqb (processName e) (ti_processName info)); auto.
    rewrite (IH _ (chart ++ [e])), (IH _ [e]), <- app_assoc. reflexivity.
  - destruct cur as [e|]; auto.
    rewrite (IH _ (chart ++ [e])), (IH _ [e]), <- app_assoc. reflexivity.
Qed.

Let go tl i cur := V1.buildGanttChart_loop tl i [] cur.

Lemma go_nil i cur : go [] i cur = flush cur.
Proof. destruct cur; reflexivity. Qed.

Lemma go_idle tl i cur : go (None :: tl) i cur = flush cur ++ go tl (i + 1) None.
Proof.
  unfold go; simpl. destruct cur as [e|]; auto.
  rewrite loop_acc. reflexivity.
Qed.

Lemma go_same info tl i e :
  processName e = ti_processName info ->
  go (Some info :: tl) i (Some e) = go tl (i + 1) (Some (set_end e (i + 1))).
Proof.
  intros H. unfold go; simpl. rewrite H, String.eqb_refl. reflexivity.
Qed.

Lemma go_other info tl i e :
  processName e <> ti_processName info ->
  go (Some info :: tl) i (Some e) = e :: go tl (i + 1) (Some (fresh info i)).
Proof.
  intros H. unfold go; simpl.
  destruct (String.eqb_spec (processName e) (ti_processName info)); [easy|].
  rewrite loop_acc. reflexivity.
Qed.

Lemma go_start info tl i :
  go (Some info :: tl) i None = go tl (i + 1) (Some (fresh info i)).
Proof. reflexivity. Qed.

(** The open entry ends at the current tick. *)
Let open_ok (i : Z) (cur : option GanttEntry) : Prop :=
  match cur with
  | Some e => start e < end_ e /\ end_ e = i
  | None => True
  end.

Let low (i : Z) (cur : option GanttEntry) : Z :=
  match cur with
  | Some e => start e
  | None => i
  end.

(** The result starts with the open entry, possibly extended. *)
Let head_ok (cur : option GanttEntry) (R : list GanttEntry) : Prop :=
  match cur with
  | Some e =>
      exists e' R', R = e' :: R' /\ start e' = start e
                    /\ processName e' = processName e
                    /\ gcolor e' = gcolor e /\ end_ e <= end_ e'
  | None => True
  end.

Lemma ordered_from_weaken lo lo' chart :
  lo' <= lo -> ordered_from lo chart -> ordered_from lo' chart.
Proof. destruct chart; simpl; intuition lia. Qed.

Lemma go_shape tl : forall i cur,
  open_ok i cur ->
  head_ok cur (go tl i cur)
  /\ ordered_from (low i cur) (go tl i cur)
  /\ maximal (go tl i cur).
Proof.
  induction tl as [|[info|] tl IH]; intros i cur Hc.
  - rewrite go_nil. destruct cur as [e|]; simpl in *; [|tauto].
    repeat split; try lia. exists e, []. repeat split; lia.
  - destruct cur as [e|].
    + destruct (decide (processName e = ti_processName info)) as [E|E].
      * rewrite go_same by exact E.
        destruct (IH (i + 1) (Some (set_end e (i + 1)))) as (Hh & Ho & Hm).
        { simpl in *. lia. }
        repeat split; auto.
        destruct Hh as (e' & R' & -> & ? & ? & ? & ?).
        exists e', R'. simpl in *. repeat split; auto; lia.
      * rewrite go_other by exact E.
        destruct (IH (i + 1) (Some (fresh info i))) as (Hh & Ho & Hm).
        { simpl. lia. }
        destruct Hh as (e' & R' & HR & Hs & Hn & _ & _).
        rewrite HR in *. simpl in *.
        repeat split; try lia.
        -- exists e, (e' :: R'). repeat split; lia.
        -- destruct Ho as (? & ? & ?). repeat split; auto; lia.
        -- intros _. congruence.
        -- exact Hm.
    + rewrite go_start.
      destruct (IH (i + 1) (Some (fresh info i))) as (Hh & Ho & Hm).
      { simpl. lia. }
      repeat split; auto.
  - rewrite go_idle.
    destruct (IH (i + 1) None I) as (_ & Ho & Hm).
    destruct cur as [e|]; simpl in *.
    + repeat split; try lia.
      * exists e, (go tl (i + 1) None). repeat split; lia.
      * eapply ordered_from_weaken; [|exact Ho]. lia.
      * destruct (go tl (i + 1) None) as [|e2 R2]; [exact I|].
        simpl in Ho. split; [intros; lia| exact Hm].
    + repeat split; auto.
      eapply ordered_from_weaken; [|exact Ho]. lia.
Qed.

Lemma name_at_nil k : name_at [] k = None.
Proof. unfold name_at. destruct (k <? 0); reflexivity. Qed.

Lemma name_at_here x tl : name_at (x :: tl) 0 = ti_processName <$> x.
Proof. reflexivity. Qed.

Lemma name_at_later x tl k : 0 < k -> name_at (x :: tl) k = name_at tl (k - 1).
Proof.
  intros Hk. unfold name_at.
  destruct (Z.ltb_spec k 0), (Z.ltb_spec (k - 1) 0); try lia.
  replace (Z.to_nat k) with (S (Z.to_nat (k - 1))) by lia. reflexivity.
Qed.

Lemma name_at_negative tl k : k < 0 -> name_at tl k = None.
Proof. intros H. unfold name_at. destruct (Z.ltb_spec k 0); [easy|lia]. Qed.

(** What the result of the loop shows at tick [j]: the open entry
    before the current tick [i], the rest of the timeline from [i] on. *)
Let expect (i : Z) (cur : option GanttEntry) (tl : Timeline) (j : Z)
    : option string :=
  if j <? i then
    match cur with
    | Some e => if start e <=? j then Some (processName e) else None
    | None => None
    end
  else name_at tl (j - i).

Lemma shown_at_cons e R j :
  shown_at (e :: R) j
  = if (start e <=? j) && (j <? end_ e) then Some (processName e)
    else shown_at R j.
Proof.
  unfold shown_at; simpl.
  destruct ((start e <=? j) && (j <? end_ e)); reflexivity.
Qed.

Lemma go_shown tl : forall i cur j,
  open_ok i cur -> shown_at (go tl i cur) j = expect i cur tl j.
Proof.
  induction tl as [|[info|] tl IH]; intros i cur j Hc.
  - rewrite go_nil. unfold expect. rewrite name_at_nil.
    destruct cur as [e|]; simpl in *.
    + rewrite shown_at_cons. destruct Hc as [? <-].
      destruct (Z.leb_spec (start e) j), (Z.ltb_spec j (end_ e)); reflexivity.
    + destruct (j <? i); reflexivity.
  - destruct cur as [e|].
    + destruct (decide (processName e = ti_processName info)) as [E|E].
      * rewrite go_same by exact E. rewrite IH by (simpl in *; lia).
        unfold expect; simpl in *.
        destruct (Z.ltb_spec j (i + 1)), (Z.ltb_spec j i); try lia.
        -- reflexivity.
        -- assert (j = i) as -> by lia.
           replace (i - i) with 0 by lia. rewrite name_at_here. simpl.
           destruct (Z.leb_spec (start e) i); [congruence|lia].
        -- rewrite (name_at_later _ _ (j - i)) by lia.
           f_equal. lia.
      * rewrite go_other by exact E. rewrite shown_at_cons.
        rewrite IH by (simpl; lia).
        unfold expect; simpl in *. destruct Hc as [Hlt <-].
        destruct (Z.leb_spec (start e) j), (Z.ltb_spec j (end_ e)),
          (Z.ltb_spec j (end_ e + 1)), (Z.leb_spec (end_ e) j);
          simpl; try lia; try reflexivity.
        -- assert (j = end_ e) as -> by lia.
           replace (end_ e - end_ e) with 0 by lia. reflexivity.
        -- rewrite (name_at_later _ _ (j - end_ e)) by lia.
           f_equal. lia.
    + rewrite go_start. rewrite IH by (simpl; lia).
      unfold expect; simpl.
      destruct (Z.ltb_spec j (i + 1)), (Z.ltb_spec j i), (Z.leb_spec i j);
        try lia; try reflexivity.
      * assert (j = i) as -> by lia.
        replace (i - i) with 0 by lia. reflexivity.
      * rewrite (name_at_later _ _ (j - i)) by lia. f_equal. lia.
  - rewrite go_idle. destruct cur as [e|]; simpl.
    + rewrite shown_at_cons, (IH (i + 1) None j I).
      unfold expect; simpl in *. destruct Hc as [Hlt <-].
      destruct (Z.leb_spec (start e) j), (Z.ltb_spec j (end_ e)),
        (Z.ltb_spec j (end_ e + 1)); simpl; try lia; try reflexivity.
      * assert (j = end_ e) as -> by lia.
        replace (end_ e - end_ e) with 0 by lia. reflexivity.
      * rewrite (name_at_later _ _ (j - end_ e)) by lia. f_equal. lia.
    + rewrite (IH (i + 1) None j I). unfold expect.
      destruct (Z.ltb_spec j (i + 1)), (Z.ltb_spec j i);
        try lia; try reflexivity.
      * assert (j = i) as -> by lia.
        replace (i - i) with 0 by lia. reflexivity.
      * rewrite (name_at_later _ _ (j - i)) by lia. f_equal. lia.
Qed.

Lemma duration_of_app nm a b :
  duration_of nm (a ++ b) = duration_of nm a + duration_of nm b.
Proof.
  induction a as [|e a IH]; simpl; [reflexivity|].
  destruct (String.eqb (processName e) nm); lia.
Qed.

Lemma go_duration nm tl : forall i cur,
  open_ok i cur ->
  duration_of nm (go tl i cur)
  = duration_of nm (flush cur) + ticks_of nm tl.
Proof.
  induction tl as [|[info|] tl IH]; intros i cur Hc.
  - rewrite go_nil. simpl. lia.
  - destruct cur as [e|].
    + destruct (decide (processName e = ti_processName info)) as [E|E].
      * rewrite go_same by exact E. rewrite IH by (simpl in *; lia).
        simpl in *. rewrite <- E.
        destruct (String.eqb (processName e) nm); lia.
      * rewrite go_other by exact E. simpl.
        rewrite IH by (simpl; lia). simpl.
        destruct (String.eqb (processName e) nm),
          (String.eqb (ti_processName info) nm); lia.
    + rewrite go_start, IH by (simpl; lia). simpl.
      destruct (String.eqb (ti_processName info) nm); lia.
  - rewrite go_idle, duration_of_app, (IH (i + 1) None I). simpl. lia.
Qed.

Lemma buildGanttChart_go tl : V1.buildGanttChart tl = go tl 0 None.
Proof. destruct tl; reflexivity. Qed.

Lemma buildGanttChart_ordered tl : ordered_from 0 (V1.buildGanttChart tl).
Proof. rewrite buildGanttChart_go. apply (go_shape tl 0 None I). Qed.

Lemma buildGanttChart_maximal tl : maximal (V1.buildGanttChart tl).
Proof. rewrite buildGanttChart_go. apply (go_shape tl 0 None I). Qed.

Lemma buildGanttChart_shown tl j :
  shown_at (V1.buildGanttChart tl) j = name_at tl j.
Proof.
  rewrite buildGanttChart_go, go_shown by exact I. unfold expect.
  destruct (Z.ltb_spec j 0).
  - symmetry. apply name_at_negative. lia.
  - f_equal. lia.
Qed.

Lemma buildGanttChart_duration nm tl :
  duration_of nm (V1.buildGanttChart tl) = ticks_of nm tl.
Proof. rewrite buildGanttChart_go, go_duration by exact I. reflexivity. Qed.

End Builder.

Lemma ordered_from_lookup chart : forall lo (b : nat) e,
  ordered_from lo chart -> chart !! b = Some e ->
  lo <= start e /\ start e < end_ e.
Proof.
  induction chart as [|x chart IH]; intros lo b e Ho Hb; [easy|].
  destruct Ho as (H1 & H2 & H3). destruct b as [|b]; simpl in Hb.
  - injection Hb as <-. lia.
  - destruct (IH _ _ _ H3 Hb). lia.
Qed.

Lemma ordered_no_overlap chart : forall lo,
  ordered_from lo chart -> no_overlap chart.
Proof.
  induction chart as [|x chart IH]; intros lo Ho a b ea eb Hab Ha Hb; [easy|].
  destruct Ho as (H1 & H2 & H3).
  destruct b as [|b]; [lia|]. simpl in Hb.
  destruct a as [|a]; simpl in Ha.
  - injection Ha as <-. destruct (ordered_from_lookup _ _ _ _ H3 Hb). lia.
  - apply (IH _ H3 a b); auto. lia.
Qed.

(** In an ordered chart the entry that holds a tick is the one shown. *)
Lemma shown_at_entry chart : forall lo e j,
  ordered_from lo chart -> e ∈ chart -> start e <= j < end_ e ->
  shown_at chart j = Some (processName e).
Proof.
  induction chart as [|x chart IH]; intros lo e j Ho He Hj.
  - inversion He.
  - destruct Ho as (H1 & H2 & H3). unfold shown_at. simpl.
    destruct (Z.leb_spec (start x) j), (Z.ltb_spec j (end_ x)); simpl.
    + apply elem_of_cons in He as [->|He]; [reflexivity|].
      apply list_elem_of_lookup in He as [b Hb].
      destruct (ordered_from_lookup _ _ _ _ H3 Hb). lia.
    + apply elem_of_cons in He as [->|He]; [lia|]. eapply IH; eauto.
    + apply elem_of_cons in He as [->|He]; [lia|]. eapply IH; eauto.
    + apply elem_of_cons in He as [->|He]; [lia|]. eapply IH; eauto.
Qed.

(** C6 (amended): the builder of either revision returns the ordered list
    of non-overlapping segments that shows, at every tick, the name the
    timeline has at that tick (and nothing at an idle tick), and in which
    no two neighbours could be merged.  Ticks are merged by [processName]:
    all the ticks of a segment carry its name, and two consecutive ticks
    are in different segments exactly when their names differ. *)
Theorem C6_builder_merges_by_name (timeline : Timeline) :
  let chart := V1.buildGanttChart timeline in
  V2.buildGanttChart timeline = chart
  /\ ordered_from 0 chart
  /\ maximal chart
  /\ (forall j, shown_at chart j = name_at timeline j)
  /\ (forall e j, e ∈ chart -> start e <= j < end_ e ->
                  name_at timeline j = Some (processName e)).
Proof.
  intros chart. split; [apply buildGanttChart_v2_v1|].
  split; [apply buildGanttChart_ordered|].
  split; [apply buildGanttChart_maximal|].
  split; [apply buildGanttChart_shown|].
  intros e j He Hj. rewrite <- buildGanttChart_shown.
  eapply shown_at_entry; eauto. apply buildGanttChart_ordered.
Qed.

(** C6 as stated fails: the ticks of two distinct processes that have the
    same name are merged into one segment. *)
Lemma C6_same_name_merged :
  ~ (forall p q : Process, id p <> id q ->
       length (V1.buildGanttChart [Some (info_of p); Some (info_of q)])
       = 2%nat).
Proof.
  intros H. specialize (H (proc 1 "P" 0 1) (proc 2 "P" 0 1)).
  simpl in H. discriminate H. lia.
Qed.

(** ** Sums, permutations and counting *)

Lemma zsum_app {A} (f : A -> Z) a b : zsum f (a ++ b) = zsum f a + zsum f b.
Proof. induction a as [|x a IH]; simpl; lia. Qed.

Lemma zsum_insert {A} (f : A -> Z) (l : list A) : forall (i : nat) x y,
  l !! i = Some x -> zsum f (<[i:=y]> l) = zsum f l - f x + f y.
Proof.
  induction l as [|z l IH]; intros i x y H; [easy|].
  destruct i as [|i]; simpl in *.
  - injection H as ->. lia.
  - rewrite (IH _ _ _ H). lia.
Qed.

Lemma zsum_fmap {A B} (g : A -> B) (f : B -> Z) l :
  zsum f (g <$> l) = zsum (fun x => f (g x)) l.
Proof.
  induction l as [|x l IH]; [reflexivity|].
  rewrite fmap_cons. simpl. rewrite IH. reflexivity.
Qed.

Lemma zsum_perm {A} (f : A -> Z) a b : a ≡ₚ b -> zsum f a = zsum f b.
Proof. induction 1; simpl; lia. Qed.

Lemma zsum_nonneg {A} (f : A -> Z) l :
  Forall (fun x => 0 <= f x) l -> 0 <= zsum f l.
Proof. induction 1; simpl; lia. Qed.

Lemma zsum_pos {A} (f : A -> Z) l x :
  Forall (fun x => 0 <= f x) l -> x ∈ l -> 0 < f x -> 0 < zsum f l.
Proof.
  induction 1 as [|y l Hy Hl IH]; intros Hx Hf; [inversion Hx|].
  simpl. pose proof (zsum_nonneg f l Hl).
  apply elem_of_cons in Hx as [->|Hx]; [lia|].
  specialize (IH Hx Hf). lia.
Qed.

Lemma zsum_zero {A} (f : A -> Z) l :
  Forall (fun x => f x = 0) l -> zsum f l = 0.
Proof. induction 1; simpl; lia. Qed.

Lemma bursts_statics nm a b :
  statics <$> a = statics <$> b -> bursts nm a = bursts nm b.
Proof.
  intros H. unfold bursts.
  transitivity (zsum (fun s : Z * string * Z * Z =>
                        if String.eqb s.1.1.2 nm then s.2 else 0)
                     (statics <$> a)).
  - rewrite zsum_fmap. reflexivity.
  - rewrite H, zsum_fmap. reflexivity.
Qed.

Lemma bursts_unique nm l p :
  NoDup (name <$> l) -> p ∈ l -> name p = nm -> bursts nm l = burstTime p.
Proof.
  intros Hn Hp <-. induction l as [|x l IH]; [inversion Hp|].
  apply NoDup_cons in Hn as [Hx Hn]. unfold bursts in *. simpl.
  apply elem_of_cons in Hp as [<-|Hp].
  - rewrite String.eqb_refl. rewrite zsum_zero; [lia|].
    apply Forall_forall. intros y Hy.
    destruct (String.eqb_spec (name y) (name p)) as [E|]; [|reflexivity].
    exfalso. apply Hx. rewrite <- E. apply list_elem_of_fmap_2. exact Hy.
  - destruct (String.eqb_spec (name x) (name p)) as [E|]; [|auto].
    exfalso. apply Hx. rewrite E. apply list_elem_of_fmap_2. exact Hp.
Qed.

(** When every process is finished the work done is the burst times. *)
Lemma work_finished nm l :
  Forall (fun p => remainingTime p = 0) l -> work nm l = bursts nm l.
Proof.
  induction 1 as [|p l Hp Hl IH]; [reflexivity|].
  unfold work, bursts in *. simpl. rewrite IH, Hp.
  destruct (String.eqb (name p) nm); lia.
Qed.

Lemma work_fresh nm l :
  Forall (fun p => remainingTime p = burstTime p) l -> work nm l = 0.
Proof.
  intros H. apply zsum_zero. eapply Forall_impl; [exact H|].
  simpl. intros p ->. destruct (String.eqb (name p) nm); lia.
Qed.

Lemma ticks_of_app nm a b : ticks_of nm (a ++ b) = ticks_of nm a + ticks_of nm b.
Proof.
  induction a as [|[x|] a IH]; simpl; try lia.
  destruct (String.eqb (ti_processName x) nm); lia.
Qed.

Lemma ticks_of_idle nm k : ticks_of nm (replicate k None) = 0.
Proof. induction k; simpl; auto. Qed.

Lemma ticks_of_run nm k info :
  ticks_of nm (replicate k (Some info))
  = if String.eqb (ti_processName info) nm then Z.of_nat k else 0.
Proof.
  induction k as [|k IH]; simpl.
  - destruct (String.eqb (ti_processName info) nm); reflexivity.
  - rewrite IH. destruct (String.eqb (ti_processName info) nm); lia.
Qed.

(** A list of [n] distinct indices below [n] holds every index below
    [n]. *)
Lemma indices_full (D : list nat) (n : nat) :
  NoDup D -> (forall i, i ∈ D -> (i < n)%nat) -> (n <= length D)%nat ->
  forall i, (i < n)%nat -> i ∈ D.
Proof.
  intros Hn Hb Hl i Hi.
  assert (D ⊆+ seq 0 n) as Hs.
  { apply NoDup_submseteq; [exact Hn|].
    intros j Hj. apply elem_of_seq. specialize (Hb j Hj). lia. }
  assert (seq 0 n ≡ₚ D) as HP.
  { symmetry. apply submseteq_length_Permutation; [exact Hs|].
    rewrite length_seq. exact Hl. }
  rewrite <- HP. apply elem_of_seq. lia.
Qed.

Lemma indices_missing (D : list nat) (n : nat) :
  NoDup D -> (length D < n)%nat -> exists i, (i < n)%nat /\ i ∉ D.
Proof.
  intros Hn Hl.
  destruct (decide (Forall (fun i => i ∈ D) (seq 0 n))) as [H|H].
  - exfalso. assert (seq 0 n ⊆+ D) as Hs.
    { apply NoDup_submseteq; [apply NoDup_seq|].
      intros j Hj. rewrite Forall_forall in H. auto. }
    apply submseteq_length in Hs. rewrite length_seq in Hs. lia.
  - apply not_Forall_Exists in H; [|intros j; apply _].
    apply Exists_exists in H as (i & Hi & Hni).
    exists i. split; [|exact Hni]. apply elem_of_seq in Hi. lia.
Qed.

Lemma indices_bounded (D : list nat) (n : nat) :
  NoDup D -> (forall i, i ∈ D -> (i < n)%nat) -> (length D <= n)%nat.
Proof.
  intros Hn Hb.
  assert (D ⊆+ seq 0 n) as Hs.
  { apply NoDup_submseteq; [exact Hn|].
    intros j Hj. apply elem_of_seq. specialize (Hb j Hj). lia. }
  apply submseteq_length in Hs. rewrite length_seq in Hs. exact Hs.
Qed.

(** An assignment that keeps the fields no engine assigns. *)
Lemma fmap_insert_same {A B} (f : A -> B) (l : list A) (i : nat) x y :
  l !! i = Some x -> f y = f x -> f <$> <[i:=y]> l = f <$> l.
Proof.
  intros H E. rewrite list_fmap_insert, E.
  apply list_insert_id. rewrite list_lookup_fmap, H. reflexivity.
Qed.

Lemma max_arrival_ge l p : p ∈ l -> arrivalTime p <= max_arrival l.
Proof.
  induction l as [|x l IH]; intros H; [inversion H|]. simpl.
  apply elem_of_cons in H as [->|H]; [lia|]. specialize (IH H). lia.
Qed.

Lemma max_arrival_statics a b :
  statics <$> a = statics <$> b -> max_arrival a = max_arrival b.
Proof.
  revert b. induction a as [|x a IH]; intros [|y b] H; try discriminate.
  - reflexivity.
  - rewrite !fmap_cons in H. injection H as ? ? Ha ? Hab.
    simpl. rewrite (IH b Hab), Ha. reflexivity.
Qed.

(** ** [runFCFS] *)

Lemma sort_insert_perm {A} (cmp : A -> A -> Z) x l :
  sort_insert cmp x l ≡ₚ x :: l.
Proof.
  induction l as [|y l IH]; simpl; [reflexivity|].
  destruct (0 <? cmp x y); [|reflexivity].
  rewrite IH. apply Permutation_swap.
Qed.

Lemma js_sort_perm {A} (cmp : A -> A -> Z) l : js_sort cmp l ≡ₚ l.
Proof.
  induction l as [|x l IH]; simpl; [reflexivity|].
  rewrite sort_insert_perm, IH. reflexivity.
Qed.

Lemma commit_metrics_ok p c :
  arrivalTime p + burstTime p <= c -> metrics_ok (commit p c).
Proof. intros H. unfold metrics_ok; simpl. lia. Qed.

Lemma fcfs_fold l : forall t tl vis,
  Forall (fun p => 0 <= burstTime p) l ->
  exists t' tl' l',
    fold_left V1.fcfs_body l (t, tl, vis) = (t', tl', vis ++ l')
    /\ statics <$> l' = statics <$> l
    /\ Forall metrics_ok l'
    /\ forall nm, ticks_of nm tl' = ticks_of nm tl + bursts nm l.
Proof.
  induction l as [|p l IH]; intros t tl vis Hb.
  - exists t, tl, []. simpl. rewrite app_nil_r.
    repeat split; auto. intros; unfold bursts; simpl; lia.
  - apply Forall_cons in Hb as [Hp Hb].
    change (fold_left V1.fcfs_body (p :: l) (t, tl, vis))
      with (fold_left V1.fcfs_body l (V1.fcfs_body (t, tl, vis) p)).
    set (t1 := if t <? arrivalTime p then arrivalTime p else t).
    set (tl1 := if t <? arrivalTime p
                then push_n tl (arrivalTime p - t) None else tl).
    assert (E : (if t <? arrivalTime p
                 then (arrivalTime p, push_n tl (arrivalTime p - t) None)
                 else (t, tl)) = (t1, tl1)).
    { unfold t1, tl1. destruct (t <? arrivalTime p); reflexivity. }
    assert (V1.fcfs_body (t, tl, vis) p
            = (completionTime (commit p (t1 + burstTime p)),
               push_n tl1 (burstTime p)
                      (Some (info_of (commit p (t1 + burstTime p)))),
               vis ++ [commit p (t1 + burstTime p)])) as ->.
    { unfold V1.fcfs_body. rewrite E. reflexivity. }
    destruct (IH (completionTime (commit p (t1 + burstTime p)))
                 (push_n tl1 (burstTime p)
                         (Some (info_of (commit p (t1 + burstTime p)))))
                 (vis ++ [commit p (t1 + burstTime p)]) Hb)
      as (t' & tl' & l' & Hf & Hs & Hm & Ht).
    exists t', tl', (commit p (t1 + burstTime p) :: l').
    rewrite Hf, <- app_assoc. split; [reflexivity|].
    split; [rewrite !fmap_cons, Hs; reflexivity|].
    split.
    + constructor; [|exact Hm]. apply commit_metrics_ok.
      unfold t1. destruct (Z.ltb_spec t (arrivalTime p)); lia.
    + intros nm. rewrite Ht. unfold push_n.
      rewrite ticks_of_app, ticks_of_run. simpl.
      assert (ticks_of nm tl1 = ticks_of nm tl) as ->.
      { unfold tl1, push_n. destruct (t <? arrivalTime p); [|reflexivity].
        rewrite ticks_of_app, ticks_of_idle. lia. }
      unfold bursts. simpl.
      destruct (String.eqb (name p) nm); lia.
Qed.

Lemma valid_bursts l :
  Forall valid_process l -> Forall (fun p => 0 <= burstTime p) l.
Proof.
  intros H. eapply Forall_impl; [exact H|].
  intros p Hp. pose proof (vp_burst p Hp). lia.
Qed.

Lemma runFCFS_ok l : valid_input l -> result_ok l (V1.runFCFS l).
Proof.
  intros [Hv Hn]. destruct (decide (l = [])) as [->|Hne].
  { repeat split; simpl; auto. }
  assert (V1.runFCFS l =
    let localProcesses := js_sort cmp_arrival_id (cloneProcesses l) in
    let '(currentTime, timeline, localProcesses) :=
      fold_left V1.fcfs_body localProcesses (0, [], []) in
    mk_result "First-Come, First-Served (FCFS)" timeline V1.buildGanttChart
              localProcesses (length localProcesses) currentTime) as ->.
  { unfold V1.runFCFS. destruct l; [easy|reflexivity]. }
  cbv zeta. unfold cloneProcesses.
  pose proof (js_sort_perm cmp_arrival_id l) as HP.
  destruct (fcfs_fold (js_sort cmp_arrival_id l) 0 [] [])
    as (t' & tl' & l' & Hf & Hs & Hm & Ht).
  { apply valid_bursts. rewrite HP. exact Hv. }
  rewrite Hf. simpl. unfold result_ok. simpl.
  split; [rewrite Hs, HP; reflexivity|].
  split; [exact Hm|].
  split; [|apply buildGanttChart_ordered].
  intros nm. rewrite buildGanttChart_duration, Ht. simpl.
  unfold bursts. apply zsum_perm. exact HP.
Qed.

(** ** Selections *)

Lemma elem_of_indexed l (i : nat) p : (i, p) ∈ indexed l <-> l !! i = Some p.
Proof.
  unfold indexed. rewrite elem_of_lookup_imap. split.
  - intros (j & y & E & H). injection E as -> ->. exact H.
  - intros H. exists i, p. auto.
Qed.

Lemma elem_of_filter_bool {A} (f : A -> bool) l x :
  x ∈ List.filter f l <-> x ∈ l /\ f x = true.
Proof. rewrite !list_elem_of_In. apply filter_In. Qed.

Lemma fold_left_choice {A} (f : A -> A -> A) l : forall x,
  (forall a b, f a b = a \/ f a b = b) ->
  fold_left f l x = x \/ fold_left f l x ∈ l.
Proof.
  induction l as [|y l IH]; intros x Hf; simpl; [auto|].
  destruct (IH (f x y) Hf) as [E|E].
  - rewrite E. destruct (Hf x y) as [->| ->]; [auto|].
    right. apply elem_of_cons. auto.
  - right. apply elem_of_cons. auto.
Qed.

Lemma reduce1_elem {A} (f : A -> A -> A) l x :
  (forall a b, f a b = a \/ f a b = b) -> reduce1 f l = Some x -> x ∈ l.
Proof.
  intros Hf. destruct l as [|y l]; simpl; [discriminate|].
  intros [= <-]. destruct (fold_left_choice f l y Hf) as [->|H].
  - apply elem_of_cons. auto.
  - apply elem_of_cons. auto.
Qed.

Lemma reduce1_none {A} (f : A -> A -> A) l : reduce1 f l = None -> l = [].
Proof. destruct l; [auto|discriminate]. Qed.

Lemma pick_choice key a b : pick key a b = a \/ pick key a b = b.
Proof.
  unfold pick.
  destruct (num_ltb (key a.2) (key b.2)); auto.
  destruct (num_ltb (key b.2) (key a.2)); auto.
  destruct (arrivalTime a.2 <? arrivalTime b.2); auto.
Qed.

Lemma mem_id_spec x l : mem_id x l = true <-> x ∈ l.
Proof.
  unfold mem_id. rewrite existsb_exists, list_elem_of_In. split.
  - intros (y & Hy & E). apply Z.eqb_eq in E. subst. exact Hy.
  - intros H. exists x. split; [exact H|apply Z.eqb_refl].
Qed.

Lemma indices_perm (D : list nat) (n : nat) :
  NoDup D -> (forall i, i ∈ D -> (i < n)%nat) -> (n <= length D)%nat ->
  D ≡ₚ seq 0 n.
Proof.
  intros Hn Hb Hl.
  apply submseteq_length_Permutation; [|rewrite length_seq; exact Hl].
  apply NoDup_submseteq; [exact Hn|].
  intros j Hj. apply elem_of_seq. specialize (Hb j Hj). lia.
Qed.

Lemma zsum_burst_at nm l :
  zsum (burst_at nm l) (seq 0 (length l)) = bursts nm l.
Proof.
  induction l as [|p l IH]; [reflexivity|].
  simpl. rewrite <- fmap_S_seq, zsum_fmap.
  unfold bursts in *. simpl. rewrite <- IH. reflexivity.
Qed.

(** ** What the static fields give *)

Lemma statics_lookup (ps l : list Process) (i : nat) p :
  statics <$> ps = statics <$> l -> ps !! i = Some p ->
  exists p0, l !! i = Some p0 /\ statics p = statics p0.
Proof.
  intros H Hp.
  assert ((statics <$> l) !! i = Some (statics p)) as Hl.
  { rewrite <- H, list_lookup_fmap, Hp. reflexivity. }
  rewrite list_lookup_fmap in Hl.
  destruct (l !! i) as [p0|]; [|discriminate].
  exists p0. split; [reflexivity|]. simpl in Hl. congruence.
Qed.

Lemma statics_length (ps l : list Process) :
  statics <$> ps = statics <$> l -> length ps = length l.
Proof. intros H. rewrite <- (length_fmap statics ps), H. apply length_fmap. Qed.

Lemma statics_ids (ps l : list Process) :
  statics <$> ps = statics <$> l -> id <$> ps = id <$> l.
Proof.
  intros H.
  transitivity ((fun s : Z * string * Z * Z => s.1.1.1) <$> (statics <$> ps)).
  - rewrite <- list_fmap_compose. reflexivity.
  - rewrite H, <- list_fmap_compose. reflexivity.
Qed.

Lemma statics_valid (ps l : list Process) (i : nat) p :
  statics <$> ps = statics <$> l -> Forall valid_process l ->
  ps !! i = Some p -> 0 <= arrivalTime p /\ 0 < burstTime p.
Proof.
  intros H Hv Hp. destruct (statics_lookup _ _ _ _ H Hp) as (p0 & Hl & E).
  rewrite Forall_forall in Hv.
  specialize (Hv p0 (list_elem_of_lookup_2 _ _ _ Hl)).
  destruct Hv. unfold statics in E. injection E as _ _ -> ->. lia.
Qed.

Lemma statics_max_arrival (ps l : list Process) (i : nat) p :
  statics <$> ps = statics <$> l -> ps !! i = Some p ->
  arrivalTime p <= max_arrival l.
Proof.
  intros H Hp. rewrite <- (max_arrival_statics _ _ H).
  apply max_arrival_ge. eapply list_elem_of_lookup_2. exact Hp.
Qed.

Lemma same_id_same_index (ps l : list Process) (i j : nat) p q :
  statics <$> ps = statics <$> l -> NoDup (id <$> l) ->
  ps !! i = Some p -> ps !! j = Some q -> id p = id q -> i = j.
Proof.
  intros H Hn Hp Hq E. rewrite <- (statics_ids _ _ H) in Hn.
  apply (NoDup_lookup _ i j (id p) Hn).
  - rewrite list_lookup_fmap, Hp. reflexivity.
  - rewrite list_lookup_fmap, Hq. simpl. congruence.
Qed.

Lemma burst_at_statics nm (ps l : list Process) (i : nat) p :
  statics <$> ps = statics <$> l -> ps !! i = Some p ->
  burst_at nm l i = if String.eqb (name p) nm then burstTime p else 0.
Proof.
  intros H Hp. destruct (statics_lookup _ _ _ _ H Hp) as (p0 & Hl & E).
  unfold burst_at. rewrite Hl. unfold statics in E.
  injection E as _ -> _ ->. reflexivity.
Qed.

(** ** [runSJF] and [runPriorityNonPreemptive] *)

Section NonPreemptiveBatch.

Variable key : Process -> num.
Variable l : list Process.
Hypothesis Hvalid : valid_input l.

Lemma np_body_inv s D :
  np_inv l s D -> (bs_completed s < length l)%nat ->
  exists D', np_inv l (V1.np_body key s) D'
             /\ (np_measure l (V1.np_body key s) < np_measure l s)%nat.
Proof.
  intros (Hs & Hnd & Hlen & Hin & Hdone & Htk) Hlt.
  destruct Hvalid as [Hv Hids].
  unfold V1.np_body.
  destruct (reduce1 _ _) as [[i cp]|] eqn:Er.
  - (* a process runs to completion *)
    apply reduce1_elem in Er; [|apply pick_choice].
    apply elem_of_filter_bool in Er as [Hi Hr].
    apply elem_of_indexed in Hi. simpl in Hr.
    apply andb_true_iff in Hr as [Harr Hnot].
    apply Z.leb_le in Harr. apply negb_true_iff in Hnot.
    assert (id cp ∉ bs_done s) as Hfresh.
    { intros Hc. apply mem_id_spec in Hc. congruence. }
    destruct (statics_valid _ _ _ _ Hs Hv Hi) as [Ha Hb].
    destruct (Z.ltb_spec (bs_time s) (arrivalTime cp)); [lia|].
    assert (i ∉ D) as HiD.
    { intros Hc. destruct (Hin i Hc) as (p & Hp & _ & Hd). congruence. }
    pose proof (lookup_lt_Some _ _ _ Hi) as Hil.
    exists (i :: D). split.
    + unfold np_inv; simpl. repeat split.
      * rewrite <- Hs. eapply fmap_insert_same; [exact Hi|reflexivity].
      * constructor; auto.
      * simpl. lia.
      * intros j Hj. apply elem_of_cons in Hj as [->|Hj].
        -- eexists. rewrite list_lookup_insert_eq by exact Hil.
           split; [reflexivity|]. split; [apply commit_metrics_ok; lia|].
           simpl. apply elem_of_cons. auto.
        -- destruct (Hin j Hj) as (p & Hp & Hm & Hd).
           exists p. rewrite list_lookup_insert_ne by congruence.
           split; [exact Hp|]. split; [exact Hm|]. apply elem_of_cons. auto.
      * intros d Hd. apply elem_of_cons in Hd as [->|Hd].
        -- exists i. eexists. split; [apply elem_of_cons; auto|].
           rewrite list_lookup_insert_eq by exact Hil. split; reflexivity.
        -- destruct (Hdone d Hd) as (j & p & Hj & Hp & E).
           exists j, p. split; [apply elem_of_cons; auto|].
           rewrite list_lookup_insert_ne by congruence. auto.
      * intros nm. unfold push_n.
        rewrite ticks_of_app, ticks_of_run, Htk. simpl.
        rewrite (burst_at_statics nm _ _ _ _ Hs Hi).
        destruct (String.eqb (name cp) nm); lia.
    + unfold np_measure; simpl. lia.
  - (* no process is ready *)
    apply reduce1_none in Er.
    exists D. split.
    + unfold np_inv; simpl. repeat split; auto.
      intros nm. rewrite ticks_of_app, Htk. simpl. lia.
    + destruct (indices_missing D (length l)) as (i & Hi & HiD);
        [exact Hnd|lia|].
      rewrite <- (statics_length _ _ Hs) in Hi.
      apply lookup_lt_is_Some_2 in Hi as [p Hp].
      assert (id p ∉ bs_done s) as Hfresh.
      { intros Hc. destruct (Hdone _ Hc) as (j & q & Hj & Hq & E).
        assert (j = i) by (eapply same_id_same_index; eauto). congruence. }
      assert (bs_time s < arrivalTime p) as Hfuture.
      { destruct (Z.leb_spec (arrivalTime p) (bs_time s)) as [Hle|]; [|lia].
        exfalso.
        assert ((i, p) ∈ List.filter
                  (fun ip : nat * Process =>
                     (arrivalTime ip.2 <=? bs_time s)
                     && negb (mem_id (id ip.2) (bs_done s)))
                  (indexed (bs_procs s))) as Hc.
        { apply elem_of_filter_bool. split; [apply elem_of_indexed; exact Hp|].
          simpl. apply andb_true_iff. split; [apply Z.leb_le; exact Hle|].
          apply negb_true_iff. destruct (mem_id _ _) eqn:Em; [|reflexivity].
          apply mem_id_spec in Em. contradiction. }
        rewrite Er in Hc. inversion Hc. }
      pose proof (statics_max_arrival _ _ _ _ Hs Hp).
      unfold np_measure; simpl. lia.
Qed.

Lemma np_loop_terminates : forall fuel s D,
  np_inv l s D -> (np_measure l s <= fuel)%nat ->
  exists s' D', V1.np_loop key fuel s = Some s' /\ np_inv l s' D'
                /\ (length l <= bs_completed s')%nat.
Proof.
  induction fuel as [|fuel IH]; intros s D Hinv Hm.
  - assert (length (bs_procs s) = length l) as Hl
      by (apply statics_length, Hinv).
    simpl. rewrite Hl.
    destruct (Nat.ltb_spec (bs_completed s) (length l)) as [Hlt|Hge].
    + unfold np_measure in Hm. lia.
    + exists s, D. auto.
  - assert (length (bs_procs s) = length l) as Hl
      by (apply statics_length, Hinv).
    simpl. rewrite Hl.
    destruct (Nat.ltb_spec (bs_completed s) (length l)) as [Hlt|Hge].
    + destruct (np_body_inv s D Hinv Hlt) as (D' & Hinv' & Hdec).
      apply (IH _ D' Hinv'). lia.
    + exists s, D. auto.
Qed.

Lemma np_init_inv : np_inv l (mkB (cloneProcesses l) 0 0 [] []) [].
Proof.
  unfold np_inv; simpl. repeat split; auto.
  - constructor.
  - intros i Hi. inversion Hi.
  - intros d Hd. inversion Hd.
Qed.

Lemma np_final_ok nm s D :
  np_inv l s D -> (length l <= bs_completed s)%nat ->
  result_ok l (V1.result_of nm s).
Proof.
  intros (Hs & Hnd & Hlen & Hin & Hdone & Htk) Hge.
  assert (D ≡ₚ seq 0 (length l)) as HP.
  { apply indices_perm; [exact Hnd| |lia].
    intros i Hi. destruct (Hin i Hi) as (p & Hp & _).
    rewrite <- (statics_length _ _ Hs). eapply lookup_lt_Some; eauto. }
  unfold result_ok, V1.result_of; simpl.
  split; [rewrite Hs; reflexivity|].
  split.
  - apply Forall_lookup. intros i p Hp.
    assert (i ∈ D) as Hi.
    { rewrite HP. apply elem_of_seq.
      apply lookup_lt_Some in Hp. rewrite (statics_length _ _ Hs) in Hp. lia. }
    destruct (Hin i Hi) as (q & Hq & Hm & _). congruence.
  - split; [|apply buildGanttChart_ordered].
    intros nm'. rewrite buildGanttChart_duration, Htk.
    rewrite (zsum_perm _ _ _ HP). apply zsum_burst_at.
Qed.

Lemma run_np_ok nm :
  exists fuel r, V1.run_np key nm fuel l = Some r /\ result_ok l r.
Proof.
  destruct (decide (l = [])) as [E|Hne].
  - exists 0%nat, (createEmptyResult nm). rewrite E.
    split; [reflexivity|]. repeat split; simpl; auto.
  - destruct (np_loop_terminates _ _ _ np_init_inv (le_n _))
      as (s' & D' & Hloop & Hinv & Hge).
    exists (np_measure l (mkB (cloneProcesses l) 0 0 [] [])), (V1.result_of nm s').
    split; [|eapply np_final_ok; eauto].
    unfold V1.run_np. destruct l; [easy|]. rewrite Hloop. reflexivity.
Qed.

End NonPreemptiveBatch.

(** ** The [forEach] selection *)

Lemma scan_fold key ready (xs : list (nat * Process)) : forall acc,
  (acc.1.1 = None -> acc.1.2 = Infinity /\ acc.2 = Infinity) ->
  let r := fold_left (scan_step key ready) xs acc in
  (r.1.1 = None ->
     acc.1.1 = None /\ forall ip, ip ∈ xs -> ready ip.2 = false)
  /\ (forall i, r.1.1 = Some i ->
        acc.1.1 = Some i \/ exists p, (i, p) ∈ xs /\ ready p = true).
Proof.
  induction xs as [|[j q] xs IH]; intros [[idx mk] ma] Hacc; simpl.
  - split; [|auto]. intros H. split; [exact H|]. intros ip Hip. inversion Hip.
  - set (acc' := scan_step key ready (idx, mk, ma) (j, q)).
    assert (Hstep :
      (ready q = false /\ acc' = (idx, mk, ma))
      \/ (ready q = true /\ acc'.1.1 = Some j)
      \/ (ready q = true /\ acc' = (idx, mk, ma) /\ idx <> None)).
    { unfold acc', scan_step. cbn [fst snd].
      destruct (ready q); [|auto]. right.
      destruct (num_ltb (key q) mk) eqn:E1; [left; auto|].
      destruct (num_eqb (key q) mk) eqn:E2.
      - destruct (num_ltb (Fin (arrivalTime q)) ma) eqn:E3; [left; auto|].
        right. repeat split; auto. intros ->.
        destruct (Hacc eq_refl) as [_ Hma]. simpl in Hma. subst ma.
        discriminate.
      - right. repeat split; auto. intros ->.
        destruct (Hacc eq_refl) as [Hmk _]. simpl in Hmk. subst mk.
        destruct (key q); discriminate. }
    assert (Hacc' : acc'.1.1 = None -> acc'.1.2 = Infinity /\ acc'.2 = Infinity).
    { destruct Hstep as [[_ ->]|[[_ E]|[_ [-> _]]]]; auto.
      rewrite E. discriminate. }
    destruct (IH acc' Hacc') as [IH1 IH2]. split.
    + intros Hr. destruct (IH1 Hr) as [Ha Hall].
      destruct Hstep as [[Hq E]|[[_ E]|[_ [E Hne]]]].
      * rewrite E in Ha. split; [exact Ha|].
        intros ip Hip. apply elem_of_cons in Hip as [->|Hip]; auto.
      * rewrite E in Ha. discriminate.
      * rewrite E in Ha. simpl in Ha. contradiction.
    + intros i Hr. destruct (IH2 i Hr) as [Ha|(p & Hp & Hrp)].
      * destruct Hstep as [[Hq E]|[[Hq E]|[_ [E Hne]]]].
        -- rewrite E in Ha. auto.
        -- rewrite E in Ha. injection Ha as ->.
           right. exists q. split; [apply elem_of_cons; auto|exact Hq].
        -- rewrite E in Ha. auto.
      * right. exists p. split; [apply elem_of_cons; auto|exact Hrp].
Qed.

Lemma scan_some key ready l i :
  scan key ready l = Some i -> exists p, l !! i = Some p /\ ready p = true.
Proof.
  intros H. unfold scan in H.
  destruct (scan_fold key ready (indexed l) (None, Infinity, Infinity))
    as [_ H2]; [auto|].
  destruct (H2 i H) as [Hc|(p & Hp & Hr)]; [discriminate|].
  exists p. split; [apply elem_of_indexed; exact Hp|exact Hr].
Qed.

Lemma scan_none key ready l (i : nat) p :
  scan key ready l = None -> l !! i = Some p -> ready p = false.
Proof.
  intros H Hp. unfold scan in H.
  destruct (scan_fold key ready (indexed l) (None, Infinity, Infinity))
    as [H1 _]; [auto|].
  destruct (H1 H) as [_ Hall].
  apply (Hall (i, p)). apply elem_of_indexed. exact Hp.
Qed.

(** ** [runSRTF] and [runPriorityPreemptive] *)

Lemma ready_now_spec t p :
  V1.ready_now t p = true <-> arrivalTime p <= t /\ 0 < remainingTime p.
Proof.
  unfold V1.ready_now. rewrite andb_true_iff, Z.leb_le, Z.ltb_lt. reflexivity.
Qed.

Lemma zsum_remaining_pos (ps : list Process) (i : nat) p :
  (forall (j : nat) q, ps !! j = Some q -> 0 <= remainingTime q) ->
  ps !! i = Some p -> 0 < remainingTime p -> 0 < zsum remainingTime ps.
Proof.
  intros Hall Hp Hr. eapply zsum_pos; [|eapply list_elem_of_lookup_2; eauto|auto].
  apply Forall_lookup. exact Hall.
Qed.

Section PreemptiveBatch.

Variable key : Process -> num.
Variable l : list Process.
Hypothesis Hvalid : valid_input l.

Lemma pre_body_inv s D :
  pre_inv l s D -> bs_completed s <> length l ->
  exists s' D', V1.pre_body key s = Some s' /\ pre_inv l s' D'
    /\ (pre_measure l (bs_procs s') (bs_time s')
        < pre_measure l (bs_procs s) (bs_time s))%nat.
Proof.
  intros (Hs & Hrem & Hnd & Hlen & Hex & Hmet & Htk) Hne.
  destruct Hvalid as [Hv Hids].
  unfold V1.pre_body.
  destruct (scan key (V1.ready_now (bs_time s)) (bs_procs s)) as [i|] eqn:Es.
  - (* the selected process runs for one tick *)
    destruct (scan_some _ _ _ _ Es) as (cp & Hi & Hr).
    apply ready_now_spec in Hr as [Harr Hpos].
    rewrite Hi. cbn [mbind option_bind].
    destruct (Hrem _ _ Hi) as [_ Hbound].
    pose proof (lookup_lt_Some _ _ _ Hi) as Hil.
    assert (i ∉ D) as HiD.
    { intros Hc. apply Hex in Hc as (p & Hp & Hz). 
      rewrite Hi in Hp. injection Hp as <-. lia. }
    assert (Hmeas : forall x, remainingTime x = remainingTime cp - 1 ->
      (pre_measure l (<[i:=x]> (bs_procs s)) (bs_time s + 1)
       < pre_measure l (bs_procs s) (bs_time s))%nat).
    { intros x Hx. unfold pre_measure.
      rewrite (zsum_insert _ _ _ _ _ Hi), Hx.
      pose proof (zsum_remaining_pos _ _ _
                    (fun j q Hq => proj1 (Hrem j q Hq)) Hi Hpos). lia. }
    assert (Hwork : forall x nm, name x = name cp ->
      burstTime x = burstTime cp -> remainingTime x = remainingTime cp - 1 ->
      ticks_of nm (bs_timeline s ++ [Some (info_of cp)])
      = work nm (<[i:=x]> (bs_procs s))).
    { intros x nm Hn Hb Hx. rewrite ticks_of_app, Htk. unfold work.
      rewrite (zsum_insert _ _ _ _ _ Hi), Hn, Hb, Hx. simpl.
      destruct (String.eqb (name cp) nm); lia. }
    simpl.
    destruct (Z.eqb_spec (remainingTime cp - 1) 0) as [Hz|Hnz].
    + (* it finishes *)
      eexists. exists (i :: D). split; [reflexivity|]. split.
      * unfold pre_inv. cbn [bs_procs bs_time bs_completed bs_timeline].
        split; [rewrite <- Hs; eapply fmap_insert_same; eauto|].
        split.
        { intros j q Hq. apply list_lookup_insert_Some in Hq
            as [(-> & <- & _)|(Hji & Hq)].
          - simpl. lia.
          - destruct (Hrem _ _ Hq). split; [lia|]. lia. }
        split; [constructor; auto|].
        split; [simpl; lia|].
        split.
        { intros j. rewrite elem_of_cons, Hex. split.
          - intros [->|(q & Hq & Hqz)].
            + eexists. rewrite list_lookup_insert_eq by exact Hil.
              split; [reflexivity|]. simpl. lia.
            + exists q. split; [|exact Hqz].
              rewrite list_lookup_insert_ne; [exact Hq|].
              intros ->. rewrite Hi in Hq. injection Hq as <-. lia.
          - intros (q & Hq & Hqz).
            destruct (decide (j = i)) as [->|Hji]; [auto|].
            right. exists q. split; [|exact Hqz].
            rewrite list_lookup_insert_ne in Hq by congruence. exact Hq. }
        split.
        { intros j q Hq Hqz. apply list_lookup_insert_Some in Hq
            as [(-> & <- & _)|(Hji & Hq)].
          - apply commit_metrics_ok. simpl. lia.
          - eapply Hmet; eauto. }
        intros nm. apply Hwork; reflexivity.
      * cbn [bs_procs bs_time]. apply Hmeas. reflexivity.
    + (* it goes on *)
      eexists. exists D. split; [reflexivity|]. split.
      * unfold pre_inv. cbn [bs_procs bs_time bs_completed bs_timeline].
        split; [rewrite <- Hs; eapply fmap_insert_same; eauto|].
        split.
        { intros j q Hq. apply list_lookup_insert_Some in Hq
            as [(-> & <- & _)|(Hji & Hq)].
          - simpl. lia.
          - destruct (Hrem _ _ Hq). split; [lia|]. lia. }
        split; [exact Hnd|].
        split; [exact Hlen|].
        split.
        { intros j. rewrite Hex. split.
          - intros (q & Hq & Hqz). exists q. split; [|exact Hqz].
            rewrite list_lookup_insert_ne; [exact Hq|].
            intros ->. rewrite Hi in Hq. injection Hq as <-. lia.
          - intros (q & Hq & Hqz).
            apply list_lookup_insert_Some in Hq as [(-> & <- & _)|(Hji & Hq)].
            + simpl in Hqz. lia.
            + exists q. auto. }
        split.
        { intros j q Hq Hqz. apply list_lookup_insert_Some in Hq
            as [(-> & <- & _)|(Hji & Hq)].
          - simpl in Hqz. lia.
          - eapply Hmet; eauto. }
        intros nm. apply Hwork; reflexivity.
      * cbn [bs_procs bs_time]. apply Hmeas. reflexivity.
  - (* the CPU is idle *)
    eexists. exists D. split; [reflexivity|]. split.
    + unfold pre_inv. cbn [bs_procs bs_time bs_completed bs_timeline].
      split; [exact Hs|].
      split.
      { intros j q Hq. destruct (Hrem _ _ Hq). split; [lia|]. lia. }
      split; [exact Hnd|]. split; [exact Hlen|]. split; [exact Hex|].
      split; [exact Hmet|].
      intros nm. rewrite ticks_of_app, Htk. simpl. lia.
    + assert (length D <= length l)%nat as Hle.
      { apply indices_bounded; [exact Hnd|].
        intros j Hj. apply Hex in Hj as (q & Hq & _).
        rewrite <- (statics_length _ _ Hs). eapply lookup_lt_Some; eauto. }
      destruct (indices_missing D (length l)) as (i & Hi & HiD);
        [exact Hnd|lia|].
      rewrite <- (statics_length _ _ Hs) in Hi.
      apply lookup_lt_is_Some_2 in Hi as [p Hp].
      destruct (Hrem _ _ Hp) as [Hp0 _].
      assert (0 < remainingTime p) as Hpos.
      { destruct (decide (remainingTime p = 0)) as [Hz|]; [|lia].
        exfalso. apply HiD. apply Hex. eauto. }
      pose proof (scan_none _ _ _ _ _ Es Hp) as Hnr.
      assert (bs_time s < arrivalTime p) as Hfuture.
      { destruct (Z.leb_spec (arrivalTime p) (bs_time s)); [|lia].
        exfalso. assert (V1.ready_now (bs_time s) p = true)
          by (apply ready_now_spec; lia). congruence. }
      pose proof (statics_max_arrival _ _ _ _ Hs Hp).
      unfold pre_measure. cbn [bs_procs bs_time]. lia.
Qed.

Lemma pre_loop_terminates : forall fuel s D,
  pre_inv l s D ->
  (pre_measure l (bs_procs s) (bs_time s) <= fuel)%nat ->
  exists s' D', V1.pre_loop key fuel s = Some s' /\ pre_inv l s' D'
                /\ bs_completed s' = length l.
Proof.
  induction fuel as [|fuel IH]; intros s D Hinv Hm;
    assert (length (bs_procs s) = length l) as Hl
      by (apply statics_length, Hinv);
    simpl; rewrite Hl;
    destruct (Nat.eqb_spec (bs_completed s) (length l)) as [He|Hne];
    try (exists s, D; auto; fail).
  - destruct (pre_body_inv s D Hinv Hne) as (s' & D' & _ & _ & Hdec). lia.
  - destruct (pre_body_inv s D Hinv Hne) as (s' & D' & Hb & Hinv' & Hdec).
    rewrite Hb. cbn [mbind option_bind]. apply (IH s' D' Hinv'). lia.
Qed.

Lemma pre_init_inv : pre_inv l (mkB (cloneProcesses l) 0 0 [] []) [].
Proof.
  destruct Hvalid as [Hv Hids]. rewrite Forall_lookup in Hv.
  unfold pre_inv, cloneProcesses; simpl.
  split; [reflexivity|].
  split; [intros i p Hp; destruct (Hv _ _ Hp); lia|].
  split; [constructor|].
  split; [reflexivity|].
  split.
  { intros i. split; [intros Hi; inversion Hi|].
    intros (p & Hp & Hz). destruct (Hv _ _ Hp). lia. }
  split; [intros i p Hp Hz; destruct (Hv _ _ Hp); lia|].
  intros nm. symmetry. apply work_fresh. apply Forall_lookup.
  intros i p Hp. destruct (Hv _ _ Hp). auto.
Qed.

Lemma pre_final_ok nm s D :
  pre_inv l s D -> bs_completed s = length l ->
  result_ok l (V1.result_of nm s)
  /\ Forall (fun p => remainingTime p = 0) (bs_procs s).
Proof.
  intros (Hs & Hrem & Hnd & Hlen & Hex & Hmet & Htk) Hge.
  assert (forall i, i ∈ D -> (i < length l)%nat) as Hb.
  { intros i Hi. apply Hex in Hi as (p & Hp & _).
    rewrite <- (statics_length _ _ Hs). eapply lookup_lt_Some; eauto. }
  assert (Forall (fun p => remainingTime p = 0) (bs_procs s)) as Hfin.
  { apply Forall_lookup. intros i p Hp.
    assert (i ∈ D) as Hi.
    { apply (indices_full D (length l)); auto; [lia|].
      rewrite <- (statics_length _ _ Hs). eapply lookup_lt_Some; eauto. }
    apply Hex in Hi as (q & Hq & Hz). congruence. }
  split; [|exact Hfin].
  unfold result_ok, V1.result_of; simpl.
  split; [rewrite Hs; reflexivity|].
  split.
  - apply Forall_lookup. intros i p Hp. eapply Hmet; eauto.
    rewrite Forall_lookup in Hfin. eauto.
  - split; [|apply buildGanttChart_ordered].
    intros nm'. rewrite buildGanttChart_duration, Htk.
    rewrite (work_finished _ _ Hfin). apply bursts_statics. exact Hs.
Qed.

Lemma run_pre_ok nm :
  exists fuel r, V1.run_pre key nm fuel l = Some r /\ result_ok l r.
Proof.
  destruct (decide (l = [])) as [E|Hne].
  - exists 0%nat, (createEmptyResult nm). rewrite E.
    split; [reflexivity|]. repeat split; simpl; auto.
  - destruct (pre_loop_terminates _ _ _ pre_init_inv (le_n _))
      as (s' & D' & Hloop & Hinv & Hge).
    eexists. exists (V1.result_of nm s').
    split; [|eapply pre_final_ok; eauto].
    unfold V1.run_pre. destruct l; [easy|]. rewrite Hloop. reflexivity.
Qed.

End PreemptiveBatch.

(** ** Round Robin: the two engines and the common step *)

Lemma rr_body_core q s : V1.rr_body q s = core_body (fun p => p) true q s.
Proof. reflexivity. Qed.

Lemma rr_arrivals_elem s i :
  i ∈ V1.rr_arrivals s <->
  exists p, rr_procs s !! i = Some p /\ arrivalTime p = rr_time s.
Proof.
  unfold V1.rr_arrivals. rewrite list_elem_of_fmap. split.
  - intros ([j p] & -> & H). rewrite js_sort_perm in H.
    apply elem_of_filter_bool in H as [H1 H2]. apply elem_of_indexed in H1.
    simpl in H2. apply Z.eqb_eq in H2. exists p. auto.
  - intros (p & Hp & Ht). exists (i, p). split; [reflexivity|].
    rewrite js_sort_perm. apply elem_of_filter_bool.
    split; [apply elem_of_indexed; exact Hp|]. simpl. apply Z.eqb_eq. exact Ht.
Qed.

Lemma rr_sim_enqueue_state s : (V1.rr_sim_enqueue s).2 = V1.rr_enqueue s.
Proof.
  unfold V1.rr_sim_enqueue.
  destruct (0 <? length (V1.newly_arrived (rr_procs s) (rr_time s)))%nat
    eqn:E; [reflexivity|].
  apply Nat.ltb_ge in E.
  assert (V1.newly_arrived (rr_procs s) (rr_time s) = []) as Hn.
  { destruct (V1.newly_arrived _ _); [reflexivity|simpl in E; lia]. }
  assert (V1.rr_arrivals s = []) as Ha.
  { destruct (V1.rr_arrivals s) as [|i a] eqn:Ea; [reflexivity|]. exfalso.
    assert (i ∈ V1.rr_arrivals s) as Hi by (rewrite Ea; apply elem_of_cons; auto).
    apply rr_arrivals_elem in Hi as (p & Hp & Ht).
    assert (p ∈ V1.newly_arrived (rr_procs s) (rr_time s)) as Hc.
    { apply elem_of_filter_bool.
      split; [eapply list_elem_of_lookup_2; eauto|apply Z.eqb_eq; exact Ht]. }
    rewrite Hn in Hc. inversion Hc. }
  unfold V1.rr_enqueue. rewrite Ha, app_nil_r. destruct s; reflexivity.
Qed.

Lemma rr_sim_body_core q s :
  (V1.rr_sim_body q s).2
  = core_body (fun p => set_state p Completed) false q s.
Proof.
  unfold V1.rr_sim_body, core_body.
  assert ((V1.rr_sim_retire q s).2
          = core_retire (fun p => set_state p Completed) (fun z => z) q s) as H1.
  { unfold V1.rr_sim_retire, core_retire.
    destruct (rr_running s) as [i|]; [|reflexivity].
    destruct (rr_procs s !! i) as [rp|]; [|reflexivity].
    destruct (remainingTime rp =? 0); [reflexivity|].
    destruct (rr_quantum s =? q); reflexivity. }
  destruct (V1.rr_sim_retire q s) as [m1 s1]. simpl in H1. subst s1.
  pose proof (rr_sim_enqueue_state
                (core_retire (fun p => set_state p Completed) (fun z => z) q s)) as H2.
  destruct (V1.rr_sim_enqueue _) as [m2 s2]. simpl in H2. subst s2.
  set (s2 := V1.rr_enqueue _).
  assert ((V1.rr_sim_dispatch s2).2 = V1.rr_dispatch s2) as H3.
  { unfold V1.rr_sim_dispatch, V1.rr_dispatch.
    destruct (rr_running s2); [reflexivity|].
    destruct (rr_queue s2); reflexivity. }
  destruct (V1.rr_sim_dispatch s2) as [m3 s3]. simpl in H3. subst s3.
  set (s3 := V1.rr_dispatch s2). simpl.
  unfold V1.rr_sim_execute, core_execute.
  destruct (rr_running s3) as [i|] eqn:E; [|simpl; rewrite E; reflexivity].
  destruct (rr_procs s3 !! i); [reflexivity|].
  simpl. rewrite E. reflexivity.
Qed.

(** ** Round Robin: the invariant *)

Lemma work_insert nm (ps : list Process) (i : nat) p x :
  ps !! i = Some p -> name x = name p -> burstTime x = burstTime p ->
  work nm (<[i:=x]> ps)
  = work nm ps
    + (if String.eqb (name p) nm then remainingTime p - remainingTime x else 0).
Proof.
  intros Hp Hn Hb. unfold work.
  rewrite (zsum_insert _ _ _ _ _ Hp), Hn, Hb.
  destruct (String.eqb (name p) nm); lia.
Qed.

Lemma indexed_nodup l : NoDup (indexed l).
Proof.
  apply NoDup_alt. intros i j [k p] Hi Hj. unfold indexed in *.
  rewrite list_lookup_imap in Hi, Hj.
  destruct (l !! i); [|discriminate]. destruct (l !! j); [|discriminate].
  simpl in *. congruence.
Qed.

Lemma rr_arrivals_nodup s : NoDup (V1.rr_arrivals s).
Proof.
  unfold V1.rr_arrivals. rewrite js_sort_perm.
  apply NoDup_fmap_fst.
  - intros i y1 y2 H1 H2.
    apply elem_of_filter_bool in H1 as [H1 _], H2 as [H2 _].
    apply elem_of_indexed in H1, H2. congruence.
  - apply NoDup_ListNoDup, List.NoDup_filter, NoDup_ListNoDup, indexed_nodup.
Qed.

Section RoundRobinInvariant.

Variable mark : Process -> Process.
Variable push : bool.
Variable q : Z.
Variable l : list Process.
Hypothesis Hmark : keeps_schedule mark.
Hypothesis Hvalid : Forall valid_process l.

Lemma core_retire_inv (reset : Z -> Z) s D b :
  rr_inv l s D b false ->
  let s' := core_retire mark reset q s in
  exists D', rr_inv l s' D' b true
    /\ zsum remainingTime (rr_procs s') = zsum remainingTime (rr_procs s)
    /\ (rr_completed s <= rr_completed s')%nat
    /\ rr_time s' = rr_time s
    /\ rr_timeline s' = rr_timeline s
    /\ (forall nm, work nm (rr_procs s') = work nm (rr_procs s)).
Proof.
  intros (Hs & Hpr & Hq & Hrun & Hnq & Hnd & Hlen & Hex & Hmet & Hunt).
  unfold core_retire.
  destruct (rr_running s) as [r|] eqn:Er.
  2:{ exists D. simpl. split; [|repeat split; auto; lia].
      unfold rr_inv. rewrite Er.
      refine (conj Hs (conj Hpr (conj Hq (conj _ (conj Hnq (conj Hnd
                (conj Hlen (conj Hex (conj Hmet Hunt))))))))).
      intros r' [=]. }
  destruct (Hrun r eq_refl) as (Hrq & p & Hp & Harr & _).
  rewrite Hp.
  destruct (Hpr _ _ Hp) as (Hp0 & Hpb & Hpf & Hpc).
  pose proof (lookup_lt_Some _ _ _ Hp) as Hrl.
  destruct (statics_valid _ _ _ _ Hs Hvalid Hp) as [Ha Hb].
  destruct (Hmark p) as (Hms & Hmr & Hmm).
  destruct (Z.eqb_spec (remainingTime p) 0) as [Hz|Hnz].
  - (* the running process has finished: it is retired *)
    set (x := commit (mark p) (rr_time s)).
    assert (statics x = statics p) as Hxs by (unfold x; rewrite <- Hms; reflexivity).
    assert (remainingTime x = remainingTime p) as Hxr by (unfold x; simpl; auto).
    assert (metrics_ok x) as Hxm.
    { unfold x. apply commit_metrics_ok.
      unfold statics in Hms. injection Hms as _ _ -> ->. lia. }
    assert (r ∉ D) as HrD.
    { intros Hc. apply Hex in Hc as (? & ? & ? & Hc). congruence. }
    assert (id x = id p /\ name x = name p /\ arrivalTime x = arrivalTime p
            /\ burstTime x = burstTime p) as (Hxi & Hxn & Hxa & Hxb).
    { unfold statics in Hxs. injection Hxs as ? ? ? ?. auto. }
    clearbody x.
    exists (r :: D). simpl. unfold rr_inv; simpl.
    split; [|split; [|split; [|split; [|split]]]].
    + split; [rewrite <- Hs; eapply fmap_insert_same; eauto;
              unfold statics; congruence|].
      split.
      { intros j y Hy. apply list_lookup_insert_Some in Hy
          as [(-> & <- & _)|(Hjr & Hy)].
        - rewrite Hxr, Hxa, Hxb. repeat split; auto; lia.
        - destruct (Hpr _ _ Hy) as (?&?&?&Hc). repeat split; auto.
          intros H5 H6. destruct (Hc H5 H6) as [?|[=]]; [auto|congruence]. }
      split.
      { intros j Hj. destruct (Hq j Hj) as (y & Hy & ? & ?).
        exists y. rewrite list_lookup_insert_ne by congruence. auto. }
      split; [intros ? [=]|].
      split; [exact Hnq|].
      split; [constructor; auto|].
      split; [simpl; lia|].
      split.
      { intros j. rewrite elem_of_cons, Hex. split.
        - intros [->|(y & Hy & Hyz & Hyr)].
          + exists x. rewrite list_lookup_insert_eq by exact Hrl.
            repeat split; try lia; try discriminate.
          + exists y. rewrite list_lookup_insert_ne by congruence.
            repeat split; auto; discriminate.
        - intros (y & Hy & Hyz & _).
          destruct (decide (j = r)) as [->|Hjr]; [auto|].
          right. rewrite list_lookup_insert_ne in Hy by congruence.
          exists y. repeat split; auto; congruence. }
      split.
      { intros j y Hy Hj. apply list_lookup_insert_Some in Hy
          as [(-> & <- & _)|(Hjr & Hy)]; [exact Hxm|].
        apply elem_of_cons in Hj as [->|Hj]; [congruence|].
        eapply Hmet; eauto. }
      intros j y y0 Hy Hy0. apply list_lookup_insert_Some in Hy
        as [(-> & <- & _)|(Hjr & Hy)]; [auto|]. eapply Hunt; eauto.
    + rewrite (zsum_insert _ _ _ _ _ Hp). lia.
    + lia.
    + reflexivity.
    + reflexivity.
    + intros nm. rewrite (work_insert nm _ _ _ _ Hp).
      * rewrite Hxr. destruct (String.eqb (name p) nm); lia.
      * congruence.
      * congruence.
  - destruct (Z.eqb_spec (rr_quantum s) q) as [Hq'|Hq'].
    + (* its quantum has expired: it goes to the back of the queue *)
      exists D. simpl. unfold rr_inv; simpl.
      split; [|repeat split; auto; lia].
      split; [exact Hs|].
      split.
      { intros j y Hy. destruct (Hpr _ _ Hy) as (?&?&?&Hc).
        repeat split; auto. intros H5 H6. left.
        apply elem_of_app. destruct (Hc H5 H6) as [?|[= ->]]; [auto|].
        right. apply elem_of_cons. auto. }
      split.
      { intros j Hj. apply elem_of_app in Hj as [Hj|Hj]; [auto|].
        apply list_elem_of_singleton in Hj as ->.
        exists p. repeat split; auto. lia. }
      split; [intros ? [=]|].
      split.
      { apply NoDup_app. split; [exact Hnq|]. split; [|apply NoDup_singleton].
        intros j Hj Hc. apply list_elem_of_singleton in Hc as ->. auto. }
      split; [exact Hnd|].
      split; [exact Hlen|].
      split.
      { intros j. rewrite Hex. split.
        - intros (y & Hy & Hyz & _). exists y. repeat split; auto; discriminate.
        - intros (y & Hy & Hyz & _). exists y. repeat split; auto.
          intros [= ->]. congruence. }
      split; [exact Hmet|exact Hunt].
    + (* it keeps the CPU *)
      exists D. simpl. unfold rr_inv. rewrite Er.
      split; [|repeat split; auto; lia].
      split; [exact Hs|].
      split; [exact Hpr|].
      split; [exact Hq|].
      split.
      { intros r' [= <-].
        split; [exact Hrq|]. exists p. repeat split; auto. lia. }
      split; [exact Hnq|].
      split; [exact Hnd|].
      split; [exact Hlen|].
      split; [exact Hex|].
      split; [exact Hmet|exact Hunt].
Qed.

Lemma core_enqueue_inv s D pos :
  rr_inv l s D (rr_time s) pos ->
  rr_inv l (V1.rr_enqueue s) D (rr_time s + 1) pos.
Proof.
  intros (Hs & Hpr & Hq & Hrun & Hnq & Hnd & Hlen & Hex & Hmet & Hunt).
  unfold rr_inv, V1.rr_enqueue; simpl.
  split; [exact Hs|].
  split.
  { intros j y Hy. destruct (Hpr _ _ Hy) as (H1 & H2 & H3 & H4).
    split; [exact H1|]. split; [exact H2|]. split; [intros; apply H3; lia|].
    intros H5 H6. destruct (decide (arrivalTime y < rr_time s)) as [Hlt|Hge].
    - destruct (H4 Hlt H6) as [?|?]; [|auto].
      left. apply elem_of_app. auto.
    - left. apply elem_of_app. right. apply rr_arrivals_elem.
      exists y. split; [exact Hy|lia]. }
  split.
  { intros j Hj. apply elem_of_app in Hj as [Hj|Hj].
    - destruct (Hq j Hj) as (y & Hy & ? & ?). exists y. repeat split; auto. lia.
    - apply rr_arrivals_elem in Hj as (y & Hy & Ht).
      exists y. split; [exact Hy|]. split; [lia|].
      destruct (Hpr _ _ Hy) as (_ & _ & H3 & _).
      destruct (statics_valid _ _ _ _ Hs Hvalid Hy). rewrite H3; lia. }
  split.
  { intros r Hr. destruct (Hrun r Hr) as (Hrq & y & Hy & Hlt & Hpos).
    split.
    - intros Hc. apply elem_of_app in Hc as [Hc|Hc]; [auto|].
      apply rr_arrivals_elem in Hc as (y' & Hy' & Ht).
      rewrite Hy in Hy'. injection Hy' as <-. lia.
    - exists y. repeat split; auto. lia. }
  split.
  { apply NoDup_app. split; [exact Hnq|]. split; [|apply rr_arrivals_nodup].
    intros j Hj Hc. destruct (Hq j Hj) as (y & Hy & Hlt & _).
    apply rr_arrivals_elem in Hc as (y' & Hy' & Ht).
    rewrite Hy in Hy'. injection Hy' as <-. lia. }
  split; [exact Hnd|].
  split; [exact Hlen|].
  split; [exact Hex|].
  split; [exact Hmet|exact Hunt].
Qed.

Lemma core_dispatch_inv s D b :
  rr_inv l s D b true ->
  let s' := V1.rr_dispatch s in
  rr_inv l s' D b true
  /\ (rr_running s' = None -> rr_queue s' = [])
  /\ rr_procs s' = rr_procs s /\ rr_time s' = rr_time s
  /\ rr_completed s' = rr_completed s /\ rr_timeline s' = rr_timeline s.
Proof.
  intros Hinv. unfold V1.rr_dispatch.
  destruct (rr_running s) as [r|] eqn:Er.
  { simpl. split; [exact Hinv|]. split; [intros Hc; congruence|]. repeat split. }
  destruct (rr_queue s) as [|i rest] eqn:Eq.
  { simpl. split; [exact Hinv|]. split; [intros _; exact Eq|]. repeat split. }
  simpl. split; [|repeat split; auto; discriminate].
  destruct Hinv as (Hs & Hpr & Hq & Hrun & Hnq & Hnd & Hlen & Hex & Hmet & Hunt).
  rewrite Er in *. rewrite Eq in *.
  apply NoDup_cons in Hnq as [Hi Hnq].
  destruct (Hq i) as (pi & Hpi & Hai & Hri); [apply elem_of_cons; auto|].
  unfold rr_inv; simpl.
  split; [exact Hs|].
  split.
  { intros j y Hy. destruct (Hpr _ _ Hy) as (H1 & H2 & H3 & H4).
    repeat split; auto. intros H5 H6.
    destruct (H4 H5 H6) as [Hj|[=]].
    apply elem_of_cons in Hj as [->|Hj]; auto. }
  split; [intros j Hj; apply Hq, elem_of_cons; auto|].
  split.
  { intros r [= <-]. split; [exact Hi|]. exists pi. auto. }
  split; [exact Hnq|].
  split; [exact Hnd|].
  split; [exact Hlen|].
  split.
  { intros j. rewrite Hex. split.
    - intros (y & Hy & Hyz & _). exists y.
      split; [exact Hy|]. split; [exact Hyz|].
      intros [= ->]. rewrite Hpi in Hy. injection Hy as <-. lia.
    - intros (y & Hy & Hyz & _). exists y. repeat split; auto; discriminate. }
  split; [exact Hmet|exact Hunt].
Qed.

Lemma core_execute_inv s D :
  rr_inv l s D (rr_time s + 1) true ->
  (rr_running s = None -> rr_queue s = []) ->
  let s' := core_execute push s in
  rr_inv l s' D (rr_time s') false
  /\ rr_time s' = rr_time s + 1
  /\ rr_completed s' = rr_completed s
  /\ (Z.to_nat (zsum remainingTime (rr_procs s'))
        + Z.to_nat (max_arrival l - rr_time s')
      <= Z.to_nat (zsum remainingTime (rr_procs s))
         + Z.to_nat (max_arrival l - rr_time s))%nat
  /\ ((length D < length l)%nat ->
      (Z.to_nat (zsum remainingTime (rr_procs s'))
         + Z.to_nat (max_arrival l - rr_time s')
       < Z.to_nat (zsum remainingTime (rr_procs s))
         + Z.to_nat (max_arrival l - rr_time s))%nat)
  /\ (push = true -> forall nm,
        ticks_of nm (rr_timeline s') - work nm (rr_procs s')
        = ticks_of nm (rr_timeline s) - work nm (rr_procs s)).
Proof.
  intros (Hs & Hpr & Hq & Hrun & Hnq & Hnd & Hlen & Hex & Hmet & Hunt) Hidle.
  unfold core_execute.
  destruct (rr_running s) as [r|] eqn:Er.
  - (* the running process executes for one tick *)
    destruct (Hrun r eq_refl) as (Hrq & p & Hp & Harr & Hpos).
    rewrite Hp.
    destruct (Hpr _ _ Hp) as (Hp0 & Hpb & Hpf & Hpc).
    pose proof (lookup_lt_Some _ _ _ Hp) as Hrl.
    set (x := set_remainingTime p (remainingTime p - 1)).
    assert (Hsum : zsum remainingTime (<[r:=x]> (rr_procs s))
                   = zsum remainingTime (rr_procs s) - 1).
    { rewrite (zsum_insert _ _ _ _ _ Hp). simpl. lia. }
    pose proof (zsum_remaining_pos _ _ _
                  (fun j y Hy => proj1 (Hpr j y Hy)) Hp Hpos) as Hsp.
    simpl. split; [|split; [reflexivity|split; [reflexivity|]]].
    + unfold rr_inv; simpl.
      split; [rewrite <- Hs; eapply fmap_insert_same; eauto|].
      split.
      { intros j y Hy. apply list_lookup_insert_Some in Hy
          as [(-> & <- & _)|(Hjr & Hy)].
        - simpl. repeat split; auto; try lia.
        - destruct (Hpr _ _ Hy) as (H1 & H2 & H3 & H4).
          repeat split; auto. lia. }
      split.
      { intros j Hj. destruct (Hq j Hj) as (y & Hy & ? & ?).
        exists y. rewrite list_lookup_insert_ne by congruence. auto. }
      split.
      { intros r' [= <-]. split; [exact Hrq|]. exists x.
        rewrite list_lookup_insert_eq by exact Hrl. simpl. auto. }
      split; [exact Hnq|].
      split; [exact Hnd|].
      split; [exact Hlen|].
      split.
      { intros j. rewrite Hex. split.
        - intros (y & Hy & Hyz & Hyr). exists y.
          rewrite list_lookup_insert_ne by congruence. auto.
        - intros (y & Hy & Hyz & Hyr). exists y.
          rewrite list_lookup_insert_ne in Hy by congruence. auto. }
      split.
      { intros j y Hy Hj. apply list_lookup_insert_Some in Hy
          as [(-> & <- & _)|(Hjr & Hy)]; [|eapply Hmet; eauto].
        apply Hex in Hj as (? & ? & ? & Hc). congruence. }
      intros j y y0 Hy Hy0. apply list_lookup_insert_Some in Hy
        as [(-> & <- & _)|(Hjr & Hy)]; [|eapply Hunt; eauto].
      destruct (Hunt _ _ _ Hp Hy0) as [Hm|Hm]; [left|right; exact Hm].
      exact Hm.
    + rewrite Hsum. split; [lia|]. split; [lia|].
      intros -> nm. rewrite ticks_of_app.
      rewrite (work_insert nm _ _ _ x Hp) by reflexivity. simpl.
      destruct (String.eqb (name p) nm); lia.
  - (* the CPU is idle *)
    specialize (Hidle eq_refl).
    simpl. split; [|split; [reflexivity|split; [reflexivity|]]].
    + unfold rr_inv; simpl.
      split; [exact Hs|].
      split.
      { intros j y Hy. destruct (Hpr _ _ Hy) as (H1 & H2 & H3 & H4).
        repeat split; auto. lia. }
      split; [exact Hq|].
      split; [intros ? [=]|].
      split; [exact Hnq|].
      split; [exact Hnd|].
      split; [exact Hlen|].
      split; [exact Hex|].
      split; [exact Hmet|exact Hunt].
    + split; [lia|]. split.
      * intros Hlt.
        destruct (indices_missing D (length l)) as (i & Hi & HiD);
          [exact Hnd|lia|].
        rewrite <- (statics_length _ _ Hs) in Hi.
        apply lookup_lt_is_Some_2 in Hi as [y Hy].
        destruct (Hpr _ _ Hy) as (H1 & H2 & H3 & H4).
        assert (0 < remainingTime y) as Hpos.
        { destruct (decide (remainingTime y = 0)) as [Hz|]; [|lia].
          exfalso. apply HiD. apply Hex. exists y.
          repeat split; auto; discriminate. }
        assert (rr_time s + 1 <= arrivalTime y) as Hfuture.
        { destruct (decide (arrivalTime y < rr_time s + 1)) as [Hlt'|]; [|lia].
          exfalso. destruct (H4 Hlt' Hpos) as [Hc|[=]].
          rewrite Hidle in Hc. inversion Hc. }
        pose proof (statics_max_arrival _ _ _ _ Hs Hy). lia.
      * intros -> nm. rewrite ticks_of_app. simpl. lia.
Qed.

Lemma core_body_inv s D :
  rr_inv l s D (rr_time s) false -> (rr_completed s < length l)%nat ->
  let s' := core_body mark push q s in
  exists D', rr_inv l s' D' (rr_time s') false
    /\ rr_time s' = rr_time s + 1
    /\ (rr_measure l s' < rr_measure l s)%nat
    /\ (push = true -> forall nm,
          ticks_of nm (rr_timeline s') - work nm (rr_procs s')
          = ticks_of nm (rr_timeline s) - work nm (rr_procs s)).
Proof.
  intros Hinv Hlt. unfold core_body.
  destruct (core_retire_inv (fun z => z) s D _ Hinv)
    as (D1 & H1 & Hz1 & Hc1 & Ht1 & Htl1 & Hw1).
  set (s1 := core_retire mark (fun z => z) q s) in *.
  rewrite <- Ht1 in H1. apply core_enqueue_inv in H1.
  apply core_dispatch_inv in H1.
  assert (rr_procs (V1.rr_enqueue s1) = rr_procs s1) as Hp2 by reflexivity.
  assert (rr_time (V1.rr_enqueue s1) = rr_time s1) as Ht2 by reflexivity.
  assert (rr_completed (V1.rr_enqueue s1) = rr_completed s1) as Hc2
    by reflexivity.
  assert (rr_timeline (V1.rr_enqueue s1) = rr_timeline s1) as Htl2
    by reflexivity.
  set (s2 := V1.rr_enqueue s1) in *.
  destruct H1 as (H3 & Hidle & Hp3 & Ht3 & Hc3 & Htl3).
  set (s3 := V1.rr_dispatch s2) in *.
  assert (Hlen3 : length D1 = rr_completed s3) by apply H3.
  rewrite <- Ht2, <- Ht3 in H3.
  destruct (core_execute_inv s3 D1 H3 Hidle)
    as (H4 & Ht4 & Hc4 & Hle & Hdec & Htk).
  exists D1. split; [exact H4|].
  split; [lia|].
  split.
  - unfold rr_measure. rewrite Hc4.
    rewrite Hp3, Hp2, Hz1, Ht3, Ht2, Ht1 in Hle, Hdec.
    rewrite Hc3, Hc2 in *.
    destruct (decide (rr_completed s1 < length l)%nat) as [Hlt1|Hge1].
    + specialize (Hdec ltac:(lia)). lia.
    + lia.
  - intros Hpush nm. rewrite (Htk Hpush nm).
    rewrite Htl3, Htl2, Htl1, Hp3, Hp2, Hw1. reflexivity.
Qed.

End RoundRobinInvariant.

(** ** [runRoundRobin] *)

Lemma core_body_time mark push q s :
  rr_time (core_body mark push q s) = rr_time s + 1.
Proof.
  unfold core_body.
  assert (rr_time (core_retire mark (fun z => z) q s) = rr_time s) as H1.
  { unfold core_retire. destruct (rr_running s); [|reflexivity].
    destruct (rr_procs s !! n); [|reflexivity].
    destruct (remainingTime p =? 0); [reflexivity|].
    destruct (rr_quantum s =? q); reflexivity. }
  set (s1 := core_retire mark (fun z => z) q s) in *.
  assert (rr_time (V1.rr_dispatch (V1.rr_enqueue s1)) = rr_time s1) as H2.
  { unfold V1.rr_dispatch. simpl. destruct (rr_running s1); [reflexivity|].
    destruct (rr_queue s1 ++ V1.rr_arrivals s1); reflexivity. }
  set (s3 := V1.rr_dispatch _) in *.
  unfold core_execute. destruct (rr_running s3); [|simpl; lia].
  destruct (rr_procs s3 !! n); simpl; lia.
Qed.

(** The safety break makes the loop total: [ceiling_v1 + 1] iterations are
    always enough, for any input and any quantum. *)
Lemma rr_loop_O q s :
  V1.rr_loop q 0 s
  = if (rr_completed s <? length (rr_procs s))%nat then None
    else Some (s, []).
Proof. reflexivity. Qed.

Lemma rr_loop_S q fuel s :
  V1.rr_loop q (S fuel) s
  = if (rr_completed s <? length (rr_procs s))%nat then
      if ceiling_v1 <? rr_time (core_body (fun p => p) true q s)
      then Some (core_body (fun p => p) true q s, [rr_break_message])
      else V1.rr_loop q fuel (core_body (fun p => p) true q s)
    else Some (s, []).
Proof. reflexivity. Qed.

Lemma rr_loop_total q : forall fuel s,
  rr_time s <= ceiling_v1 ->
  ceiling_v1 + 1 - rr_time s <= Z.of_nat fuel ->
  exists r, V1.rr_loop q fuel s = Some r.
Proof.
  induction fuel as [|fuel IH]; intros s Ht Hf;
    [rewrite rr_loop_O|rewrite rr_loop_S];
    destruct (rr_completed s <? length (rr_procs s))%nat; eauto.
  - lia.
  - pose proof (core_body_time (fun p => p) true q s) as Ht'.
    destruct (Z.ltb_spec ceiling_v1 (rr_time (core_body (fun p => p) true q s)));
      [eauto|]. apply IH; lia.
Qed.

Lemma keeps_schedule_id : keeps_schedule (fun p => p).
Proof. intros p. auto. Qed.

Lemma keeps_schedule_completed :
  keeps_schedule (fun p => set_state p Completed).
Proof. intros p. auto. Qed.

Lemma rr_init_inv l :
  Forall valid_process l -> rr_inv l (V1.rr_init l) [] 0 false.
Proof.
  intros Hv. rewrite Forall_lookup in Hv.
  unfold rr_inv, V1.rr_init, cloneProcesses; simpl.
  split; [reflexivity|].
  split.
  { intros i p Hp. destruct (Hv _ _ Hp). repeat split; auto; lia. }
  split; [intros i Hi; inversion Hi|].
  split; [intros r [=]|].
  split; [constructor|].
  split; [constructor|].
  split; [reflexivity|].
  split.
  { intros i. split; [intros Hi; inversion Hi|].
    intros (p & Hp & Hz & _). destruct (Hv _ _ Hp). lia. }
  split; [intros i p _ Hi; inversion Hi|].
  intros i p p0 Hp Hp0. right. congruence.
Qed.

Lemma zsum_remaining_burst l :
  Forall valid_process l -> zsum remainingTime l = zsum burstTime l.
Proof.
  induction 1 as [|p l' Hp _ IH]; [reflexivity|].
  simpl. rewrite IH, (vp_remaining p Hp). reflexivity.
Qed.

Lemma max_arrival_nonneg l : 0 <= max_arrival l.
Proof. induction l; simpl; lia. Qed.

Section RoundRobinBatch.

Variable q : Z.
Variable l : list Process.
Hypothesis Hvalid : Forall valid_process l.

Lemma rr_loop_inv : forall fuel s D s' log,
  rr_inv l s D (rr_time s) false ->
  (forall nm, ticks_of nm (rr_timeline s) = work nm (rr_procs s)) ->
  rr_time s <= ceiling_v1 ->
  V1.rr_loop q fuel s = Some (s', log) ->
  exists D', rr_inv l s' D' (rr_time s') false
    /\ (forall nm, ticks_of nm (rr_timeline s') = work nm (rr_procs s'))
    /\ ((log = [] /\ (length l <= rr_completed s')%nat
         /\ rr_time s' <= ceiling_v1)
        \/ (log = [rr_break_message] /\ rr_time s' = ceiling_v1 + 1))
    /\ (rr_time s + Z.of_nat (rr_measure l s) <= ceiling_v1 -> log = []).
Proof.
  induction fuel as [|fuel IH]; intros s D s' log Hinv Htk Ht Hloop;
    assert (length (rr_procs s) = length l) as Hl
      by (apply statics_length, Hinv);
    [rewrite rr_loop_O in Hloop|rewrite rr_loop_S in Hloop];
    rewrite Hl in Hloop;
    destruct (Nat.ltb_spec (rr_completed s) (length l)) as [Hlt|Hge];
    try discriminate;
    try (injection Hloop as <- <-; exists D;
         split; [exact Hinv|]; split; [exact Htk|];
         split; [left; split; [reflexivity|split; [lia|exact Ht]]
                |intros _; reflexivity]).
  destruct (core_body_inv (fun p => p) true q l keeps_schedule_id Hvalid
              s D Hinv Hlt) as (D' & Hinv' & Ht' & Hdec & Htk').
  set (s1 := core_body (fun p => p) true q s) in *.
  assert (forall nm, ticks_of nm (rr_timeline s1) = work nm (rr_procs s1))
    as Htk1.
  { intros nm. specialize (Htk' eq_refl nm). rewrite Htk in Htk'. lia. }
  destruct (Z.ltb_spec ceiling_v1 (rr_time s1)).
  - injection Hloop as <- <-. exists D'.
    split; [exact Hinv'|]. split; [exact Htk1|].
    split; [right; split; [reflexivity|lia]|]. lia.
  - destruct (IH _ _ _ _ Hinv' Htk1 ltac:(lia) Hloop)
      as (D'' & Hinv'' & Htk'' & Hexit & Hfit).
    exists D''. repeat (split; [assumption|]).
    intros Hb. apply Hfit. lia.
Qed.

Lemma runRoundRobin_ok :
  exists r log,
    V1.runRoundRobin l q = Some (r, log)
    /\ ((log = [] /\ totalTime r <= ceiling_v1)
        \/ (log = [rr_break_message] /\ totalTime r = ceiling_v1 + 1))
    /\ (log = [] ->
        result_ok l r /\ Forall (fun p => remainingTime p = 0) (processes r))
    /\ Forall (fun p => metrics_ok p \/ untouched l p) (processes r)
    /\ ordered_from 0 (ganttChart r)
    /\ (tick_bound l <= ceiling_v1 -> log = []).
Proof.
  destruct (decide (l = [])) as [E|Hne].
  { exists (createEmptyResult "Round Robin"), []. rewrite E.
    split; [reflexivity|].
    split; [left; split; [reflexivity|simpl; unfold ceiling_v1; lia]|].
    split; [|split; [constructor|split; [exact I|auto]]].
    intros _. repeat split; simpl; auto. }
  destruct (rr_loop_total q (Z.to_nat (ceiling_v1 + 1)) (V1.rr_init l))
    as [[s' log] Hloop]; [simpl; unfold ceiling_v1; lia..|].
  destruct (rr_loop_inv _ _ _ _ _ (rr_init_inv l Hvalid) 
              ltac:(intros; symmetry; apply work_fresh, Forall_lookup;
                    intros i p Hp; rewrite Forall_lookup in Hvalid;
                    destruct (Hvalid _ _ Hp); auto)
              ltac:(simpl; unfold ceiling_v1; lia) Hloop)
    as (D' & Hinv & Htk & Hexit & Hfit).
  exists (V1.rr_result s'), log.
  split.
  { unfold V1.runRoundRobin. destruct l; [easy|]. rewrite Hloop. reflexivity. }
  destruct Hinv as (Hs & Hpr & Hq & Hrun & Hnq & Hnd & Hlen & Hex & Hmet & Hunt).
  split; [destruct Hexit as [(-> & _ & ?)|[-> ?]]; auto|].
  split.
  - intros ->. destruct Hexit as [(_ & Hge & _)|[[=] _]].
    assert (forall i, i ∈ D' -> (i < length l)%nat) as Hb.
    { intros i Hi. apply Hex in Hi as (p & Hp & _).
      rewrite <- (statics_length _ _ Hs). eapply lookup_lt_Some; eauto. }
    assert (forall (i : nat) p, rr_procs s' !! i = Some p -> i ∈ D') as Hall.
    { intros i p Hp. apply (indices_full D' (length l)); auto; [lia|].
      rewrite <- (statics_length _ _ Hs). eapply lookup_lt_Some; eauto. }
    assert (Forall (fun p => remainingTime p = 0) (rr_procs s')) as Hfin.
    { apply Forall_lookup. intros i p Hp.
      destruct (proj1 (Hex i) (Hall _ _ Hp)) as (y & Hy & Hz & _). congruence. }
    split; [|exact Hfin].
    unfold result_ok, V1.rr_result; simpl.
    split; [rewrite Hs; reflexivity|].
    split; [apply Forall_lookup; intros i p Hp; eapply Hmet; eauto|].
    split; [|apply buildGanttChart_ordered].
    intros nm. rewrite buildGanttChart_duration, Htk.
    rewrite (work_finished _ _ Hfin). apply bursts_statics. exact Hs.
  - split; [|split; [apply buildGanttChart_ordered|]].
    2:{ intros Hb. apply Hfit. revert Hb.
        unfold tick_bound, rr_measure, V1.rr_init, cloneProcesses; simpl.
        rewrite (zsum_remaining_burst l Hvalid).
        assert (0 <= zsum burstTime l).
        { apply zsum_nonneg. apply valid_bursts. exact Hvalid. }
        pose proof (max_arrival_nonneg l).
        lia. }
    simpl. apply Forall_lookup. intros i p Hp.
    destruct (statics_lookup _ _ _ _ Hs Hp) as (p0 & Hp0 & Est).
    destruct (Hunt _ _ _ Hp Hp0) as [Hm|Hm]; [auto|].
    right. exists p0. split; [eapply list_elem_of_lookup_2; eauto|].
    split; [|exact Hm]. unfold statics in Est. congruence.
Qed.

End RoundRobinBatch.

(** ** The batch engines on every valid input *)

Lemma example_input_valid : valid_input example_input.
Proof.
  split.
  - repeat constructor; simpl; try lia; discriminate.
  - apply NoDup_ListNoDup. repeat constructor; simpl; intuition lia.
Qed.

(** Every batch engine returns, and what it returns when it has run to
    completion. *)
Lemma run_batch_ok pol q l :
  valid_input l ->
  exists fuel r,
    run_batch pol q fuel l = Some r
    /\ ordered_from 0 (ganttChart r)
    /\ ((pol = RoundRobin -> totalTime r <= ceiling_v1) -> result_ok l r)
    /\ (pol = RoundRobin -> tick_bound l <= ceiling_v1 ->
        totalTime r <= ceiling_v1)
    /\ forall p, p ∈ processes r ->
         metrics_ok p
         \/ (pol = RoundRobin /\ ceiling_v1 < totalTime r /\ untouched l p).
Proof.
  intros Hv.
  assert (forall fuel r, result_ok l r ->
            run_batch pol q fuel l = Some r -> pol <> RoundRobin ->
            exists fuel r,
              run_batch pol q fuel l = Some r
              /\ ordered_from 0 (ganttChart r)
              /\ ((pol = RoundRobin -> totalTime r <= ceiling_v1) ->
                  result_ok l r)
              /\ (pol = RoundRobin -> tick_bound l <= ceiling_v1 ->
                  totalTime r <= ceiling_v1)
              /\ forall p, p ∈ processes r ->
                   metrics_ok p
                   \/ (pol = RoundRobin /\ ceiling_v1 < totalTime r
                       /\ untouched l p)) as Hgood.
  { intros fuel r Hr Hrun Hpol. exists fuel, r.
    split; [exact Hrun|]. split; [apply Hr|]. split; [auto|].
    split; [intros E; congruence|].
    intros p Hp. left. destruct Hr as (_ & Hm & _).
    rewrite Forall_forall in Hm. auto. }
  destruct pol.
  - apply (Hgood 0%nat (V1.runFCFS l));
      [apply runFCFS_ok; exact Hv|reflexivity|discriminate].
  - destruct (run_np_ok key_burst l Hv "Non-Preemptive SJF")
      as (fuel & r & Hrun & Hr). eapply Hgood; eauto; discriminate.
  - destruct (run_pre_ok key_remaining l Hv "Preemptive SJF (SRTF)")
      as (fuel & r & Hrun & Hr). eapply Hgood; eauto; discriminate.
  - destruct (run_np_ok priority_or_inf l Hv "Non-Preemptive Priority")
      as (fuel & r & Hrun & Hr). eapply Hgood; eauto; discriminate.
  - destruct (run_pre_ok priority_or_inf l Hv "Preemptive Priority")
      as (fuel & r & Hrun & Hr). eapply Hgood; eauto; discriminate.
  - destruct (runRoundRobin_ok q l (proj1 Hv))
      as (r & log & Hrun & Hlog & Hfull & Hall & Hord & Hfit).
    exists 0%nat, r. split; [simpl; rewrite Hrun; reflexivity|].
    split; [exact Hord|]. split; [|split].
    + intros Hc. specialize (Hc eq_refl).
      destruct Hlog as [[-> _]|[_ Ht]]; [apply Hfull; reflexivity|lia].
    + intros _ Hb. specialize (Hfit Hb).
      destruct Hlog as [[_ ?]|[E _]]; [auto|congruence].
    + intros p Hp. destruct Hlog as [[-> _]|[_ Ht]].
      * left. destruct (Hfull eq_refl) as [(_ & Hm & _) _].
        rewrite Forall_forall in Hm. auto.
      * rewrite Forall_forall in Hall. destruct (Hall p Hp) as [?|?]; [auto|].
        right. repeat split; auto. lia.
Qed.




Lemma result_ok_durations l r p :
  NoDup (name <$> l) -> result_ok l r -> p ∈ processes r ->
  duration_of (name p) (ganttChart r) = burstTime p.
Proof.
  intros Hn (Hs & _ & Hd & _) Hp. rewrite Hd.
  assert (statics p ∈ statics <$> l) as Hin.
  { rewrite <- Hs. apply list_elem_of_fmap_2. exact Hp. }
  apply list_elem_of_fmap in Hin as (p0 & E & Hp0).
  unfold statics in E. injection E as _ En _ Eb.
  rewrite Eb. apply bursts_unique; auto.
Qed.

(** C2 (amended): for every valid input and every policy, the batch engine
    returns a chart in which no two entries overlap and, unless a Round
    Robin run was stopped by the safety break ([totalTime] beyond the
    ceiling), the durations of the entries that carry a name add up to the
    burst times of the processes that have this name; when distinct
    processes have distinct names, the durations of the entries named
    after a process add up to its [burstTime].  A Round Robin run is not
    stopped when the burst times, the number of processes and the latest
    arrival add up to the ceiling at most. *)
Theorem C2_durations_sum_to_burst (pol : Policy) (timeQuantum : Z)
    (l : list Process) :
  valid_input l ->
  exists fuel r,
    run_batch pol timeQuantum fuel l = Some r
    /\ no_overlap (ganttChart r)
    /\ ((pol = RoundRobin -> totalTime r <= ceiling_v1) ->
        (forall nm, duration_of nm (ganttChart r) = bursts nm l)
        /\ (NoDup (name <$> l) ->
            forall p, p ∈ processes r ->
              duration_of (name p) (ganttChart r) = burstTime p))
    /\ (pol = RoundRobin -> tick_bound l <= ceiling_v1 ->
        totalTime r <= ceiling_v1).
Proof.
  intros Hv. destruct (run_batch_ok pol timeQuantum l Hv)
    as (fuel & r & Hrun & Hord & Hok & Hfit & _).
  exists fuel, r. split; [exact Hrun|].
  split; [eapply ordered_no_overlap; eauto|].
  split; [|exact Hfit].
  intros Hc. specialize (Hok Hc). split; [apply Hok|].
  intros Hn p Hp. eapply result_ok_durations; eauto.
Qed.

Lemma C2_durations_sum_to_burst_witness :
  valid_input example_input
  /\ exists fuel r,
       run_batch RoundRobin 2 fuel example_input = Some r
       /\ no_overlap (ganttChart r)
       /\ ((RoundRobin = RoundRobin -> totalTime r <= ceiling_v1) ->
           (forall nm, duration_of nm (ganttChart r) = bursts nm example_input)
           /\ (NoDup (name <$> example_input) ->
               forall p, p ∈ processes r ->
                 duration_of (name p) (ganttChart r) = burstTime p))
       /\ (RoundRobin = RoundRobin -> tick_bound example_input <= ceiling_v1 ->
           totalTime r <= ceiling_v1).
Proof.
  split; [exact example_input_valid|].
  apply (C2_durations_sum_to_burst RoundRobin 2 example_input).
  exact example_input_valid.
Defined.

(** C2 as stated fails on two distinct processes that have the same name:
    the chart of FCFS has one entry of 5 ticks with that name, and the
    process of burst time 2 is given 5 ticks. *)
Lemma C2_same_name_counterexample :
  ~ (forall l, valid_input l ->
       forall p, p ∈ processes (V1.runFCFS l) ->
         duration_of (name p) (ganttChart (V1.runFCFS l)) = burstTime p).
Proof.
  intros H.
  specialize (H [proc 1 "P" 0 2; proc 2 "P" 0 3]).
  assert (valid_input [proc 1 "P" 0 2; proc 2 "P" 0 3]) as Hv.
  { split.
    - repeat constructor; simpl; try lia; discriminate.
    - apply NoDup_ListNoDup. repeat constructor; simpl; intuition lia. }
  specialize (H Hv (commit (proc 1 "P" 0 2) 2)).
  vm_compute in H. discriminate H. apply elem_of_cons. auto.
Qed.

(** ** [runRoundRobin] of the second revision *)

Lemma rr_retire_v2_core q s :
  V2.rr_retire q s = core_retire (fun p => p) (fun _ => 0) q s.
Proof. reflexivity. Qed.

Lemma rr_loop_v2_O q s :
  V2.rr_loop q 0 s
  = if (rr_completed s <? length (rr_procs s))%nat then None
    else Some (s, []).
Proof. reflexivity. Qed.

Lemma rr_loop_v2_S q fuel s :
  V2.rr_loop q (S fuel) s
  = if (rr_completed s <? length (rr_procs s))%nat then
      if ceiling_v2 <? rr_time (V2.rr_body q s)
      then Some (V2.rr_body q s, [rr_break_message])
      else V2.rr_loop q fuel (V2.rr_body q s)
    else Some (s, []).
Proof. reflexivity. Qed.

Lemma rr_body_v2_time q s : rr_time (V2.rr_body q s) = rr_time s + 1.
Proof.
  unfold V2.rr_body.
  assert (rr_time (V2.rr_retire q (V2.rr_enqueue s)) = rr_time s) as H1.
  { unfold V2.rr_retire. simpl.
    destruct (rr_running s); [|reflexivity].
    destruct (rr_procs s !! n); [|reflexivity].
    destruct (remainingTime p =? 0); [reflexivity|].
    destruct (rr_quantum s =? q); reflexivity. }
  set (s1 := V2.rr_retire q (V2.rr_enqueue s)) in *.
  assert (rr_time (V1.rr_dispatch s1) = rr_time s1) as H2.
  { unfold V1.rr_dispatch. destruct (rr_running s1); [reflexivity|].
    destruct (rr_queue s1); reflexivity. }
  set (s2 := V1.rr_dispatch s1) in *.
  unfold V1.rr_execute.
  destruct (rr_running s2); [|simpl; lia].
  destruct (rr_procs s2 !! n); simpl; lia.
Qed.

Lemma rr_loop_v2_total q : forall fuel s,
  rr_time s <= ceiling_v2 ->
  ceiling_v2 + 1 - rr_time s <= Z.of_nat fuel ->
  exists r, V2.rr_loop q fuel s = Some r.
Proof.
  induction fuel as [|fuel IH]; intros s Ht Hf;
    [rewrite rr_loop_v2_O|rewrite rr_loop_v2_S];
    destruct (rr_completed s <? length (rr_procs s))%nat; eauto.
  - lia.
  - pose proof (rr_body_v2_time q s) as Ht'.
    destruct (Z.ltb_spec ceiling_v2 (rr_time (V2.rr_body q s)));
      [eauto|]. apply IH; lia.
Qed.

Section RoundRobinSecondRevision.

Variable q : Z.
Variable l : list Process.
Hypothesis Hvalid : Forall valid_process l.

(** The test [remainingTime > 0] of the arrivals filter holds for every
    process that arrives now. *)
Lemma rr_enqueue_v2_v1 s D pos :
  rr_inv l s D (rr_time s) pos -> V2.rr_enqueue s = V1.rr_enqueue s.
Proof.
  intros (Hs & Hpr & _).
  unfold V2.rr_enqueue, V1.rr_enqueue, V2.rr_arrivals, V1.rr_arrivals.
  do 4 f_equal. apply List.filter_ext_in. intros [i p] Hin.
  apply list_elem_of_In, elem_of_indexed in Hin. simpl.
  destruct (Z.eqb_spec (arrivalTime p) (rr_time s)) as [Ha|]; [|reflexivity].
  simpl. apply Z.ltb_lt.
  destruct (Hpr _ _ Hin) as (_ & _ & Hfresh & _).
  destruct (statics_lookup _ _ _ _ Hs Hin) as (p0 & Hp0 & Est).
  rewrite Forall_lookup in Hvalid.
  pose proof (vp_burst p0 (Hvalid _ _ Hp0)) as Hb.
  assert (burstTime p = burstTime p0) as Eb
    by (unfold statics in Est; congruence).
  rewrite Hfresh; lia.
Qed.

Lemma rr_body_v2_inv s D :
  rr_inv l s D (rr_time s) false ->
  exists D', rr_inv l (V2.rr_body q s) D' (rr_time (V2.rr_body q s)) false.
Proof.
  intros Hinv. unfold V2.rr_body.
  rewrite (rr_enqueue_v2_v1 _ _ _ Hinv), rr_retire_v2_core.
  apply (core_enqueue_inv l Hvalid) in Hinv.
  change (rr_time s + 1) with (rr_time (V1.rr_enqueue s) + 1) in Hinv.
  set (s1 := V1.rr_enqueue s) in *.
  destruct (core_retire_inv (fun p => p) q l keeps_schedule_id Hvalid
              (fun _ => 0) s1 _ _ Hinv)
    as (D1 & H1 & _ & _ & Ht1 & _).
  set (s2 := core_retire (fun p => p) (fun _ => 0) q s1) in *.
  apply (core_dispatch_inv l) in H1.
  destruct H1 as (H3 & Hidle & _ & Ht3 & _).
  set (s3 := V1.rr_dispatch s2) in *.
  rewrite <- Ht1, <- Ht3 in H3.
  destruct (core_execute_inv true l s3 D1 H3 Hidle) as (H4 & _).
  exists D1. exact H4.
Qed.

Lemma rr_loop_v2_inv : forall fuel s D s' log,
  rr_inv l s D (rr_time s) false ->
  rr_time s <= ceiling_v2 ->
  V2.rr_loop q fuel s = Some (s', log) ->
  exists D', rr_inv l s' D' (rr_time s') false
    /\ ((log = [] /\ (length l <= rr_completed s')%nat
         /\ rr_time s' <= ceiling_v2)
        \/ (log = [rr_break_message] /\ rr_time s' = ceiling_v2 + 1)).
Proof.
  induction fuel as [|fuel IH]; intros s D s' log Hinv Ht Hloop;
    assert (length (rr_procs s) = length l) as Hl
      by (apply statics_length, Hinv);
    [rewrite rr_loop_v2_O in Hloop|rewrite rr_loop_v2_S in Hloop];
    rewrite Hl in Hloop;
    destruct (Nat.ltb_spec (rr_completed s) (length l)) as [Hlt|Hge];
    try discriminate;
    try (injection Hloop as <- <-; exists D;
         split; [exact Hinv|left; split; [reflexivity|split; [lia|exact Ht]]]).
  destruct (rr_body_v2_inv s D Hinv) as (D' & Hinv').
  pose proof (rr_body_v2_time q s) as Ht'.
  set (s1 := V2.rr_body q s) in *.
  destruct (Z.ltb_spec ceiling_v2 (rr_time s1)).
  - injection Hloop as <- <-. exists D'.
    split; [exact Hinv'|right; split; [reflexivity|lia]].
  - exact (IH _ _ _ _ Hinv' ltac:(lia) Hloop).
Qed.

End RoundRobinSecondRevision.

(** [runRoundRobin] of the second revision returns on every input, with
    the message exactly when the ceiling is crossed, and with every
    process finished and its metrics committed when it is not. *)
Lemma runRoundRobin_v2_ok l q :
  exists r log,
    V2.runRoundRobin l q = Some (r, log)
    /\ ((log = [] /\ totalTime r < ceiling_v2)
        \/ (log = [rr_break_message] /\ totalTime r = ceiling_v2))
    /\ (Forall valid_process l -> log = [] ->
        Forall (fun p => remainingTime p = 0 /\ metrics_ok p) (processes r)).
Proof.
  destruct (decide (l = [])) as [->|Hne].
  { exists (createEmptyResult "Round Robin"), [].
    split; [reflexivity|].
    split; [left; split; [reflexivity|simpl; unfold ceiling_v2; lia]|].
    intros _ _. constructor. }
  destruct (rr_loop_v2_total q (Z.to_nat (ceiling_v2 + 1)) (V1.rr_init l))
    as [[s' log] Hloop]; [simpl; unfold ceiling_v2; lia..|].
  exists (V2.rr_result s'), log.
  split.
  { unfold V2.runRoundRobin. destruct l; [easy|]. rewrite Hloop. reflexivity. }
  split.
  - clear Hne. revert Hloop.
    assert (rr_time (V1.rr_init l) <= ceiling_v2) as Ht
      by (simpl; unfold ceiling_v2; lia).
    generalize (Z.to_nat (ceiling_v2 + 1)) as fuel.
    generalize dependent (V1.rr_init l).
    intros s Ht fuel. revert s Ht.
    induction fuel as [|fuel IH]; intros s Ht;
      [rewrite rr_loop_v2_O|rewrite rr_loop_v2_S];
      destruct (rr_completed s <? length (rr_procs s))%nat;
      try discriminate;
      try (intros [= <- <-]; left; split; [reflexivity|simpl; lia]).
    pose proof (rr_body_v2_time q s) as Ht'.
    destruct (Z.ltb_spec ceiling_v2 (rr_time (V2.rr_body q s))).
    + intros [= <- <-]. right. split; [reflexivity|simpl; lia].
    + apply IH. lia.
  - intros Hv ->.
    destruct (rr_loop_v2_inv q l Hv _ _ _ _ _ (rr_init_inv l Hv)
                ltac:(simpl; unfold ceiling_v2; lia) Hloop)
      as (D' & Hinv & Hexit).
    destruct Hexit as [(_ & Hge & _)|[[=] _]].
    destruct Hinv
      as (Hs & Hpr & Hq & Hrun & Hnq & Hnd & Hlen & Hex & Hmet & Hunt).
    assert (forall i, i ∈ D' -> (i < length l)%nat) as Hb.
    { intros i Hi. apply Hex in Hi as (p & Hp & _).
      rewrite <- (statics_length _ _ Hs). eapply lookup_lt_Some; eauto. }
    simpl. apply Forall_lookup. intros i p Hp.
    assert (i ∈ D') as Hi.
    { apply (indices_full D' (length l)); auto; [lia|].
      rewrite <- (statics_length _ _ Hs). eapply lookup_lt_Some; eauto. }
    split; [|eapply Hmet; eauto].
    destruct (proj1 (Hex i) Hi) as (y & Hy & Hz & _). congruence.
Qed.

(** ** The safety break of [runRoundRobin] *)

Lemma rr_loop_exit q : forall fuel s s' log,
  rr_time s <= ceiling_v1 ->
  V1.rr_loop q fuel s = Some (s', log) ->
  (log = [] /\ rr_time s' <= ceiling_v1)
  \/ (log = [rr_break_message] /\ rr_time s' = ceiling_v1 + 1).
Proof.
  induction fuel as [|fuel IH]; intros s s' log Ht Hloop;
    [rewrite rr_loop_O in Hloop|rewrite rr_loop_S in Hloop];
    destruct (rr_completed s <? length (rr_procs s))%nat;
    try discriminate;
    try (injection Hloop as <- <-; left; auto; fail).
  pose proof (core_body_time (fun p => p) true q s) as Ht'.
  destruct (Z.ltb_spec ceiling_v1 (rr_time (core_body (fun p => p) true q s))).
  - injection Hloop as <- <-. right. split; [reflexivity|lia].
  - eapply IH; [|exact Hloop]. lia.
Qed.

(** C9 (amended): [runRoundRobin] never raises an error.  It always
    returns a result; either the loop ended by itself at a tick within the
    ceiling, nothing was written to the console and, for a valid input,
    every process of the result has [remainingTime = 0]; or the tick
    counter passed the ceiling, the loop was left by the safety break, the
    message of the break was written to the console and the result is the
    one built from the state reached.  The ceiling is 20000 in the first
    revision, where [totalTime] is then the ceiling plus one, and 10000 in
    the second, where [totalTime] is then the ceiling. *)
Theorem C9_round_robin_breaks_and_returns (l : list Process)
    (timeQuantum : Z) :
  (exists r log,
     V1.runRoundRobin l timeQuantum = Some (r, log)
     /\ ((log = [] /\ totalTime r <= ceiling_v1)
         \/ (log = [rr_break_message] /\ totalTime r = ceiling_v1 + 1))
     /\ (valid_input l -> log = [] ->
         Forall (fun p => remainingTime p = 0) (processes r)))
  /\ (exists r log,
        V2.runRoundRobin l timeQuantum = Some (r, log)
        /\ ((log = [] /\ totalTime r < ceiling_v2)
            \/ (log = [rr_break_message] /\ totalTime r = ceiling_v2))
        /\ (valid_input l -> log = [] ->
            Forall (fun p => remainingTime p = 0) (processes r))).
Proof.
  split.
  2:{ destruct (runRoundRobin_v2_ok l timeQuantum)
        as (r & log & Hrun & Hexit & Hfull).
      exists r, log. split; [exact Hrun|]. split; [exact Hexit|].
      intros [Hv _] Hlog. eapply Forall_impl; [exact (Hfull Hv Hlog)|].
      simpl. intros p [Hp _]. exact Hp. }
  destruct (decide (l = [])) as [->|Hne].
  { exists (createEmptyResult "Round Robin"), [].
    split; [reflexivity|].
    split; [left; split; [reflexivity|simpl; unfold ceiling_v1; lia]|].
    intros _ _. constructor. }
  destruct (rr_loop_total timeQuantum (Z.to_nat (ceiling_v1 + 1))
              (V1.rr_init l))
    as [[s' log] Hloop]; [simpl; unfold ceiling_v1; lia..|].
  assert (V1.runRoundRobin l timeQuantum = Some (V1.rr_result s', log)) as Hrun.
  { unfold V1.runRoundRobin. destruct l; [easy|]. rewrite Hloop. reflexivity. }
  exists (V1.rr_result s'), log. split; [exact Hrun|]. split.
  - eapply rr_loop_exit; [|exact Hloop]. simpl. unfold ceiling_v1. lia.
  - intros [Hv _] ->.
    destruct (runRoundRobin_ok timeQuantum l Hv)
      as (r & log' & Hrun' & _ & Hfull & _).
    rewrite Hrun in Hrun'. injection Hrun' as <- <-.
    apply Hfull. reflexivity.
Qed.

Lemma C9_round_robin_breaks_and_returns_witness :
  valid_input example_input
  /\ (exists r log,
        V1.runRoundRobin example_input 2 = Some (r, log)
        /\ ((log = [] /\ totalTime r <= ceiling_v1)
            \/ (log = [rr_break_message] /\ totalTime r = ceiling_v1 + 1))
        /\ (valid_input example_input -> log = [] ->
            Forall (fun p => remainingTime p = 0) (processes r)))
  /\ (exists r log,
        V2.runRoundRobin example_input 2 = Some (r, log)
        /\ ((log = [] /\ totalTime r < ceiling_v2)
            \/ (log = [rr_break_message] /\ totalTime r = ceiling_v2))
        /\ (valid_input example_input -> log = [] ->
            Forall (fun p => remainingTime p = 0) (processes r))).
Proof.
  split; [exact example_input_valid|].
  apply (C9_round_robin_breaks_and_returns example_input 2).
Defined.

(** C9 as stated fails: on one process with a burst of 20002 ticks
    [runRoundRobin] returns a result, without raising an error, in which
    the process still has 1 tick of [remainingTime]. *)
Lemma C9_incomplete_result_returned :
  ~ (forall l q r log,
       valid_input l -> V1.runRoundRobin l q = Some (r, log) ->
       Forall (fun p => remainingTime p = 0) (processes r)).
Proof.
  intros H.
  assert (valid_input [proc 1 "P1" 0 20002]) as Hv.
  { split.
    - repeat constructor; simpl; try lia; discriminate.
    - apply NoDup_ListNoDup. repeat constructor; simpl; intuition lia. }
  assert (E : (fun x : AlgorithmResult * list string =>
                 remainingTime <$> processes x.1)
                <$> V1.runRoundRobin [proc 1 "P1" 0 20002] 1 = Some [1])
    by (vm_compute; reflexivity).
  destruct (V1.runRoundRobin [proc 1 "P1" 0 20002] 1) as [[r log]|] eqn:Er;
    [|discriminate].
  specialize (H _ _ _ _ Hv Er). simpl in E. injection E as E.
  destruct (processes r) as [|p ps]; [discriminate|].
  injection E as E _. apply Forall_cons in H as [H _]. lia.
Qed.

(** ** The generators end *)

Lemma simulateFCFS_last l :
  l <> [] ->
  exists ev, last (V1.simulateFCFS l) = Some ev
             /\ eventMessage ev = all_complete /\ runningProcess ev = None.
Proof.
  intros Hne. unfold V1.simulateFCFS. destruct l as [|p l]; [easy|].
  destruct (V1.fcfs_sim_loop _ _ _ _ _) as [[evs l'] t].
  rewrite last_snoc. eexists. split; [reflexivity|]. split; reflexivity.
Qed.

Lemma run_ticks_spec rq : forall k l (i : nat) t msg p,
  l !! i = Some p ->
  exists evs p',
    run_ticks rq k l i t msg = (evs, <[i:=p']> l, t + Z.of_nat k)
    /\ statics p' = statics p /\ state p' = state p.
Proof.
  induction k as [|k IH]; intros l i t msg p Hp.
  - exists [], p. simpl. rewrite list_insert_id by exact Hp.
    replace (t + Z.of_nat 0) with t by lia. auto.
  - simpl. rewrite Hp.
    set (p1 := set_remainingTime p (remainingTime p - 1)).
    destruct (IH (<[i:=p1]> l) i (t + 1) ""%string p1)
      as (evs & p' & E & Hs & Hst).
    { apply list_lookup_insert_eq. eapply lookup_lt_Some; eauto. }
    rewrite E. eexists. exists p'.
    rewrite list_insert_insert_eq.
    replace (t + 1 + Z.of_nat k) with (t + Z.of_nat (S k)) by lia.
    split; [reflexivity|]. split; [rewrite Hs|rewrite Hst]; reflexivity.
Qed.

Section NonPreemptiveStepwise.

Variable key : Process -> num.
Variable why : string.
Variable l : list Process.
Hypothesis Hvalid : valid_input l.

Lemma np_sim_body_inv s D :
  np_sim_inv l s D -> (sim_completed s < length l)%nat ->
  exists D', np_sim_inv l (V1.np_sim_body key why s).2 D'
    /\ (np_sim_measure l (V1.np_sim_body key why s).2
        < np_sim_measure l s)%nat.
Proof.
  intros (Hs & Hnd & Hlen & Hex) Hlt.
  destruct Hvalid as [Hv Hids].
  unfold V1.np_sim_body.
  destruct (reduce1 _ _) as [[i cp]|] eqn:Er.
  - apply reduce1_elem in Er; [|apply pick_choice].
    apply elem_of_filter_bool in Er as [Hi Hr].
    apply elem_of_indexed in Hi. simpl in Hr.
    apply andb_true_iff in Hr as [Harr Hnot].
    apply Z.leb_le in Harr. apply negb_true_iff in Hnot.
    destruct (statics_valid _ _ _ _ Hs Hv Hi) as [Ha Hb].
    pose proof (lookup_lt_Some _ _ _ Hi) as Hil.
    match goal with
    | |- context [run_ticks ?rq ?k ?l ?i ?t ?msg] =>
        destruct (run_ticks_spec rq k l i t msg cp Hi)
          as (evs & p' & E & Hps & Hpst); rewrite E
    end.
    rewrite list_lookup_insert_eq by exact Hil.
    rewrite list_insert_insert_eq. cbn [snd].
    set (x := set_state _ Completed).
    assert (statics x = statics cp) as Hxs by (rewrite <- Hps; reflexivity).
    assert (i ∉ D) as HiD.
    { intros Hc. apply Hex in Hc as (y & Hy & Hyc). congruence. }
    exists (i :: D). split.
    + unfold np_sim_inv; simpl.
      split; [rewrite <- Hs; eapply fmap_insert_same; eauto|].
      split; [constructor; auto|].
      split; [simpl; lia|].
      intros j. rewrite elem_of_cons, Hex. split.
      * intros [->|(y & Hy & Hyc)].
        -- exists x. rewrite list_lookup_insert_eq by exact Hil. auto.
        -- exists y. split; [|exact Hyc].
           rewrite list_lookup_insert_ne; [exact Hy|]. congruence.
      * intros (y & Hy & Hyc).
        destruct (decide (j = i)) as [->|Hji]; [auto|].
        right. exists y. rewrite list_lookup_insert_ne in Hy by congruence.
        auto.
    + unfold np_sim_measure; simpl. lia.
  - apply reduce1_none in Er. cbn [snd].
    exists D. split; [unfold np_sim_inv; simpl; auto|].
    destruct (indices_missing D (length l)) as (i & Hi & HiD);
      [exact Hnd|lia|].
    rewrite <- (statics_length _ _ Hs) in Hi.
    apply lookup_lt_is_Some_2 in Hi as [p Hp].
    assert (is_completed p = false) as Hnc.
    { destruct (is_completed p) eqn:E; [|reflexivity].
      exfalso. apply HiD, Hex. eauto. }
    assert (sim_time s < arrivalTime p) as Hfuture.
    { destruct (Z.leb_spec (arrivalTime p) (sim_time s)) as [Hle|]; [|lia].
      exfalso.
      assert ((i, p) ∈ List.filter
                (fun ip : nat * Process =>
                   (arrivalTime ip.2 <=? sim_time s)
                   && negb (is_completed ip.2))
                (indexed (sim_procs s))) as Hc.
      { apply elem_of_filter_bool. split; [apply elem_of_indexed; exact Hp|].
        simpl. rewrite Hnc. apply andb_true_iff.
        split; [apply Z.leb_le; exact Hle|reflexivity]. }
      rewrite Er in Hc. inversion Hc. }
    pose proof (statics_max_arrival _ _ _ _ Hs Hp).
    unfold np_sim_measure; simpl. lia.
Qed.

Lemma np_sim_loop_terminates : forall fuel s D,
  np_sim_inv l s D -> (np_sim_measure l s <= fuel)%nat ->
  exists r, V1.np_sim_loop key why fuel s = Some r.
Proof.
  induction fuel as [|fuel IH]; intros s D Hinv Hm;
    assert (length (sim_procs s) = length l) as Hl
      by (apply statics_length, Hinv);
    simpl; rewrite Hl;
    destruct (Nat.ltb_spec (sim_completed s) (length l)) as [Hlt|Hge];
    eauto.
  - unfold np_sim_measure in Hm. lia.
  - destruct (np_sim_body_inv s D Hinv Hlt) as (D' & Hinv' & Hdec).
    destruct (V1.np_sim_body key why s) as [evs s1]. simpl in *.
    destruct (IH s1 D' Hinv' ltac:(lia)) as [[evs' s2] E].
    rewrite E. simpl. eauto.
Qed.

Lemma sim_np_ok :
  l <> [] ->
  exists fuel evs ev,
    V1.sim_np key why fuel l = Some evs /\ last evs = Some ev
    /\ eventMessage ev = all_complete /\ runningProcess ev = None.
Proof.
  intros Hne.
  assert (np_sim_inv l (mkSim (cloneProcesses l) 0 0 None) []) as Hinit.
  { destruct Hvalid as [Hv _]. rewrite Forall_lookup in Hv.
    unfold np_sim_inv; simpl. split; [reflexivity|].
    split; [constructor|]. split; [reflexivity|].
    intros i. split; [intros Hi; inversion Hi|].
    intros (p & Hp & Hc). unfold is_completed in Hc.
    rewrite (vp_state p (Hv _ _ Hp)) in Hc. discriminate. }
  destruct (np_sim_loop_terminates _ _ _ Hinit (le_n _)) as [r E].
  eexists. exists (V1.finish r). eexists.
  split; [unfold V1.sim_np; destruct l; [easy|]; rewrite E; reflexivity|].
  unfold V1.finish. rewrite last_snoc. repeat split.
Qed.

End NonPreemptiveStepwise.

Section PreemptiveStepwise.

Variable key : Process -> num.
Variable why : string.
Variable l : list Process.
Hypothesis Hvalid : valid_input l.

Lemma pre_sim_body_inv s D :
  pre_sim_inv l s D -> (sim_completed s < length l)%nat ->
  exists D', pre_sim_inv l (V1.pre_sim_body key why s).2 D'
    /\ (pre_measure l (sim_procs (V1.pre_sim_body key why s).2)
                      (sim_time (V1.pre_sim_body key why s).2)
        < pre_measure l (sim_procs s) (sim_time s))%nat.
Proof.
  intros (Hs & Hrem & Hnd & Hlen & Hex) Hlt.
  destruct Hvalid as [Hv Hids].
  unfold V1.pre_sim_body.
  destruct (reduce1 _ _) as [[i rp]|] eqn:Er.
  - apply reduce1_elem in Er; [|apply pick_choice].
    apply elem_of_filter_bool in Er as [Hi Hr].
    apply elem_of_indexed in Hi. simpl in Hr.
    apply ready_now_spec in Hr as [Harr Hpos].
    pose proof (lookup_lt_Some _ _ _ Hi) as Hil.
    assert (i ∉ D) as HiD.
    { intros Hc. apply Hex in Hc as (y & Hy & Hz).
      rewrite Hi in Hy. injection Hy as <-. lia. }
    assert (Hmeas : forall x, remainingTime x = remainingTime rp - 1 ->
      (pre_measure l (<[i:=x]> (sim_procs s)) (sim_time s + 1)
       < pre_measure l (sim_procs s) (sim_time s))%nat).
    { intros x Hx. unfold pre_measure.
      rewrite (zsum_insert _ _ _ _ _ Hi), Hx.
      pose proof (zsum_remaining_pos _ _ _ Hrem Hi Hpos). lia. }
    cbn [remainingTime set_remainingTime].
    destruct (Z.eqb_spec (remainingTime rp - 1) 0) as [Hz|Hnz]; cbn [snd].
    + exists (i :: D). split; [|apply Hmeas; reflexivity].
      unfold pre_sim_inv; simpl.
      split; [rewrite <- Hs; eapply fmap_insert_same; eauto|].
      split.
      { intros j y Hy. apply list_lookup_insert_Some in Hy
          as [(-> & <- & _)|(Hji & Hy)]; [simpl; lia|eauto]. }
      split; [constructor; auto|].
      split; [simpl; lia|].
      intros j. rewrite elem_of_cons, Hex. split.
      * intros [->|(y & Hy & Hyz)].
        -- eexists. rewrite list_lookup_insert_eq by exact Hil.
           split; [reflexivity|]. simpl. lia.
        -- exists y. split; [|exact Hyz].
           rewrite list_lookup_insert_ne; [exact Hy|].
           intros ->. rewrite Hi in Hy. injection Hy as <-. lia.
      * intros (y & Hy & Hyz).
        destruct (decide (j = i)) as [->|Hji]; [auto|].
        right. exists y. rewrite list_lookup_insert_ne in Hy by congruence.
        auto.
    + exists D. split; [|apply Hmeas; reflexivity].
      unfold pre_sim_inv; simpl.
      split; [rewrite <- Hs; eapply fmap_insert_same; eauto|].
      split.
      { intros j y Hy. apply list_lookup_insert_Some in Hy
          as [(-> & <- & _)|(Hji & Hy)]; [simpl; lia|eauto]. }
      split; [exact Hnd|].
      split; [exact Hlen|].
      intros j. rewrite Hex. split.
      * intros (y & Hy & Hyz). exists y. split; [|exact Hyz].
        rewrite list_lookup_insert_ne; [exact Hy|].
        intros ->. rewrite Hi in Hy. injection Hy as <-. lia.
      * intros (y & Hy & Hyz).
        apply list_lookup_insert_Some in Hy as [(-> & <- & _)|(Hji & Hy)].
        -- simpl in Hyz. lia.
        -- exists y. auto.
  - apply reduce1_none in Er. cbn [snd].
    exists D. split; [unfold pre_sim_inv; simpl; auto|].
    destruct (indices_missing D (length l)) as (i & Hi & HiD);
      [exact Hnd|lia|].
    rewrite <- (statics_length _ _ Hs) in Hi.
    apply lookup_lt_is_Some_2 in Hi as [p Hp].
    pose proof (Hrem _ _ Hp) as Hp0.
    assert (0 < remainingTime p) as Hpos.
    { destruct (decide (remainingTime p = 0)) as [Hz|]; [|lia].
      exfalso. apply HiD, Hex. eauto. }
    assert (sim_time s < arrivalTime p) as Hfuture.
    { destruct (Z.leb_spec (arrivalTime p) (sim_time s)) as [Hle|]; [|lia].
      exfalso.
      assert ((i, p) ∈ List.filter
                (fun ip : nat * Process => V1.ready_now (sim_time s) ip.2)
                (indexed (sim_procs s))) as Hc.
      { apply elem_of_filter_bool. split; [apply elem_of_indexed; exact Hp|].
        simpl. apply ready_now_spec. lia. }
      rewrite Er in Hc. inversion Hc. }
    pose proof (statics_max_arrival _ _ _ _ Hs Hp).
    unfold pre_measure; simpl. lia.
Qed.

Lemma pre_sim_loop_terminates : forall fuel s D,
  pre_sim_inv l s D ->
  (pre_measure l (sim_procs s) (sim_time s) <= fuel)%nat ->
  exists r, V1.pre_sim_loop key why fuel s = Some r.
Proof.
  induction fuel as [|fuel IH]; intros s D Hinv Hm;
    assert (length (sim_procs s) = length l) as Hl
      by (apply statics_length, Hinv);
    simpl; rewrite Hl;
    destruct (Nat.ltb_spec (sim_completed s) (length l)) as [Hlt|Hge];
    eauto.
  - destruct (pre_sim_body_inv s D Hinv Hlt) as (D' & _ & Hdec). lia.
  - destruct (pre_sim_body_inv s D Hinv Hlt) as (D' & Hinv' & Hdec).
    destruct (V1.pre_sim_body key why s) as [evs s1]. simpl in *.
    destruct (IH s1 D' Hinv' ltac:(lia)) as [[evs' s2] E].
    rewrite E. simpl. eauto.
Qed.

Lemma sim_pre_ok :
  l <> [] ->
  exists fuel evs ev,
    V1.sim_pre key why fuel l = Some evs /\ last evs = Some ev
    /\ eventMessage ev = all_complete /\ runningProcess ev = None.
Proof.
  intros Hne.
  assert (pre_sim_inv l (mkSim (cloneProcesses l) 0 0 None) []) as Hinit.
  { destruct Hvalid as [Hv _]. rewrite Forall_lookup in Hv.
    unfold pre_sim_inv; simpl. split; [reflexivity|].
    split; [intros i p Hp; destruct (Hv _ _ Hp); lia|].
    split; [constructor|]. split; [reflexivity|].
    intros i. split; [intros Hi; inversion Hi|].
    intros (p & Hp & Hz). destruct (Hv _ _ Hp). lia. }
  destruct (pre_sim_loop_terminates _ _ _ Hinit (le_n _)) as [r E].
  eexists. exists (V1.finish r). eexists.
  split; [unfold V1.sim_pre; destruct l; [easy|]; rewrite E; reflexivity|].
  unfold V1.finish. rewrite last_snoc. repeat split.
Qed.

End PreemptiveStepwise.

Section RoundRobinStepwise.

Variable q : Z.
Variable l : list Process.
Hypothesis Hvalid : valid_input l.

Lemma rr_sim_loop_terminates : forall fuel s D,
  rr_inv l s D (rr_time s) false -> (rr_measure l s <= fuel)%nat ->
  exists r, V1.rr_sim_loop q fuel s = Some r.
Proof.
  induction fuel as [|fuel IH]; intros s D Hinv Hm;
    assert (length (rr_procs s) = length l) as Hl
      by (apply statics_length, Hinv);
    simpl; rewrite Hl;
    destruct (Nat.ltb_spec (rr_completed s) (length l)) as [Hlt|Hge];
    eauto.
  - unfold rr_measure in Hm. lia.
  - destruct (core_body_inv _ false q l keeps_schedule_completed
                (proj1 Hvalid) s D Hinv Hlt) as (D' & Hinv' & _ & Hdec & _).
    rewrite <- rr_sim_body_core in Hinv', Hdec.
    destruct (V1.rr_sim_body q s) as [ev s1]. simpl in *.
    destruct (IH s1 D' Hinv' ltac:(lia)) as [[evs' s2] E].
    rewrite E. simpl. eauto.
Qed.

Lemma simulateRoundRobin_ok :
  l <> [] ->
  exists fuel evs ev,
    V1.simulateRoundRobin fuel l q = Some evs /\ last evs = Some ev
    /\ eventMessage ev = all_complete /\ runningProcess ev = None.
Proof.
  intros Hne.
  destruct (rr_sim_loop_terminates _ _ _
              (rr_init_inv l (proj1 Hvalid)) (le_n _)) as [r E].
  eexists. exists (r.1 ++ [final_event (rr_procs r.2) (rr_time r.2)]).
  eexists.
  split; [unfold V1.simulateRoundRobin; destruct l; [easy|]; rewrite E;
          reflexivity|].
  rewrite last_snoc. repeat split.
Qed.

End RoundRobinStepwise.

(** C10 (amended): for every non-empty valid input and every policy the
    generator yields finitely many events, the last of which has the
    message "All processes complete." (and no running process); for the
    empty list it returns at once and yields no event at all. *)
Theorem C10_generators_end_with_all_complete (pol : Policy)
    (timeQuantum : Z) (l : list Process) :
  valid_input l -> l <> [] ->
  (exists fuel evs ev,
     run_stepwise pol timeQuantum fuel l = Some evs
     /\ last evs = Some ev
     /\ eventMessage ev = all_complete /\ runningProcess ev = None)
  /\ forall fuel, run_stepwise pol timeQuantum fuel [] = Some [].
Proof.
  intros Hv Hne. split; [|destruct pol; reflexivity].
  destruct pol; simpl.
  - destruct (simulateFCFS_last l Hne) as (ev & H). exists 0%nat. eauto.
  - apply sim_np_ok; auto.
  - apply sim_pre_ok; auto.
  - apply sim_np_ok; auto.
  - apply sim_pre_ok; auto.
  - apply simulateRoundRobin_ok; auto.
Qed.

Lemma C10_generators_end_with_all_complete_witness :
  valid_input example_input /\ example_input <> []
  /\ (exists fuel evs ev,
        run_stepwise RoundRobin 2 fuel example_input = Some evs
        /\ last evs = Some ev
        /\ eventMessage ev = all_complete /\ runningProcess ev = None)
  /\ forall fuel, run_stepwise RoundRobin 2 fuel [] = Some [].
Proof.
  split; [exact example_input_valid|].
  split; [discriminate|].
  apply (C10_generators_end_with_all_complete RoundRobin 2 example_input).
  - exact example_input_valid.
  - discriminate.
Defined.

(** C10 as stated fails on the empty list: the generator returns without
    yielding, so there is no final event. *)
Lemma C10_empty_input_yields_nothing :
  ~ (forall pol q l, valid_input l ->
       exists fuel evs ev,
         run_stepwise pol q fuel l = Some evs /\ last evs = Some ev
         /\ eventMessage ev = all_complete).
Proof.
  intros H.
  destruct (H FCFS 1 []) as (fuel & evs & ev & Hrun & Hlast & _).
  - split; constructor.
  - simpl in Hrun. injection Hrun as <-. discriminate Hlast.
Qed.

(** * The application *)

(** ** The process list of [src/App.tsx] *)

Lemma fold_max_ge (l : list Z) (x y : Z) :
  (y <= x \/ y ∈ l) -> y <= fold_left Z.max l x.
Proof.
  revert x. induction l as [|a l IH]; intros x [H|H]; simpl.
  - exact H.
  - inversion H.
  - apply IH. left. lia.
  - apply elem_of_cons in H as [->|H]; apply IH; [left; lia|right; exact H].
Qed.

Lemma Math_max_ge (l : list Z) (y : Z) : y ∈ l -> y <= Math_max l.
Proof.
  destruct l as [|x l]; [inversion 1|]. intros H. simpl.
  apply fold_max_ge. apply elem_of_cons in H as [->|H]; [left; lia|auto].
Qed.

Lemma new_id_above (l : list Process) p : p ∈ l -> id p < new_id l.
Proof.
  intros H. unfold new_id.
  destruct l as [|x l]; [inversion H|]. simpl.
  pose proof (Math_max_ge (id <$> x :: l) (id p)
                ltac:(apply list_elem_of_fmap; eauto)) as Hm.
  apply Z.lt_succ_r in Hm. exact Hm.
Qed.

Lemma new_id_positive (l : list Process) :
  Forall (fun p => 1 <= id p) l -> 1 <= new_id l.
Proof.
  intros H. unfold new_id. destruct l as [|x l]; simpl; [lia|].
  apply Forall_cons in H as [H _].
  pose proof (fold_max_ge (id <$> l) (id x) (id x) ltac:(left; lia)) as Hm.
  change (list_fmap Process Z id l) with (id <$> l). lia.
Qed.

(** The lookup of the colour is within the array for every id from 1
    on. *)
Lemma color_at_in_bounds (colors : list string) (newId : Z) :
  colors <> [] -> 1 <= newId -> is_Some (color_at colors newId).
Proof.
  intros Hne Hid. unfold color_at. destruct colors as [|c cs] eqn:E; [easy|].
  rewrite <- E. clear Hne.
  assert (0 < Z.of_nat (length colors)) as Hlen by (rewrite E; simpl; lia).
  pose proof (Z.rem_bound_pos (newId - 1) (Z.of_nat (length colors))
                ltac:(lia) Hlen) as [H0 H1].
  destruct (Z.ltb_spec (Z.rem (newId - 1) (Z.of_nat (length colors))) 0);
    [lia|].
  apply lookup_lt_is_Some. lia.
Qed.

Lemma names_of_created_nodup (l : list Process) :
  Forall as_created l -> NoDup (id <$> l) -> NoDup (name <$> l).
Proof.
  intros Hc Hn.
  assert (name <$> l = (fun z => ("P" +:+ pretty z)%string) <$> (id <$> l))
    as ->.
  { rewrite <- list_fmap_compose. apply Forall_fmap_ext_1.
    eapply Forall_impl; [exact Hc|]. intros p (_ & Hp & _). exact Hp. }
  apply NoDup_fmap_2; [|exact Hn].
  intros x y H. injection H as H. exact (pretty_Z_inj x y H).
Qed.

Lemma NoDup_fmap_filter {A B} (f : A -> B) (g : A -> bool) (l : list A) :
  NoDup (f <$> l) -> NoDup (f <$> List.filter g l).
Proof.
  induction l as [|x l IH]; simpl; [auto|].
  rewrite NoDup_cons. intros [Hx Hl].
  destruct (g x); [|auto]. simpl. apply NoDup_cons. split; [|auto].
  intros Hin. apply Hx. apply list_elem_of_fmap in Hin as (y & -> & Hy).
  apply list_elem_of_fmap. exists y. split; [reflexivity|].
  apply elem_of_filter_bool in Hy as [Hy _]. exact Hy.
Qed.

Section ProcessList.

Variable PROCESS_COLORS : list string.

Lemma list_inv_add l arrival burst prio err :
  list_inv l ->
  list_inv (app_processes
              (handleAddProcess PROCESS_COLORS arrival burst prio
                                (mkApp l err)).1).
Proof.
  intros (Hv & Hn & Hc). unfold handleAddProcess.
  destruct (isNaN arrival || isNaN burst); [repeat split; assumption|].
  destruct (negative_or_fraction arrival) eqn:Ea; [repeat split; assumption|].
  destruct (not_positive_or_fraction burst) eqn:Eb;
    [repeat split; assumption|].
  destruct (match prio with
            | Some v => isNaN v || negative_or_fraction v
            | None => false
            end) eqn:Ep; [repeat split; assumption|].
  simpl.
  destruct arrival as [|a|]; try discriminate.
  destruct burst as [|b|]; try discriminate.
  simpl in Ea, Eb. rewrite orb_false_r in Ea, Eb.
  apply Z.ltb_ge in Ea. apply Z.leb_gt in Eb.
  split; [|split].
  - apply Forall_app. split; [exact Hv|]. apply Forall_singleton.
    constructor; simpl; auto; try lia.
    intros v Hv'. destruct prio as [[|z|]|]; try discriminate.
    simpl in Ep, Hv'. rewrite orb_false_r in Ep. apply Z.ltb_ge in Ep.
    injection Hv' as <-. exact Ep.
  - rewrite fmap_app. apply NoDup_app. split; [exact Hn|]. split.
    + intros x Hx Hx'. simpl in Hx'. apply list_elem_of_singleton in Hx'.
      apply list_elem_of_fmap in Hx as (p & -> & Hp).
      pose proof (new_id_above l p Hp). lia.
    + simpl. apply NoDup_singleton.
  - apply Forall_app. split; [exact Hc|]. apply Forall_singleton.
    unfold as_created; simpl. repeat split; auto.
    apply new_id_positive. eapply Forall_impl; [exact Hc|].
    intros p (H & _). exact H.
Qed.

Lemma list_inv_remove l idToRemove :
  list_inv l -> list_inv (handleRemoveProcess idToRemove l).
Proof.
  intros (Hv & Hn & Hc). unfold handleRemoveProcess.
  assert (forall P : Process -> Prop,
            Forall P l ->
            Forall P (List.filter (fun p => negb (id p =? idToRemove)) l))
    as Hall.
  { intros P HP. apply Forall_forall. intros x Hx.
    apply elem_of_filter_bool in Hx as [Hx _].
    rewrite Forall_forall in HP. auto. }
  split; [apply Hall; exact Hv|].
  split; [|apply Hall; exact Hc].
  apply NoDup_fmap_filter. exact Hn.
Qed.

Lemma list_inv_reorder (l reorderedProcesses : list Process) :
  list_inv l -> reorderedProcesses ≡ₚ l -> list_inv reorderedProcesses.
Proof.
  intros (Hv & Hn & Hc) Hp.
  split; [rewrite Hp; exact Hv|].
  split; [rewrite Hp; exact Hn|rewrite Hp; exact Hc].
Qed.

Lemma list_inv_priorities l (priorities : gmap Z number) :
  list_inv l -> list_inv (handlePrioritySubmit priorities l).
Proof.
  intros (Hv & Hn & Hc). unfold handlePrioritySubmit.
  set (f := fun p : Process => _).
  assert (forall p, id (f p) = id p /\ name (f p) = name p
                    /\ metrics3 (f p) = metrics3 p) as Hf.
  { intros p. unfold f. destruct (priorities !! id p) as [v|]; [|auto].
    destruct (nonnegative_integer v); auto. }
  split; [|split].
  - apply Forall_fmap. eapply Forall_impl; [exact Hv|].
    intros p Hp. simpl. unfold f.
    destruct (priorities !! id p) as [v|]; [|exact Hp].
    destruct (nonnegative_integer v) eqn:E; [|exact Hp].
    destruct Hp. constructor; simpl; auto.
    intros w [= <-]. destruct v as [|z|]; try discriminate.
    simpl in *. rewrite andb_true_r in E. apply Z.leb_le in E. exact E.
  - rewrite <- list_fmap_compose.
    erewrite list_fmap_ext; [exact Hn|]. intros i p _. simpl. apply Hf.
  - apply Forall_fmap. eapply Forall_impl; [exact Hc|].
    intros p (H1 & H2 & H3 & H4 & H5). simpl.
    destruct (Hf p) as (Ei & En & Em). unfold metrics3 in Em.
    unfold as_created. rewrite Ei, En.
    repeat split; auto; congruence.
Qed.

Lemma reachable_inv l : reachable PROCESS_COLORS l -> list_inv l.
Proof.
  induction 1 as [|l arrival burst prio err _ IH|l i _ IH|l l' _ IH Hp
                  |l pr _ IH].
  - repeat split; constructor.
  - apply list_inv_add. exact IH.
  - apply list_inv_remove. exact IH.
  - eapply list_inv_reorder; eauto.
  - apply list_inv_priorities. exact IH.
Qed.

End ProcessList.

(** X1: every list of processes the handlers of the application can build
    ([handleAddProcess], [handleRemoveProcess], [handleReorderProcesses],
    [handlePrioritySubmit], [handleReset]) is a valid input of the engines:
    the fields are in range and the ids are unique.  Moreover the names
    are pairwise distinct, every id is 1 or more, the name is [P] followed
    by the id, and the three metrics are 0. *)
Theorem X1_application_builds_valid_inputs (PROCESS_COLORS : list string)
    (l : list Process) :
  reachable PROCESS_COLORS l ->
  valid_input l /\ NoDup (name <$> l) /\ Forall as_created l.
Proof.
  intros H. destruct (reachable_inv _ _ H) as (Hv & Hn & Hc).
  split; [split; assumption|].
  split; [apply names_of_created_nodup; assumption|exact Hc].
Qed.

Lemma X1_application_builds_valid_inputs_witness :
  let colors := ["bg-red-500"; "bg-blue-500"]%string in
  let l := [new_process colors 1 0 5 None; new_process colors 2 1 3 (Some 2)] in
  reachable colors l
  /\ valid_input l /\ NoDup (name <$> l) /\ Forall as_created l.
Proof.
  intros colors l.
  assert (reachable colors l) as H.
  { exact (reach_add colors _ (JInt 1) (JInt 3) (Some (JInt 2)) ""
             (reach_add colors _ (JInt 0) (JInt 5) None ""
                (reach_initial colors))). }
  split; [exact H|].
  exact (X1_application_builds_valid_inputs colors l H).
Defined.

(** X2: [handleAddProcess] returns [true] exactly when the arrival time is
    an integer that is not negative, the burst time an integer above 0 and
    the priority [null] or an integer that is not negative.  When it returns
    [false] the list is unchanged and an error message is set; when it
    returns [true] the message is cleared and exactly one process is
    appended: it has the values given, its remaining time is its burst
    time, and its id is larger than every id of the list. *)
Theorem X2_handleAddProcess_validates (PROCESS_COLORS : list string)
    (arrival burst : number) (prio : option number) (st : AppState) :
  let r := handleAddProcess PROCESS_COLORS arrival burst prio st in
  (r.2 = true <->
   exists a b,
     arrival = JInt a /\ 0 <= a /\ burst = JInt b /\ 0 < b
     /\ (prio = None \/ exists v, prio = Some (JInt v) /\ 0 <= v))
  /\ (r.2 = false ->
      app_processes r.1 = app_processes st /\ app_error r.1 <> ""%string)
  /\ (r.2 = true ->
      app_error r.1 = ""%string
      /\ exists p,
          app_processes r.1 = app_processes st ++ [p]
          /\ JInt (arrivalTime p) = arrival /\ JInt (burstTime p) = burst
          /\ (JInt <$> priority p) = prio
          /\ remainingTime p = burstTime p /\ state p = NotArrived
          /\ forall q, q ∈ app_processes st -> id q < id p).
Proof.
  assert (forall (P : Prop) (m : string) ,
            ~ P -> m <> ""%string ->
            let r := (mkApp (app_processes st) m, false) in
            (r.2 = true <-> P)
            /\ (r.2 = false ->
                app_processes r.1 = app_processes st
                /\ app_error r.1 <> ""%string)
            /\ (r.2 = true ->
      app_error r.1 = ""%string
      /\ exists p,
          app_processes r.1 = app_processes st ++ [p]
          /\ JInt (arrivalTime p) = arrival /\ JInt (burstTime p) = burst
          /\ (JInt <$> priority p) = prio
          /\ remainingTime p = burstTime p /\ state p = NotArrived
          /\ forall q, q ∈ app_processes st -> id q < id p)) as Hrej.
  { intros P m HP Hm. simpl. split; [split; [discriminate|intros; tauto]|].
    split; [auto|discriminate]. }
  unfold handleAddProcess.
  destruct arrival as [|a|]; simpl;
    try (apply Hrej; [intros (?&?&?&?); discriminate|discriminate]);
    try (destruct (isNaN burst);
         apply Hrej; (intros (?&?&?&?); discriminate) || discriminate).
  destruct burst as [|b|]; simpl;
    try (apply Hrej; [intros (?&?&?&?&?&?); discriminate|discriminate]);
    try (destruct ((a <? 0) || false);
         apply Hrej; (intros (?&?&?&?&?&?); discriminate) || discriminate).
  rewrite !orb_false_r.
  destruct (Z.ltb_spec a 0);
    [apply Hrej; [intros (?&?&[= <-]&?&?); lia|discriminate]|].
  destruct (Z.leb_spec b 0);
    [apply Hrej; [intros (?&?&?&?&[= <-]&?&?); lia|discriminate]|].
  destruct prio as [[|v|]|]; simpl;
    try (apply Hrej; [intros (?&?&?&?&?&?&[?|(?&?&?)]); discriminate
                     |discriminate]).
  - rewrite orb_false_r. destruct (Z.ltb_spec v 0).
    + apply Hrej; [|discriminate].
      intros (?&?&?&?&?&?&[?|(?&[= <-]&?)]); [discriminate|lia].
    + split; [split; [intros _; exists a, b; eauto 10|reflexivity]|].
      split; [discriminate|]. intros _. split; [reflexivity|].
      eexists. split; [reflexivity|]. simpl. repeat split.
      apply new_id_above.
  - split; [split; [intros _; exists a, b; eauto 10|reflexivity]|].
    split; [discriminate|]. intros _. split; [reflexivity|].
    eexists. split; [reflexivity|]. simpl. repeat split.
    apply new_id_above.
Qed.

(** X3: on every list the application can build, [handleAddProcess] reads
    the colour of the new process within the bounds of [PROCESS_COLORS]
    (an array that is not empty): the index [(newId - 1) % length] is
    never negative. *)
Theorem X3_colour_lookup_in_bounds (PROCESS_COLORS : list string)
    (l : list Process) :
  PROCESS_COLORS <> [] -> reachable PROCESS_COLORS l ->
  exists c, color_at PROCESS_COLORS (new_id l) = Some c
            /\ c ∈ PROCESS_COLORS.
Proof.
  intros Hne H. destruct (reachable_inv _ _ H) as (_ & _ & Hc).
  destruct (color_at_in_bounds PROCESS_COLORS (new_id l) Hne) as [c Ec].
  { apply new_id_positive. eapply Forall_impl; [exact Hc|].
    intros p (Hp & _). exact Hp. }
  exists c. split; [exact Ec|].
  unfold color_at in Ec. destruct PROCESS_COLORS as [|c0 cs]; [easy|].
  destruct (_ <? 0); [discriminate|].
  eapply list_elem_of_lookup_2. exact Ec.
Qed.

Lemma X3_colour_lookup_in_bounds_witness :
  let colors := ["bg-red-500"; "bg-blue-500"]%string in
  let l := [new_process colors 1 0 5 None] in
  colors <> [] /\ reachable colors l
  /\ exists c, color_at colors (new_id l) = Some c /\ c ∈ colors.
Proof.
  intros colors l.
  assert (colors <> []) as Hne by discriminate.
  assert (reachable colors l) as H.
  { exact (reach_add colors _ (JInt 0) (JInt 5) None ""
             (reach_initial colors)). }
  split; [exact Hne|]. split; [exact H|].
  exact (X3_colour_lookup_in_bounds colors l Hne H).
Defined.

Lemma filter_nil_bool {A} (f : A -> bool) (l : list A) :
  Forall (fun x => f x = false) l -> List.filter f l = [].
Proof.
  induction 1 as [|x l Hx _ IH]; simpl; [reflexivity|].
  rewrite Hx. exact IH.
Qed.

(** X4: when the map handed to [handlePrioritySubmit] gives an integer
    that is not negative to the id of every process without priority (what
    the modal collects for the processes of [processesWithoutPriority]),
    the list it computes has no process without priority left; it has the
    processes of the old list in the same order, with every field other
    than the priority unchanged, and a process whose id is not in the map
    is unchanged. *)
Theorem X4_priority_submit_fills_missing (priorities : gmap Z number)
    (l : list Process) :
  (forall p, p ∈ processesWithoutPriority l ->
     exists v, priorities !! id p = Some (JInt v) /\ 0 <= v) ->
  let l' := handlePrioritySubmit priorities l in
  processesWithoutPriority l' = []
  /\ (fun p => (statics p, remainingTime p, color p, metrics3 p, state p))
       <$> l'
     = (fun p => (statics p, remainingTime p, color p, metrics3 p, state p))
         <$> l
  /\ (forall (i : nat) p, l !! i = Some p -> priorities !! id p = None ->
        l' !! i = Some p).
Proof.
  intros H l'. unfold l', handlePrioritySubmit.
  split; [|split].
  - apply filter_nil_bool, Forall_fmap, Forall_forall. intros p Hp. simpl.
    destruct (priority p) as [v|] eqn:Ep.
    + destruct (priorities !! id p) as [w|]; [|rewrite Ep; reflexivity].
      destruct (nonnegative_integer w); [reflexivity|rewrite Ep; reflexivity].
    + destruct (H p) as (v & -> & Hv).
      { apply elem_of_filter_bool. rewrite Ep. auto. }
      simpl. rewrite andb_true_r.
      destruct (Z.leb_spec 0 v); [reflexivity|lia].
  - rewrite <- list_fmap_compose. apply list_fmap_ext. intros i p _. simpl.
    destruct (priorities !! id p) as [w|]; [|reflexivity].
    destruct (nonnegative_integer w); reflexivity.
  - intros i p Hp Hn. rewrite list_lookup_fmap, Hp. simpl. rewrite Hn.
    reflexivity.
Qed.

Lemma X4_priority_submit_fills_missing_witness :
  let l := [proc 1 "P1" 0 5; set_priority (proc 2 "P2" 1 3) 4] in
  let priorities : gmap Z number := {[ 1 := JInt 2 ]} in
  (forall p, p ∈ processesWithoutPriority l ->
     exists v, priorities !! id p = Some (JInt v) /\ 0 <= v)
  /\ processesWithoutPriority (handlePrioritySubmit priorities l) = []
  /\ priority <$> handlePrioritySubmit priorities l = [Some 2; Some 4].
Proof.
  intros l priorities.
  assert (forall p, p ∈ processesWithoutPriority l ->
            exists v, priorities !! id p = Some (JInt v) /\ 0 <= v) as H.
  { intros p Hp. apply list_elem_of_singleton in Hp as ->.
    exists 2. split; [reflexivity|lia]. }
  split; [exact H|].
  split; [exact (proj1 (X4_priority_submit_fills_missing priorities l H))|].
  reflexivity.
Defined.

(** ** [combineGanttSegments] *)

Lemma names_alternate_last (l : list CombinedGanttSegment) a a' :
  names_alternate (l ++ [a]) -> cs_processName a' = cs_processName a ->
  names_alternate (l ++ [a']).
Proof.
  intros H E. induction l as [|x l IH]; simpl in *; [exact I|].
  destruct l as [|y l]; simpl in *.
  - destruct H as [H _]. split; [congruence|exact I].
  - destruct H as [H1 H2]. split; [exact H1|]. apply IH. exact H2.
Qed.

Lemma names_alternate_snoc (l : list CombinedGanttSegment) a b :
  names_alternate (l ++ [a]) -> cs_processName a <> cs_processName b ->
  names_alternate ((l ++ [a]) ++ [b]).
Proof.
  intros H E. induction l as [|x l IH]; simpl in *; [auto|].
  destruct l as [|y l]; simpl in *.
  - destruct H as [H _]. auto.
  - destruct H as [H1 H2]. split; [exact H1|]. apply IH. exact H2.
Qed.

Lemma names_alternate_single (l : list CombinedGanttSegment) b :
  l = [] -> names_alternate (l ++ [b]).
Proof. intros ->. exact I. Qed.

Lemma run_of_extend c entry :
  run_of c -> processName entry = cs_processName c ->
  run_of (mkSegment (cs_processName c) (cs_color c) (cs_start c)
                    (end_ entry) (cs_parts c ++ [entry])).
Proof.
  intros (e & rest & Hp & Hn & Hc & Hs & He & Hall) Hsame.
  exists e, (rest ++ [entry]). simpl. rewrite Hp.
  split; [reflexivity|]. repeat split; auto.
  - rewrite List.last_last. reflexivity.
  - apply Forall_app. split; [exact Hall|].
    apply Forall_singleton. congruence.
Qed.

Lemma run_of_single entry :
  run_of (mkSegment (processName entry) (gcolor entry) (start entry)
                    (end_ entry) [entry]).
Proof. exists entry, []. simpl. repeat split. constructor. Qed.

Lemma combine_loop_spec : forall chartData combined current,
  Forall run_of combined ->
  from_option run_of True current ->
  names_alternate (combined ++ option_list current) ->
  (current = None -> combined = []) ->
  let r := combine_loop chartData combined current in
  concat (cs_parts <$> r)
  = concat (cs_parts <$> combined) ++ from_option cs_parts [] current
    ++ chartData
  /\ Forall run_of r /\ names_alternate r.
Proof.
  induction chartData as [|entry rest IH];
    intros combined current Hc Hcur Ha Hstart; simpl.
  - destruct current as [c|]; simpl in *.
    + rewrite fmap_app, concat_app. simpl. rewrite !app_nil_r.
      split; [reflexivity|]. split; [|exact Ha].
      apply Forall_app. split; [exact Hc|]. apply Forall_singleton, Hcur.
    + rewrite app_nil_r in Ha. rewrite app_nil_r. auto.
  - destruct current as [c|]; simpl in *.
    + destruct (String.eqb_spec (cs_processName c) (processName entry))
        as [E|E].
      * destruct (IH combined
                    (Some (mkSegment (cs_processName c) (cs_color c)
                             (cs_start c) (end_ entry)
                             (cs_parts c ++ [entry]))) Hc)
          as (H1 & H2 & H3).
        { simpl. apply run_of_extend; auto. }
        { simpl. eapply names_alternate_last; [exact Ha|reflexivity]. }
        { discriminate. }
        split; [|auto]. rewrite H1. simpl. rewrite <- !app_assoc. reflexivity.
      * destruct (IH (combined ++ [c])
                    (Some (mkSegment (processName entry) (gcolor entry)
                             (start entry) (end_ entry) [entry])))
          as (H1 & H2 & H3).
        { apply Forall_app. split; [exact Hc|]. apply Forall_singleton, Hcur. }
        { simpl. apply run_of_single. }
        { simpl. apply names_alternate_snoc; [exact Ha|exact E]. }
        { discriminate. }
        split; [|auto]. rewrite H1. simpl.
        rewrite fmap_app, concat_app. simpl.
        rewrite app_nil_r, <- !app_assoc. reflexivity.
    + destruct (IH combined
                  (Some (mkSegment (processName entry) (gcolor entry)
                           (start entry) (end_ entry) [entry])) Hc)
        as (H1 & H2 & H3).
      { simpl. apply run_of_single. }
      { simpl. rewrite (Hstart eq_refl). exact I. }
      { discriminate. }
      split; [|auto]. rewrite H1. reflexivity.
Qed.

Lemma last_cons_default {A} (l : list A) (a d : A) :
  List.last (a :: l) d = List.last l a.
Proof.
  revert a d. induction l as [|b l IH]; intros a d; [reflexivity|].
  change (List.last (a :: b :: l) d) with (List.last (b :: l) d).
  rewrite (IH b d). symmetry. apply IH.
Qed.

Lemma ordered_from_run : forall rest e lo X,
  ordered_from lo ((e :: rest) ++ X) ->
  lo <= start e
  /\ start e < end_ (List.last rest e)
  /\ ordered_from (end_ (List.last rest e)) X
  /\ zsum (fun x => end_ x - start x) (e :: rest)
     <= end_ (List.last rest e) - start e
  /\ Forall (fun x => start e <= start x /\ end_ x <= end_ (List.last rest e))
            (e :: rest).
Proof.
  induction rest as [|e' rest IH]; intros e lo X H.
  - simpl in *. destruct H as (H1 & H2 & H3).
    repeat split; auto; try lia. apply Forall_singleton. lia.
  - simpl in H. destruct H as (H1 & H2 & H3).
    destruct (IH e' (end_ e) X H3) as (I1 & I2 & I3 & I4 & I5).
    rewrite last_cons_default.
    split; [exact H1|]. split; [lia|]. split; [exact I3|].
    split.
    + change (zsum (fun x => end_ x - start x) (e :: e' :: rest))
        with (end_ e - start e
              + zsum (fun x => end_ x - start x) (e' :: rest)).
      lia.
    + apply Forall_cons. split; [lia|].
      eapply Forall_impl; [exact I5|]. simpl. intros x [? ?]. lia.
Qed.

Lemma runs_ordered : forall segs lo,
  Forall run_of segs ->
  ordered_from lo (concat (cs_parts <$> segs)) ->
  ordered_from lo (drawn <$> segs)
  /\ Forall (fun c =>
               run_time c <= cs_end c - cs_start c
               /\ Forall (fun e => cs_start c <= start e
                                   /\ end_ e <= cs_end c) (cs_parts c)) segs.
Proof.
  induction segs as [|c segs IH]; intros lo Hr Ho; simpl; [auto|].
  apply Forall_cons in Hr as [(e & rest & Hp & Hn & Hc & Hs & He & Hall) Hr].
  simpl in Ho. rewrite Hp in Ho.
  destruct (ordered_from_run _ _ _ _ Ho) as (H1 & H2 & H3 & H4 & H5).
  destruct (IH _ Hr H3) as [I1 I2].
  rewrite Hs, He. split; [auto|].
  apply Forall_cons. split; [|exact I2].
  unfold run_time. rewrite Hp, Hs, He. auto.
Qed.

Lemma combineGanttSegments_runs (chartData : list GanttEntry) :
  let r := combineGanttSegments chartData in
  concat (cs_parts <$> r) = chartData
  /\ Forall run_of r
  /\ names_alternate r.
Proof.
  unfold combineGanttSegments. destruct chartData as [|e l]; [simpl; auto|].
  apply (combine_loop_spec (e :: l) [] None); simpl; auto.
Qed.

(** X5: [combineGanttSegments] cuts the chart into runs of entries with
    one name.  The parts of the segments, one after the other, are the
    entries of the chart; every segment has the name and the colour of its
    first part, starts where its first part starts and ends where its last
    part ends; two segments that follow each other have different
    names. *)
Theorem X5_combine_groups_runs (chartData : list GanttEntry) :
  let r := combineGanttSegments chartData in
  concat (cs_parts <$> r) = chartData
  /\ Forall run_of r
  /\ names_alternate r.
Proof. exact (combineGanttSegments_runs chartData). Qed.

(** X6: on a chart whose entries are in increasing order and do not
    overlap (what [buildGanttChart] returns), the intervals that are drawn
    for the combined segments are in increasing order and do not overlap
    either; every part lies within the interval of its segment, so the
    interval drawn is at least as long as the time its parts have run (it
    is longer when idle time separates two parts). *)
Theorem X6_combined_segments_ordered (lo : Z) (chartData : list GanttEntry) :
  ordered_from lo chartData ->
  let r := combineGanttSegments chartData in
  ordered_from lo (drawn <$> r)
  /\ Forall (fun c =>
               run_time c <= cs_end c - cs_start c
               /\ Forall (fun e => cs_start c <= start e
                                   /\ end_ e <= cs_end c) (cs_parts c)) r.
Proof.
  intros Ho r.
  destruct (combineGanttSegments_runs chartData) as (H1 & H2 & _).
  apply runs_ordered; [exact H2|]. unfold r. rewrite H1. exact Ho.
Qed.

Lemma X6_combined_segments_ordered_witness :
  let chart := [mkGanttEntry "P1" 0 2 "a"; mkGanttEntry "P1" 3 4 "a";
                mkGanttEntry "P2" 4 6 "b"] in
  ordered_from 0 chart
  /\ ordered_from 0 (drawn <$> combineGanttSegments chart)
  /\ (run_time <$> combineGanttSegments chart) = [3; 2]
  /\ segments (drawn <$> combineGanttSegments chart)
     = [("P1", 0, 4); ("P2", 4, 6)]%string.
Proof.
  intros chart.
  assert (ordered_from 0 chart) as H by (simpl; lia).
  split; [exact H|].
  split; [exact (proj1 (X6_combined_segments_ordered 0 chart H))|].
  split; reflexivity.
Defined.

(** ** The chart of the live simulation *)

Lemma live_run_chart (evs : list TickEvent) (st : LiveSimulationState) :
  ls_ganttChart (fold_left live_step evs st)
  = fold_left live_chart evs (ls_ganttChart st).
Proof.
  revert st. induction evs as [|ev evs IH]; intros st; [reflexivity|].
  simpl. rewrite IH. reflexivity.
Qed.

Lemma one_per_tick_cons t0 ev (evs : list TickEvent) :
  one_per_tick t0 (ev :: evs) -> time ev = t0 /\ one_per_tick (t0 + 1) evs.
Proof.
  intros H. split.
  - rewrite (H 0%nat ev eq_refl). lia.
  - intros i e He. rewrite (H (S i) e He). lia.
Qed.

Lemma live_chart_builder : forall (evs : list TickEvent) i chart cur,
  one_per_tick i evs ->
  Forall (fun e => end_ e <= i) chart ->
  (cur = None -> Forall (fun e => end_ e < i) chart) ->
  (forall c, cur = Some c -> end_ c = i) ->
  fold_left live_chart evs (chart ++ option_list cur)
  = V1.buildGanttChart_loop (timeline_of evs) i chart cur.
Proof.
  induction evs as [|ev evs IH]; intros i chart cur Htick Hle Hlt Hcur.
  { simpl. destruct cur; simpl; [reflexivity|apply app_nil_r]. }
  apply one_per_tick_cons in Htick as [Ht Htick].
  assert (forall (P : GanttEntry -> Prop) c,
            Forall (fun e => end_ e <= i) chart -> end_ c = i ->
            Forall (fun e => end_ e <= i + 1) (chart ++ [c])) as Hpush.
  { intros _ c H E. apply Forall_app. split.
    - eapply Forall_impl; [exact H|]. simpl. intros; lia.
    - apply Forall_singleton. lia. }
  assert (Forall (fun e => end_ e <= i + 1) chart) as Hle'.
  { eapply Forall_impl; [exact Hle|]. simpl. intros; lia. }
  change (fold_left live_chart (ev :: evs) (chart ++ option_list cur))
    with (fold_left live_chart evs (live_chart (chart ++ option_list cur) ev)).
  change (timeline_of (ev :: evs))
    with ((info_of <$> runningProcess ev) :: timeline_of evs).
  unfold live_chart. rewrite Ht.
  destruct (runningProcess ev) as [running|]; simpl.
  - destruct cur as [c|]; simpl.
    + rewrite last_snoc. rewrite (Hcur c eq_refl), Z.eqb_refl, andb_true_r.
      destruct (String.eqb (processName c) (name running)).
      * rewrite length_app. simpl.
        replace (length chart + 1 - 1)%nat with (length chart + 0)%nat by lia.
        rewrite insert_app_r. simpl.
        apply (IH (i + 1) chart (Some (set_end c (i + 1)))); auto.
        { discriminate. }
        { intros c' [= <-]. reflexivity. }
      * apply (IH (i + 1) (chart ++ [c])
                 (Some (mkGanttEntry (name running) i (i + 1)
                                     (color running)))); auto.
        { apply (Hpush (fun _ => True)); auto. }
        { discriminate. }
        { intros c' [= <-]. reflexivity. }
    + rewrite app_nil_r.
      assert (match last chart with
              | Some lastEntry =>
                  if String.eqb (processName lastEntry) (name running)
                     && (end_ lastEntry =? i)
                  then <[(length chart - 1)%nat :=
                           set_end lastEntry (i + 1)]> chart
                  else chart ++ [mkGanttEntry (name running) i (i + 1)
                                              (color running)]
              | None => chart ++ [mkGanttEntry (name running) i (i + 1)
                                               (color running)]
              end
              = chart ++ [mkGanttEntry (name running) i (i + 1)
                                       (color running)]) as ->.
      { destruct (last chart) as [lastEntry|] eqn:El; [|reflexivity].
        assert (end_ lastEntry < i) as Hl.
        { specialize (Hlt eq_refl). rewrite Forall_forall in Hlt.
          apply Hlt. apply last_Some_elem_of. exact El. }
        destruct (Z.eqb_spec (end_ lastEntry) i); [lia|].
        rewrite andb_false_r. reflexivity. }
      apply (IH (i + 1) chart
               (Some (mkGanttEntry (name running) i (i + 1)
                                   (color running)))); auto.
      { discriminate. }
      { intros c' [= <-]. reflexivity. }
  - destruct cur as [c|]; simpl.
    + rewrite <- (app_nil_r (chart ++ [c])) at 1.
      apply (IH (i + 1) (chart ++ [c]) None); auto.
      { apply (Hpush (fun _ => True)); auto. }
      { intros _. apply Forall_app. split.
        - eapply Forall_impl; [exact Hle|]. simpl. intros; lia.
        - apply Forall_singleton. rewrite (Hcur c eq_refl). lia. }
      { discriminate. }
    + apply (IH (i + 1) chart None); auto.
      { intros _. eapply Forall_impl; [exact (Hlt eq_refl)|].
        simpl. intros; lia. }
      { discriminate. }
Qed.

(** X7: when the generator yields one event per tick, from tick 0 on,
    the chart [step] accumulates during the live simulation is the chart
    [buildGanttChart] returns for the timeline of the processes that run
    at these events. *)
Theorem X7_live_chart_is_built_chart (algorithmName : string)
    (procs : list Process) (evs : list TickEvent) :
  one_per_tick 0 evs ->
  ls_ganttChart (live_run algorithmName procs evs)
  = V1.buildGanttChart (timeline_of evs).
Proof.
  intros H. unfold live_run. rewrite live_run_chart. simpl.
  destruct evs as [|ev evs]; [reflexivity|].
  apply (live_chart_builder (ev :: evs) 0 [] None); auto.
  discriminate.
Qed.

Lemma X7_live_chart_is_built_chart_witness :
  let p := proc 1 "P1" 0 2 in
  let evs := [mkEvent 0 (Some p) [] [p] "a"; mkEvent 1 None [] [p] "";
              mkEvent 2 (Some p) [] [p] "b"] in
  one_per_tick 0 evs
  /\ ls_ganttChart (live_run "FCFS" [p] evs)
     = V1.buildGanttChart (timeline_of evs)
  /\ segments (ls_ganttChart (live_run "FCFS" [p] evs))
     = [("P1", 0, 1); ("P1", 2, 3)]%string.
Proof.
  intros p evs.
  assert (one_per_tick 0 evs) as H.
  { intros [|[|[|i]]] ev Hev; simpl in Hev;
      [injection Hev as <-; reflexivity..|destruct i; discriminate]. }
  split; [exact H|].
  split; [exact (X7_live_chart_is_built_chart "FCFS" [p] evs H)|reflexivity].
Defined.

(** ** The generators that yield one event per tick *)

Lemma one_per_tick_app t0 (a b : list TickEvent) :
  one_per_tick t0 a -> one_per_tick (t0 + Z.of_nat (length a)) b ->
  one_per_tick t0 (a ++ b).
Proof.
  intros Ha Hb i ev H. apply lookup_app_Some in H as [H|[Hle H]].
  - apply Ha. exact H.
  - rewrite (Hb _ _ H). lia.
Qed.

Lemma one_per_tick_single t0 ev : time ev = t0 -> one_per_tick t0 [ev].
Proof.
  intros E [|i] e H; [|destruct i; discriminate].
  injection H as <-. lia.
Qed.



Lemma rr_sim_body_time q s :
  time (V1.rr_sim_body q s).1 = rr_time s
  /\ rr_time (V1.rr_sim_body q s).2 = rr_time s + 1.
Proof.
  split; [|rewrite rr_sim_body_core; apply core_body_time].
  unfold V1.rr_sim_body.
  assert (rr_time (V1.rr_sim_retire q s).2 = rr_time s) as H1.
  { unfold V1.rr_sim_retire.
    destruct (rr_running s) as [i|]; [|reflexivity].
    destruct (rr_procs s !! i) as [rp|]; [|reflexivity].
    destruct (remainingTime rp =? 0); [reflexivity|].
    destruct (rr_quantum s =? q); reflexivity. }
  destruct (V1.rr_sim_retire q s) as [m1 s1]. simpl in H1.
  assert (rr_time (V1.rr_sim_enqueue s1).2 = rr_time s1) as H2.
  { unfold V1.rr_sim_enqueue. destruct (_ <? _)%nat; reflexivity. }
  destruct (V1.rr_sim_enqueue s1) as [m2 s2]. simpl in H2.
  assert (rr_time (V1.rr_sim_dispatch s2).2 = rr_time s2) as H3.
  { unfold V1.rr_sim_dispatch.
    destruct (rr_running s2); [reflexivity|].
    destruct (rr_queue s2); reflexivity. }
  destruct (V1.rr_sim_dispatch s2) as [m3 s3]. simpl in H3.
  assert (rr_time (V1.rr_sim_execute s3) = rr_time s3) as H4.
  { unfold V1.rr_sim_execute.
    destruct (rr_running s3) as [i|]; [|reflexivity].
    destruct (rr_procs s3 !! i); reflexivity. }
  simpl. congruence.
Qed.

Lemma rr_sim_loop_ticks q : forall fuel s evs s',
  V1.rr_sim_loop q fuel s = Some (evs, s') ->
  one_per_tick (rr_time s) evs
  /\ rr_time s' = rr_time s + Z.of_nat (length evs).
Proof.
  induction fuel as [|fuel IH]; intros s evs s' H; simpl in H;
    destruct (rr_completed s <? length (rr_procs s))%nat;
    try discriminate;
    try (injection H as <- <-; split; [intros i ev Hi; inversion Hi|simpl; lia]).
  destruct (rr_sim_body_time q s) as [Ht Ht1].
  destruct (V1.rr_sim_body q s) as [ev s1]. simpl in Ht, Ht1.
  destruct (V1.rr_sim_loop q fuel s1) as [[evs1 s2]|] eqn:E1;
    [|discriminate].
  simpl in H. injection H as <- <-.
  destruct (IH _ _ _ E1) as [H1 H2].
  split.
  - apply (one_per_tick_app _ [ev]); [apply one_per_tick_single; exact Ht|].
    replace (rr_time s + Z.of_nat (length [ev])) with (rr_time s1)
      by (simpl; lia).
    exact H1.
  - rewrite H2, Ht1. simpl. lia.
Qed.




(** * The two engines side by side *)

(** ** Round Robin *)

Lemma erase_lookup (la lb : list Process) (i : nat) pa :
  erase <$> la = erase <$> lb -> la !! i = Some pa ->
  exists pb, lb !! i = Some pb /\ erase pa = erase pb.
Proof.
  intros H Ha.
  assert ((erase <$> lb) !! i = Some (erase pa)) as Hb.
  { rewrite <- H, list_lookup_fmap, Ha. reflexivity. }
  rewrite list_lookup_fmap in Hb.
  destruct (lb !! i) as [pb|]; [|discriminate].
  exists pb. split; [reflexivity|].
  exact (eq_sym (f_equal (from_option (fun x => x) (erase pa)) Hb)).
Qed.

Lemma erase_lookup_none (la lb : list Process) (i : nat) :
  erase <$> la = erase <$> lb -> la !! i = None -> lb !! i = None.
Proof.
  intros H Ha. apply lookup_ge_None. apply lookup_ge_None in Ha.
  rewrite <- (length_fmap erase lb), <- H, length_fmap. exact Ha.
Qed.

Lemma erase_insert (la lb : list Process) (i : nat) xa xb :
  erase <$> la = erase <$> lb -> erase xa = erase xb ->
  erase <$> <[i := xa]> la = erase <$> <[i := xb]> lb.
Proof. intros H E. rewrite !list_fmap_insert, H, E. reflexivity. Qed.

Lemma erase_fields pa pb :
  erase pa = erase pb ->
  id pa = id pb /\ name pa = name pb /\ arrivalTime pa = arrivalTime pb
  /\ burstTime pa = burstTime pb /\ remainingTime pa = remainingTime pb
  /\ color pa = color pb /\ priority pa = priority pb
  /\ metrics3 pa = metrics3 pb.
Proof.
  intros E. unfold erase, set_state, metrics3 in *.
  injection E as -> -> -> -> -> -> -> -> -> ->. repeat split.
Qed.

Lemma imap_pair_fmap {A B} (g : A -> B) (l : list A) : forall h : nat -> nat,
  imap (fun i x => (h i, g x)) l
  = prod_map Datatypes.id g <$> imap (fun i x => (h i, x)) l.
Proof.
  induction l as [|x l IH]; intros h; [reflexivity|].
  simpl. f_equal. apply (IH (h ∘ S)).
Qed.

Lemma indexed_fmap (g : Process -> Process) (l : list Process) :
  indexed (g <$> l) = prod_map Datatypes.id g <$> indexed l.
Proof.
  unfold indexed. rewrite imap_fmap.
  apply (imap_pair_fmap g l (fun i => i)).
Qed.

Lemma filter_fmap_bool {A B} (f : B -> bool) (h : A -> B) (l : list A) :
  List.filter f (h <$> l) = h <$> List.filter (fun x => f (h x)) l.
Proof.
  induction l as [|x l IH]; [reflexivity|].
  rewrite fmap_cons. cbn [List.filter].
  destruct (f (h x)); [rewrite fmap_cons|]; rewrite IH; reflexivity.
Qed.

Lemma sort_insert_fmap {A B} (cmp : B -> B -> Z) (h : A -> B) x (l : list A) :
  sort_insert cmp (h x) (h <$> l)
  = h <$> sort_insert (fun a b => cmp (h a) (h b)) x l.
Proof.
  induction l as [|y l IH]; [reflexivity|].
  rewrite fmap_cons. cbn [sort_insert].
  destruct (0 <? cmp (h x) (h y)); [rewrite fmap_cons, IH|]; reflexivity.
Qed.

Lemma js_sort_fmap {A B} (cmp : B -> B -> Z) (h : A -> B) (l : list A) :
  js_sort cmp (h <$> l) = h <$> js_sort (fun a b => cmp (h a) (h b)) l.
Proof.
  induction l as [|x l IH]; [reflexivity|].
  rewrite fmap_cons. cbn [js_sort].
  rewrite IH. apply sort_insert_fmap.
Qed.

Lemma rr_arrivals_erase (s : RRState) :
  V1.rr_arrivals s
  = V1.rr_arrivals (mkRR (erase <$> rr_procs s) (rr_queue s) (rr_timeline s)
                         (rr_time s) (rr_completed s) (rr_running s)
                         (rr_quantum s)).
Proof.
  unfold V1.rr_arrivals. simpl.
  rewrite indexed_fmap, filter_fmap_bool, js_sort_fmap, <- list_fmap_compose.
  reflexivity.
Qed.

Lemma rr_arrivals_same a b : same_schedule a b ->
  V1.rr_arrivals a = V1.rr_arrivals b.
Proof.
  intros (Hp & _ & Ht & _).
  rewrite (rr_arrivals_erase a), (rr_arrivals_erase b).
  unfold V1.rr_arrivals. simpl. rewrite Hp, Ht. reflexivity.
Qed.

Section Lockstep.

Variables mark1 mark2 : Process -> Process.
Variables push1 push2 : bool.
Variable q : Z.
Hypothesis Hmark1 : only_state mark1.
Hypothesis Hmark2 : only_state mark2.

Lemma core_retire_same a b :
  same_schedule a b ->
  same_schedule (core_retire mark1 (fun z => z) q a)
                (core_retire mark2 (fun z => z) q b).
Proof.
  intros (Hp & Hq & Ht & Hc & Hr & Hqc). unfold core_retire.
  rewrite <- Hr. destruct (rr_running a) as [i|] eqn:Er;
    [|repeat split; auto; congruence].
  destruct (rr_procs a !! i) as [pa|] eqn:Ea.
  - destruct (erase_lookup _ _ _ _ Hp Ea) as (pb & -> & E).
    destruct (erase_fields _ _ E) as (_ & _ & _ & _ & Erem & _).
    rewrite <- Erem, <- Hqc.
    destruct (remainingTime pa =? 0).
    + repeat split; simpl; auto; try congruence.
      apply erase_insert; [exact Hp|].
      change (commit (erase (mark1 pa)) (rr_time a)
              = commit (erase (mark2 pb)) (rr_time b)).
      rewrite Hmark1, Hmark2, E, Ht. reflexivity.
    + destruct (rr_quantum a =? q);
        repeat split; simpl; auto; congruence.
  - rewrite (erase_lookup_none _ _ _ Hp Ea).
    repeat split; auto; congruence.
Qed.

Lemma rr_enqueue_same a b :
  same_schedule a b -> same_schedule (V1.rr_enqueue a) (V1.rr_enqueue b).
Proof.
  intros H. pose proof (rr_arrivals_same _ _ H) as Ha.
  destruct H as (Hp & Hq & Ht & Hc & Hr & Hqc).
  unfold V1.rr_enqueue. repeat split; simpl; auto. congruence.
Qed.

Lemma rr_dispatch_same a b :
  same_schedule a b -> same_schedule (V1.rr_dispatch a) (V1.rr_dispatch b).
Proof.
  intros (Hp & Hq & Ht & Hc & Hr & Hqc). unfold V1.rr_dispatch.
  rewrite <- Hr, <- Hq.
  destruct (rr_running a) eqn:Er; [repeat split; auto; congruence|].
  destruct (rr_queue a) eqn:Eq; repeat split; simpl; auto; congruence.
Qed.

Lemma core_execute_same a b :
  same_schedule a b ->
  same_schedule (core_execute push1 a) (core_execute push2 b).
Proof.
  intros (Hp & Hq & Ht & Hc & Hr & Hqc). unfold core_execute.
  rewrite <- Hr. destruct (rr_running a) as [i|] eqn:Er;
    [|repeat split; simpl; auto; congruence].
  destruct (rr_procs a !! i) as [pa|] eqn:Ea.
  - destruct (erase_lookup _ _ _ _ Hp Ea) as (pb & -> & E).
    destruct (erase_fields _ _ E) as (_ & _ & _ & _ & Erem & _).
    repeat split; simpl; auto; try congruence.
    apply erase_insert; [exact Hp|].
    change (set_remainingTime (erase pa) (remainingTime pa - 1)
            = set_remainingTime (erase pb) (remainingTime pb - 1)).
    rewrite E, Erem. reflexivity.
  - rewrite (erase_lookup_none _ _ _ Hp Ea).
    repeat split; simpl; auto; congruence.
Qed.

Lemma core_body_same a b :
  same_schedule a b ->
  same_schedule (core_body mark1 push1 q a) (core_body mark2 push2 q b).
Proof.
  intros H. unfold core_body.
  apply core_execute_same, rr_dispatch_same, rr_enqueue_same,
    core_retire_same, H.
Qed.

End Lockstep.

Lemma pre_execute_indices mark q s :
  indices_ok s ->
  indices_ok (V1.rr_dispatch (V1.rr_enqueue
                                (core_retire mark (fun z => z) q s))).
Proof.
  intros Hs.
  assert (indices_ok (core_retire mark (fun z => z) q s)) as H1.
  { pose proof Hs as [Hq Hr].
    unfold core_retire. destruct (rr_running s) as [i|] eqn:Er; [|exact Hs].
    destruct (rr_procs s !! i) as [p|] eqn:Ep; [|exact Hs].
    destruct (remainingTime p =? 0).
    - split; simpl; [|discriminate].
      rewrite length_insert. exact Hq.
    - destruct (rr_quantum s =? q); [|exact Hs].
      split; simpl; [|discriminate].
      apply Forall_app. split; [exact Hq|]. apply Forall_singleton.
      apply Hr. reflexivity. }
  set (s1 := core_retire mark (fun z => z) q s) in *.
  assert (indices_ok (V1.rr_enqueue s1)) as H2.
  { destruct H1 as [Hq1 Hr1]. split; simpl; [|exact Hr1].
    apply Forall_app. split; [exact Hq1|].
    apply Forall_forall. intros i Hi.
    apply rr_arrivals_elem in Hi as (p & Hp & _).
    eapply lookup_lt_Some. exact Hp. }
  set (s2 := V1.rr_enqueue s1) in *.
  pose proof H2 as [Hq2 Hr2]. unfold V1.rr_dispatch.
  destruct (rr_running s2) as [i|] eqn:Er; [exact H2|].
  destruct (rr_queue s2) as [|i rest] eqn:Eq; [exact H2|].
  apply Forall_cons in Hq2 as [Hi Hrest].
  split; simpl; [exact Hrest|]. intros j [= <-]. exact Hi.
Qed.

Lemma core_execute_indices push s :
  indices_ok s -> indices_ok (core_execute push s).
Proof.
  intros [Hq Hr]. unfold core_execute.
  destruct (rr_running s) as [i|] eqn:Er; [|split; simpl; [auto|discriminate]].
  destruct (rr_procs s !! i) as [p|] eqn:Ep;
    split; simpl; rewrite ?length_insert; auto;
    intros j Hj; apply Hr; congruence.
Qed.

Lemma core_body_indices mark push q s :
  indices_ok s -> indices_ok (core_body mark push q s).
Proof.
  intros H. apply core_execute_indices, pre_execute_indices, H.
Qed.

Lemma core_body_timeline mark q s :
  indices_ok s ->
  rr_timeline (core_body mark true q s)
  = rr_timeline s ++ [info_of <$> rr_runner (core_body mark true q s)].
Proof.
  intros Hok. unfold core_body.
  assert (rr_timeline (core_retire mark (fun z => z) q s) = rr_timeline s)
    as H1.
  { unfold core_retire. destruct (rr_running s) as [i|]; [|reflexivity].
    destruct (rr_procs s !! i) as [p|]; [|reflexivity].
    destruct (remainingTime p =? 0); [reflexivity|].
    destruct (rr_quantum s =? q); reflexivity. }
  pose proof (pre_execute_indices mark q s Hok) as [_ Hr].
  set (s1 := core_retire mark (fun z => z) q s) in *.
  assert (rr_timeline (V1.rr_dispatch (V1.rr_enqueue s1)) = rr_timeline s1)
    as H2.
  { unfold V1.rr_dispatch. simpl.
    destruct (rr_running s1); [reflexivity|].
    destruct (rr_queue s1 ++ V1.rr_arrivals s1); reflexivity. }
  set (s3 := V1.rr_dispatch (V1.rr_enqueue s1)) in *.
  rewrite <- H1, <- H2. unfold core_execute, rr_runner.
  destruct (rr_running s3) as [i|] eqn:Er; [|simpl; reflexivity].
  destruct (lookup_lt_is_Some_2 _ _ (Hr i eq_refl)) as [p Ep].
  rewrite Ep. simpl.
  rewrite list_lookup_insert_eq; [reflexivity|]. eapply lookup_lt_Some; eauto.
Qed.

Lemma rr_sim_body_runner q s :
  runningProcess (V1.rr_sim_body q s).1 = rr_runner (V1.rr_sim_body q s).2.
Proof.
  unfold V1.rr_sim_body.
  destruct (V1.rr_sim_retire q s) as [m1 s1].
  destruct (V1.rr_sim_enqueue s1) as [m2 s2].
  destruct (V1.rr_sim_dispatch s2) as [m3 s3].
  reflexivity.
Qed.

Lemma rr_runner_same a b :
  same_schedule a b -> info_of <$> rr_runner a = info_of <$> rr_runner b.
Proof.
  intros (Hp & _ & _ & _ & Hr & _). unfold rr_runner. rewrite <- Hr.
  destruct (rr_running a) as [i|]; [|reflexivity]. simpl.
  destruct (rr_procs a !! i) as [pa|] eqn:Ea.
  - destruct (erase_lookup _ _ _ _ Hp Ea) as (pb & -> & E).
    destruct (erase_fields _ _ E) as (_ & En & _ & _ & _ & Ec & _).
    simpl. unfold info_of. rewrite En, Ec. reflexivity.
  - rewrite (erase_lookup_none _ _ _ Hp Ea). reflexivity.
Qed.

Lemma only_state_id : only_state (fun p => p).
Proof. intros p. reflexivity. Qed.

Lemma only_state_completed : only_state (fun p => set_state p Completed).
Proof. intros p. reflexivity. Qed.

Lemma same_schedule_length a b :
  same_schedule a b -> length (rr_procs a) = length (rr_procs b).
Proof.
  intros (Hp & _).
  rewrite <- (length_fmap erase (rr_procs a)), Hp. apply length_fmap.
Qed.

(** The generator follows the batch loop iteration by iteration, as long
    as the batch loop is not left by the safety break. *)
Lemma rr_loops_lockstep q : forall fuel a b a',
  same_schedule a b -> indices_ok a ->
  V1.rr_loop q fuel a = Some (a', []) ->
  exists evs b',
    V1.rr_sim_loop q fuel b = Some (evs, b')
    /\ same_schedule a' b'
    /\ rr_timeline a' = rr_timeline a ++ timeline_of evs.
Proof.
  induction fuel as [|fuel IH]; intros a b a' Hs Hok Hloop;
    pose proof (same_schedule_length _ _ Hs) as Hlen;
    pose proof Hs as (_ & _ & _ & Hc & _);
    [rewrite rr_loop_O in Hloop|rewrite rr_loop_S in Hloop];
    simpl; rewrite <- Hlen, <- Hc;
    destruct (rr_completed a <? length (rr_procs a))%nat;
    try discriminate;
    try (injection Hloop as <-; exists [], b;
         split; [reflexivity|split; [exact Hs|]];
         simpl; rewrite app_nil_r; reflexivity).
  set (a1 := core_body (fun p => p) true q a) in *.
  destruct (ceiling_v1 <? rr_time a1); [discriminate|].
  pose proof (core_body_same _ _ true false q only_state_id
                only_state_completed a b Hs) as Hs1.
  fold a1 in Hs1. rewrite <- rr_sim_body_core in Hs1.
  pose proof (rr_sim_body_runner q b) as Hrun.
  pose proof (core_body_timeline (fun p => p) q a Hok) as Htl. fold a1 in Htl.
  pose proof (core_body_indices (fun p => p) true q a Hok) as Hok1.
  fold a1 in Hok1.
  destruct (V1.rr_sim_body q b) as [ev b1]. simpl in Hs1, Hrun.
  destruct (IH a1 b1 a' Hs1 Hok1 Hloop) as (evs & b' & E & Hs' & Htl').
  rewrite E. simpl. exists (ev :: evs), b'.
  split; [reflexivity|]. split; [exact Hs'|].
  rewrite Htl', Htl, <- app_assoc. simpl.
  rewrite Hrun, (rr_runner_same _ _ Hs1). reflexivity.
Qed.

Lemma loop_trailing_idle tl : forall i chart cur,
  V1.buildGanttChart_loop (tl ++ [None]) i chart cur
  = V1.buildGanttChart_loop tl i chart cur.
Proof.
  induction tl as [|[info|] tl IH]; intros i chart cur; simpl.
  - destruct cur; reflexivity.
  - destruct cur as [e|]; [|apply IH].
    destruct (String.eqb (processName e) (ti_processName info)); apply IH.
  - destruct cur; apply IH.
Qed.

(** An idle tick at the end of the timeline leaves the chart as it is. *)
Lemma buildGanttChart_trailing_idle tl :
  V1.buildGanttChart (tl ++ [None]) = V1.buildGanttChart tl.
Proof.
  destruct tl as [|x tl]; [reflexivity|].
  exact (loop_trailing_idle (x :: tl) 0 [] None).
Qed.

Lemma updateProcessStates_erase l running queue t :
  erase <$> updateProcessStates l running queue t = erase <$> l.
Proof.
  unfold updateProcessStates. rewrite <- list_fmap_compose.
  apply list_fmap_ext. intros i p _. simpl.
  destruct (is_completed p); [reflexivity|].
  destruct (match running with Some r => same_id p r | None => false end);
    [reflexivity|].
  destruct (existsb (same_id p) queue); [reflexivity|].
  destruct (t <? arrivalTime p); [reflexivity|].
  destruct (0 <? remainingTime p); reflexivity.
Qed.

Lemma metrics_erase (l1 l2 : list Process) :
  erase <$> l1 = erase <$> l2 -> metrics l1 = metrics l2.
Proof.
  intros H.
  assert (forall l, metrics l = metrics (erase <$> l)) as E.
  { intros l. unfold metrics. rewrite <- list_fmap_compose. reflexivity. }
  rewrite (E l1), (E l2), H. reflexivity.
Qed.

Lemma rr_sim_loop_fuel q : forall f1 f2 s r1 r2,
  V1.rr_sim_loop q f1 s = Some r1 -> V1.rr_sim_loop q f2 s = Some r2 ->
  r1 = r2.
Proof.
  induction f1 as [|f1 IH]; intros f2 s r1 r2 H1 H2;
    destruct f2 as [|f2]; simpl in H1, H2;
    destruct (rr_completed s <? length (rr_procs s))%nat;
    try discriminate; try congruence.
  destruct (V1.rr_sim_body q s) as [ev s1].
  destruct (V1.rr_sim_loop q f1 s1) as [[e1 t1]|] eqn:E1; [|discriminate].
  destruct (V1.rr_sim_loop q f2 s1) as [[e2 t2]|] eqn:E2; [|discriminate].
  pose proof (IH _ _ _ _ E1 E2) as E. injection E as -> ->.
  simpl in H1, H2. congruence.
Qed.

Lemma simulateRoundRobin_fuel q l f1 f2 e1 e2 :
  V1.simulateRoundRobin f1 l q = Some e1 ->
  V1.simulateRoundRobin f2 l q = Some e2 -> e1 = e2.
Proof.
  unfold V1.simulateRoundRobin. destruct l as [|p l]; [congruence|].
  destruct (V1.rr_sim_loop q f1 _) as [r1|] eqn:E1; [|discriminate].
  destruct (V1.rr_sim_loop q f2 _) as [r2|] eqn:E2; [|discriminate].
  rewrite (rr_sim_loop_fuel _ _ _ _ _ _ E1 E2). congruence.
Qed.

Lemma same_schedule_refl s : same_schedule s s.
Proof. repeat split. Qed.

Lemma timeline_of_app (a b : list TickEvent) :
  timeline_of (a ++ b) = timeline_of a ++ timeline_of b.
Proof. apply fmap_app. Qed.

Lemma round_robin_engines_agree (l : list Process) (timeQuantum : Z)
    (r : AlgorithmResult) (algorithmName : string) :
  V1.runRoundRobin l timeQuantum = Some (r, []) ->
  exists evs,
    V1.simulateRoundRobin (Z.to_nat (ceiling_v1 + 1)) l timeQuantum = Some evs
    /\ erase <$> final_processes evs = erase <$> processes r
    /\ ls_ganttChart (live_run algorithmName l evs) = ganttChart r.
Proof.
  unfold V1.runRoundRobin, V1.simulateRoundRobin.
  destruct l as [|p0 l0] eqn:El.
  { intros [= <-]. exists []. repeat split. }
  rewrite <- El. clear El p0 l0.
  destruct (V1.rr_loop _ _ _) as [[a' log]|] eqn:Hloop; [|discriminate].
  intros H. injection H as <- ->.
  destruct (rr_loops_lockstep timeQuantum _ _ (V1.rr_init l) a'
              (same_schedule_refl _)
              ltac:(split; [constructor|discriminate]) Hloop)
    as (evs & b' & E & Hs & Htl).
  rewrite E. eexists. split; [reflexivity|]. simpl in Htl. simpl.
  destruct Hs as (Hp & _ & Ht & _).
  split.
  - unfold final_processes. rewrite last_snoc. simpl.
    rewrite updateProcessStates_erase. symmetry. exact Hp.
  - assert (one_per_tick 0 (evs ++ [final_event (rr_procs b') (rr_time b')]))
      as Htick.
    { destruct (rr_sim_loop_ticks _ _ _ _ _ E) as [H1 H2]. simpl in H1, H2.
      apply one_per_tick_app; [exact H1|].
      apply one_per_tick_single. simpl. exact H2. }
    unfold live_run. rewrite live_run_chart. simpl.
    transitivity (V1.buildGanttChart
                    (timeline_of
                       (evs ++ [final_event (rr_procs b') (rr_time b')]))).
    + destruct (evs ++ [final_event (rr_procs b') (rr_time b')])
        as [|ev evs'] eqn:Ee; [reflexivity|].
      apply (live_chart_builder (ev :: evs') 0 [] None); auto.
      discriminate.
    + rewrite timeline_of_app. simpl.
      change (timeline_of [final_event (rr_procs b') (rr_time b')])
        with [@None TimelineInfo].
      rewrite buildGanttChart_trailing_idle, Htl. reflexivity.
Qed.

(** X9: whenever [runRoundRobin] ends without the safety break, the
    generator [simulateRoundRobin] ends on the same input, and every run of
    it ends with the same processes as the batch result: all the fields
    but [state] agree, so in particular completion, turnaround and waiting
    times; the chart the live simulation accumulates is the chart of the
    batch result. *)
Theorem X9_round_robin_engines_agree (l : list Process) (timeQuantum : Z)
    (r : AlgorithmResult) (algorithmName : string) :
  V1.runRoundRobin l timeQuantum = Some (r, []) ->
  (exists fuel evs, V1.simulateRoundRobin fuel l timeQuantum = Some evs)
  /\ forall fuel evs,
       V1.simulateRoundRobin fuel l timeQuantum = Some evs ->
       erase <$> final_processes evs = erase <$> processes r
       /\ metrics (final_processes evs) = metrics (processes r)
       /\ ls_ganttChart (live_run algorithmName l evs) = ganttChart r.
Proof.
  intros H.
  destruct (round_robin_engines_agree l timeQuantum r algorithmName H)
    as (evs & E & H1 & H2).
  split; [eauto|]. intros fuel evs' E'.
  rewrite (simulateRoundRobin_fuel _ _ _ _ _ _ E' E).
  split; [exact H1|]. split; [apply metrics_erase; exact H1|exact H2].
Qed.

Lemma X9_round_robin_engines_agree_witness :
  exists r,
    V1.runRoundRobin example_input 2 = Some (r, [])
    /\ (exists fuel evs, V1.simulateRoundRobin fuel example_input 2 = Some evs)
    /\ forall fuel evs,
         V1.simulateRoundRobin fuel example_input 2 = Some evs ->
         erase <$> final_processes evs = erase <$> processes r
         /\ metrics (final_processes evs) = metrics (processes r)
         /\ ls_ganttChart (live_run "Round Robin" example_input evs)
            = ganttChart r.
Proof.
  destruct (V1.runRoundRobin example_input 2) as [[r log]|] eqn:E;
    [|vm_compute in E; discriminate E].
  assert (log = []) as ->.
  { assert (snd <$> V1.runRoundRobin example_input 2 = Some []) as H
      by (vm_compute; reflexivity).
    rewrite E in H. injection H as H. exact H. }
  exists r. split; [reflexivity|].
  exact (X9_round_robin_engines_agree example_input 2 r "Round Robin" E).
Defined.

(** ** The non-preemptive engines *)

Lemma fmap_eq_lookup {A B} (f : A -> B) (la lb : list A) (i : nat) pa :
  f <$> la = f <$> lb -> la !! i = Some pa ->
  exists pb, lb !! i = Some pb /\ f pa = f pb.
Proof.
  intros H Ha.
  assert ((f <$> lb) !! i = Some (f pa)) as Hb.
  { rewrite <- H, list_lookup_fmap, Ha. reflexivity. }
  rewrite list_lookup_fmap in Hb.
  destruct (lb !! i) as [pb|]; [|discriminate].
  exists pb. split; [reflexivity|].
  exact (eq_sym (f_equal (from_option (fun x => x) (f pa)) Hb)).
Qed.

Lemma forget_fields pa pb :
  forget_progress pa = forget_progress pb ->
  id pa = id pb /\ name pa = name pb /\ arrivalTime pa = arrivalTime pb
  /\ burstTime pa = burstTime pb /\ color pa = color pb
  /\ priority pa = priority pb /\ metrics3 pa = metrics3 pb.
Proof.
  intros E. unfold forget_progress, erase, set_state, set_remainingTime,
    metrics3 in *. simpl in E.
  injection E. intros. repeat split; congruence.
Qed.

Lemma pick_fmap key (h : Process -> Process) :
  (forall p, key (h p) = key p) ->
  (forall p, arrivalTime (h p) = arrivalTime p) ->
  forall a b : nat * Process,
    pick key (prod_map Datatypes.id h a) (prod_map Datatypes.id h b)
    = prod_map Datatypes.id h (pick key a b).
Proof.
  intros Hk Ha a b. unfold pick. simpl. rewrite !Hk, !Ha.
  destruct (num_ltb (key a.2) (key b.2)); [reflexivity|].
  destruct (num_ltb (key b.2) (key a.2)); [reflexivity|].
  destruct (arrivalTime a.2 <? arrivalTime b.2); reflexivity.
Qed.

Lemma fold_left_fmap {A B} (f : A -> A -> A) (g : B -> B -> B) (h : A -> B)
    (l : list A) : forall x,
  (forall a b, g (h a) (h b) = h (f a b)) ->
  fold_left g (h <$> l) (h x) = h (fold_left f l x).
Proof.
  induction l as [|y l IH]; intros x H; [reflexivity|].
  rewrite fmap_cons. cbn [fold_left]. rewrite H. apply IH. exact H.
Qed.

Lemma reduce1_fmap {A B} (f : A -> A -> A) (g : B -> B -> B) (h : A -> B)
    (l : list A) :
  (forall a b, g (h a) (h b) = h (f a b)) ->
  reduce1 g (h <$> l) = h <$> reduce1 f l.
Proof.
  intros H. destruct l as [|x l]; [reflexivity|].
  rewrite fmap_cons. unfold reduce1. simpl. f_equal.
  apply fold_left_fmap. exact H.
Qed.

(** The selection sees the processes up to their progress and the set of
    the indices that are ready. *)
Lemma np_selection_same key (la lb : list Process)
    (fa fb : nat * Process -> bool) :
  static_key key ->
  forget_progress <$> la = forget_progress <$> lb ->
  (forall (i : nat) pa pb,
     la !! i = Some pa -> lb !! i = Some pb -> fa (i, pa) = fb (i, pb)) ->
  prod_map Datatypes.id forget_progress
    <$> reduce1 (pick key) (List.filter fa (indexed la))
  = prod_map Datatypes.id forget_progress
      <$> reduce1 (pick key) (List.filter fb (indexed lb)).
Proof.
  intros Hkey Hp Hf.
  set (g := fun ip : nat * Process =>
              match la !! ip.1 with
              | Some pa => fa (ip.1, pa)
              | None => false
              end).
  assert (List.filter fa (indexed la) = List.filter g (indexed la)) as ->.
  { apply List.filter_ext_in. intros [i pa] Hin.
    apply list_elem_of_In, elem_of_indexed in Hin.
    unfold g. simpl. rewrite Hin. reflexivity. }
  assert (List.filter fb (indexed lb) = List.filter g (indexed lb)) as ->.
  { apply List.filter_ext_in. intros [i pb] Hin.
    apply list_elem_of_In, elem_of_indexed in Hin.
    destruct (fmap_eq_lookup _ _ _ _ _ (eq_sym Hp) Hin) as (pa & Ha & _).
    unfold g. simpl. rewrite Ha. symmetry. apply Hf; assumption. }
  assert (forall l,
            prod_map Datatypes.id forget_progress
              <$> reduce1 (pick key) (List.filter g (indexed l))
            = reduce1 (pick key)
                (List.filter g (indexed (forget_progress <$> l)))) as E.
  { intros l. rewrite indexed_fmap, filter_fmap_bool.
    symmetry. apply reduce1_fmap. apply pick_fmap; [exact Hkey|reflexivity]. }
  rewrite (E la), (E lb), Hp. reflexivity.
Qed.

Lemma run_ticks_exact rq : forall k l (i : nat) t msg p,
  l !! i = Some p ->
  exists evs,
    run_ticks rq k l i t msg
    = (evs,
       <[i := set_remainingTime p (remainingTime p - Z.of_nat k)]> l,
       t + Z.of_nat k)
    /\ length evs = k
    /\ one_per_tick t evs
    /\ Forall (fun ev => info_of <$> runningProcess ev = Some (info_of p)) evs.
Proof.
  induction k as [|k IH]; intros l i t msg p Hp.
  - exists []. cbn [run_ticks].
    replace (set_remainingTime p (remainingTime p - Z.of_nat 0)) with p
      by (destruct p; unfold set_remainingTime; simpl; f_equal; lia).
    rewrite list_insert_id by exact Hp.
    replace (t + Z.of_nat 0) with t by lia.
    repeat split; [intros j ev Hj; inversion Hj|constructor].
  - cbn [run_ticks]. rewrite Hp.
    set (p1 := set_remainingTime p (remainingTime p - 1)).
    destruct (IH (<[i:=p1]> l) i (t + 1) ""%string p1)
      as (evs & E & Hlen & Htick & Hrun).
    { apply list_lookup_insert_eq. eapply lookup_lt_Some; eauto. }
    rewrite E. eexists. split; [|split; [|split]].
    + rewrite list_insert_insert_eq.
      replace (t + 1 + Z.of_nat k) with (t + Z.of_nat (S k)) by lia.
      replace (set_remainingTime p1 (remainingTime p1 - Z.of_nat k))
        with (set_remainingTime p (remainingTime p - Z.of_nat (S k))).
      { reflexivity. }
      unfold p1, set_remainingTime. simpl. f_equal. lia.
    + simpl. rewrite Hlen. reflexivity.
    + apply (one_per_tick_app _ [_]);
        [apply one_per_tick_single; reflexivity|exact Htick].
    + apply Forall_cons. split; [reflexivity|exact Hrun].
Qed.

Lemma selected_pair_inv (h : Process -> Process) (i j : nat) pa pb :
  prod_map Datatypes.id h <$> Some (i, pa)
  = prod_map Datatypes.id h <$> Some (j, pb) ->
  i = j /\ h pa = h pb.
Proof.
  intros H. split.
  - exact (f_equal (fun o : option (nat * Process) => from_option fst i o) H).
  - exact (f_equal (fun o : option (nat * Process) =>
                      from_option snd (h pa) o) H).
Qed.

Section NonPreemptiveLockstep.

Variable key : Process -> num.
Variable why : string.
Hypothesis Hkey : static_key key.

Lemma np_bodies_same a b :
  np_same a b -> np_same (V1.np_body key a) (V1.np_sim_body key why b).2.
Proof.
  intros (Hp & Ht & Hc & Hd & Hn & Hb).
  pose proof (np_selection_same key (bs_procs a) (sim_procs b)
                (fun ip => (arrivalTime ip.2 <=? bs_time a)
                           && negb (mem_id (id ip.2) (bs_done a)))
                (fun ip => (arrivalTime ip.2 <=? sim_time b)
                           && negb (is_completed ip.2))
                Hkey Hp) as Hsel.
  unfold V1.np_body, V1.np_sim_body.
  destruct (reduce1 (pick key) (List.filter _ (indexed (bs_procs a))))
    as [[i pa]|] eqn:Ea;
    destruct (reduce1 (pick key) (List.filter _ (indexed (sim_procs b))))
      as [[j pb]|] eqn:Eb;
    (lapply Hsel;
     [|intros k xa xb Hxa Hxb; simpl; rewrite (Hd _ _ _ Hxa Hxb), Ht;
       destruct (fmap_eq_lookup _ _ _ _ _ Hp Hxa) as (xb' & Hxb' & E);
       rewrite Hxb in Hxb'; injection Hxb' as <-;
       destruct (forget_fields _ _ E) as (_ & _ & -> & _); reflexivity]);
    intros Hsel'; try discriminate.
  - (* the same process is selected *)
    apply selected_pair_inv in Hsel' as [<- Hforget].
    apply reduce1_elem in Ea; [|apply pick_choice].
    apply elem_of_filter_bool in Ea as [Hia Hra].
    apply elem_of_indexed in Hia. simpl in Hra.
    apply andb_true_iff in Hra as [Harr _]. apply Z.leb_le in Harr.
    apply reduce1_elem in Eb; [|apply pick_choice].
    apply elem_of_filter_bool in Eb as [Hib _].
    apply elem_of_indexed in Hib.
    destruct (forget_fields _ _ Hforget)
      as (Eid & Ename & Earr & Eburst & Ecol & Eprio & Emet).
    assert (0 < burstTime pa) as Hpos.
    { rewrite Forall_lookup in Hb. exact (Hb _ _ Hia). }
    destruct (Z.ltb_spec (bs_time a) (arrivalTime pa)); [lia|].
    destruct (run_ticks_exact
                (fun l t =>
                   List.filter
                     (fun p => (arrivalTime p <=? t) && negb (is_completed p)
                               && negb (same_id p pb)) l)
                (Z.to_nat (burstTime pb)) (sim_procs b) i (sim_time b)
                (((if (0 <? length (V1.newly_arrived (sim_procs b)
                                                     (sim_time b)))%nat
                   then arrive_message
                          (V1.newly_arrived (sim_procs b) (sim_time b))
                   else "") +:+ "CPU selects " +:+ name pb +:+ " (" +:+ why
                  +:+ ").")%string) pb Hib)
      as (ticks & E & _).
    rewrite E.
    rewrite list_lookup_insert_eq by (eapply lookup_lt_Some; eauto).
    simpl. rewrite list_insert_insert_eq.
    assert (sim_time b + Z.of_nat (Z.to_nat (burstTime pb))
            = bs_time a + burstTime pa) as Hend by lia.
    split; [|split; [|split; [|split; [|split]]]]; simpl.
    + rewrite !list_fmap_insert, Hp. f_equal.
      rewrite Hend.
      change (commit (forget_progress pa) (bs_time a + burstTime pa)
              = commit (forget_progress pb) (bs_time a + burstTime pa)).
      rewrite Hforget. reflexivity.
    + lia.
    + lia.
    + intros k xa xb Hxa Hxb.
      destruct (decide (k = i)) as [->|Hne].
      * rewrite list_lookup_insert_eq in Hxa, Hxb
          by (eapply lookup_lt_Some; eauto).
        injection Hxa as <-. injection Hxb as <-. simpl.
        rewrite Z.eqb_refl. reflexivity.
      * rewrite list_lookup_insert_ne in Hxa, Hxb by auto.
        simpl. rewrite (Hd _ _ _ Hxa Hxb).
        destruct (Z.eqb_spec (id xa) (id pa)) as [Eq|]; [|reflexivity].
        exfalso. apply Hne.
        apply (NoDup_lookup _ k i (id xa) Hn);
          rewrite list_lookup_fmap; [rewrite Hxa|rewrite Hia; simpl; rewrite Eq];
          reflexivity.
    + erewrite fmap_insert_same; eauto.
    + apply Forall_insert; [exact Hb|]. exact Hpos.
  - (* nothing is ready *)
    repeat split; simpl; auto; lia.
Qed.

Lemma np_loops_lockstep : forall f1 f2 a b a' evs b',
  np_same a b ->
  V1.np_loop key f1 a = Some a' ->
  V1.np_sim_loop key why f2 b = Some (evs, b') ->
  np_same a' b'.
Proof.
  induction f1 as [|f1 IH]; intros f2 a b a' evs b' Hs Ha Hb;
    pose proof Hs as (Hp & _ & Hc & _);
    assert (length (bs_procs a) = length (sim_procs b)) as Hlen
      by (rewrite <- (length_fmap forget_progress (bs_procs a)), Hp;
          apply length_fmap);
    destruct f2 as [|f2]; simpl in Ha, Hb;
    rewrite <- Hlen, <- Hc in Hb;
    destruct (bs_completed a <? length (bs_procs a))%nat;
    try discriminate;
    try (injection Ha as <-; injection Hb as <- <-; exact Hs).
  pose proof (np_bodies_same a b Hs) as Hs1.
  destruct (V1.np_sim_body key why b) as [ev1 b1]. simpl in Hs1.
  destruct (V1.np_sim_loop key why f2 b1) as [[evs2 b2]|] eqn:E2;
    [|discriminate].
  simpl in Hb. injection Hb as <- <-.
  exact (IH _ _ _ _ _ _ Hs1 Ha E2).
Qed.

End NonPreemptiveLockstep.

(** ** FCFS *)

Lemma fcfs_lockstep : forall (rest visited l : list Process) t tl,
  forget_progress <$> l = forget_progress <$> (visited ++ rest) ->
  Forall (fun p => 0 < burstTime p) rest ->
  forget_progress
    <$> (V1.fcfs_sim_loop (length visited + length rest)
           (seq (length visited) (length rest)) l t (length visited)).1.2
  = forget_progress <$> (fold_left V1.fcfs_body rest (t, tl, visited)).2.
Proof.
  induction rest as [|p rest IH]; intros visited l t tl Hl Hb.
  - simpl. rewrite app_nil_r in Hl.
    destruct (length visited <? length visited + 0)%nat; exact Hl.
  - apply Forall_cons in Hb as [Hp Hb].
    cbn [length seq V1.fcfs_sim_loop fold_left].
    destruct (Nat.ltb_spec (length visited) (length visited + S (length rest)))
      as [_|?]; [|lia].
    assert ((visited ++ p :: rest) !! length visited = Some p) as Hat.
    { rewrite lookup_app_r by lia. rewrite Nat.sub_diag. reflexivity. }
    destruct (fmap_eq_lookup forget_progress _ _ _ _ (eq_sym Hl) Hat)
      as (cp & Hcp & E).
    rewrite Hcp.
    destruct (forget_fields _ _ E) as (_ & _ & Earr & Eburst & _).
    set (t1 := Z.max t (arrivalTime cp)).
    destruct (run_ticks_exact (fun l0 _ => deref l0 (seq (S (length visited))
                                                         (length rest)))
                (Z.to_nat (burstTime cp)) l (length visited) t1
                (name cp +:+ " arrives. CPU starts running " +:+ name cp
                 +:+ ".")%string cp Hcp) as (ticks & Et & _).
    rewrite Et.
    rewrite list_lookup_insert_eq by (eapply lookup_lt_Some; eauto).
    rewrite list_insert_insert_eq.
    set (cp1 := set_remainingTime cp
                  (remainingTime cp - Z.of_nat (Z.to_nat (burstTime cp)))).
    set (t2 := t1 + Z.of_nat (Z.to_nat (burstTime cp))).
    set (l2 := <[length visited := set_state (commit cp1 t2) Completed]> l).
    unfold V1.fcfs_body at 2.
    set (acc := if t <? arrivalTime p
                then (arrivalTime p, push_n tl (arrivalTime p - t) None)
                else (t, tl)).
    assert (acc.1 = t1) as Hacc.
    { unfold acc, t1. destruct (Z.ltb_spec t (arrivalTime p)); simpl; lia. }
    destruct acc as [ta tla]. simpl in Hacc. subst ta.
    cbn [completionTime commit].
    assert (t1 + burstTime p = t2) as Ht2 by (unfold t2; lia).
    rewrite Ht2.
    specialize (IH (visited ++ [commit p t2]) l2 t2
                  (push_n tla (burstTime p) (Some (info_of (commit p t2))))).
    rewrite length_app in IH. simpl in IH.
    replace (length visited + 1 + length rest)%nat
      with (length visited + S (length rest))%nat in IH by lia.
    replace (length visited + 1)%nat with (S (length visited)) in IH by lia.
    destruct (V1.fcfs_sim_loop (length visited + S (length rest))
                (seq (S (length visited)) (length rest)) l2 t2
                (S (length visited))) as [[evs l'] t'] eqn:Eloop.
    simpl in IH. simpl. apply IH; [|exact Hb].
    unfold l2. rewrite list_fmap_insert, Hl, <- app_assoc. simpl.
    rewrite fmap_app, fmap_cons.
    rewrite insert_app_r_alt by (rewrite length_fmap; lia).
    rewrite length_fmap, Nat.sub_diag. simpl.
    rewrite fmap_app, fmap_cons. do 2 f_equal.
    change (commit (forget_progress cp) t2 = commit (forget_progress p) t2).
    rewrite E. reflexivity.
Qed.

Lemma metrics_forget (l1 l2 : list Process) :
  forget_progress <$> l1 = forget_progress <$> l2 -> metrics l1 = metrics l2.
Proof.
  intros H.
  assert (forall l, metrics l = metrics (forget_progress <$> l)) as E.
  { intros l. unfold metrics. rewrite <- list_fmap_compose. reflexivity. }
  rewrite (E l1), (E l2), H. reflexivity.
Qed.

Lemma statics_forget (l1 l2 : list Process) :
  forget_progress <$> l1 = forget_progress <$> l2 ->
  statics <$> l1 = statics <$> l2.
Proof.
  intros H.
  assert (forall l : list Process,
            statics <$> l = statics <$> (forget_progress <$> l)) as E.
  { intros l. rewrite <- list_fmap_compose. reflexivity. }
  rewrite (E l1), (E l2), H. reflexivity.
Qed.

Lemma updateProcessStates_forget l running queue t :
  forget_progress <$> updateProcessStates l running queue t
  = forget_progress <$> l.
Proof.
  assert (forall x : list Process,
            forget_progress <$> x = forget_progress <$> (erase <$> x)) as E.
  { intros x. rewrite <- list_fmap_compose. reflexivity. }
  rewrite E, updateProcessStates_erase, <- E. reflexivity.
Qed.

Lemma fcfs_engines_agree (l : list Process) :
  Forall (fun p => 0 < burstTime p) l ->
  forget_progress <$> final_processes (V1.simulateFCFS l)
  = forget_progress <$> processes (V1.runFCFS l).
Proof.
  intros Hb. unfold V1.simulateFCFS, V1.runFCFS.
  destruct l as [|p0 l0]; [reflexivity|]. cbv beta iota zeta.
  remember (p0 :: l0) as l eqn:El. clear El p0 l0.
  unfold cloneProcesses.
  set (sorted := js_sort cmp_arrival_id l).
  assert (Forall (fun p => 0 < burstTime p) sorted) as Hs.
  { unfold sorted. rewrite js_sort_perm. exact Hb. }
  pose proof (fcfs_lockstep sorted [] sorted 0 [] eq_refl Hs) as H.
  simpl in H.
  destruct (V1.fcfs_sim_loop (length sorted) (seq 0 (length sorted)) sorted
              0 0) as [[evs l'] t'].
  destruct (fold_left V1.fcfs_body sorted (0, [], [])) as [[t tl] visited].
  simpl in H. unfold final_processes. rewrite last_snoc. simpl.
  rewrite updateProcessStates_forget. exact H.
Qed.

Lemma static_key_burst : static_key key_burst.
Proof. intros p. reflexivity. Qed.

Lemma static_key_priority : static_key priority_or_inf.
Proof. intros p. reflexivity. Qed.

Lemma np_engines_agree key nm why (l : list Process) f1 f2 r evs :
  static_key key -> valid_input l ->
  V1.run_np key nm f1 l = Some r -> V1.sim_np key why f2 l = Some evs ->
  forget_progress <$> final_processes evs = forget_progress <$> processes r.
Proof.
  intros Hkey [Hv Hn]. unfold V1.run_np, V1.sim_np.
  destruct l as [|p0 l0]; [intros [= <-] [= <-]; reflexivity|].
  remember (p0 :: l0) as l eqn:El. clear El p0 l0.
  destruct (V1.np_loop key f1 _) as [a'|] eqn:Ea; [|discriminate].
  destruct (V1.np_sim_loop key why f2 _) as [[evs' b']|] eqn:Eb;
    [|discriminate].
  intros [= <-] [= <-].
  assert (np_same (mkB (cloneProcesses l) 0 0 [] [])
                  (mkSim (cloneProcesses l) 0 0 None)) as Hinit.
  { unfold np_same, cloneProcesses; simpl.
    split; [reflexivity|]. split; [reflexivity|]. split; [reflexivity|].
    split; [|split; [exact Hn|]].
    - intros i pa pb Ha Hb. rewrite Ha in Hb. injection Hb as <-.
      rewrite Forall_lookup in Hv. unfold is_completed.
      rewrite (vp_state pa (Hv _ _ Ha)). reflexivity.
    - eapply Forall_impl; [exact Hv|]. intros p Hp. apply Hp. }
  destruct (np_loops_lockstep key why Hkey _ _ _ _ _ _ _ Hinit Ea Eb)
    as (Hp & _).
  unfold V1.finish, final_processes. rewrite last_snoc. simpl.
  rewrite updateProcessStates_forget. symmetry. exact Hp.
Qed.

(** X10: for FCFS, SJF and non-preemptive Priority, on every valid input,
    the batch engine and the generator end, and every run of the generator
    ends with the processes of the batch result: the same processes in the
    same order, with the same completion, turnaround and waiting times
    (all the fields agree but [state] and [remainingTime], which the batch
    engine leaves as they are). *)
Theorem X10_non_preemptive_engines_agree (pol : Policy) (timeQuantum : Z)
    (l : list Process) :
  valid_input l -> pol = FCFS \/ pol = SJF \/ pol = PriorityNP ->
  (exists f1 f2 r evs,
     run_batch pol timeQuantum f1 l = Some r
     /\ run_stepwise pol timeQuantum f2 l = Some evs)
  /\ forall f1 f2 r evs,
       run_batch pol timeQuantum f1 l = Some r ->
       run_stepwise pol timeQuantum f2 l = Some evs ->
       forget_progress <$> final_processes evs
       = forget_progress <$> processes r
       /\ metrics (final_processes evs) = metrics (processes r).
Proof.
  intros Hv Hpol.
  assert (forall f1 f2 r evs,
            run_batch pol timeQuantum f1 l = Some r ->
            run_stepwise pol timeQuantum f2 l = Some evs ->
            forget_progress <$> final_processes evs
            = forget_progress <$> processes r) as Hagree.
  { intros f1 f2 r evs Hr He.
    destruct Hpol as [E|[E|E]]; subst pol; simpl in Hr, He.
    - injection Hr as <-. injection He as <-. apply fcfs_engines_agree.
      eapply Forall_impl; [exact (proj1 Hv)|]. intros p Hp. apply Hp.
    - eapply np_engines_agree; eauto using static_key_burst.
    - eapply np_engines_agree; eauto using static_key_priority. }
  split.
  - assert (forall key nm why,
              exists f1 f2 r evs,
                V1.run_np key nm f1 l = Some r
                /\ V1.sim_np key why f2 l = Some evs) as Hnp.
    { intros key nm why.
      destruct (run_np_ok key l Hv nm) as (f1 & r & Hr & _).
      destruct (decide (l = [])) as [->|Hne].
      - exists f1, 0%nat, r, []. split; [exact Hr|reflexivity].
      - destruct (sim_np_ok key why l Hv Hne) as (f2 & evs & _ & He & _).
        exists f1, f2, r, evs. auto. }
    destruct Hpol as [E|[E|E]]; subst pol; simpl.
    + exists 0%nat, 0%nat. eauto.
    + apply Hnp.
    + apply Hnp.
  - intros f1 f2 r evs Hr He. split; [eapply Hagree; eauto|].
    apply metrics_forget. eapply Hagree; eauto.
Qed.

Lemma X10_non_preemptive_engines_agree_witness :
  valid_input example_input
  /\ (exists f1 f2 r evs,
        run_batch SJF 2 f1 example_input = Some r
        /\ run_stepwise SJF 2 f2 example_input = Some evs)
  /\ forall f1 f2 r evs,
       run_batch SJF 2 f1 example_input = Some r ->
       run_stepwise SJF 2 f2 example_input = Some evs ->
       forget_progress <$> final_processes evs
       = forget_progress <$> processes r
       /\ metrics (final_processes evs) = metrics (processes r).
Proof.
  split; [exact example_input_valid|].
  exact (X10_non_preemptive_engines_agree SJF 2 example_input
           example_input_valid (or_intror (or_introl eq_refl))).
Defined.

(** * The schedules of the batch engines *)

Lemma max_completion_bound (l : list Process) (T : Z) :
  0 <= T -> (forall p, p ∈ l -> completionTime p <= T) ->
  max_completion l <= T.
Proof.
  intros H0 H. induction l as [|x l IH]; simpl; [exact H0|].
  pose proof (H x ltac:(apply elem_of_cons; auto)).
  assert (max_completion l <= T)
    by (apply IH; intros p Hp; apply H, elem_of_cons; auto).
  unfold max_completion in *. lia.
Qed.

Lemma max_completion_ge (l : list Process) p :
  p ∈ l -> completionTime p <= max_completion l.
Proof.
  induction l as [|x l IH]; intros H; [inversion H|]. simpl.
  apply elem_of_cons in H as [->|H]; [lia|]. specialize (IH H).
  unfold max_completion in *. lia.
Qed.

Lemma max_completion_eq (l : list Process) (T : Z) :
  0 <= T -> (forall p, p ∈ l -> completionTime p <= T) ->
  (exists p, p ∈ l /\ completionTime p = T) ->
  max_completion l = T.
Proof.
  intros H0 H (p & Hp & E).
  pose proof (max_completion_bound l T H0 H).
  pose proof (max_completion_ge l p Hp). lia.
Qed.

Lemma name_at_Some (tl : Timeline) (j : Z) nm :
  name_at tl j = Some nm ->
  0 <= j
  /\ exists info, tl !! Z.to_nat j = Some (Some info)
                  /\ ti_processName info = nm.
Proof.
  unfold name_at. destruct (Z.ltb_spec j 0); [discriminate|].
  destruct (tl !! Z.to_nat j) as [[info|]|]; try discriminate.
  simpl. intros [= <-]. split; [lia|]. eauto.
Qed.

Lemma name_at_None (tl : Timeline) (j : Z) :
  0 <= j < Z.of_nat (length tl) -> name_at tl j = None ->
  tl !! Z.to_nat j = Some None.
Proof.
  intros Hj. unfold name_at. destruct (Z.ltb_spec j 0); [lia|].
  destruct (tl !! Z.to_nat j) as [[info|]|] eqn:E; try discriminate; auto.
  apply lookup_ge_None in E. lia.
Qed.

(** What the invariant of the timeline gives for the result. *)
Lemma trace_chart_ok (l procs : list Process) (committed : nat -> Prop)
    (tl : Timeline) (t lag : Z) (nm : string) (n : nat) :
  trace_inv l procs committed tl t lag ->
  chart_ok l (mk_result nm tl V1.buildGanttChart procs n t).
Proof.
  intros (Hlen & Hrun & Hdone & Hidle).
  unfold chart_ok, mk_result; simpl.
  assert (forall e j, e ∈ V1.buildGanttChart tl -> start e <= j < end_ e ->
            name_at tl j = Some (processName e)) as Hshown.
  { intros e j He Hj. rewrite <- buildGanttChart_shown.
    eapply shown_at_entry; eauto. apply buildGanttChart_ordered. }
  assert (forall e, e ∈ V1.buildGanttChart tl ->
            0 <= start e /\ start e < end_ e) as Hpos.
  { intros e He. apply list_elem_of_lookup_1 in He as [b Hb].
    eapply ordered_from_lookup; [apply buildGanttChart_ordered|exact Hb]. }
  split; [|split].
  - intros e He. destruct (Hpos e He) as [H0 H1].
    destruct (name_at_Some _ _ _ (Hshown e (start e) He ltac:(lia)))
      as (_ & info & Hi & En).
    destruct (Hrun _ _ Hi) as (p & Hp & Hname & Harr).
    exists p. split; [exact Hp|]. split; [congruence|]. lia.
  - intros e He. destruct (Hpos e He) as [H0 H1]. split; [exact H0|].
    destruct (name_at_Some _ _ _ (Hshown e (end_ e - 1) He ltac:(lia)))
      as (_ & info & Hi & _).
    apply lookup_lt_Some in Hi. lia.
  - intros j Hj Hs p Hp Harr.
    rewrite buildGanttChart_shown in Hs.
    apply name_at_None in Hs; [|lia].
    apply list_elem_of_lookup_1 in Hp as [i Hi].
    destruct (Hidle _ Hs i p Hi ltac:(lia)) as [_ H]. lia.
Qed.

Lemma trace_schedule_ok (l procs : list Process) (committed : nat -> Prop)
    (tl : Timeline) (t lag : Z) (nm : string) (n : nat) :
  0 <= lag ->
  trace_inv l procs committed tl t lag ->
  (l <> [] ->
   lag <= t
   /\ (forall (i : nat) p, procs !! i = Some p -> committed i)
   /\ just_completed procs t lag) ->
  schedule_ok l (mk_result nm tl V1.buildGanttChart procs n t) lag.
Proof.
  intros Hlag Htr Hend.
  split; [|eapply trace_chart_ok; exact Htr].
  destruct Htr as (Hlen & Hrun & Hdone & Hidle).
  intros Hne. destruct (Hend Hne) as (Ht & Hall & p & Hp & E). simpl.
  assert (max_completion procs = t - lag); [|lia].
  apply max_completion_eq; [lia| |exists p; split; [exact Hp|lia]].
  intros x Hx. apply list_elem_of_lookup_1 in Hx as [i Hi].
  pose proof (Hdone i x Hi (Hall i x Hi)). lia.
Qed.

(** The timeline grows: the old ticks keep what they tell when the
    committed processes stay as they are. *)
Lemma trace_extend (l procs procs' : list Process)
    (committed committed' : nat -> Prop) (tl ext : Timeline) (t lag : Z) :
  trace_inv l procs committed tl t lag ->
  length procs' = length procs ->
  (forall (i : nat) p, procs !! i = Some p -> committed i ->
     procs' !! i = Some p /\ committed' i) ->
  (forall (i : nat) p p', procs !! i = Some p -> procs' !! i = Some p' ->
     arrivalTime p' = arrivalTime p) ->
  (forall (i : nat) p', procs' !! i = Some p' -> committed' i ->
     completionTime p' + lag <= t + Z.of_nat (length ext)) ->
  (forall (k : nat) x, ext !! k = Some x ->
     match x with
     | Some info =>
         exists p, p ∈ l /\ name p = ti_processName info
                   /\ arrivalTime p <= t + Z.of_nat k
     | None =>
         forall (i : nat) p', procs' !! i = Some p' ->
           arrivalTime p' <= t + Z.of_nat k ->
           committed' i /\ completionTime p' <= t + Z.of_nat k
     end) ->
  trace_inv l procs' committed' (tl ++ ext) (t + Z.of_nat (length ext)) lag.
Proof.
  intros (Hlen & Hrun & Hdone & Hidle) Hl Hkeep Harr Hdone' Hnew.
  split; [rewrite length_app; lia|]. split; [|split; [exact Hdone'|]].
  - intros j info Hj. apply lookup_app_Some in Hj as [Hj|[Hge Hj]].
    + eapply Hrun; eauto.
    + specialize (Hnew _ _ Hj). simpl in Hnew.
      destruct Hnew as (p & Hp & Hn & Ha). exists p.
      split; [exact Hp|]. split; [exact Hn|]. lia.
  - intros j Hj i p' Hp' Ha. apply lookup_app_Some in Hj as [Hj|[Hge Hj]].
    + assert (is_Some (procs !! i)) as [p Hp].
      { apply lookup_lt_is_Some. rewrite <- Hl. eapply lookup_lt_Some; eauto. }
      pose proof (Harr _ _ _ Hp Hp') as Ea.
      destruct (Hidle _ Hj i p Hp ltac:(lia)) as [Hc Hle].
      destruct (Hkeep _ _ Hp Hc) as [Hsame Hc'].
      rewrite Hsame in Hp'. injection Hp' as <-. auto.
    + specialize (Hnew _ _ Hj). simpl in Hnew.
      destruct (Hnew i p' Hp' ltac:(lia)) as [Hc Hle]. split; [exact Hc|lia].
Qed.

(** ** [runSJF] and [runPriorityNonPreemptive] *)

Lemma statics_named (ps l : list Process) (i : nat) p :
  statics <$> ps = statics <$> l -> ps !! i = Some p ->
  exists p0, p0 ∈ l /\ name p0 = name p /\ arrivalTime p0 = arrivalTime p.
Proof.
  intros H Hp. destruct (statics_lookup _ _ _ _ H Hp) as (p0 & Hl & E).
  exists p0. split; [eapply list_elem_of_lookup_2; eauto|].
  unfold statics in E. injection E as _ -> -> _. auto.
Qed.

Section NonPreemptiveSchedule.

Variable key : Process -> num.
Variable l : list Process.
Hypothesis Hvalid : valid_input l.

Lemma np_body_trace s D :
  np_inv l s D -> (bs_completed s < length l)%nat ->
  trace_inv l (bs_procs s) (np_committed s) (bs_timeline s) (bs_time s) 0 ->
  let s' := V1.np_body key s in
  trace_inv l (bs_procs s') (np_committed s') (bs_timeline s') (bs_time s') 0
  /\ (bs_completed s' = length l ->
      just_completed (bs_procs s') (bs_time s') 0).
Proof.
  intros (Hs & Hnd & Hlen & Hin & Hdone & Htk) Hlt Htr.
  destruct Hvalid as [Hv Hids].
  pose proof Htr as (_ & _ & Hcomp & _).
  unfold V1.np_body.
  destruct (reduce1 _ _) as [[i cp]|] eqn:Er.
  - (* a process runs to completion *)
    apply reduce1_elem in Er; [|apply pick_choice].
    apply elem_of_filter_bool in Er as [Hi Hr].
    apply elem_of_indexed in Hi. simpl in Hr.
    apply andb_true_iff in Hr as [Harr Hnot].
    apply Z.leb_le in Harr. apply negb_true_iff in Hnot.
    destruct (statics_valid _ _ _ _ Hs Hv Hi) as [Ha Hb].
    destruct (Z.ltb_spec (bs_time s) (arrivalTime cp)); [lia|].
    pose proof (lookup_lt_Some _ _ _ Hi) as Hil.
    cbv zeta. cbn [bs_procs bs_time bs_timeline bs_completed bs_done].
    set (T := bs_time s + burstTime cp).
    set (s' := mkB (<[i:=commit cp T]> (bs_procs s)) T (S (bs_completed s))
                   (push_n (bs_timeline s) (burstTime cp)
                           (Some (info_of cp)))
                   (id cp :: bs_done s)).
    assert (T = bs_time s
                + Z.of_nat (length (replicate (Z.to_nat (burstTime cp))
                                              (Some (info_of cp))))) as ET.
    { rewrite length_replicate. unfold T. lia. }
    split.
    + rewrite ET. unfold push_n.
      apply (trace_extend l (bs_procs s) _ (np_committed s) (np_committed s'));
        [exact Htr|apply length_insert| | | |].
      * intros j p Hp (p' & Hp' & Hm). rewrite Hp in Hp'. injection Hp' as <-.
        assert (j <> i) as Hne by (intros ->; congruence).
        rewrite list_lookup_insert_ne by auto. split; [exact Hp|].
        exists p. unfold s'; simpl. rewrite list_lookup_insert_ne by auto.
        split; [exact Hp|]. rewrite Hm. apply orb_true_r.
      * intros j p p' Hp Hp'.
        destruct (decide (j = i)) as [->|Hne].
        -- rewrite list_lookup_insert_eq in Hp' by exact Hil.
           injection Hp' as <-. rewrite Hi in Hp. injection Hp as <-.
           reflexivity.
        -- rewrite list_lookup_insert_ne in Hp' by auto. congruence.
      * rewrite <- ET. intros j p' Hp' (q & Hq & Hm).
        unfold s' in Hq, Hm; simpl in Hq, Hm.
        rewrite Hp' in Hq. injection Hq as <-.
        destruct (decide (j = i)) as [->|Hne].
        -- rewrite list_lookup_insert_eq in Hp' by exact Hil.
           injection Hp' as <-. simpl. lia.
        -- rewrite list_lookup_insert_ne in Hp' by auto.
           apply orb_true_iff in Hm as [Hm|Hm].
           ++ apply Z.eqb_eq in Hm. exfalso. apply Hne.
              eapply same_id_same_index; eauto.
           ++ assert (completionTime p' + 0 <= bs_time s); [|unfold T; lia].
              apply (Hcomp j p' Hp'). exists p'. auto.
      * intros k x Hk. apply lookup_replicate in Hk as [-> _].
        destruct (statics_named _ _ _ _ Hs Hi) as (p0 & Hp0 & En & Ea).
        exists p0. split; [exact Hp0|]. split; [exact En|]. lia.
    + intros _. exists (commit cp T). split.
      * eapply list_elem_of_lookup_2. apply list_lookup_insert_eq. exact Hil.
      * simpl. lia.
  - (* no process is ready *)
    apply reduce1_none in Er.
    cbn [bs_procs bs_time bs_timeline bs_completed bs_done].
    split; [|intros Hc; simpl in Hc; lia].
    apply (trace_extend l (bs_procs s) (bs_procs s) (np_committed s) _
                        (bs_timeline s) [None] (bs_time s) 0);
      [exact Htr|reflexivity| | | |].
    + intros j p Hp Hc. split; [exact Hp|exact Hc].
    + intros j p p' Hp Hp'. congruence.
    + intros j p' Hp' Hc. pose proof (Hcomp j p' Hp' Hc). simpl. lia.
    + intros k x Hk. destruct k; [|discriminate]. injection Hk as <-.
      intros j p' Hp' Harr.
      assert (mem_id (id p') (bs_done s) = true) as Hm.
      { destruct (mem_id (id p') (bs_done s)) eqn:Em; [reflexivity|].
        exfalso.
        assert ((j, p') ∈ List.filter
                  (fun ip : nat * Process =>
                     (arrivalTime ip.2 <=? bs_time s)
                     && negb (mem_id (id ip.2) (bs_done s)))
                  (indexed (bs_procs s))) as Hc.
        { apply elem_of_filter_bool. split; [apply elem_of_indexed; exact Hp'|].
          simpl. rewrite Em. apply andb_true_iff.
          split; [apply Z.leb_le; lia|reflexivity]. }
        rewrite Er in Hc. inversion Hc. }
      assert (np_committed s j) as Hc by (exists p'; auto).
      split; [exact Hc|]. pose proof (Hcomp j p' Hp' Hc). lia.
Qed.

Lemma np_loop_trace : forall fuel s D s',
  np_inv l s D ->
  trace_inv l (bs_procs s) (np_committed s) (bs_timeline s) (bs_time s) 0 ->
  (bs_completed s = length l -> l <> [] ->
   just_completed (bs_procs s) (bs_time s) 0) ->
  V1.np_loop key fuel s = Some s' ->
  trace_inv l (bs_procs s') (np_committed s') (bs_timeline s') (bs_time s') 0
  /\ (bs_completed s' = length l -> l <> [] ->
      just_completed (bs_procs s') (bs_time s') 0).
Proof.
  induction fuel as [|fuel IH]; intros s D s' Hinv Htr Hk Hloop;
    assert (length (bs_procs s) = length l) as Hl
      by (apply statics_length, Hinv);
    simpl in Hloop; rewrite Hl in Hloop;
    destruct (Nat.ltb_spec (bs_completed s) (length l)) as [Hlt|Hge];
    try discriminate;
    try (injection Hloop as <-; auto).
  destruct (np_body_inv key l Hvalid s D Hinv Hlt) as (D' & Hinv' & _).
  destruct (np_body_trace s D Hinv Hlt Htr) as [Htr' Hk'].
  eapply IH; eauto.
Qed.

Lemma run_np_schedule nm :
  exists fuel r,
    V1.run_np key nm fuel l = Some r /\ result_ok l r /\ schedule_ok l r 0
    /\ statics <$> processes r = statics <$> l.
Proof.
  destruct (decide (l = [])) as [E|Hne].
  { exists 0%nat, (createEmptyResult nm). rewrite E.
    split; [reflexivity|]. split; [repeat split; simpl; auto|].
    split; [|reflexivity].
    unfold schedule_ok, chart_ok; simpl.
    split; [easy|]. split; [intros e He; inversion He|].
    split; [intros e He; inversion He|]. intros; lia. }
  destruct (np_loop_terminates key l Hvalid _ _ _ (np_init_inv l)
              (le_n _))
    as (s' & D' & Hloop & Hinv & Hge).
  assert (trace_inv l (cloneProcesses l)
            (np_committed (mkB (cloneProcesses l) 0 0 [] [])) [] 0 0) as Hinit.
  { split; [reflexivity|]. split; [intros j info Hj; inversion Hj|].
    split; [|intros j Hj; inversion Hj].
    intros i p _ (q & _ & Hm). discriminate. }
  destruct (np_loop_trace _ _ _ _ (np_init_inv l) Hinit
              ltac:(simpl; intros E _; destruct l; [easy|discriminate]) Hloop)
    as [Htr Hk].
  eexists. exists (V1.result_of nm s').
  split; [unfold V1.run_np; destruct l; [easy|]; rewrite Hloop; reflexivity|].
  split; [eapply np_final_ok; eauto|].
  pose proof Hinv as (Hs & Hnd & Hlen & Hin & Hdone & Htk).
  assert (forall i, i ∈ D' -> (i < length l)%nat) as Hb.
  { intros i Hi. destruct (Hin i Hi) as (p & Hp & _).
    rewrite <- (statics_length _ _ Hs). eapply lookup_lt_Some; eauto. }
  assert (bs_completed s' = length l) as Hall.
  { pose proof (indices_bounded D' (length l) Hnd Hb). lia. }
  unfold V1.result_of. split; [|exact Hs].
  apply (trace_schedule_ok l (bs_procs s') (np_committed s')); [lia|exact Htr|].
  intros _. pose proof Htr as (Hlen' & _).
  split; [lia|]. split; [|exact (Hk Hall Hne)].
  intros i p Hp.
  assert (i ∈ D') as Hi.
  { apply (indices_full D' (length l)); auto; [lia|].
    rewrite <- (statics_length _ _ Hs). eapply lookup_lt_Some; eauto. }
  destruct (Hin i Hi) as (q & Hq & _ & Hd).
  exists q. split; [exact Hq|]. apply mem_id_spec. exact Hd.
Qed.

End NonPreemptiveSchedule.

(** ** [runSRTF] and [runPriorityPreemptive] *)

Section PreemptiveSchedule.

Variable key : Process -> num.
Variable l : list Process.
Hypothesis Hvalid : valid_input l.

Lemma pre_body_trace s D s' :
  pre_inv l s D -> bs_completed s <> length l ->
  trace_inv l (bs_procs s) (pre_committed s) (bs_timeline s) (bs_time s) 0 ->
  V1.pre_body key s = Some s' ->
  trace_inv l (bs_procs s') (pre_committed s') (bs_timeline s') (bs_time s') 0
  /\ (bs_completed s' = length l ->
      just_completed (bs_procs s') (bs_time s') 0).
Proof.
  intros (Hs & Hrem & Hnd & Hlen & Hex & Hmet & Htk) Hne Htr.
  pose proof Htr as (_ & _ & Hcomp & _).
  unfold V1.pre_body.
  destruct (scan key (V1.ready_now (bs_time s)) (bs_procs s)) as [i|] eqn:Es.
  - (* the selected process runs for one tick *)
    destruct (scan_some _ _ _ _ Es) as (cp & Hi & Hr).
    apply ready_now_spec in Hr as [Harr Hpos].
    rewrite Hi. cbn [mbind option_bind].
    pose proof (lookup_lt_Some _ _ _ Hi) as Hil.
    set (cp1 := set_remainingTime cp (remainingTime cp - 1)).
    assert (forall x c,
              arrivalTime x = arrivalTime cp ->
              (remainingTime x = 0 -> completionTime x <= bs_time s + 1) ->
              let s1 := mkB (<[i:=x]> (bs_procs s)) (bs_time s + 1) c
                            (bs_timeline s ++ [Some (info_of cp)])
                            (bs_done s) in
              trace_inv l (bs_procs s1) (pre_committed s1) (bs_timeline s1)
                        (bs_time s1) 0) as Hstep.
    { intros x c Hxa Hxc s1. unfold s1.
      cbn [bs_procs bs_time bs_timeline].
      apply (trace_extend l (bs_procs s) _ (pre_committed s) _
                          (bs_timeline s) [Some (info_of cp)] (bs_time s) 0);
        [exact Htr|apply length_insert| | | |].
      - intros j p Hp (p' & Hp' & Hz). rewrite Hp in Hp'. injection Hp' as <-.
        assert (j <> i) as Hji by (intros ->; rewrite Hi in Hp;
                                   injection Hp as <-; lia).
        rewrite list_lookup_insert_ne by auto. split; [exact Hp|].
        exists p. simpl. rewrite list_lookup_insert_ne by auto. auto.
      - intros j p p' Hp Hp'.
        destruct (decide (j = i)) as [->|Hji].
        + rewrite list_lookup_insert_eq in Hp' by exact Hil.
          injection Hp' as <-. rewrite Hi in Hp. injection Hp as <-.
          exact Hxa.
        + rewrite list_lookup_insert_ne in Hp' by auto. congruence.
      - intros j p' Hp' (q & Hq & Hz). simpl in Hq.
        rewrite Hp' in Hq. injection Hq as <-. simpl.
        destruct (decide (j = i)) as [->|Hji].
        + rewrite list_lookup_insert_eq in Hp' by exact Hil.
          injection Hp' as <-. specialize (Hxc Hz). lia.
        + rewrite list_lookup_insert_ne in Hp' by auto.
          assert (completionTime p' + 0 <= bs_time s); [|lia].
          apply (Hcomp j p' Hp'). exists p'. auto.
      - intros k y Hk. destruct k; [|discriminate]. injection Hk as <-.
        destruct (statics_named _ _ _ _ Hs Hi) as (p0 & Hp0 & En & Ea).
        exists p0. split; [exact Hp0|]. split; [exact En|]. lia. }
    fold cp1. destruct (Z.eqb_spec (remainingTime cp1) 0) as [Hz|Hnz].
    + intros [= <-]. split.
      * apply Hstep; [reflexivity|]. simpl. lia.
      * intros _. exists (commit cp1 (bs_time s + 1)). split.
        -- eapply list_elem_of_lookup_2. apply list_lookup_insert_eq. exact Hil.
        -- simpl. lia.
    + intros [= <-]. split.
      * apply Hstep; [reflexivity|]. intros Hc. contradiction.
      * simpl. intros Hc. contradiction.
  - (* no process is ready *)
    intros [= <-]. cbn [bs_procs bs_time bs_timeline bs_completed].
    split; [|intros Hc; contradiction].
    apply (trace_extend l (bs_procs s) (bs_procs s) (pre_committed s) _
                        (bs_timeline s) [None] (bs_time s) 0);
      [exact Htr|reflexivity| | | |].
    + intros j p Hp Hc. split; [exact Hp|exact Hc].
    + intros j p p' Hp Hp'. congruence.
    + intros j p' Hp' Hc. pose proof (Hcomp j p' Hp' Hc). simpl. lia.
    + intros k x Hk. destruct k; [|discriminate]. injection Hk as <-.
      intros j p' Hp' Harr.
      pose proof (scan_none _ _ _ _ _ Es Hp') as Hr.
      destruct (Hrem _ _ Hp') as [H0 _].
      assert (remainingTime p' = 0) as Hz.
      { destruct (Z.eq_dec (remainingTime p') 0) as [|Hnz]; [assumption|].
        assert (V1.ready_now (bs_time s) p' = true); [|congruence].
        apply ready_now_spec. lia. }
      assert (pre_committed s j) as Hc by (exists p'; auto).
      split; [exact Hc|]. pose proof (Hcomp j p' Hp' Hc). lia.
Qed.

Lemma pre_loop_trace : forall fuel s D s',
  pre_inv l s D ->
  trace_inv l (bs_procs s) (pre_committed s) (bs_timeline s) (bs_time s) 0 ->
  (bs_completed s = length l -> l <> [] ->
   just_completed (bs_procs s) (bs_time s) 0) ->
  V1.pre_loop key fuel s = Some s' ->
  trace_inv l (bs_procs s') (pre_committed s') (bs_timeline s') (bs_time s') 0
  /\ (bs_completed s' = length l -> l <> [] ->
      just_completed (bs_procs s') (bs_time s') 0).
Proof.
  induction fuel as [|fuel IH]; intros s D s' Hinv Htr Hk Hloop;
    assert (length (bs_procs s) = length l) as Hl
      by (apply statics_length, Hinv);
    simpl in Hloop; rewrite Hl in Hloop;
    destruct (Nat.eqb_spec (bs_completed s) (length l)) as [He|Hne];
    try discriminate;
    try (injection Hloop as <-; auto).
  destruct (pre_body_inv key l Hvalid s D Hinv Hne)
    as (s1 & D' & Hb & Hinv' & _).
  rewrite Hb in Hloop. cbn [mbind option_bind] in Hloop.
  destruct (pre_body_trace s D s1 Hinv Hne Htr Hb) as [Htr' Hk'].
  eapply IH; eauto.
Qed.

Lemma run_pre_schedule nm :
  exists fuel r,
    V1.run_pre key nm fuel l = Some r /\ result_ok l r /\ schedule_ok l r 0
    /\ statics <$> processes r = statics <$> l.
Proof.
  destruct (decide (l = [])) as [E|Hne].
  { exists 0%nat, (createEmptyResult nm). rewrite E.
    split; [reflexivity|]. split; [repeat split; simpl; auto|].
    split; [|reflexivity].
    unfold schedule_ok, chart_ok; simpl.
    split; [easy|]. split; [intros e He; inversion He|].
    split; [intros e He; inversion He|]. intros; lia. }
  destruct (pre_loop_terminates key l Hvalid _ _ _ (pre_init_inv l Hvalid)
              (le_n _))
    as (s' & D' & Hloop & Hinv & Hall).
  assert (trace_inv l (cloneProcesses l)
            (pre_committed (mkB (cloneProcesses l) 0 0 [] [])) [] 0 0)
    as Hinit.
  { split; [reflexivity|]. split; [intros j info Hj; inversion Hj|].
    split; [|intros j Hj; inversion Hj].
    intros i p Hp (q & Hq & Hz). simpl in Hq. unfold cloneProcesses in *.
    rewrite Hp in Hq. injection Hq as <-.
    destruct Hvalid as [Hv _]. rewrite Forall_lookup in Hv.
    destruct (Hv _ _ Hp). lia. }
  destruct (pre_loop_trace _ _ _ _ (pre_init_inv l Hvalid) Hinit
              ltac:(simpl; intros E _; destruct l; [easy|discriminate]) Hloop)
    as [Htr Hk].
  eexists. exists (V1.result_of nm s').
  split; [unfold V1.run_pre; destruct l; [easy|]; rewrite Hloop; reflexivity|].
  destruct (pre_final_ok l nm s' D' Hinv Hall) as [Hok Hfin].
  split; [exact Hok|].
  unfold V1.result_of. split; [|apply Hinv].
  apply (trace_schedule_ok l (bs_procs s') (pre_committed s'));
    [lia|exact Htr|].
  intros _. pose proof Htr as (Hlen' & _).
  split; [lia|]. split; [|exact (Hk Hall Hne)].
  intros i p Hp. exists p. split; [exact Hp|].
  rewrite Forall_lookup in Hfin. exact (Hfin _ _ Hp).
Qed.

End PreemptiveSchedule.

(** ** [runFCFS] *)

Lemma cmp_arrival_id_spec a b :
  (0 <? cmp_arrival_id a b) = false <-> by_arrival_id a b.
Proof.
  unfold cmp_arrival_id, js_or, by_arrival_id.
  destruct (Z.eqb_spec (arrivalTime a - arrivalTime b) 0);
    destruct (Z.ltb_spec 0 (id a - id b));
    destruct (Z.ltb_spec 0 (arrivalTime a - arrivalTime b));
    split; intros; try discriminate; try reflexivity; lia.
Qed.

Lemma by_arrival_id_trans a b c :
  by_arrival_id a b -> by_arrival_id b c -> by_arrival_id a c.
Proof. unfold by_arrival_id. lia. Qed.

Lemma by_arrival_id_total a b :
  (0 <? cmp_arrival_id a b) = true -> by_arrival_id b a.
Proof.
  unfold cmp_arrival_id, js_or, by_arrival_id.
  destruct (Z.eqb_spec (arrivalTime a - arrivalTime b) 0);
    intros H; apply Z.ltb_lt in H; lia.
Qed.

Lemma sort_insert_sorted x (l : list Process) :
  StronglySorted by_arrival_id l ->
  StronglySorted by_arrival_id (sort_insert cmp_arrival_id x l).
Proof.
  induction 1 as [|y l Hs IH Hy]; simpl.
  - repeat constructor.
  - destruct (0 <? cmp_arrival_id x y) eqn:E.
    + constructor; [exact IH|].
      rewrite sort_insert_perm. constructor; [|exact Hy].
      apply by_arrival_id_total. exact E.
    + apply cmp_arrival_id_spec in E.
      constructor; [constructor; assumption|].
      constructor; [exact E|].
      eapply Forall_impl; [exact Hy|]. intros z Hz.
      eapply by_arrival_id_trans; eauto.
Qed.

(** [sort((a, b) => a.arrivalTime - b.arrivalTime || a.id - b.id)] sorts
    by arrival time, then by id. *)
Lemma js_sort_sorted (l : list Process) :
  StronglySorted by_arrival_id (js_sort cmp_arrival_id l).
Proof.
  induction l as [|x l IH]; simpl; [constructor|].
  apply sort_insert_sorted. exact IH.
Qed.

Section FcfsSchedule.

Variable l : list Process.

Lemma fcfs_body_trace (visited rest : list Process) p t tl :
  (exists p0, p0 ∈ l /\ name p0 = name p /\ arrivalTime p0 = arrivalTime p) ->
  0 < burstTime p ->
  Forall (by_arrival_id p) rest ->
  trace_inv l (visited ++ p :: rest) (fun i => (i < length visited)%nat)
            tl t 0 ->
  let r := V1.fcfs_body (t, tl, visited) p in
  trace_inv l (r.2 ++ rest) (fun i => (i < length r.2)%nat) r.1.2 r.1.1 0
  /\ just_completed (r.2 ++ rest) r.1.1 0.
Proof.
  intros (p0 & Hp0 & En & Ea) Hb Hsorted Htr.
  pose proof Htr as (_ & _ & Hcomp & _).
  set (idle := if t <? arrivalTime p
               then replicate (Z.to_nat (arrivalTime p - t)) None else []
       : Timeline).
  set (t1 := Z.max t (arrivalTime p)).
  set (T := t1 + burstTime p).
  set (p' := commit p T).
  set (ext := idle ++ replicate (Z.to_nat (burstTime p)) (Some (info_of p'))).
  assert (V1.fcfs_body (t, tl, visited) p = (T, tl ++ ext, visited ++ [p']))
    as ->.
  { unfold V1.fcfs_body, ext, p', T, t1, idle, push_n.
    destruct (Z.ltb_spec t (arrivalTime p)); simpl.
    - rewrite <- app_assoc. replace (Z.max t (arrivalTime p))
        with (arrivalTime p) by lia. reflexivity.
    - replace (Z.max t (arrivalTime p)) with t by lia. reflexivity. }
  cbv zeta. cbn [fst snd].
  assert (Z.of_nat (length idle) = t1 - t) as Hidle.
  { unfold idle, t1. destruct (Z.ltb_spec t (arrivalTime p)).
    - rewrite length_replicate. lia.
    - simpl. lia. }
  assert (T = t + Z.of_nat (length ext)) as ET.
  { unfold ext, T. rewrite length_app, length_replicate. lia. }
  assert ((visited ++ [p']) ++ rest
          = <[length visited := p']> (visited ++ p :: rest)) as Eprocs.
  { rewrite insert_app_r_alt by lia. rewrite Nat.sub_diag, <- app_assoc.
    reflexivity. }
  assert ((visited ++ p :: rest) !! length visited = Some p) as Hat.
  { rewrite lookup_app_r by lia. rewrite Nat.sub_diag. reflexivity. }
  pose proof (lookup_lt_Some _ _ _ Hat) as Hlt.
  split.
  - rewrite ET, Eprocs.
    apply (trace_extend l (visited ++ p :: rest) _
                        (fun i => (i < length visited)%nat) _ tl ext t 0);
      [exact Htr|apply length_insert| | | |].
    + intros j q Hq Hj. rewrite list_lookup_insert_ne by lia.
      split; [exact Hq|]. rewrite length_app. simpl. lia.
    + intros j q q' Hq Hq'.
      destruct (decide (j = length visited)) as [->|Hne].
      * rewrite list_lookup_insert_eq in Hq' by exact Hlt.
        injection Hq' as <-. rewrite Hat in Hq. injection Hq as <-.
        reflexivity.
      * rewrite list_lookup_insert_ne in Hq' by auto. congruence.
    + rewrite <- ET. intros j q' Hq' Hj. rewrite length_app in Hj.
      simpl in Hj.
      destruct (decide (j = length visited)) as [->|Hne].
      * rewrite list_lookup_insert_eq in Hq' by exact Hlt.
        injection Hq' as <-. simpl. lia.
      * rewrite list_lookup_insert_ne in Hq' by auto.
        assert (completionTime q' + 0 <= t)
          by (apply (Hcomp j q' Hq'); lia).
        unfold T, t1. lia.
    + intros k x Hk. unfold ext in Hk.
      apply lookup_app_Some in Hk as [Hk|[Hge Hk]].
      * (* an idle tick before the arrival of [p] *)
        assert (x = None /\ t + Z.of_nat k < arrivalTime p) as [-> Hbefore].
        { pose proof (lookup_lt_Some _ _ _ Hk) as Hlk.
          unfold idle in Hk, Hlk.
          destruct (Z.ltb_spec t (arrivalTime p)); [|inversion Hk].
          apply lookup_replicate in Hk as [-> _].
          rewrite length_replicate in Hlk. split; [reflexivity|lia]. }
        intros j q' Hq' Harr.
        assert (j < length visited)%nat as Hj.
        { destruct (decide (j < length visited)%nat) as [|Hge]; [assumption|].
          exfalso.
          destruct (decide (j = length visited)) as [->|Hne].
          - rewrite list_lookup_insert_eq in Hq' by exact Hlt.
            injection Hq' as <-. simpl in Harr. lia.
          - rewrite list_lookup_insert_ne in Hq' by auto.
            rewrite lookup_app_r in Hq' by lia.
            destruct (j - length visited)%nat as [|m] eqn:Em; [lia|].
            simpl in Hq'. rewrite Forall_lookup in Hsorted.
            specialize (Hsorted _ _ Hq'). unfold by_arrival_id in Hsorted.
            lia. }
        split; [rewrite length_app; simpl; lia|].
        rewrite list_lookup_insert_ne in Hq' by lia.
        pose proof (Hcomp j q' Hq' Hj). lia.
      * apply lookup_replicate in Hk as [-> _].
        exists p0. split; [exact Hp0|]. split; [exact En|].
        unfold t1 in Hidle. lia.
  - exists p'. split.
    + apply elem_of_app. left. apply elem_of_app. right.
      apply list_elem_of_singleton. reflexivity.
    + simpl. lia.
Qed.

Lemma fcfs_fold_trace : forall (rest visited : list Process) t tl,
  Forall (fun p => exists p0, p0 ∈ l /\ name p0 = name p
                              /\ arrivalTime p0 = arrivalTime p) rest ->
  Forall (fun p => 0 < burstTime p) rest ->
  StronglySorted by_arrival_id rest ->
  trace_inv l (visited ++ rest) (fun i => (i < length visited)%nat) tl t 0 ->
  (visited <> [] -> just_completed (visited ++ rest) t 0) ->
  let r := fold_left V1.fcfs_body rest (t, tl, visited) in
  trace_inv l r.2 (fun i => (i < length r.2)%nat) r.1.2 r.1.1 0
  /\ (r.2 <> [] -> just_completed r.2 r.1.1 0).
Proof.
  induction rest as [|p rest IH]; intros visited t tl Hin Hb Hs Htr Hk.
  - simpl. rewrite app_nil_r in Htr, Hk. auto.
  - apply Forall_cons in Hin as [Hp Hin]. apply Forall_cons in Hb as [Hbp Hb].
    apply StronglySorted_inv in Hs as [Hs Hps].
    destruct (fcfs_body_trace visited rest p t tl Hp Hbp Hps Htr)
      as [Htr' Hk'].
    cbn [fold_left].
    destruct (V1.fcfs_body (t, tl, visited) p) as [[t' tl'] visited'].
    simpl in Htr', Hk'. apply IH; auto.
Qed.

Lemma runFCFS_schedule :
  valid_input l ->
  schedule_ok l (V1.runFCFS l) 0
  /\ StronglySorted by_arrival_id (processes (V1.runFCFS l)).
Proof.
  intros [Hv Hn]. unfold V1.runFCFS.
  destruct l as [|x l0] eqn:El.
  { split; [|constructor]. unfold schedule_ok, chart_ok; simpl.
    split; [easy|]. split; [intros e He; inversion He|].
    split; [intros e He; inversion He|]. intros; lia. }
  rewrite <- El in *. assert (l <> []) as Hne by (rewrite El; discriminate).
  clear El x l0. cbv zeta. unfold cloneProcesses.
  set (sorted := js_sort cmp_arrival_id l).
  assert (sorted ≡ₚ l) as HP by apply js_sort_perm.
  destruct (fcfs_fold sorted 0 [] []) as (t' & tl' & l' & Hf & Hst & _).
  { rewrite HP. eapply Forall_impl; [exact Hv|]. intros p Hp.
    pose proof (vp_burst p Hp). lia. }
  pose proof (fcfs_fold_trace sorted [] 0 []) as H.
  rewrite Hf in *. simpl in H. simpl.
  destruct H as [Htr Hk].
  { rewrite HP. apply Forall_forall. intros p Hp. eauto. }
  { rewrite HP. eapply Forall_impl; [exact Hv|]. intros p Hp. apply Hp. }
  { apply js_sort_sorted. }
  { split; [reflexivity|]. split; [intros j info Hj; inversion Hj|].
    split; [intros i p _ Hi; simpl in Hi; lia|intros j Hj; inversion Hj]. }
  { easy. }
  assert (l' <> []) as Hne'.
  { intros ->. apply (f_equal length) in Hst.
    rewrite !length_fmap in Hst. simpl in Hst.
    apply Permutation_length in HP. destruct l; [easy|simpl in *; lia]. }
  split.
  - apply (trace_schedule_ok l l' (fun i => (i < length l')%nat));
      [lia|exact Htr|].
    intros _. pose proof Htr as (Hlen & _).
    split; [lia|]. split; [|exact (Hk Hne')].
    intros i p Hp. eapply lookup_lt_Some. exact Hp.
  - (* the order of the sorted list is kept *)
    pose proof (js_sort_sorted l) as Hs. fold sorted in Hs.
    clear -Hs Hst. revert l' Hst.
    induction Hs as [|a rest Hs IH Ha]; intros l' Hst.
    + destruct l'; [constructor|discriminate].
    + destruct l' as [|a' rest']; [discriminate|].
      rewrite !fmap_cons in Hst. injection Hst as E1 E2 E3 E4 Hst.
      constructor; [apply IH; exact Hst|].
      apply Forall_forall. intros b' Hb'.
      apply list_elem_of_lookup_1 in Hb' as [k Hk].
      destruct (statics_lookup _ _ _ _ Hst Hk) as (b & Hb & Eb).
      rewrite Forall_lookup in Ha. specialize (Ha _ _ Hb).
      unfold statics in Eb. injection Eb as Eb1 _ Eb3 _.
      unfold by_arrival_id in *. lia.
Qed.

End FcfsSchedule.

(** ** [runRoundRobin] *)

Section RoundRobinSchedule.

Variable q : Z.
Variable l : list Process.
Hypothesis Hvalid : Forall valid_process l.

(** Retiring the running process commits it at the current time. *)
Lemma rr_retire_trace (reset : Z -> Z) s :
  (forall (i : nat) p, rr_procs s !! i = Some p -> rr_committed s i ->
     completionTime p + 1 <= rr_time s) ->
  let s1 := core_retire (fun p => p) reset q s in
  length (rr_procs s1) = length (rr_procs s)
  /\ (forall (i : nat) p, rr_procs s !! i = Some p -> rr_committed s i ->
        rr_procs s1 !! i = Some p /\ rr_committed s1 i)
  /\ (forall (i : nat) p p1, rr_procs s !! i = Some p ->
        rr_procs s1 !! i = Some p1 -> arrivalTime p1 = arrivalTime p)
  /\ (forall (i : nat) p1, rr_procs s1 !! i = Some p1 -> rr_committed s1 i ->
        completionTime p1 <= rr_time s)
  /\ ((rr_completed s < rr_completed s1)%nat ->
      exists (i : nat) p1, rr_procs s1 !! i = Some p1 /\ rr_committed s1 i
                           /\ completionTime p1 = rr_time s).
Proof.
  intros Hcomp.
  assert (length (rr_procs s) = length (rr_procs s)
    /\ (forall (i : nat) p, rr_procs s !! i = Some p -> rr_committed s i ->
          rr_procs s !! i = Some p /\ rr_committed s i)
    /\ (forall (i : nat) p p1, rr_procs s !! i = Some p ->
          rr_procs s !! i = Some p1 -> arrivalTime p1 = arrivalTime p)
    /\ (forall (i : nat) p1, rr_procs s !! i = Some p1 -> rr_committed s i ->
          completionTime p1 <= rr_time s)
    /\ ((rr_completed s < rr_completed s)%nat ->
        exists (i : nat) p1, rr_procs s !! i = Some p1 /\ rr_committed s i
                             /\ completionTime p1 = rr_time s)) as Hsame.
  { split; [reflexivity|]. split; [auto|]. split; [congruence|].
    split; [|lia]. intros i p1 H1 H2. specialize (Hcomp _ _ H1 H2). lia. }
  unfold core_retire.
  destruct (rr_running s) as [r|] eqn:Er; [|exact Hsame].
  destruct (rr_procs s !! r) as [p|] eqn:Ep; [|exact Hsame].
  pose proof (lookup_lt_Some _ _ _ Ep) as Hr.
  destruct (Z.eqb_spec (remainingTime p) 0) as [Ez|Ez];
    [|destruct (rr_quantum s =? q); [|exact Hsame]];
    clear Hsame; unfold rr_committed; simpl.
  - split; [apply length_insert|].
    split.
    { intros i p2 Hp2 (p3 & Hp3 & Hz & Hne).
      assert (i <> r) by congruence.
      rewrite list_lookup_insert_ne by auto. split; [exact Hp2|].
      exists p3. repeat split; auto; discriminate. }
    split.
    { intros i p2 p1 Hp2 Hp1. destruct (decide (i = r)) as [->|Hne].
      - rewrite list_lookup_insert_eq in Hp1 by exact Hr.
        injection Hp1 as <-. simpl. congruence.
      - rewrite list_lookup_insert_ne in Hp1 by auto. congruence. }
    split.
    { intros i p1 Hp1 (p3 & Hp3 & Hz & _).
      destruct (decide (i = r)) as [->|Hne].
      - rewrite list_lookup_insert_eq in Hp1 by exact Hr.
        injection Hp1 as <-. simpl. lia.
      - rewrite list_lookup_insert_ne in Hp1, Hp3 by auto.
        assert (completionTime p1 + 1 <= rr_time s); [|lia].
        apply (Hcomp i p1 Hp1). exists p3. repeat split; auto; congruence. }
    intros _. exists r, (commit p (rr_time s)).
    rewrite list_lookup_insert_eq by exact Hr.
    split; [reflexivity|]. split; [|reflexivity].
    exists (commit p (rr_time s)). repeat split; auto; discriminate.
  - split; [reflexivity|].
    split.
    { intros i p2 Hp2 (p3 & Hp3 & Hz & Hne). split; [exact Hp2|].
      exists p3. repeat split; auto; discriminate. }
    split; [congruence|].
    split; [|lia].
    intros i p1 Hp1 (p3 & Hp3 & Hz & _).
    assert (completionTime p1 + 1 <= rr_time s); [|lia].
    apply (Hcomp i p1 Hp1). exists p3. repeat split; auto.
    intros E. rewrite Er in E. injection E as <-. congruence.
Qed.

(** Dispatching and running one tick. *)
Lemma rr_exec_trace s D :
  rr_inv l s D (rr_time s + 1) true ->
  let s' := core_execute true (V1.rr_dispatch s) in
  length (rr_procs s') = length (rr_procs s)
  /\ (forall (i : nat) p, rr_procs s !! i = Some p -> rr_committed s i ->
        rr_procs s' !! i = Some p /\ rr_committed s' i)
  /\ (forall (i : nat) p p', rr_procs s !! i = Some p ->
        rr_procs s' !! i = Some p' -> arrivalTime p' = arrivalTime p)
  /\ (forall (i : nat) p', rr_procs s' !! i = Some p' -> rr_committed s' i ->
        rr_procs s !! i = Some p' /\ rr_committed s i)
  /\ rr_completed s' = rr_completed s
  /\ rr_time s' = rr_time s + 1
  /\ exists x, rr_timeline s' = rr_timeline s ++ [x]
       /\ match x with
          | Some info =>
              exists p, p ∈ l /\ name p = ti_processName info
                        /\ arrivalTime p <= rr_time s
          | None =>
              forall (i : nat) p', rr_procs s' !! i = Some p' ->
                arrivalTime p' <= rr_time s -> rr_committed s' i
          end
       /\ (rr_running s = None -> rr_queue s = [] -> x = None).
Proof.
  intros Hinv.
  destruct (core_dispatch_inv l s D _ Hinv) as (H3 & Hq3 & Ep & Et & Ec & Etl).
  assert (forall i, rr_committed (V1.rr_dispatch s) i <-> rr_committed s i)
    as Hc.
  { intros i. unfold rr_committed. rewrite Ep.
    destruct Hinv as (_ & _ & Hq & _).
    unfold V1.rr_dispatch.
    destruct (rr_running s) as [r|] eqn:Er; [rewrite Er; tauto|].
    destruct (rr_queue s) as [|j rest] eqn:Eq; [rewrite Er; tauto|].
    simpl.
    split; intros (p & Hp & Hz & Hr); exists p; repeat split; auto;
      try discriminate.
    intros [= ->]. destruct (Hq i) as (y & Hy & _ & Hpos); [left|].
    rewrite Hp in Hy. injection Hy as <-. lia. }
  set (s3 := V1.rr_dispatch s) in *.
  destruct H3 as (Hs & Hpr & Hq & Hrun & _).
  unfold core_execute.
  destruct (rr_running s3) as [r|] eqn:Er.
  - destruct (Hrun r eq_refl) as (Hrq & p & Hp & Harr & Hpos).
    pose proof (lookup_lt_Some _ _ _ Hp) as Hr.
    rewrite Hp. unfold rr_committed. simpl.
    split; [rewrite length_insert; congruence|].
    split.
    { intros i y Hy Hci. apply Hc in Hci as (y' & Hy' & Hz & Hne).
      assert (i <> r) by congruence.
      rewrite !list_lookup_insert_ne by auto. rewrite Ep.
      split; [exact Hy|]. exists y'. repeat split; auto; congruence. }
    split.
    { intros i y y' Hy Hy'. rewrite <- Ep in Hy.
      destruct (decide (i = r)) as [->|Hne].
      - rewrite list_lookup_insert_eq in Hy' by exact Hr.
        injection Hy' as <-. simpl. congruence.
      - rewrite list_lookup_insert_ne in Hy' by auto. congruence. }
    split.
    { intros i y' Hy' (y & Hy & Hz & Hne).
      assert (i <> r) by congruence.
      rewrite list_lookup_insert_ne in Hy', Hy by auto.
      split; [rewrite <- Ep; exact Hy'|]. apply (proj1 (Hc i)). exists y.
      repeat split; auto; congruence. }
    split; [exact Ec|]. split; [lia|].
    exists (Some (info_of p)). split; [rewrite Etl; reflexivity|].
    split.
    { destruct (statics_named _ _ _ _ Hs Hp) as (p0 & Hp0 & En & Ea).
      exists p0. simpl. repeat split; auto. lia. }
    intros Hrn Hqn. exfalso. unfold s3, V1.rr_dispatch in Er.
    rewrite Hrn, Hqn in Er. congruence.
  - unfold rr_committed. simpl.
    split; [congruence|].
    split.
    { intros i y Hy Hci. apply Hc in Hci as (y' & Hy' & Hz & Hne).
      split; [rewrite Ep; exact Hy|]. exists y'. repeat split; auto;
      discriminate. }
    split; [intros i y y' Hy Hy'; rewrite Ep in Hy'; congruence|].
    split.
    { intros i y' Hy' (y & Hy & Hz & Hne).
      split; [rewrite <- Ep; exact Hy'|]. apply (proj1 (Hc i)). exists y.
      repeat split; auto; congruence. }
    split; [exact Ec|]. split; [lia|].
    exists None. split; [rewrite Etl; reflexivity|].
    split; [|reflexivity].
    intros i p' Hp' Ha. exists p'. split; [exact Hp'|].
    split; [|discriminate].
    destruct (Hpr _ _ Hp') as (H0 & _ & _ & H4).
    destruct (decide (remainingTime p' = 0)) as [|Hnz]; [assumption|].
    exfalso. destruct H4 as [Hin|Hin]; [lia|lia| |congruence].
    rewrite (Hq3 eq_refl) in Hin. inversion Hin.
Qed.

Lemma rr_body_trace s D :
  rr_inv l s D (rr_time s) false ->
  trace_inv l (rr_procs s) (rr_committed s) (rr_timeline s) (rr_time s) 1 ->
  let s' := V1.rr_body q s in
  trace_inv l (rr_procs s') (rr_committed s') (rr_timeline s') (rr_time s') 1
  /\ rr_time s' = rr_time s + 1
  /\ ((rr_completed s < rr_completed s')%nat ->
      just_completed (rr_procs s') (rr_time s') 1).
Proof.
  intros Hinv Htr. pose proof Htr as (_ & _ & Hcomp & _).
  rewrite rr_body_core. unfold core_body. cbv zeta.
  destruct (core_retire_inv (fun p => p) q l keeps_schedule_id Hvalid
              (fun z => z) s D _ Hinv)
    as (D1 & H1 & _ & _ & Ht1 & Htl1 & _).
  destruct (rr_retire_trace (fun z => z) s Hcomp) as (R1 & R2 & R3 & R4 & R5).
  set (s1 := core_retire (fun p => p) (fun z => z) q s) in *.
  rewrite <- Ht1 in H1. apply (core_enqueue_inv l Hvalid) in H1.
  destruct (rr_exec_trace (V1.rr_enqueue s1) D1 H1)
    as (E1 & E2 & E3 & E4 & E5 & E6 & x & E7 & E8 & _).
  set (s' := core_execute true (V1.rr_dispatch (V1.rr_enqueue s1))) in *.
  change (rr_committed (V1.rr_enqueue s1)) with (rr_committed s1) in *.
  simpl in E1, E2, E3, E4, E5, E6, E7, E8.
  split; [|split; [lia|]].
  - rewrite E7, E6, Htl1, Ht1.
    replace (rr_time s + 1) with (rr_time s + Z.of_nat (length [x]))
      by (simpl; lia).
    apply (trace_extend l (rr_procs s) _ (rr_committed s) (rr_committed s')
                        _ [x] _ 1 Htr).
    + congruence.
    + intros i p Hp Hci. destruct (R2 _ _ Hp Hci) as [Hp1 Hc1].
      apply E2; auto.
    + intros i p p' Hp Hp'.
      assert (is_Some (rr_procs s1 !! i)) as [p1 Hp1].
      { apply lookup_lt_is_Some. rewrite R1. eapply lookup_lt_Some; eauto. }
      rewrite (E3 _ _ _ Hp1 Hp'). eapply R3; eauto.
    + intros i p' Hp' Hci. destruct (E4 _ _ Hp' Hci) as [Hp1 Hc1].
      pose proof (R4 _ _ Hp1 Hc1). simpl. lia.
    + intros k y Hk. destruct k as [|k]; [|destruct k; discriminate].
      injection Hk as <-. destruct x as [info|].
      * destruct E8 as (p & ? & ? & ?). exists p. repeat split; auto. lia.
      * intros i p' Hp' Ha.
        assert (rr_committed s' i) as Hci by (apply (E8 i p' Hp'); lia).
        split; [exact Hci|]. destruct (E4 _ _ Hp' Hci) as [Hp1 Hc1].
        pose proof (R4 _ _ Hp1 Hc1). lia.
  - intros Hlt. rewrite E5 in Hlt.
    destruct (R5 Hlt) as (i & p1 & Hp1 & Hc1 & Ec).
    destruct (E2 _ _ Hp1 Hc1) as [Hp' _]. exists p1.
    split; [eapply list_elem_of_lookup_2; eauto|]. lia.
Qed.

Lemma rr_loop_trace : forall fuel s D s' log,
  rr_inv l s D (rr_time s) false ->
  trace_inv l (rr_procs s) (rr_committed s) (rr_timeline s) (rr_time s) 1 ->
  0 <= rr_time s ->
  ((length l <= rr_completed s)%nat -> l <> [] ->
   just_completed (rr_procs s) (rr_time s) 1 /\ 1 <= rr_time s) ->
  V1.rr_loop q fuel s = Some (s', log) ->
  trace_inv l (rr_procs s') (rr_committed s') (rr_timeline s') (rr_time s') 1
  /\ ((length l <= rr_completed s')%nat -> l <> [] ->
      just_completed (rr_procs s') (rr_time s') 1 /\ 1 <= rr_time s').
Proof.
  induction fuel as [|fuel IH]; intros s D s' log Hinv Htr Ht HJ Hloop;
    assert (length (rr_procs s) = length l) as Hl
      by (apply statics_length, Hinv);
    [rewrite rr_loop_O in Hloop|rewrite rr_loop_S in Hloop];
    rewrite Hl in Hloop;
    destruct (Nat.ltb_spec (rr_completed s) (length l)) as [Hlt|Hge];
    try discriminate;
    try (injection Hloop as <- <-; split; [exact Htr|exact HJ]).
  destruct (core_body_inv (fun p => p) true q l keeps_schedule_id Hvalid
              s D Hinv Hlt) as (D' & Hinv' & _).
  destruct (rr_body_trace s D Hinv Htr) as (Htr' & Ht' & HJ').
  rewrite rr_body_core in Htr', Ht', HJ'.
  set (s1 := core_body (fun p => p) true q s) in *.
  assert ((length l <= rr_completed s1)%nat -> l <> [] ->
          just_completed (rr_procs s1) (rr_time s1) 1 /\ 1 <= rr_time s1)
    as HJ1.
  { intros Hge _. split; [apply HJ'; lia|lia]. }
  destruct (Z.ltb_spec ceiling_v1 (rr_time s1)).
  - injection Hloop as <- <-. split; [exact Htr'|exact HJ1].
  - apply (IH _ _ _ _ Hinv' Htr' ltac:(lia) HJ1 Hloop).
Qed.

Lemma runRoundRobin_schedule r log :
  V1.runRoundRobin l q = Some (r, log) ->
  chart_ok l r
  /\ statics <$> processes r = statics <$> l
  /\ (log = [] -> schedule_ok l r 1).
Proof.
  intros Hrun.
  destruct (decide (l = [])) as [E|Hne].
  { rewrite E in Hrun. injection Hrun as <- <-.
    assert (chart_ok l (createEmptyResult "Round Robin")) as Hc.
    { unfold chart_ok; simpl.
      split; [intros e He; inversion He|].
      split; [intros e He; inversion He|]. intros; lia. }
    split; [exact Hc|]. split; [rewrite E; reflexivity|].
    intros _. split; [easy|exact Hc]. }
  assert (exists s', V1.rr_loop q (Z.to_nat (ceiling_v1 + 1)) (V1.rr_init l)
                     = Some (s', log) /\ r = V1.rr_result s')
    as (s' & Hloop & ->).
  { revert Hrun. unfold V1.runRoundRobin. destruct l as [|x l0] eqn:El;
      [easy|].
    destruct (V1.rr_loop q (Z.to_nat (ceiling_v1 + 1)) (V1.rr_init (x :: l0)))
      as [[s' lg]|]; [|discriminate].
    simpl. intros [= <- ->]. eauto. }
  destruct (rr_loop_inv q l Hvalid _ _ _ _ _ (rr_init_inv l Hvalid)
              ltac:(intros; symmetry; apply work_fresh, Forall_lookup;
                    intros i p Hp; rewrite Forall_lookup in Hvalid;
                    destruct (Hvalid _ _ Hp); auto)
              ltac:(simpl; unfold ceiling_v1; lia) Hloop)
    as (D' & Hinv & _ & Hexit & _).
  assert (trace_inv l (rr_procs (V1.rr_init l)) (rr_committed (V1.rr_init l))
            (rr_timeline (V1.rr_init l)) (rr_time (V1.rr_init l)) 1) as Htr0.
  { split; [reflexivity|]. split; [intros j info Hj; inversion Hj|].
    split; [|intros j Hj; inversion Hj].
    intros i p Hp (y & Hy & Hz & _). exfalso.
    unfold V1.rr_init, cloneProcesses in Hy. simpl in Hy.
    rewrite Forall_lookup in Hvalid. destruct (Hvalid _ _ Hy). lia. }
  destruct (rr_loop_trace _ _ _ _ _ (rr_init_inv l Hvalid) Htr0
              ltac:(simpl; lia)
              ltac:(simpl; intros Hc; destruct l; [easy|simpl in Hc; lia])
              Hloop)
    as [Htr HJ].
  destruct Hinv as (Hs & _ & _ & _ & _ & Hnd & Hlen & Hex & _).
  split; [eapply trace_chart_ok; exact Htr|]. split; [exact Hs|].
  intros ->. destruct Hexit as [(_ & Hge & _)|[[=] _]].
  destruct (HJ Hge Hne) as [Hjc Hone].
  apply (trace_schedule_ok l (rr_procs s') (rr_committed s'));
    [lia|exact Htr|].
  intros _. split; [exact Hone|]. split; [|exact Hjc].
  intros i p Hp. apply Hex.
  apply (indices_full D' (length l)); auto; [|lia|].
  - intros j Hj. apply Hex in Hj as (y & Hy & _).
    rewrite <- (statics_length _ _ Hs). eapply lookup_lt_Some; eauto.
  - rewrite <- (statics_length _ _ Hs). eapply lookup_lt_Some; eauto.
Qed.

End RoundRobinSchedule.

(** ** The six batch engines *)

Lemma np_loop_fuel key : forall f1 f2 s a b,
  V1.np_loop key f1 s = Some a -> V1.np_loop key f2 s = Some b -> a = b.
Proof.
  induction f1 as [|f1 IH]; intros f2 s a b H1 H2; destruct f2;
    cbn [V1.np_loop] in H1, H2;
    destruct (bs_completed s <? length (bs_procs s))%nat;
    try discriminate; try congruence.
  eapply IH; eauto.
Qed.

Lemma pre_loop_fuel key : forall f1 f2 s a b,
  V1.pre_loop key f1 s = Some a -> V1.pre_loop key f2 s = Some b -> a = b.
Proof.
  induction f1 as [|f1 IH]; intros f2 s a b H1 H2; destruct f2;
    cbn [V1.pre_loop] in H1, H2;
    destruct (bs_completed s =? length (bs_procs s))%nat;
    try discriminate; try congruence.
  destruct (V1.pre_body key s) as [s1|]; [|discriminate].
  simpl in H1, H2. eapply IH; eauto.
Qed.

(** The result of a batch engine does not depend on the fuel. *)
Lemma run_batch_fuel pol q f1 f2 l r1 r2 :
  run_batch pol q f1 l = Some r1 -> run_batch pol q f2 l = Some r2 ->
  r1 = r2.
Proof.
  assert (forall key nm, V1.run_np key nm f1 l = Some r1 ->
            V1.run_np key nm f2 l = Some r2 -> r1 = r2) as Hnp.
  { intros key nm. unfold V1.run_np. destruct l; [congruence|].
    destruct (V1.np_loop key f1 _) as [a|] eqn:Ea; [|discriminate].
    destruct (V1.np_loop key f2 _) as [b|] eqn:Eb; [|discriminate].
    rewrite (np_loop_fuel _ _ _ _ _ _ Ea Eb). simpl. congruence. }
  assert (forall key nm, V1.run_pre key nm f1 l = Some r1 ->
            V1.run_pre key nm f2 l = Some r2 -> r1 = r2) as Hpre.
  { intros key nm. unfold V1.run_pre. destruct l; [congruence|].
    destruct (V1.pre_loop key f1 _) as [a|] eqn:Ea; [|discriminate].
    destruct (V1.pre_loop key f2 _) as [b|] eqn:Eb; [|discriminate].
    rewrite (pre_loop_fuel _ _ _ _ _ _ Ea Eb). simpl. congruence. }
  destruct pol; simpl; try congruence;
    first [apply Hnp | apply Hpre].
Qed.

(** What the six engines have in common. *)
Lemma batch_schedule pol q l :
  valid_input l ->
  (exists fuel r, run_batch pol q fuel l = Some r)
  /\ forall fuel r, run_batch pol q fuel l = Some r ->
       chart_ok l r
       /\ statics <$> processes r ≡ₚ statics <$> l
       /\ (pol <> FCFS -> statics <$> processes r = statics <$> l)
       /\ (pol = FCFS -> StronglySorted by_arrival_id (processes r))
       /\ ((pol = RoundRobin -> tick_bound l <= ceiling_v1) ->
           schedule_ok l r (retire_lag pol)).
Proof.
  intros Hv.
  assert (exists fuel r, run_batch pol q fuel l = Some r
            /\ chart_ok l r
            /\ statics <$> processes r ≡ₚ statics <$> l
            /\ (pol <> FCFS -> statics <$> processes r = statics <$> l)
            /\ (pol = FCFS -> StronglySorted by_arrival_id (processes r))
            /\ ((pol = RoundRobin -> tick_bound l <= ceiling_v1) ->
                schedule_ok l r (retire_lag pol))) as (fuel & r & Hr & Hok).
  { destruct pol; simpl.
    - destruct (runFCFS_schedule l Hv) as [Hs Hsorted].
      exists 0%nat, (V1.runFCFS l). split; [reflexivity|].
      split; [apply Hs|]. split; [apply (runFCFS_ok l Hv)|].
      split; [congruence|]. auto.
    - destruct (run_np_schedule key_burst l Hv "Non-Preemptive SJF")
        as (fuel & r & Hr & Hok & Hs & Hst).
      exists fuel, r. split; [exact Hr|]. split; [apply Hs|].
      split; [rewrite Hst; reflexivity|]. split; [auto|].
      split; [discriminate|auto].
    - destruct (run_pre_schedule key_remaining l Hv "Preemptive SJF (SRTF)")
        as (fuel & r & Hr & Hok & Hs & Hst).
      exists fuel, r. split; [exact Hr|]. split; [apply Hs|].
      split; [rewrite Hst; reflexivity|]. split; [auto|].
      split; [discriminate|auto].
    - destruct (run_np_schedule priority_or_inf l Hv
                  "Non-Preemptive Priority")
        as (fuel & r & Hr & Hok & Hs & Hst).
      exists fuel, r. split; [exact Hr|]. split; [apply Hs|].
      split; [rewrite Hst; reflexivity|]. split; [auto|].
      split; [discriminate|auto].
    - destruct (run_pre_schedule priority_or_inf l Hv "Preemptive Priority")
        as (fuel & r & Hr & Hok & Hs & Hst).
      exists fuel, r. split; [exact Hr|]. split; [apply Hs|].
      split; [rewrite Hst; reflexivity|]. split; [auto|].
      split; [discriminate|auto].
    - destruct (runRoundRobin_ok q l (proj1 Hv))
        as (r & log & Hr & _ & _ & _ & _ & Hfit).
      destruct (runRoundRobin_schedule q l (proj1 Hv) r log Hr)
        as (Hc & Hst & Hs).
      exists 0%nat, r. rewrite Hr. split; [reflexivity|].
      split; [exact Hc|]. split; [rewrite Hst; reflexivity|].
      split; [auto|]. split; [discriminate|].
      intros Hb. apply Hs, Hfit, Hb. reflexivity. }
  split; [eauto|].
  intros fuel' r' Hr'. rewrite (run_batch_fuel _ _ _ _ _ _ _ Hr' Hr).
  exact Hok.
Qed.

(** X11 (runFCFS, runSJF, runSRTF, runPriorityNonPreemptive,
    runPriorityPreemptive, runRoundRobin).  On every non-empty valid input
    each batch engine returns, and the [totalTime] of the result is the
    latest completion time of its processes, except for Round Robin,
    where it is one tick more: the loop of [runRoundRobin] retires the
    last process one iteration after its last tick and counts that
    iteration too.  For Round Robin this is shown for the inputs that fit
    below the safety ceiling (burst times, number of processes and latest
    arrival together at most 20000). *)
Theorem X11_total_time_and_last_completion (pol : Policy) (timeQuantum : Z)
    (l : list Process) :
  valid_input l -> l <> [] ->
  (pol = RoundRobin -> tick_bound l <= ceiling_v1) ->
  (exists fuel r, run_batch pol timeQuantum fuel l = Some r)
  /\ forall fuel r, run_batch pol timeQuantum fuel l = Some r ->
       totalTime r = max_completion (processes r) + retire_lag pol
       /\ Forall (fun p => completionTime p + retire_lag pol <= totalTime r)
                 (processes r).
Proof.
  intros Hv Hne Hfit.
  destruct (batch_schedule pol timeQuantum l Hv) as [Hex Hall].
  split; [exact Hex|].
  intros fuel r Hr.
  destruct (Hall fuel r Hr) as (_ & _ & _ & _ & Hs).
  destruct (Hs Hfit) as [Ht _]. specialize (Ht Hne).
  split; [exact Ht|].
  apply Forall_forall. intros p Hp.
  pose proof (max_completion_ge (processes r) p Hp). lia.
Qed.

Lemma X11_total_time_and_last_completion_witness :
  valid_input example_input
  /\ example_input <> []
  /\ tick_bound example_input <= ceiling_v1
  /\ (exists fuel r, run_batch RoundRobin 2 fuel example_input = Some r)
  /\ forall fuel r, run_batch RoundRobin 2 fuel example_input = Some r ->
       totalTime r = max_completion (processes r) + retire_lag RoundRobin
       /\ Forall (fun p => completionTime p + retire_lag RoundRobin
                           <= totalTime r)
                 (processes r).
Proof.
  split; [exact example_input_valid|].
  split; [discriminate|].
  split; [vm_compute; discriminate|].
  apply (X11_total_time_and_last_completion RoundRobin 2 example_input).
  - exact example_input_valid.
  - discriminate.
  - intros _. vm_compute. discriminate.
Defined.

(** X12 (the six batch engines with buildGanttChart).  On every valid
    input each batch engine returns a chart in which nothing runs before
    it has arrived: every entry carries the name of a process of the input
    whose arrival time is at most the start of the entry.  Every entry
    lies between 0 and [totalTime].  For Round Robin this holds for the
    runs stopped by the safety break too. *)
Theorem X12_nothing_runs_before_it_arrives (pol : Policy) (timeQuantum : Z)
    (l : list Process) :
  valid_input l ->
  (exists fuel r, run_batch pol timeQuantum fuel l = Some r)
  /\ forall fuel r, run_batch pol timeQuantum fuel l = Some r ->
       forall e, e ∈ ganttChart r ->
         (exists p, p ∈ l /\ name p = processName e
                    /\ arrivalTime p <= start e)
         /\ 0 <= start e /\ start e < end_ e /\ end_ e <= totalTime r.
Proof.
  intros Hv.
  destruct (batch_schedule pol timeQuantum l Hv) as [Hex Hall].
  split; [exact Hex|].
  intros fuel r Hr e He.
  destruct (Hall fuel r Hr) as ((H1 & H2 & _) & _).
  split; [exact (H1 e He)|].
  destruct (H2 e He) as [H0 Hend].
  split; [exact H0|]. split; [|exact Hend].
  assert (ordered_from 0 (ganttChart r)) as Hord.
  { destruct pol; simpl in Hr.
    - injection Hr as <-. apply (runFCFS_ok l Hv).
    - destruct (run_np_ok key_burst l Hv "Non-Preemptive SJF")
        as (f & r0 & Hr0 & Hok).
      rewrite (run_batch_fuel SJF timeQuantum _ _ _ _ _ Hr Hr0). apply Hok.
    - destruct (run_pre_schedule key_remaining l Hv "Preemptive SJF (SRTF)")
        as (f & r0 & Hr0 & Hok & _).
      rewrite (run_batch_fuel SRTF timeQuantum _ _ _ _ _ Hr Hr0). apply Hok.
    - destruct (run_np_ok priority_or_inf l Hv "Non-Preemptive Priority")
        as (f & r0 & Hr0 & Hok).
      rewrite (run_batch_fuel PriorityNP timeQuantum _ _ _ _ _ Hr Hr0).
      apply Hok.
    - destruct (run_pre_schedule priority_or_inf l Hv "Preemptive Priority")
        as (f & r0 & Hr0 & Hok & _).
      rewrite (run_batch_fuel PriorityP timeQuantum _ _ _ _ _ Hr Hr0).
      apply Hok.
    - destruct (runRoundRobin_ok timeQuantum l (proj1 Hv))
        as (r0 & log & Hr0 & _ & _ & _ & Hord & _).
      rewrite Hr0 in Hr. injection Hr as <-. exact Hord. }
  apply list_elem_of_lookup_1 in He as [k Hk].
  destruct (ordered_from_lookup _ _ _ _ Hord Hk). lia.
Qed.

Lemma X12_nothing_runs_before_it_arrives_witness :
  valid_input example_input
  /\ (exists fuel r, run_batch SRTF 2 fuel example_input = Some r)
  /\ forall fuel r, run_batch SRTF 2 fuel example_input = Some r ->
       forall e, e ∈ ganttChart r ->
         (exists p, p ∈ example_input /\ name p = processName e
                    /\ arrivalTime p <= start e)
         /\ 0 <= start e /\ start e < end_ e /\ end_ e <= totalTime r.
Proof.
  split; [exact example_input_valid|].
  exact (X12_nothing_runs_before_it_arrives SRTF 2 example_input
           example_input_valid).
Defined.



(** X14 (the six batch engines).  The processes of a result are the
    processes of the input with id, name, arrival time and burst time
    unchanged.  runSJF, runSRTF, the two Priority engines and
    runRoundRobin return them in the order of the input; runFCFS returns
    them sorted by arrival time, then by id. *)
Theorem X14_order_of_the_result (pol : Policy) (timeQuantum : Z)
    (l : list Process) :
  valid_input l ->
  (exists fuel r, run_batch pol timeQuantum fuel l = Some r)
  /\ forall fuel r, run_batch pol timeQuantum fuel l = Some r ->
       statics <$> processes r ≡ₚ statics <$> l
       /\ match pol with
          | FCFS => StronglySorted by_arrival_id (processes r)
          | _ => statics <$> processes r = statics <$> l
          end.
Proof.
  intros Hv.
  destruct (batch_schedule pol timeQuantum l Hv) as [Hex Hall].
  split; [exact Hex|].
  intros fuel r Hr.
  destruct (Hall fuel r Hr) as (_ & Hperm & Hsame & Hsorted & _).
  split; [exact Hperm|].
  destruct pol; first [apply Hsorted; reflexivity | apply Hsame; discriminate].
Qed.

Lemma X14_order_of_the_result_witness :
  valid_input example_input
  /\ (exists fuel r, run_batch FCFS 2 fuel example_input = Some r)
  /\ forall fuel r, run_batch FCFS 2 fuel example_input = Some r ->
       statics <$> processes r ≡ₚ statics <$> example_input
       /\ StronglySorted by_arrival_id (processes r).
Proof.
  split; [exact example_input_valid|].
  exact (X14_order_of_the_result FCFS 2 example_input example_input_valid).
Defined.

(** ** The averages of a result *)

Lemma fold_sum_of (f : Process -> Z) (l : list Process) : forall a,
  fold_left (fun acc p => acc + f p) l a = a + zsum f l.
Proof.
  induction l as [|x l IH]; intros a; simpl; [lia|]. rewrite IH. lia.
Qed.

Lemma sum_of_zsum (f : Process -> Z) (l : list Process) :
  sum_of f l = zsum f l.
Proof. unfold sum_of. rewrite fold_sum_of. lia. Qed.

Lemma zsum_burst_statics (l : list Process) :
  zsum burstTime l = zsum (fun s : Z * string * Z * Z => s.2) (statics <$> l).
Proof. induction l as [|x l IH]; simpl; [reflexivity|]. rewrite IH. reflexivity. Qed.

Lemma zsum_metrics (l : list Process) :
  Forall metrics_ok l ->
  zsum turnaroundTime l = zsum waitingTime l + zsum burstTime l
  /\ 0 <= zsum waitingTime l.
Proof.
  induction 1 as [|p l (_ & Hw & H0) _ IH]; simpl; [lia|]. lia.
Qed.

Lemma batch_averages pol q fuel l r :
  run_batch pol q fuel l = Some r -> l <> [] ->
  avgWaitingTime r
  = average (sum_of waitingTime (processes r)) (length (processes r))
  /\ avgTurnaroundTime r
     = average (sum_of turnaroundTime (processes r)) (length (processes r)).
Proof.
  intros Hr Hne.
  assert (forall key nm, V1.run_np key nm fuel l = Some r ->
    avgWaitingTime r
    = average (sum_of waitingTime (processes r)) (length (processes r))
    /\ avgTurnaroundTime r
       = average (sum_of turnaroundTime (processes r))
                 (length (processes r))) as Hnp.
  { intros key nm. unfold V1.run_np. destruct l; [easy|].
    destruct (V1.np_loop key fuel _) as [s|]; [|discriminate].
    simpl. intros [= <-]. split; reflexivity. }
  assert (forall key nm, V1.run_pre key nm fuel l = Some r ->
    avgWaitingTime r
    = average (sum_of waitingTime (processes r)) (length (processes r))
    /\ avgTurnaroundTime r
       = average (sum_of turnaroundTime (processes r))
                 (length (processes r))) as Hpre.
  { intros key nm. unfold V1.run_pre. destruct l; [easy|].
    destruct (V1.pre_loop key fuel _) as [s|]; [|discriminate].
    simpl. intros [= <-]. split; reflexivity. }
  destruct pol; simpl in Hr; try (first [eapply Hnp; exact Hr | eapply Hpre; exact Hr]).
  - injection Hr as <-. unfold V1.runFCFS. destruct l; [easy|].
    cbv zeta.
    destruct (fold_left V1.fcfs_body _ _) as [[t tl] l']. split; reflexivity.
  - unfold V1.runRoundRobin in Hr. destruct l; [easy|].
    destruct (V1.rr_loop q _ _) as [[s lg]|]; [|discriminate].
    simpl in Hr. injection Hr as <-. split; reflexivity.
Qed.

(** The division of doubles rounds: on the averages of the example the
    mean turnaround time is not the mean waiting time plus the mean burst
    time, although the totals add up. *)
Example average_rounds :
  double_add (average 8 3) (average 9 3) <> average (8 + 9) 3.
Proof. vm_compute. discriminate. Qed.

(** X15 (the six batch engines).  On every non-empty valid input the two
    averages of a result are the quotients, as doubles, of the total
    waiting time and the total turnaround time of its processes by the
    number of processes of the input (not zero); the total turnaround time
    is exactly the total waiting time plus the burst times of the input,
    and the total waiting time is not negative.  For Round Robin this is
    shown for the inputs that fit below the safety ceiling. *)
Theorem X15_totals_of_the_averages (pol : Policy) (timeQuantum : Z)
    (l : list Process) :
  valid_input l -> l <> [] ->
  (pol = RoundRobin -> tick_bound l <= ceiling_v1) ->
  (exists fuel r, run_batch pol timeQuantum fuel l = Some r)
  /\ forall fuel r, run_batch pol timeQuantum fuel l = Some r ->
       avgWaitingTime r
       = average (sum_of waitingTime (processes r)) (length l)
       /\ avgTurnaroundTime r
          = average (sum_of turnaroundTime (processes r)) (length l)
       /\ sum_of turnaroundTime (processes r)
          = sum_of waitingTime (processes r) + sum_of burstTime l
       /\ 0 <= sum_of waitingTime (processes r).
Proof.
  intros Hv Hne Hfit.
  destruct (run_batch_ok pol timeQuantum l Hv)
    as (fuel0 & r0 & Hr0 & _ & Hok & Hceil & _).
  split; [eauto|].
  intros fuel r Hr.
  rewrite (run_batch_fuel _ _ _ _ _ _ _ Hr Hr0).
  destruct (batch_averages _ _ _ _ _ Hr0 Hne) as [Hw Ht].
  destruct Hok as (Hs & Hm & _); [intros E; apply Hceil; auto|].
  assert (length (processes r0) = length l) as Hlen.
  { rewrite <- (length_fmap statics (processes r0)),
      <- (length_fmap statics l). apply Permutation_length. exact Hs. }
  destruct (zsum_metrics _ Hm) as [Hsum Hnn].
  assert (zsum burstTime (processes r0) = zsum burstTime l) as Hb.
  { rewrite !zsum_burst_statics. apply zsum_perm. exact Hs. }
  rewrite Hlen in Hw, Ht.
  split; [exact Hw|]. split; [exact Ht|].
  rewrite !sum_of_zsum, Hsum, Hb. split; [reflexivity|exact Hnn].
Qed.

Lemma X15_totals_of_the_averages_witness :
  valid_input example_input
  /\ example_input <> []
  /\ (exists fuel r, run_batch SJF 2 fuel example_input = Some r)
  /\ forall fuel r, run_batch SJF 2 fuel example_input = Some r ->
       avgWaitingTime r
       = average (sum_of waitingTime (processes r)) (length example_input)
       /\ avgTurnaroundTime r
          = average (sum_of turnaroundTime (processes r))
                    (length example_input)
       /\ sum_of turnaroundTime (processes r)
          = sum_of waitingTime (processes r) + sum_of burstTime example_input
       /\ 0 <= sum_of waitingTime (processes r).
Proof.
  split; [exact example_input_valid|].
  split; [discriminate|].
  apply (X15_totals_of_the_averages SJF 2 example_input).
  - exact example_input_valid.
  - discriminate.
  - discriminate.
Defined.

(** * The states shown by the Round Robin generator *)

Lemma marked_retire q s :
  states_marked s ->
  states_marked (core_retire (fun p => set_state p Completed) (fun z => z) q s).
Proof.
  intros H. unfold core_retire.
  destruct (rr_running s) as [r|] eqn:Er; [|exact H].
  destruct (rr_procs s !! r) as [p|] eqn:Ep; [|exact H].
  pose proof (lookup_lt_Some _ _ _ Ep) as Hr.
  destruct (Z.eqb_spec (remainingTime p) 0) as [Ez|Ez];
    [|destruct (rr_quantum s =? q); [|exact H]];
    intros i p' Hp'; simpl in Hp' |- *.
  - destruct (decide (i = r)) as [->|Hne].
    + rewrite list_lookup_insert_eq in Hp' by exact Hr. injection Hp' as <-.
      left. simpl. repeat split; auto.
    + rewrite list_lookup_insert_ne in Hp' by auto.
      destruct (H i p' Hp') as [(?&?&?)|(? & Hn)].
      * left. repeat split; auto.
      * right. split; [assumption|]. intros [Hz _]. apply Hn.
        split; [exact Hz|]. rewrite Er. congruence.
  - destruct (H i p' Hp') as [(?&?&?)|(? & Hn)].
    + left. repeat split; auto.
    + right. split; [assumption|]. intros [Hz _].
      destruct (decide (i = r)) as [->|Hne]; [congruence|].
      apply Hn. split; [exact Hz|]. rewrite Er. congruence.
Qed.

Lemma marked_dispatch s :
  (forall i, i ∈ rr_queue s ->
     exists p, rr_procs s !! i = Some p /\ 0 < remainingTime p) ->
  states_marked s -> states_marked (V1.rr_dispatch s).
Proof.
  intros Hq H. unfold V1.rr_dispatch.
  destruct (rr_running s) as [r|] eqn:Er; [exact H|].
  destruct (rr_queue s) as [|j rest] eqn:Eq; [exact H|].
  intros i p Hp. simpl in Hp |- *.
  destruct (Hq j) as (pj & Hpj & Hpos); [left|].
  destruct (H i p Hp) as [(?&?&?)|(? & Hn)].
  - left. repeat split; auto. intros [= ->]. rewrite Hpj in Hp.
    injection Hp as <-. lia.
  - right. split; [assumption|]. intros [Hz _]. apply Hn.
    split; [exact Hz|]. rewrite Er. discriminate.
Qed.

Lemma marked_execute push s :
  states_marked s -> states_marked (core_execute push s).
Proof.
  intros H. unfold core_execute.
  destruct (rr_running s) as [r|] eqn:Er.
  - destruct (rr_procs s !! r) as [p|] eqn:Ep.
    + pose proof (lookup_lt_Some _ _ _ Ep) as Hr.
      intros i p' Hp'. simpl in Hp' |- *.
      destruct (decide (i = r)) as [->|Hne].
      * rewrite list_lookup_insert_eq in Hp' by exact Hr. injection Hp' as <-.
        right. simpl. destruct (H r p Ep) as [(?&?&Hc)|(? & Hn)].
        -- congruence.
        -- split; [assumption|]. intros [_ Hc]. congruence.
      * rewrite list_lookup_insert_ne in Hp' by auto.
        rewrite <- Er. apply H. exact Hp'.
    + intros i p' Hp'. simpl in Hp' |- *. rewrite <- Er. apply H. exact Hp'.
  - intros i p' Hp'. simpl in Hp' |- *. rewrite <- Er. apply H. exact Hp'.
Qed.

Lemma marked_body q l s D :
  Forall valid_process l ->
  rr_inv l s D (rr_time s) false ->
  states_marked s ->
  states_marked (core_body (fun p => set_state p Completed) false q s).
Proof.
  intros Hvalid Hinv H. unfold core_body.
  destruct (core_retire_inv (fun p => set_state p Completed) q l
              keeps_schedule_completed Hvalid (fun z => z) s D _ Hinv)
    as (D1 & H1 & _ & _ & Ht1 & _).
  apply (marked_retire q) in H.
  set (s1 := core_retire _ _ q s) in *.
  rewrite <- Ht1 in H1. apply (core_enqueue_inv l Hvalid) in H1.
  apply marked_execute, marked_dispatch.
  - destruct H1 as (_ & _ & Hq & _). intros i Hi.
    destruct (Hq i Hi) as (p & Hp & _ & Hpos). eauto.
  - exact H.
Qed.

Lemma true_state_set ev p st : true_state ev (set_state p st) = true_state ev p.
Proof. unfold true_state. destruct (runningProcess ev); reflexivity. Qed.

Lemma rr_sim_body_event q s :
  readyQueue (V1.rr_sim_body q s).1
  = deref (rr_procs (V1.rr_sim_body q s).2) (rr_queue (V1.rr_sim_body q s).2)
  /\ ev_processes (V1.rr_sim_body q s).1
     = updateProcessStates (rr_procs (V1.rr_sim_body q s).2)
         (runningProcess (V1.rr_sim_body q s).1)
         (readyQueue (V1.rr_sim_body q s).1) (time (V1.rr_sim_body q s).1).
Proof.
  unfold V1.rr_sim_body.
  destruct (V1.rr_sim_retire q s) as [m1 s1].
  destruct (V1.rr_sim_enqueue s1) as [m2 s2].
  destruct (V1.rr_sim_dispatch s2) as [m3 s3].
  split; reflexivity.
Qed.

Lemma shown_states_ok l s D t msg :
  Forall valid_process l -> NoDup (id <$> l) ->
  rr_inv l s D (t + 1) false -> states_marked s ->
  event_ok (mkEvent t (rr_runner s) (deref (rr_procs s) (rr_queue s))
              (updateProcessStates (rr_procs s) (rr_runner s)
                 (deref (rr_procs s) (rr_queue s)) t) msg).
Proof.
  intros Hv Hnd (Hs & Hpr & Hq & Hrun & Hnq & _ & _ & Hex & _) Hm p Hp.
  simpl in Hp. unfold updateProcessStates in Hp.
  apply list_elem_of_fmap in Hp as (p0 & -> & Hp0).
  apply list_elem_of_lookup_1 in Hp0 as [i Hi].
  assert (forall (j : nat) pj, rr_procs s !! j = Some pj -> id pj = id p0 ->
            j = i) as Hinj.
  { intros j pj Hj E. rewrite <- (statics_ids _ _ Hs) in Hnd.
    apply (NoDup_lookup _ j i (id p0) Hnd);
      rewrite list_lookup_fmap; [rewrite Hj|rewrite Hi]; simpl; congruence. }
  assert (match rr_runner s with
          | Some r => same_id p0 r
          | None => false
          end = true <-> rr_running s = Some i) as Hsame.
  { unfold rr_runner. destruct (rr_running s) as [ri|] eqn:Er; simpl.
    - destruct (Hrun ri) as (_ & pr & Hpr' & _); [congruence|].
      rewrite Hpr'. unfold same_id. split.
      + intros E. apply Z.eqb_eq in E. f_equal. apply (Hinj ri pr); auto.
      + intros [= ->]. rewrite Hi in Hpr'. injection Hpr' as <-.
        apply Z.eqb_refl.
    - split; discriminate. }
  assert (forall x, x ∈ deref (rr_procs s) (rr_queue s) -> id x = id p0 ->
            i ∈ rr_queue s) as Hmem.
  { intros x Hx E. unfold deref in Hx.
    apply list_elem_of_omap in Hx as (j & Hj & Hjx).
    rewrite <- (Hinj j x Hjx E). exact Hj. }
  assert (i ∈ rr_queue s -> p0 ∈ deref (rr_procs s) (rr_queue s)) as Hmem'.
  { intros Hi'. unfold deref. apply list_elem_of_omap. eauto. }
  assert (existsb (same_id p0) (deref (rr_procs s) (rr_queue s)) = true
          <-> i ∈ rr_queue s) as Hin.
  { rewrite existsb_exists. split.
    - intros (x & Hx & E). apply list_elem_of_In in Hx.
      unfold same_id in E. apply Z.eqb_eq in E. eapply Hmem; eauto.
    - intros Hi'. exists p0. split; [apply list_elem_of_In; auto|].
      unfold same_id. apply Z.eqb_refl. }
  assert (id p0 ∈ (id <$> deref (rr_procs s) (rr_queue s))
          <-> i ∈ rr_queue s) as Hin2.
  { rewrite list_elem_of_fmap. split.
    - intros (x & E & Hx). eapply Hmem; eauto.
    - intros Hi'. exists p0. auto. }
  cbn [readyQueue].
  destruct (Hpr i p0 Hi) as (H0 & _ & Hfut & Hnow).
  destruct (Hm i p0 Hi) as [(Hst & Hz & Hnr)|(Hst & Hn)].
  - assert (is_completed p0 = true) as ->
      by (unfold is_completed; rewrite Hst; reflexivity).
    unfold true_state; cbn [runningProcess time].
    destruct (match rr_runner s with
              | Some r => same_id p0 r
              | None => false
              end) eqn:Em.
    + assert (rr_running s = Some i) by (apply Hsame; reflexivity).
      congruence.
    + rewrite Hz. simpl. split; [exact Hst|]. rewrite Hst.
      split; [discriminate|]. intros Hid. apply Hin2 in Hid.
      destruct (Hq i Hid) as (y & Hy & _ & Hpos).
      rewrite Hi in Hy. injection Hy as <-. lia.
  - assert (is_completed p0 = false) as ->
      by (unfold is_completed; rewrite Hst; reflexivity).
    assert (0 < burstTime p0) as Hb.
    { destruct (statics_lookup _ _ _ _ Hs Hi) as (y & Hy & E).
      rewrite Forall_lookup in Hv. destruct (Hv _ _ Hy).
      unfold statics in E. injection E as _ _ _ ->. assumption. }
    destruct (match rr_runner s with
              | Some r => same_id p0 r
              | None => false
              end) eqn:Em.
    + rewrite true_state_set. unfold true_state; cbn [runningProcess time].
      rewrite Em. simpl. split; [reflexivity|]. split; [discriminate|].
      intros Hid. apply Hin2 in Hid.
      assert (rr_running s = Some i) as Hri by (apply Hsame; reflexivity).
      destruct (Hrun i Hri) as (Hnq' & _). contradiction.
    + assert (rr_running s <> Some i) as Hnr
        by (intros Hc; apply Hsame in Hc; discriminate).
      destruct (existsb (same_id p0) (deref (rr_procs s) (rr_queue s)))
        eqn:Eq.
      * assert (i ∈ rr_queue s) as Hiq by (apply Hin; reflexivity).
        destruct (Hq i Hiq) as (y & Hy & Ha & Hpos).
        rewrite Hi in Hy. injection Hy as <-.
        rewrite true_state_set. unfold true_state; cbn [runningProcess time].
        rewrite Em.
        destruct (Z.eqb_spec (remainingTime p0) 0); [lia|].
        destruct (Z.leb_spec (arrivalTime p0) t); [|lia].
        simpl. split; [reflexivity|].
        split; [intros _; apply Hin2; exact Hiq|reflexivity].
      * assert (i ∉ rr_queue s) as Hnq2
          by (intros Hc; apply Hin in Hc; discriminate).
        destruct (Z.ltb_spec t (arrivalTime p0)).
        -- rewrite true_state_set.
           unfold true_state; cbn [runningProcess time]. rewrite Em.
           destruct (Z.eqb_spec (remainingTime p0) 0); [lia|].
           destruct (Z.leb_spec (arrivalTime p0) t); [lia|].
           simpl. split; [reflexivity|]. split; [discriminate|].
           intros Hid. apply Hin2 in Hid. contradiction.
        -- destruct (Z.ltb_spec 0 (remainingTime p0)).
           ++ exfalso.
              destruct Hnow as [?|?]; [lia|lia|contradiction|contradiction].
           ++ exfalso. apply Hn. split; [lia|assumption].
Qed.

Lemma rr_sim_loop_states q l :
  valid_input l ->
  forall fuel s D evs s'',
  rr_inv l s D (rr_time s) false -> states_marked s ->
  V1.rr_sim_loop q fuel s = Some (evs, s'') ->
  Forall event_ok evs /\ states_marked s''
  /\ (exists D'', rr_inv l s'' D'' (rr_time s'') false)
  /\ (length l <= rr_completed s'')%nat.
Proof.
  intros Hvalid.
  induction fuel as [|fuel IH]; intros s D evs s'' Hinv Hm Hloop;
    assert (length (rr_procs s) = length l) as Hl
      by (apply statics_length, Hinv);
    cbn [V1.rr_sim_loop] in Hloop; rewrite Hl in Hloop;
    destruct (Nat.ltb_spec (rr_completed s) (length l)) as [Hlt|Hge];
    try discriminate;
    try (injection Hloop as <- <-; split; [constructor|]; split; [exact Hm|];
         split; [eauto|lia]).
  destruct (core_body_inv _ false q l keeps_schedule_completed
              (proj1 Hvalid) s D Hinv Hlt) as (D' & Hinv' & _).
  pose proof (marked_body q l s D (proj1 Hvalid) Hinv Hm) as Hm'.
  rewrite <- rr_sim_body_core in Hinv', Hm'.
  destruct (rr_sim_body_event q s) as [Eq Ep].
  pose proof (rr_sim_body_runner q s) as Er.
  destruct (rr_sim_body_time q s) as [Et Et'].
  destruct (V1.rr_sim_body q s) as [ev s1]. simpl in *.
  destruct (V1.rr_sim_loop q fuel s1) as [[evs' s2]|] eqn:El;
    simpl in Hloop; [|discriminate].
  injection Hloop as <- <-.
  destruct (IH _ _ _ _ Hinv' Hm' El) as (Hevs & Hrest).
  split; [|exact Hrest].
  constructor; [|exact Hevs].
  destruct ev as [t running queue procs msg]. simpl in *. subst.
  apply (shown_states_ok l s1 D'); [apply Hvalid|apply Hvalid| |exact Hm'].
  rewrite <- Et'. exact Hinv'.
Qed.

Lemma final_event_ok l s D :
  rr_inv l s D (rr_time s) false -> states_marked s ->
  (length l <= rr_completed s)%nat ->
  event_ok (final_event (rr_procs s) (rr_time s)).
Proof.
  intros (Hs & _ & _ & _ & _ & Hnd & Hlen & Hex & _) Hm Hge p Hp.
  unfold final_event in Hp. simpl in Hp. unfold updateProcessStates in Hp.
  apply list_elem_of_fmap in Hp as (p0 & -> & Hp0).
  apply list_elem_of_lookup_1 in Hp0 as [i Hi].
  assert (i ∈ D) as HiD.
  { apply (indices_full D (length l)); auto; [|lia|].
    - intros j Hj. apply Hex in Hj as (y & Hy & _).
      rewrite <- (statics_length _ _ Hs). eapply lookup_lt_Some; eauto.
    - rewrite <- (statics_length _ _ Hs). eapply lookup_lt_Some; eauto. }
  apply Hex in HiD as (y & Hy & Hz & Hnr).
  rewrite Hi in Hy. injection Hy as <-.
  destruct (Hm i p0 Hi) as [(Hst & _)|(_ & Hn)]; [|exfalso; apply Hn; auto].
  assert (is_completed p0 = true) as ->
    by (unfold is_completed; rewrite Hst; reflexivity).
  unfold true_state, final_event; simpl. rewrite Hz, Hst. simpl.
  split; [reflexivity|]. split; [discriminate|].
  intros Hc. inversion Hc.
Qed.

(** X16 (simulateRoundRobin, updateProcessStates).  On every valid input
    the Round Robin generator ends, and every event it yields shows every
    process in its true state: running exactly the running process of the
    event, completed exactly the other processes with no remaining time,
    waiting exactly the other processes that have arrived, and not arrived
    the rest; the processes shown as waiting are exactly those of the
    ready queue of the event. *)
Theorem X16_round_robin_shows_true_states (timeQuantum : Z)
    (l : list Process) :
  valid_input l ->
  (exists fuel evs, V1.simulateRoundRobin fuel l timeQuantum = Some evs)
  /\ forall fuel evs,
       V1.simulateRoundRobin fuel l timeQuantum = Some evs ->
       forall ev, ev ∈ evs ->
         forall p, p ∈ ev_processes ev ->
           state p = true_state ev p
           /\ (state p = Waiting <-> id p ∈ (id <$> readyQueue ev)).
Proof.
  intros Hv. split.
  { destruct (decide (l = [])) as [->|Hne]; [exists 0%nat, []; reflexivity|].
    destruct (simulateRoundRobin_ok timeQuantum l Hv Hne)
      as (fuel & evs & _ & H & _). eauto. }
  intros fuel evs Hrun ev Hev.
  assert (event_ok ev) as Hok; [|exact Hok].
  revert Hrun. unfold V1.simulateRoundRobin.
  destruct l as [|x l0] eqn:El; [intros [= <-]; inversion Hev|].
  rewrite <- El in *.
  destruct (V1.rr_sim_loop timeQuantum fuel (V1.rr_init l))
    as [[evs' s'']|] eqn:Eloop; [|discriminate].
  simpl. intros [= <-].
  assert (states_marked (V1.rr_init l)) as Hm0.
  { intros i p Hp. unfold V1.rr_init, cloneProcesses in Hp. simpl in Hp.
    destruct Hv as [Hv _]. rewrite Forall_lookup in Hv.
    destruct (Hv _ _ Hp). right. split; [assumption|]. lia. }
  destruct (rr_sim_loop_states timeQuantum l Hv _ _ _ _ _
              (rr_init_inv l (proj1 Hv)) Hm0 Eloop)
    as (Hevs & Hm & (D & Hinv) & Hge).
  apply elem_of_app in Hev as [Hev|Hev].
  - rewrite Forall_forall in Hevs. auto.
  - apply list_elem_of_singleton in Hev as ->.
    eapply final_event_ok; eauto.
Qed.

Lemma X16_round_robin_shows_true_states_witness :
  valid_input example_input
  /\ (exists fuel evs, V1.simulateRoundRobin fuel example_input 2 = Some evs)
  /\ forall fuel evs,
       V1.simulateRoundRobin fuel example_input 2 = Some evs ->
       forall ev, ev ∈ evs ->
         forall p, p ∈ ev_processes ev ->
           state p = true_state ev p
           /\ (state p = Waiting <-> id p ∈ (id <$> readyQueue ev)).
Proof.
  split; [exact example_input_valid|].
  exact (X16_round_robin_shows_true_states 2 example_input
           example_input_valid).
Defined.

(** * The states shown by the preemptive generators *)

Lemma settled_state_set ev p st :
  settled_state ev (set_state p st) = settled_state ev p.
Proof. unfold settled_state. destruct (runningProcess ev); reflexivity. Qed.

Lemma same_id_elem (procs : list Process) x y :
  NoDup (id <$> procs) -> x ∈ procs -> y ∈ procs -> same_id x y = true ->
  x = y.
Proof.
  intros Hn Hx Hy E. unfold same_id in E. apply Z.eqb_eq in E.
  apply list_elem_of_lookup_1 in Hx as [i Hi].
  apply list_elem_of_lookup_1 in Hy as [j Hj].
  assert (i = j).
  { apply (NoDup_lookup _ i j (id x) Hn);
      rewrite list_lookup_fmap; [rewrite Hi|rewrite Hj]; simpl; congruence. }
  congruence.
Qed.

Lemma update_settled procs running queue t msg :
  NoDup (id <$> procs) ->
  states_settled procs ->
  (forall r, running = Some r -> r ∈ procs) ->
  (forall x, x ∈ queue ->
     x ∈ procs /\ arrivalTime x <= t /\ 0 < remainingTime x
     /\ forall r, running = Some r -> same_id x r = false) ->
  (forall x, x ∈ procs -> arrivalTime x <= t -> 0 < remainingTime x ->
     (forall r, running = Some r -> same_id x r = false) -> x ∈ queue) ->
  event_settled (mkEvent t running queue
                   (updateProcessStates procs running queue t) msg).
Proof.
  intros Hnd Hst Hrun Hq1 Hq2 p Hp. simpl in Hp.
  unfold updateProcessStates in Hp.
  apply list_elem_of_fmap in Hp as (p0 & -> & Hp0).
  cbn [readyQueue].
  assert (id p0 ∈ (id <$> queue) -> p0 ∈ queue) as Hin.
  { intros Hid. apply list_elem_of_fmap in Hid as (x & E & Hx).
    destruct (Hq1 x Hx) as (Hxp & _).
    rewrite (same_id_elem procs p0 x Hnd Hp0 Hxp); [exact Hx|].
    unfold same_id. apply Z.eqb_eq. exact E. }
  assert (existsb (same_id p0) queue = true -> p0 ∈ queue) as Hex.
  { intros E. apply existsb_exists in E as (x & Hx & E).
    apply list_elem_of_In in Hx. destruct (Hq1 x Hx) as (Hxp & _).
    rewrite (same_id_elem procs p0 x Hnd Hp0 Hxp E). exact Hx. }
  assert (p0 ∈ queue -> existsb (same_id p0) queue = true) as Hex'.
  { intros Hx. apply existsb_exists. exists p0.
    split; [apply list_elem_of_In; exact Hx|]. unfold same_id.
    apply Z.eqb_refl. }
  apply list_elem_of_lookup_1 in Hp0 as [i Hi].
  assert (p0 ∈ procs) as Hp0 by (eapply list_elem_of_lookup_2; eauto).
  destruct (Hst i p0 Hi) as [(Hs & Hz)|(Hs & Hpos)].
  - assert (is_completed p0 = true) as ->
      by (unfold is_completed; rewrite Hs; reflexivity).
    unfold settled_state. rewrite Hz. simpl. split; [exact Hs|].
    rewrite Hs. split; [discriminate|]. intros Hid.
    destruct (Hq1 p0 (Hin Hid)) as (_ & _ & ? & _). lia.
  - assert (is_completed p0 = false) as ->
      by (unfold is_completed; rewrite Hs; reflexivity).
    destruct (match running with
              | Some r => same_id p0 r
              | None => false
              end) eqn:Em.
    + rewrite settled_state_set. unfold settled_state.
      cbn [runningProcess time]. rewrite Em.
      destruct (Z.eqb_spec (remainingTime p0) 0); [lia|].
      simpl. split; [reflexivity|]. split; [discriminate|].
      intros Hid. destruct (Hq1 p0 (Hin Hid)) as (_ & _ & _ & Hr).
      destruct running as [r|]; [|discriminate].
      rewrite (Hr r eq_refl) in Em. discriminate.
    + destruct (existsb (same_id p0) queue) eqn:Eq.
      * assert (p0 ∈ queue) as Hpq by (apply Hex; reflexivity).
        destruct (Hq1 p0 Hpq) as (_ & Ha & _).
        rewrite settled_state_set. unfold settled_state.
        cbn [runningProcess time]. rewrite Em.
        destruct (Z.eqb_spec (remainingTime p0) 0); [lia|].
        destruct (Z.leb_spec (arrivalTime p0) t); [|lia].
        simpl. split; [reflexivity|]. split; [|reflexivity].
        intros _. apply list_elem_of_fmap. exists p0. auto.
      * assert (p0 ∉ queue) as Hnq
          by (intros Hc; apply Hex' in Hc; discriminate).
        assert (t < arrivalTime p0) as Hlate.
        { destruct (Z.ltb_spec t (arrivalTime p0)); [assumption|].
          exfalso. apply Hnq. apply Hq2; auto.
          intros r ->. exact Em. }
        destruct (Z.ltb_spec t (arrivalTime p0)); [|lia].
        rewrite settled_state_set. unfold settled_state.
        cbn [runningProcess time]. rewrite Em.
        destruct (Z.eqb_spec (remainingTime p0) 0); [lia|].
        destruct (Z.leb_spec (arrivalTime p0) t); [lia|].
        simpl. split; [reflexivity|]. split; [discriminate|].
        intros Hid. exfalso. apply Hnq, Hin, Hid.
Qed.

Section PreemptiveStates.

Variable key : Process -> num.
Variable why : string.
Variable l : list Process.
Hypothesis Hvalid : valid_input l.

Lemma pre_sim_body_states s D :
  pre_sim_inv l s D -> states_settled (sim_procs s) ->
  Forall event_settled (V1.pre_sim_body key why s).1
  /\ states_settled (sim_procs (V1.pre_sim_body key why s).2).
Proof.
  intros (Hs & Hrem & _) Hst. destruct Hvalid as [Hv Hids].
  assert (NoDup (id <$> sim_procs s)) as Hnd
    by (rewrite (statics_ids _ _ Hs); exact Hids).
  unfold V1.pre_sim_body.
  destruct (reduce1 _ _) as [[i rp]|] eqn:Er.
  - apply reduce1_elem in Er; [|apply pick_choice].
    apply elem_of_filter_bool in Er as [Hi Hr].
    apply elem_of_indexed in Hi. simpl in Hr.
    apply ready_now_spec in Hr as [Harr Hpos].
    pose proof (lookup_lt_Some _ _ _ Hi) as Hlt.
    set (others := snd <$> List.filter
                     (fun ip : nat * Process => negb (same_id ip.2 rp))
                     (List.filter (fun ip : nat * Process =>
                                     V1.ready_now (sim_time s) ip.2)
                                  (indexed (sim_procs s)))).
    assert (forall x, x ∈ others <->
              exists j : nat, sim_procs s !! j = Some x /\ j <> i
                /\ arrivalTime x <= sim_time s /\ 0 < remainingTime x)
      as Hothers.
    { intros x. unfold others. rewrite list_elem_of_fmap. split.
      - intros ([j x'] & -> & H). simpl.
        apply elem_of_filter_bool in H as [H Hne].
        apply elem_of_filter_bool in H as [H Hr].
        apply elem_of_indexed in H. simpl in Hne, Hr.
        apply ready_now_spec in Hr as [? ?].
        exists j. repeat split; auto. intros ->.
        rewrite Hi in H. injection H as <-.
        unfold same_id in Hne. rewrite Z.eqb_refl in Hne. discriminate.
      - intros (j & Hj & Hne & Ha & Hp). exists (j, x).
        split; [reflexivity|].
        apply elem_of_filter_bool. split.
        + apply elem_of_filter_bool. split; [apply elem_of_indexed; exact Hj|].
          simpl. apply ready_now_spec. auto.
        + simpl. apply negb_true_iff. unfold same_id. apply Z.eqb_neq.
          intros E. apply Hne.
          eapply (same_id_same_index _ _ _ _ _ _ Hs Hids Hj Hi E). }
    assert (forall rp2 msg,
              id rp2 = id rp ->
              (state rp2 = Completed /\ remainingTime rp2 = 0)
              \/ (state rp2 = NotArrived /\ 0 < remainingTime rp2) ->
              Forall event_settled
                [mkEvent (sim_time s) (Some rp2) others
                   (updateProcessStates (<[i := rp2]> (sim_procs s))
                      (Some rp2) others (sim_time s)) msg]
              /\ states_settled (<[i := rp2]> (sim_procs s))) as Hgen.
    { intros rp2 msg Eid Hrp2.
      assert (states_settled (<[i := rp2]> (sim_procs s))) as Hst'.
      { intros j p Hp. apply list_lookup_insert_Some in Hp
          as [(-> & <- & _)|(Hne & Hp)]; [exact Hrp2|eapply Hst; eauto]. }
      split; [|exact Hst'].
      constructor; [|constructor].
      apply update_settled; [| exact Hst' | | |].
      - rewrite list_fmap_insert, Eid.
        rewrite list_insert_id; [exact Hnd|].
        rewrite list_lookup_fmap, Hi. reflexivity.
      - intros r [= <-]. apply (list_elem_of_lookup_2 _ i).
        apply list_lookup_insert_eq. exact Hlt.
      - intros x Hx. apply Hothers in Hx as (j & Hj & Hne & Ha & Hp).
        split; [apply (list_elem_of_lookup_2 _ j);
                rewrite list_lookup_insert_ne by auto; exact Hj|].
        split; [exact Ha|]. split; [exact Hp|].
        intros r [= <-]. unfold same_id. rewrite Eid. apply Z.eqb_neq.
        intros E. apply Hne.
        eapply (same_id_same_index _ _ _ _ _ _ Hs Hids Hj Hi E).
      - intros x Hx Ha Hp Hnr. apply list_elem_of_lookup_1 in Hx as [j Hj].
        apply list_lookup_insert_Some in Hj as [(-> & <- & _)|(Hne & Hj)].
        + specialize (Hnr rp2 eq_refl). unfold same_id in Hnr.
          rewrite Z.eqb_refl in Hnr. discriminate.
        + apply Hothers. exists j. auto. }
    fold others.
    destruct (remainingTime (set_remainingTime rp (remainingTime rp - 1)) =? 0)
      eqn:Ez; simpl.
    + apply Hgen; [reflexivity|]. left. split; [reflexivity|].
      apply Z.eqb_eq in Ez. exact Ez.
    + apply Hgen; [reflexivity|]. right.
      apply Z.eqb_neq in Ez. simpl in Ez |- *.
      destruct (Hst i rp Hi) as [(_ & ?)|(? & _)]; [lia|].
      split; [assumption|lia].
  - apply reduce1_none in Er. rewrite Er. simpl.
    split; [|exact Hst].
    constructor; [|constructor].
    apply update_settled; [exact Hnd|exact Hst|discriminate| |].
    + intros x Hx. inversion Hx.
    + intros x Hx Ha Hp _. exfalso.
      apply list_elem_of_lookup_1 in Hx as [j Hj].
      assert ((j, x) ∈ List.filter
                (fun ip : nat * Process => V1.ready_now (sim_time s) ip.2)
                (indexed (sim_procs s))) as Hin.
      { apply elem_of_filter_bool. split; [apply elem_of_indexed; exact Hj|].
        simpl. apply ready_now_spec. auto. }
      rewrite Er in Hin. inversion Hin.
Qed.

Lemma pre_sim_loop_states : forall fuel s D evs s',
  pre_sim_inv l s D -> states_settled (sim_procs s) ->
  V1.pre_sim_loop key why fuel s = Some (evs, s') ->
  Forall event_settled evs /\ states_settled (sim_procs s')
  /\ (exists D', pre_sim_inv l s' D')
  /\ (length l <= sim_completed s')%nat.
Proof.
  induction fuel as [|fuel IH]; intros s D evs s' Hinv Hst Hloop;
    assert (length (sim_procs s) = length l) as Hl
      by (apply statics_length, Hinv);
    cbn [V1.pre_sim_loop] in Hloop; rewrite Hl in Hloop;
    destruct (Nat.ltb_spec (sim_completed s) (length l)) as [Hlt|Hge];
    try discriminate;
    try (injection Hloop as <- <-; split; [constructor|];
         split; [exact Hst|]; split; [eauto|lia]).
  destruct (pre_sim_body_inv key why l Hvalid s D Hinv Hlt)
    as (D' & Hinv' & _).
  destruct (pre_sim_body_states s D Hinv Hst) as [Hev Hst'].
  destruct (V1.pre_sim_body key why s) as [evs0 s1]. simpl in *.
  destruct (V1.pre_sim_loop key why fuel s1) as [[evs1 s2]|] eqn:El;
    simpl in Hloop; [|discriminate].
  injection Hloop as <- <-.
  destruct (IH _ _ _ _ Hinv' Hst' El) as (Hevs & Hrest).
  split; [apply Forall_app; auto|exact Hrest].
Qed.

Lemma final_event_settled s D :
  pre_sim_inv l s D -> states_settled (sim_procs s) ->
  (length l <= sim_completed s)%nat ->
  event_settled (final_event (sim_procs s) (sim_time s)).
Proof.
  intros (Hs & Hrem & Hnd & Hlen & Hex) Hst Hge.
  destruct Hvalid as [Hv Hids].
  unfold final_event.
  apply update_settled;
    [rewrite (statics_ids _ _ Hs); exact Hids|exact Hst|discriminate| |].
  - intros x Hx. inversion Hx.
  - intros x Hx _ Hpos _. exfalso.
    apply list_elem_of_lookup_1 in Hx as [i Hi].
    assert (i ∈ D) as HiD.
    { apply (indices_full D (length l)); auto; [|lia|].
      - intros j Hj. apply Hex in Hj as (y & Hy & _).
        rewrite <- (statics_length _ _ Hs). eapply lookup_lt_Some; eauto.
      - rewrite <- (statics_length _ _ Hs). eapply lookup_lt_Some; eauto. }
    apply Hex in HiD as (y & Hy & Hz). rewrite Hi in Hy.
    injection Hy as <-. lia.
Qed.

Lemma sim_pre_states fuel evs :
  V1.sim_pre key why fuel l = Some evs -> Forall event_settled evs.
Proof.
  assert ((l = [] /\ V1.sim_pre key why fuel l = Some [])
          \/ V1.sim_pre key why fuel l
             = V1.finish <$> V1.pre_sim_loop key why fuel
                               (mkSim (cloneProcesses l) 0 0 None))
    as [[_ ->]| ->].
  { unfold V1.sim_pre. destruct l; [left|right]; auto. }
  { intros [= <-]. constructor. }
  destruct (V1.pre_sim_loop key why fuel _) as [[evs' s']|] eqn:Eloop;
    [|discriminate].
  simpl. intros [= <-].
  assert (pre_sim_inv l (mkSim (cloneProcesses l) 0 0 None) []) as Hinit.
  { destruct Hvalid as [Hv _]. rewrite Forall_lookup in Hv.
    unfold pre_sim_inv; simpl. split; [reflexivity|].
    split; [intros i p Hp; destruct (Hv _ _ Hp); lia|].
    split; [constructor|]. split; [reflexivity|].
    intros i. split; [intros Hi; inversion Hi|].
    intros (p & Hp & Hz). destruct (Hv _ _ Hp). lia. }
  assert (states_settled (cloneProcesses l)) as Hst0.
  { intros i p Hp. destruct Hvalid as [Hv _]. rewrite Forall_lookup in Hv.
    destruct (Hv _ _ Hp). right. split; [assumption|lia]. }
  destruct (pre_sim_loop_states _ _ _ _ _ Hinit Hst0 Eloop)
    as (Hevs & Hst & (D & Hinv) & Hge).
  unfold V1.finish. simpl. apply Forall_app. split; [exact Hevs|].
  constructor; [|constructor]. eapply final_event_settled; eauto.
Qed.

End PreemptiveStates.

(** X17 (simulateSRTF, simulatePriorityPreemptive, updateProcessStates).
    On every valid input the two preemptive generators end, and every event
    they yield shows every process in its true state: completed exactly the
    processes with no remaining time (the running process too, in the tick
    of its last step), running the running process otherwise, waiting the
    other processes that have arrived, not arrived the rest; the processes
    shown as waiting are exactly those of the ready queue of the event. *)
Theorem X17_preemptive_generators_show_true_states (pol : Policy)
    (timeQuantum : Z) (l : list Process) :
  valid_input l -> pol = SRTF \/ pol = PriorityP ->
  (exists fuel evs, run_stepwise pol timeQuantum fuel l = Some evs)
  /\ forall fuel evs,
       run_stepwise pol timeQuantum fuel l = Some evs ->
       forall ev, ev ∈ evs ->
         forall p, p ∈ ev_processes ev ->
           state p = settled_state ev p
           /\ (state p = Waiting <-> id p ∈ (id <$> readyQueue ev)).
Proof.
  intros Hv Hpol.
  assert (forall key why, exists fuel evs,
            V1.sim_pre key why fuel l = Some evs) as Hex.
  { intros key why. destruct (decide (l = [])) as [->|Hne];
      [exists 0%nat, []; reflexivity|].
    destruct (sim_pre_ok key why l Hv Hne) as (fuel & evs & _ & H & _).
    eauto. }
  split; [destruct Hpol as [->| ->]; apply Hex|].
  intros fuel evs Hrun ev Hev.
  assert (Forall event_settled evs) as Hall
    by (destruct Hpol as [->| ->]; eapply sim_pre_states; eauto).
  rewrite Forall_forall in Hall. exact (Hall ev Hev).
Qed.

Lemma X17_preemptive_generators_show_true_states_witness :
  valid_input example_input
  /\ (exists fuel evs, run_stepwise SRTF 2 fuel example_input = Some evs)
  /\ forall fuel evs,
       run_stepwise SRTF 2 fuel example_input = Some evs ->
       forall ev, ev ∈ evs ->
         forall p, p ∈ ev_processes ev ->
           state p = settled_state ev p
           /\ (state p = Waiting <-> id p ∈ (id <$> readyQueue ev)).
Proof.
  split; [exact example_input_valid|].
  exact (X17_preemptive_generators_show_true_states SRTF 2 example_input
           example_input_valid (or_introl eq_refl)).
Defined.

(** * The states shown by the non-preemptive generators *)

Lemma update_true procs (i : nat) r queue t msg :
  NoDup (id <$> procs) -> procs !! i = Some r -> state r = NotArrived ->
  (forall (j : nat) x, j <> i -> procs !! j = Some x ->
     (state x = Completed /\ remainingTime x = 0)
     \/ (state x = NotArrived /\ 0 < remainingTime x)) ->
  (forall x, x ∈ queue <->
     x ∈ procs /\ arrivalTime x <= t /\ is_completed x = false
     /\ same_id x r = false) ->
  event_ok (mkEvent t (Some r) queue
              (updateProcessStates procs (Some r) queue t) msg).
Proof.
  intros Hnd Hi Hsr Hst Hq p Hp. simpl in Hp.
  unfold updateProcessStates in Hp.
  apply list_elem_of_fmap in Hp as (p0 & -> & Hp0).
  cbn [readyQueue]. cbv beta iota.
  assert (r ∈ procs) as Hr by (eapply list_elem_of_lookup_2; eauto).
  assert (id p0 ∈ (id <$> queue) -> p0 ∈ queue) as Hin.
  { intros Hid. apply list_elem_of_fmap in Hid as (x & E & Hx).
    destruct (proj1 (Hq x) Hx) as (Hxp & _).
    rewrite (same_id_elem procs p0 x Hnd Hp0 Hxp); [exact Hx|].
    unfold same_id. apply Z.eqb_eq. exact E. }
  assert (existsb (same_id p0) queue = true <-> p0 ∈ queue) as Hex.
  { split.
    - intros E. apply existsb_exists in E as (x & Hx & E).
      apply list_elem_of_In in Hx. destruct (proj1 (Hq x) Hx) as (Hxp & _).
      rewrite (same_id_elem procs p0 x Hnd Hp0 Hxp E). exact Hx.
    - intros Hx. apply existsb_exists. exists p0.
      split; [apply list_elem_of_In; exact Hx|]. unfold same_id.
      apply Z.eqb_refl. }
  destruct (same_id p0 r) eqn:Em.
  - (* the running process *)
    assert (p0 = r) as -> by (apply (same_id_elem procs); auto).
    assert (is_completed r = false) as ->
      by (unfold is_completed; rewrite Hsr; reflexivity).
    rewrite true_state_set. unfold true_state.
    cbn [runningProcess time].
    rewrite Em. simpl. split; [reflexivity|]. split; [discriminate|].
    intros Hid. destruct (proj1 (Hq r) (Hin Hid)) as (_ & _ & _ & Hc).
    congruence.
  - apply list_elem_of_lookup_1 in Hp0 as [j Hj].
    assert (j <> i) as Hne.
    { intros ->. rewrite Hi in Hj. injection Hj as <-.
      unfold same_id in Em. rewrite Z.eqb_refl in Em. discriminate. }
    assert (p0 ∈ procs) as Hp0 by (eapply list_elem_of_lookup_2; eauto).
    destruct (Hst j p0 Hne Hj) as [(Hs & Hz)|(Hs & Hpos)].
    + assert (is_completed p0 = true) as Hc
        by (unfold is_completed; rewrite Hs; reflexivity).
      rewrite Hc. unfold true_state. cbn [runningProcess time].
      rewrite Em, Hz. simpl. split; [exact Hs|]. rewrite Hs.
      split; [discriminate|]. intros Hid.
      destruct (proj1 (Hq p0) (Hin Hid)) as (_ & _ & ? & _). congruence.
    + assert (is_completed p0 = false) as Hc
        by (unfold is_completed; rewrite Hs; reflexivity).
      rewrite Hc.
      destruct (existsb (same_id p0) queue) eqn:Eq.
      * assert (p0 ∈ queue) as Hpq by (apply Hex; reflexivity).
        destruct (proj1 (Hq p0) Hpq) as (_ & Ha & _).
        rewrite true_state_set. unfold true_state.
        cbn [runningProcess time]. rewrite Em.
        destruct (Z.eqb_spec (remainingTime p0) 0); [lia|].
        destruct (Z.leb_spec (arrivalTime p0) t); [|lia].
        simpl. split; [reflexivity|]. split; [|reflexivity].
        intros _. apply list_elem_of_fmap. exists p0. auto.
      * assert (p0 ∉ queue) as Hnq
          by (intros Hx; apply Hex in Hx; discriminate).
        assert (t < arrivalTime p0) as Hlate.
        { destruct (Z.ltb_spec t (arrivalTime p0)); [assumption|].
          exfalso. apply Hnq. apply Hq. auto. }
        destruct (Z.ltb_spec t (arrivalTime p0)); [|lia].
        rewrite true_state_set. unfold true_state.
        cbn [runningProcess time]. rewrite Em.
        destruct (Z.eqb_spec (remainingTime p0) 0); [lia|].
        destruct (Z.leb_spec (arrivalTime p0) t); [lia|].
        simpl. split; [reflexivity|]. split; [discriminate|].
        intros Hid. exfalso. apply Hnq, Hin, Hid.
Qed.

Lemma update_none procs running queue t msg :
  NoDup (id <$> procs) -> states_settled procs ->
  (forall r, running = Some r -> r ∈ procs /\ remainingTime r = 0) ->
  forall p, p ∈ updateProcessStates procs None [] t ->
    state p = settled_state (mkEvent t running queue
                               (updateProcessStates procs None [] t) msg) p.
Proof.
  intros Hnd Hst Hrun p Hp. unfold updateProcessStates in Hp.
  apply list_elem_of_fmap in Hp as (p0 & -> & Hp0).
  pose proof Hp0 as Hp0'. apply list_elem_of_lookup_1 in Hp0' as [i Hi].
  destruct (Hst i p0 Hi) as [(Hs & Hz)|(Hs & Hpos)].
  - assert (is_completed p0 = true) as ->
      by (unfold is_completed; rewrite Hs; reflexivity).
    unfold settled_state. rewrite Hz. exact Hs.
  - assert (is_completed p0 = false) as ->
      by (unfold is_completed; rewrite Hs; reflexivity).
    assert (match running with
            | Some r => same_id p0 r
            | None => false
            end = false) as Em.
    { destruct running as [r|]; [|reflexivity].
      destruct (Hrun r eq_refl) as [Hr Hz].
      destruct (same_id p0 r) eqn:E; [|reflexivity].
      rewrite (same_id_elem procs p0 r Hnd Hp0 Hr E) in Hpos. lia. }
    cbn [existsb].
    destruct (Z.ltb_spec t (arrivalTime p0)).
    + rewrite settled_state_set. unfold settled_state.
      cbn [runningProcess time]. rewrite Em.
      destruct (Z.eqb_spec (remainingTime p0) 0); [lia|].
      destruct (Z.leb_spec (arrivalTime p0) t); [lia|]. reflexivity.
    + destruct (Z.ltb_spec 0 (remainingTime p0)); [|lia].
      rewrite settled_state_set. unfold settled_state.
      cbn [runningProcess time]. rewrite Em.
      destruct (Z.eqb_spec (remainingTime p0) 0); [lia|].
      destruct (Z.leb_spec (arrivalTime p0) t); [|lia]. reflexivity.
Qed.

Lemma states_fresh_settled l : states_fresh l -> states_settled l.
Proof.
  intros H i p Hp. destruct (H i p Hp) as [?|(? & ? & ?)]; [auto|].
  right. split; [assumption|lia].
Qed.

Lemma run_ticks_states ptr : forall k procs (i : nat) t msg p,
  NoDup (id <$> procs) -> procs !! i = Some p -> id p = id ptr ->
  state p = NotArrived ->
  (forall (j : nat) x, j <> i -> procs !! j = Some x ->
     (state x = Completed /\ remainingTime x = 0)
     \/ (state x = NotArrived /\ 0 < remainingTime x)) ->
  Forall event_ok
    (run_ticks (fun l t =>
                  List.filter (fun p => (arrivalTime p <=? t)
                                        && negb (is_completed p)
                                        && negb (same_id p ptr)) l)
               k procs i t msg).1.1.
Proof.
  induction k as [|k IH]; intros procs i t msg p Hnd Hp Eid Hsp Hst;
    cbn [run_ticks]; [constructor|].
  rewrite Hp.
  set (p1 := set_remainingTime p (remainingTime p - 1)).
  pose proof (lookup_lt_Some _ _ _ Hp) as Hlt.
  assert (NoDup (id <$> <[i := p1]> procs)) as Hnd1.
  { rewrite list_fmap_insert. change (id p1) with (id p).
    rewrite list_insert_id; [exact Hnd|].
    rewrite list_lookup_fmap, Hp. reflexivity. }
  assert (forall (j : nat) x, j <> i -> <[i := p1]> procs !! j = Some x ->
            (state x = Completed /\ remainingTime x = 0)
            \/ (state x = NotArrived /\ 0 < remainingTime x)) as Hst1.
  { intros j x Hne Hx. rewrite list_lookup_insert_ne in Hx by auto.
    eapply Hst; eauto. }
  pose proof (IH (<[i := p1]> procs) i (t + 1) ""%string p1 Hnd1
                 (list_lookup_insert_eq _ _ _ Hlt) Eid Hsp Hst1) as IH'.
  cbv zeta.
  destruct (run_ticks _ k (<[i := p1]> procs) i (t + 1) "")
    as [[evs l'] t'].
  simpl in IH' |- *. constructor; [|exact IH'].
  apply (update_true _ i); auto.
  - apply list_lookup_insert_eq. exact Hlt.
  - intros x. rewrite elem_of_filter_bool, !andb_true_iff, !negb_true_iff,
      Z.leb_le.
    unfold same_id. change (id p1) with (id p). rewrite Eid. tauto.
Qed.

Section NonPreemptiveStates.

Variable key : Process -> num.
Variable why : string.
Variable l : list Process.
Hypothesis Hvalid : valid_input l.

Lemma np_sim_body_states s D :
  np_sim_inv l s D -> states_fresh (sim_procs s) ->
  Forall event_np (V1.np_sim_body key why s).1
  /\ states_fresh (sim_procs (V1.np_sim_body key why s).2).
Proof.
  intros (Hs & _) Hst. destruct Hvalid as [Hv Hids].
  assert (NoDup (id <$> sim_procs s)) as Hnd
    by (rewrite (statics_ids _ _ Hs); exact Hids).
  unfold V1.np_sim_body.
  destruct (reduce1 _ _) as [[i cp]|] eqn:Er.
  - apply reduce1_elem in Er; [|apply pick_choice].
    apply elem_of_filter_bool in Er as [Hi Hr].
    apply elem_of_indexed in Hi. simpl in Hr.
    apply andb_true_iff in Hr as [Harr Hnot].
    apply Z.leb_le in Harr. apply negb_true_iff in Hnot.
    pose proof (lookup_lt_Some _ _ _ Hi) as Hil.
    destruct (Hst i cp Hi) as [(Hc & _)|(Hsc & Hrem & Hb)].
    { unfold is_completed in Hnot. rewrite Hc in Hnot. discriminate. }
    cbv zeta.
    match goal with
    | |- context [run_ticks ?rq ?k ?l ?i ?t ?msg] =>
        destruct (run_ticks_exact rq k l i t msg cp Hi)
          as (evs & E & _);
        pose proof (run_ticks_states cp k l i t msg cp Hnd Hi eq_refl Hsc)
          as Hticks;
        rewrite E in Hticks |- *
    end.
    simpl in Hticks.
    rewrite list_lookup_insert_eq by exact Hil.
    rewrite list_insert_insert_eq. cbn [fst snd sim_procs].
    set (p2 := set_state (commit _ _) Completed).
    assert (remainingTime p2 = 0) as Hz.
    { unfold p2. simpl. rewrite Z2Nat.id by lia. lia. }
    assert (states_fresh (<[i := p2]> (sim_procs s))) as Hst2.
    { intros j x Hx. apply list_lookup_insert_Some in Hx
        as [(-> & <- & _)|(Hne & Hx)]; [left; auto|eapply Hst; eauto]. }
    split; [|exact Hst2].
    apply Forall_app. split.
    + eapply Forall_impl; [apply Hticks|intros ev Hev; left; exact Hev].
      intros j x Hne Hx. apply states_fresh_settled in Hst. eapply Hst; eauto.
    + constructor; [|constructor]. right. split; [reflexivity|].
      cbn [ev_processes]. apply update_none.
      * rewrite list_fmap_insert. change (id p2) with (id cp).
        rewrite list_insert_id; [exact Hnd|].
        rewrite list_lookup_fmap, Hi. reflexivity.
      * apply states_fresh_settled. exact Hst2.
      * intros r [= <-]. split; [|exact Hz].
        apply (list_elem_of_lookup_2 _ i). apply list_lookup_insert_eq.
        exact Hil.
  - simpl. split; [|exact Hst].
    constructor; [|constructor]. right. split; [reflexivity|].
    unfold idle_event. cbn [ev_processes]. apply update_none;
      [exact Hnd|apply states_fresh_settled; exact Hst|discriminate].
Qed.

Lemma np_sim_loop_states : forall fuel s D evs s',
  np_sim_inv l s D -> states_fresh (sim_procs s) ->
  V1.np_sim_loop key why fuel s = Some (evs, s') ->
  Forall event_np evs /\ states_fresh (sim_procs s')
  /\ exists D', np_sim_inv l s' D'.
Proof.
  induction fuel as [|fuel IH]; intros s D evs s' Hinv Hst Hloop;
    assert (length (sim_procs s) = length l) as Hl
      by (apply statics_length, Hinv);
    cbn [V1.np_sim_loop] in Hloop; rewrite Hl in Hloop;
    destruct (Nat.ltb_spec (sim_completed s) (length l)) as [Hlt|Hge];
    try discriminate;
    try (injection Hloop as <- <-; split; [constructor|];
         split; [exact Hst|eauto]).
  destruct (np_sim_body_inv key why l Hvalid s D Hinv Hlt)
    as (D' & Hinv' & _).
  destruct (np_sim_body_states s D Hinv Hst) as [Hev Hst'].
  destruct (V1.np_sim_body key why s) as [evs0 s1]. simpl in *.
  destruct (V1.np_sim_loop key why fuel s1) as [[evs1 s2]|] eqn:El;
    simpl in Hloop; [|discriminate].
  injection Hloop as <- <-.
  destruct (IH _ _ _ _ Hinv' Hst' El) as (Hevs & Hrest).
  split; [apply Forall_app; auto|exact Hrest].
Qed.

Lemma sim_np_states fuel evs :
  V1.sim_np key why fuel l = Some evs -> Forall event_np evs.
Proof.
  assert ((l = [] /\ V1.sim_np key why fuel l = Some [])
          \/ V1.sim_np key why fuel l
             = V1.finish <$> V1.np_sim_loop key why fuel
                               (mkSim (cloneProcesses l) 0 0 None))
    as [[_ ->]| ->].
  { unfold V1.sim_np. destruct l; [left|right]; auto. }
  { intros [= <-]. constructor. }
  destruct (V1.np_sim_loop key why fuel _) as [[evs' s']|] eqn:Eloop;
    [|discriminate].
  simpl. intros [= <-].
  assert (np_sim_inv l (mkSim (cloneProcesses l) 0 0 None) []) as Hinit.
  { destruct Hvalid as [Hv _]. rewrite Forall_lookup in Hv.
    unfold np_sim_inv; simpl. split; [reflexivity|].
    split; [constructor|]. split; [reflexivity|].
    intros i. split; [intros Hi; inversion Hi|].
    intros (p & Hp & Hc). unfold is_completed in Hc.
    rewrite (vp_state p (Hv _ _ Hp)) in Hc. discriminate. }
  assert (states_fresh (cloneProcesses l)) as Hst0.
  { intros i p Hp. destruct Hvalid as [Hv _]. rewrite Forall_lookup in Hv.
    destruct (Hv _ _ Hp). right. auto. }
  destruct (np_sim_loop_states _ _ _ _ _ Hinit Hst0 Eloop)
    as (Hevs & Hst & (D & (Hs & _))).
  unfold V1.finish. simpl. apply Forall_app. split; [exact Hevs|].
  constructor; [|constructor]. right. split; [reflexivity|].
  unfold final_event. cbn [ev_processes]. apply update_none;
    [|apply states_fresh_settled; exact Hst|discriminate].
  rewrite (statics_ids _ _ Hs). apply Hvalid.
Qed.

End NonPreemptiveStates.

(** X18 (simulateSJF, simulatePriorityNonPreemptive, updateProcessStates).
    On every valid input the two generators end, and every event they yield
    is of one of two kinds.  In a tick of a run every process is shown in
    its true state (running the running process, completed the others with
    no remaining time, waiting the others that have arrived, not arrived
    the rest) and the processes shown as waiting are exactly those of the
    ready queue.  The other events (idle CPU, completion of a process, end)
    have an empty ready queue and show the processes with no remaining time
    as completed, the other processes that have arrived as waiting and the
    rest as not arrived. *)
Theorem X18_non_preemptive_generators_show_true_states (pol : Policy)
    (timeQuantum : Z) (l : list Process) :
  valid_input l -> pol = SJF \/ pol = PriorityNP ->
  (exists fuel evs, run_stepwise pol timeQuantum fuel l = Some evs)
  /\ forall fuel evs,
       run_stepwise pol timeQuantum fuel l = Some evs ->
       forall ev, ev ∈ evs ->
         (forall p, p ∈ ev_processes ev ->
            state p = true_state ev p
            /\ (state p = Waiting <-> id p ∈ (id <$> readyQueue ev)))
         \/ (readyQueue ev = []
             /\ forall p, p ∈ ev_processes ev ->
                  state p = settled_state ev p).
Proof.
  intros Hv Hpol.
  assert (forall key why, exists fuel evs,
            V1.sim_np key why fuel l = Some evs) as Hex.
  { intros key why. destruct (decide (l = [])) as [->|Hne];
      [exists 0%nat, []; reflexivity|].
    destruct (sim_np_ok key why l Hv Hne) as (fuel & evs & _ & H & _).
    eauto. }
  split; [destruct Hpol as [->| ->]; apply Hex|].
  intros fuel evs Hrun ev Hev.
  assert (Forall event_np evs) as Hall
    by (destruct Hpol as [->| ->]; eapply sim_np_states; eauto).
  rewrite Forall_forall in Hall. exact (Hall ev Hev).
Qed.

Lemma X18_non_preemptive_generators_show_true_states_witness :
  valid_input example_input
  /\ (exists fuel evs, run_stepwise SJF 2 fuel example_input = Some evs)
  /\ forall fuel evs,
       run_stepwise SJF 2 fuel example_input = Some evs ->
       forall ev, ev ∈ evs ->
         (forall p, p ∈ ev_processes ev ->
            state p = true_state ev p
            /\ (state p = Waiting <-> id p ∈ (id <$> readyQueue ev)))
         \/ (readyQueue ev = []
             /\ forall p, p ∈ ev_processes ev ->
                  state p = settled_state ev p).
Proof.
  split; [exact example_input_valid|].
  exact (X18_non_preemptive_generators_show_true_states SJF 2 example_input
           example_input_valid (or_introl eq_refl)).
Defined.

(** * The states shown by the FCFS generator *)

Lemma fcfs_state_set ev p st : fcfs_state ev (set_state p st) = fcfs_state ev p.
Proof.
  unfold fcfs_state. destruct (runningProcess ev); [reflexivity|].
  apply settled_state_set.
Qed.

Lemma deref_elem (procs : list Process) (rest : list nat) x :
  x ∈ deref procs rest <-> exists j : nat, j ∈ rest /\ procs !! j = Some x.
Proof. unfold deref. apply list_elem_of_omap. Qed.

Lemma fcfs_marked_settled l queue : fcfs_marked l queue -> states_settled l.
Proof.
  intros H j x Hx. destruct (H j x Hx) as [(?&?&?)|(?&?&?&?)]; [auto|].
  right. split; [assumption|lia].
Qed.

(** The processes shown by [updateProcessStates] when the ready queue is
    the rest of the sorted list. *)
Lemma update_fcfs procs (i : nat) r rest running t msg rq :
  NoDup (id <$> procs) -> procs !! i = Some r -> i ∉ rest ->
  (forall (j : nat) x, j <> i -> procs !! j = Some x ->
     (state x = Completed /\ remainingTime x = 0 /\ j ∉ rest)
     \/ (state x = NotArrived /\ 0 < remainingTime x /\ j ∈ rest)) ->
  (running = Some r /\ state r = NotArrived /\ rq = deref procs rest)
  \/ (running = None /\ state r = Completed /\ remainingTime r = 0
      /\ rq = []) ->
  event_fcfs (mkEvent t (Some r) rq
                (updateProcessStates procs running (deref procs rest) t) msg).
Proof.
  intros Hnd Hi Hir Hst Hcase.
  assert (r ∈ procs) as Hr by (eapply list_elem_of_lookup_2; eauto).
  assert (forall p0 (j : nat), procs !! j = Some p0 ->
            (existsb (same_id p0) (deref procs rest) = true <-> j ∈ rest)
            /\ (id p0 ∈ (id <$> deref procs rest) <-> j ∈ rest)) as Hq.
  { intros p0 j Hj.
    assert (forall x, x ∈ deref procs rest -> id x = id p0 -> j ∈ rest) as H1.
    { intros x Hx E. apply deref_elem in Hx as (j' & Hj' & Hx).
      assert (j' = j); [|congruence].
      apply (NoDup_lookup _ j' j (id p0) Hnd);
        rewrite list_lookup_fmap; [rewrite Hx|rewrite Hj]; simpl; congruence. }
    assert (j ∈ rest -> p0 ∈ deref procs rest) as H2
      by (intros Hin; apply deref_elem; eauto).
    split; split.
    - intros E. apply existsb_exists in E as (x & Hx & E).
      apply list_elem_of_In in Hx. unfold same_id in E.
      apply Z.eqb_eq in E. eapply H1; eauto.
    - intros Hin. apply existsb_exists. exists p0.
      split; [apply list_elem_of_In; auto|]. unfold same_id.
      apply Z.eqb_refl.
    - intros Hid. apply list_elem_of_fmap in Hid as (x & E & Hx).
      eapply H1; eauto.
    - intros Hin. apply list_elem_of_fmap. exists p0. auto. }
  assert (forall p, p ∈ updateProcessStates procs running (deref procs rest) t
            -> state p = fcfs_state (mkEvent t (Some r) rq
                 (updateProcessStates procs running (deref procs rest) t) msg)
                 p
               /\ (is_completed r = false ->
                   (state p = Waiting <-> id p ∈ (id <$> deref procs rest))))
    as Hall.
  { intros p Hp. unfold updateProcessStates in Hp.
    apply list_elem_of_fmap in Hp as (p0 & -> & Hp0).
    apply list_elem_of_lookup_1 in Hp0 as [j Hj].
    destruct (Hq p0 j Hj) as [Hex Hid].
    destruct (decide (j = i)) as [->|Hne].
    - rewrite Hi in Hj. injection Hj as <-.
      destruct Hcase as [(-> & Hs & _)|(-> & Hs & Hz & _)].
      + assert (is_completed r = false) as Hc
          by (unfold is_completed; rewrite Hs; reflexivity).
        assert (same_id r r = true) as Err
          by (unfold same_id; apply Z.eqb_refl).
        rewrite Hc, Err. cbv beta iota.
        rewrite fcfs_state_set. unfold fcfs_state. cbn [runningProcess].
        rewrite Err, Hc. simpl.
        split; [reflexivity|]. intros _. split; [discriminate|].
        intros Hc'. apply Hid in Hc'. contradiction.
      + assert (is_completed r = true) as Hc
          by (unfold is_completed; rewrite Hs; reflexivity).
        assert (same_id r r = true) as Err
          by (unfold same_id; apply Z.eqb_refl).
        rewrite Hc. cbv beta iota. unfold fcfs_state. cbn [runningProcess].
        rewrite Err, Hc. split; [exact Hs|].
        intros [=].
    - assert (same_id p0 r = false) as Em.
      { unfold same_id. apply Z.eqb_neq. intros E. apply Hne.
        apply (NoDup_lookup _ j i (id p0) Hnd);
          rewrite list_lookup_fmap; [rewrite Hj|rewrite Hi]; simpl;
          congruence. }
      assert (match running with
              | Some r0 => same_id p0 r0
              | None => false
              end = false) as Em'.
      { destruct Hcase as [(-> & _)|(-> & _)]; [exact Em|reflexivity]. }
      destruct (Hst j p0 Hne Hj) as [(Hs & Hz & Hnr)|(Hs & Hpos & Hin)].
      + assert (is_completed p0 = true) as ->
          by (unfold is_completed; rewrite Hs; reflexivity).
        unfold fcfs_state. cbn [runningProcess]. rewrite Em, Hz. simpl.
        split; [exact Hs|]. intros _. rewrite Hs. split; [discriminate|].
        intros Hc'. apply Hid in Hc'. contradiction.
      + assert (is_completed p0 = false) as ->
          by (unfold is_completed; rewrite Hs; reflexivity).
        rewrite Em'. rewrite (proj2 Hex Hin). cbv beta iota.
        rewrite fcfs_state_set. unfold fcfs_state. cbn [runningProcess].
        rewrite Em. destruct (Z.eqb_spec (remainingTime p0) 0); [lia|].
        simpl. split; [reflexivity|]. intros _.
        split; [intros _; apply Hid; exact Hin|reflexivity]. }
  split.
  - intros p Hp. apply Hall. exact Hp.
  - intros r0 [= <-] Hc p Hp. cbn [readyQueue].
    destruct Hcase as [(_ & _ & ->)|(_ & Hs & _)].
    + apply Hall; auto.
    + unfold is_completed in Hc. rewrite Hs in Hc. discriminate.
Qed.

Lemma none_event_fcfs l t msg :
  NoDup (id <$> l) -> states_settled l ->
  event_fcfs (mkEvent t None [] (updateProcessStates l None [] t) msg).
Proof.
  intros Hnd Hst. split; [|discriminate].
  intros p Hp. unfold fcfs_state. cbn [runningProcess ev_processes] in *.
  apply update_none; auto. discriminate.
Qed.

Lemma idle_events_fcfs : forall k l t,
  NoDup (id <$> l) -> states_settled l ->
  Forall event_fcfs (idle_events k l t).
Proof.
  induction k as [|k IH]; intros l t Hnd Hst; simpl; constructor; auto.
  apply none_event_fcfs; auto.
Qed.

Lemma run_ticks_fcfs rest : forall k procs (i : nat) t msg p,
  NoDup (id <$> procs) -> procs !! i = Some p -> state p = NotArrived ->
  i ∉ rest ->
  (forall (j : nat) x, j <> i -> procs !! j = Some x ->
     (state x = Completed /\ remainingTime x = 0 /\ j ∉ rest)
     \/ (state x = NotArrived /\ 0 < remainingTime x /\ j ∈ rest)) ->
  Forall event_fcfs
    (run_ticks (fun l _ => deref l rest) k procs i t msg).1.1.
Proof.
  induction k as [|k IH]; intros procs i t msg p Hnd Hp Hsp Hir Hst;
    cbn [run_ticks]; [constructor|].
  rewrite Hp.
  set (p1 := set_remainingTime p (remainingTime p - 1)).
  pose proof (lookup_lt_Some _ _ _ Hp) as Hlt.
  assert (NoDup (id <$> <[i := p1]> procs)) as Hnd1.
  { rewrite list_fmap_insert. change (id p1) with (id p).
    rewrite list_insert_id; [exact Hnd|].
    rewrite list_lookup_fmap, Hp. reflexivity. }
  assert (forall (j : nat) x, j <> i -> <[i := p1]> procs !! j = Some x ->
            (state x = Completed /\ remainingTime x = 0 /\ j ∉ rest)
            \/ (state x = NotArrived /\ 0 < remainingTime x /\ j ∈ rest))
    as Hst1.
  { intros j x Hne Hx. rewrite list_lookup_insert_ne in Hx by auto.
    eapply Hst; eauto. }
  pose proof (IH (<[i := p1]> procs) i (t + 1) ""%string p1 Hnd1
                 (list_lookup_insert_eq _ _ _ Hlt) Hsp Hir Hst1) as IH'.
  cbv zeta.
  destruct (run_ticks _ k (<[i := p1]> procs) i (t + 1) "")
    as [[evs l'] t'].
  simpl in IH' |- *. constructor; [|exact IH'].
  apply (update_fcfs _ i); auto.
  apply list_lookup_insert_eq. exact Hlt.
Qed.

Lemma fcfs_sim_loop_states n : forall queue l t c,
  NoDup (id <$> l) -> NoDup queue -> fcfs_marked l queue ->
  Forall event_fcfs (V1.fcfs_sim_loop n queue l t c).1.1
  /\ states_settled (V1.fcfs_sim_loop n queue l t c).1.2
  /\ id <$> (V1.fcfs_sim_loop n queue l t c).1.2 = id <$> l.
Proof.
  induction queue as [|i rest IH]; intros l t c Hnd Hnq Hm;
    cbn [V1.fcfs_sim_loop]; destruct (c <? n)%nat; simpl;
    try (split; [constructor|]; split;
         [eapply fcfs_marked_settled; eauto|reflexivity]).
  apply NoDup_cons in Hnq as [Hir Hnq].
  destruct (l !! i) as [cp|] eqn:Hi; simpl;
    [|split; [constructor|]; split;
      [eapply fcfs_marked_settled; eauto|reflexivity]].
  pose proof (lookup_lt_Some _ _ _ Hi) as Hil.
  destruct (Hm i cp Hi) as [(_ & _ & Hc)|(Hsc & Hrem & Hb & _)].
  { exfalso. apply Hc. left. }
  assert (forall (j : nat) x, j <> i -> l !! j = Some x ->
            (state x = Completed /\ remainingTime x = 0 /\ j ∉ rest)
            \/ (state x = NotArrived /\ 0 < remainingTime x /\ j ∈ rest))
    as Hothers.
  { intros j x Hne Hx.
    destruct (Hm j x Hx) as [(?&?&Hn)|(?&?&?&Hin)].
    - left. repeat split; auto. intros Hc. apply Hn. right. exact Hc.
    - right. repeat split; auto; [lia|].
      apply elem_of_cons in Hin as [?|?]; [contradiction|assumption]. }
  match goal with
  | |- context [run_ticks ?rq ?k ?l ?i ?t ?msg] =>
      destruct (run_ticks_exact rq k l i t msg cp Hi) as (ticks & E & _);
      pose proof (run_ticks_fcfs rest k l i t msg cp Hnd Hi Hsc Hir Hothers)
        as Hticks;
      rewrite E in Hticks |- *
  end.
  simpl in Hticks.
  rewrite list_lookup_insert_eq by exact Hil.
  rewrite list_insert_insert_eq.
  set (t2 := Z.max t (arrivalTime cp) + Z.of_nat (Z.to_nat (burstTime cp))).
  set (p2 := set_state (commit _ t2) Completed).
  assert (remainingTime p2 = 0) as Hz.
  { unfold p2. simpl. rewrite Z2Nat.id by lia. lia. }
  set (l2 := <[i := p2]> l).
  assert (NoDup (id <$> l2)) as Hnd2.
  { unfold l2. rewrite list_fmap_insert. change (id p2) with (id cp).
    rewrite list_insert_id; [exact Hnd|].
    rewrite list_lookup_fmap, Hi. reflexivity. }
  assert (id <$> l2 = id <$> l) as Eids.
  { unfold l2. rewrite list_fmap_insert. change (id p2) with (id cp).
    apply list_insert_id. rewrite list_lookup_fmap, Hi. reflexivity. }
  assert (fcfs_marked l2 rest) as Hm2.
  { intros j x Hx. apply list_lookup_insert_Some in Hx
      as [(-> & <- & _)|(Hne & Hx)].
    - left. auto.
    - destruct (Hothers j x (not_eq_sym Hne) Hx) as [?|(?&?&?)];
        [left; assumption|].
      destruct (Hm j x Hx) as [(?&?&Hn)|(?&?&?&_)].
      + exfalso. apply Hn. right. assumption.
      + right. auto. }
  destruct (IH l2 t2 (S c) Hnd2 Hnq Hm2) as (Hevs & Hst & Hids).
  destruct (V1.fcfs_sim_loop n rest l2 t2 (S c)) as [[evs l'] t'].
  simpl in Hevs, Hst, Hids |- *.
  split; [|split; [exact Hst|congruence]].
  apply Forall_app. split.
  { apply idle_events_fcfs; [exact Hnd|eapply fcfs_marked_settled; eauto]. }
  apply Forall_app. split; [exact Hticks|].
  constructor; [|exact Hevs].
  apply (update_fcfs l2 i p2 rest None);
    [exact Hnd2|apply list_lookup_insert_eq; exact Hil|exact Hir| |right; auto].
  intros j x Hne Hx. unfold l2 in Hx.
  rewrite list_lookup_insert_ne in Hx by auto. eapply Hothers; eauto.
Qed.

(** X19 (simulateFCFS, updateProcessStates).  On every valid input, every
    event of the FCFS generator shows a process with no remaining time as
    completed and the running process as running; while a process runs or
    completes, every other unfinished process is shown as waiting, whether
    or not it has arrived (the generator passes the rest of the sorted list
    as ready queue); in the events without a running process (idle CPU,
    end) the unfinished processes are shown as waiting or not arrived by
    their arrival time.  In the ticks of a run the processes shown as
    waiting are exactly those of the ready queue of the event. *)
Theorem X19_fcfs_generator_shows_the_queue_as_waiting (l : list Process) :
  valid_input l ->
  forall ev, ev ∈ V1.simulateFCFS l ->
    (forall p, p ∈ ev_processes ev -> state p = fcfs_state ev p)
    /\ (forall r, runningProcess ev = Some r -> is_completed r = false ->
          forall p, p ∈ ev_processes ev ->
            (state p = Waiting <-> id p ∈ (id <$> readyQueue ev))).
Proof.
  intros [Hv Hids] ev Hev.
  assert (event_fcfs ev) as Hok; [|exact Hok].
  revert Hev. unfold V1.simulateFCFS.
  destruct l as [|x l0] eqn:El; [intros Hev; inversion Hev|].
  rewrite <- El in *. clear El x l0. cbv zeta. unfold cloneProcesses.
  set (sorted := js_sort cmp_arrival_id l).
  assert (sorted ≡ₚ l) as HP by apply js_sort_perm.
  assert (NoDup (id <$> sorted)) as Hnd by (rewrite HP; exact Hids).
  assert (fcfs_marked sorted (seq 0 (length sorted))) as Hm.
  { intros j x Hx. right.
    assert (valid_process x) as Hx'.
    { rewrite Forall_forall in Hv. apply Hv. rewrite <- HP.
      eapply list_elem_of_lookup_2; eauto. }
    destruct Hx'. repeat split; auto.
    apply elem_of_seq. apply lookup_lt_Some in Hx. lia. }
  destruct (fcfs_sim_loop_states (length sorted) (seq 0 (length sorted))
              sorted 0 0%nat Hnd (NoDup_seq _ _) Hm) as (Hevs & Hst & Eids).
  destruct (V1.fcfs_sim_loop _ _ _ _ _) as [[evs l'] t'].
  simpl in Hevs, Hst, Eids. intros Hev.
  apply elem_of_app in Hev as [Hev|Hev].
  - rewrite Forall_forall in Hevs. auto.
  - apply list_elem_of_singleton in Hev as ->.
    apply none_event_fcfs; [rewrite Eids; exact Hnd|exact Hst].
Qed.

Lemma X19_fcfs_generator_shows_the_queue_as_waiting_witness :
  valid_input example_input
  /\ forall ev, ev ∈ V1.simulateFCFS example_input ->
       (forall p, p ∈ ev_processes ev -> state p = fcfs_state ev p)
       /\ (forall r, runningProcess ev = Some r -> is_completed r = false ->
             forall p, p ∈ ev_processes ev ->
               (state p = Waiting <-> id p ∈ (id <$> readyQueue ev))).
Proof.
  split; [exact example_input_valid|].
  exact (X19_fcfs_generator_shows_the_queue_as_waiting example_input
           example_input_valid).
Defined.

(** * The live chart of the non-preemptive generators *)

Lemma duration_of_single nm e :
  duration_of nm [e]
  = if String.eqb (processName e) nm then end_ e - start e else 0.
Proof. simpl. destruct (String.eqb (processName e) nm); lia. Qed.

(** Every event with a running process adds one tick to the live chart. *)
Lemma live_chart_duration nm chart ev :
  duration_of nm (live_chart chart ev)
  = duration_of nm chart + ticks_of nm [info_of <$> runningProcess ev].
Proof.
  unfold live_chart. destruct (runningProcess ev) as [r|]; simpl; [|lia].
  assert (duration_of nm
            (chart ++ [mkGanttEntry (name r) (time ev) (time ev + 1) (color r)])
          = duration_of nm chart
            + (if String.eqb (name r) nm then 1 + 0 else 0)) as Hpush.
  { rewrite duration_of_app, duration_of_single. simpl.
    destruct (String.eqb (name r) nm); lia. }
  destruct (last chart) as [e|] eqn:El; [|exact Hpush].
  destruct (String.eqb (processName e) (name r) && (end_ e =? time ev))
    eqn:Em; [|exact Hpush].
  apply andb_true_iff in Em as [En Ee].
  apply String.eqb_eq in En. apply Z.eqb_eq in Ee.
  apply last_Some in El as [init ->].
  rewrite length_app. simpl.
  replace (length init + 1 - 1)%nat with (length init + 0)%nat by lia.
  rewrite insert_app_r. simpl.
  rewrite !duration_of_app, !duration_of_single. simpl. rewrite <- En.
  destruct (String.eqb (processName e) nm); lia.
Qed.

Lemma live_run_duration nm algorithmName l evs :
  duration_of nm (ls_ganttChart (live_run algorithmName l evs))
  = ticks_of nm (timeline_of evs).
Proof.
  unfold live_run. rewrite live_run_chart. simpl.
  assert (forall chart,
            duration_of nm (fold_left live_chart evs chart)
            = duration_of nm chart + ticks_of nm (timeline_of evs)) as H.
  { induction evs as [|ev evs IH]; intros chart; cbn [fold_left];
      [unfold timeline_of; simpl; lia|].
    rewrite IH, live_chart_duration.
    pose proof (ticks_of_app nm [info_of <$> runningProcess ev]
                  (timeline_of evs)) as Happ.
    change ([info_of <$> runningProcess ev] ++ timeline_of evs)
      with (timeline_of (ev :: evs)) in Happ.
    lia. }
  rewrite H. reflexivity.
Qed.

Lemma timeline_of_same (evs : list TickEvent) info :
  Forall (fun ev => info_of <$> runningProcess ev = Some info) evs ->
  timeline_of evs = replicate (length evs) (Some info).
Proof.
  induction 1 as [|ev evs Hev _ IH]; [reflexivity|].
  change (timeline_of (ev :: evs))
    with ((info_of <$> runningProcess ev) :: timeline_of evs).
  rewrite IH, Hev. reflexivity.
Qed.

Lemma timeline_of_idle : forall k l t,
  timeline_of (idle_events k l t) = replicate k None.
Proof.
  induction k as [|k IH]; intros l t; [reflexivity|].
  cbn [idle_events].
  change (timeline_of (idle_event l t cpu_idle :: idle_events k l (t + 1)))
    with (None :: timeline_of (idle_events k l (t + 1))).
  rewrite IH. reflexivity.
Qed.

Lemma tally_complete nm (l : list Process) (i : nat) cp p2 :
  l !! i = Some cp -> is_completed cp = false -> is_completed p2 = true ->
  name p2 = name cp -> burstTime p2 = burstTime cp ->
  tally nm (<[i := p2]> l)
  = tally nm l + (if String.eqb (name cp) nm then burstTime cp + 1 else 0).
Proof.
  intros Hi Hc Hc2 En Eb. unfold tally.
  rewrite (zsum_insert _ _ _ _ _ Hi). rewrite Hc, Hc2, En, Eb.
  rewrite andb_false_r, andb_true_r. lia.
Qed.

Lemma tally_all nm (l : list Process) :
  Forall (fun p => is_completed p = true) l ->
  tally nm l = bursts nm l + named nm l.
Proof.
  unfold tally, bursts, named.
  induction 1 as [|p l Hp _ IH]; simpl; [reflexivity|].
  rewrite IH, Hp, andb_true_r. destruct (String.eqb (name p) nm); lia.
Qed.

Lemma tally_none nm (l : list Process) :
  Forall (fun p => is_completed p = false) l -> tally nm l = 0.
Proof.
  unfold tally. induction 1 as [|p l Hp _ IH]; simpl; [reflexivity|].
  rewrite IH, Hp, andb_false_r. reflexivity.
Qed.

Lemma named_statics nm a b :
  statics <$> a = statics <$> b -> named nm a = named nm b.
Proof.
  intros H. unfold named.
  transitivity (zsum (fun s : Z * string * Z * Z =>
                        if String.eqb s.1.1.2 nm then 1 else 0)
                     (statics <$> a)).
  - rewrite zsum_fmap. reflexivity.
  - rewrite H, zsum_fmap. reflexivity.
Qed.

Lemma named_pos nm (l : list Process) p :
  p ∈ l -> name p = nm -> 1 <= named nm l.
Proof.
  intros Hp <-. unfold named.
  assert (forall l : list Process,
            0 <= zsum (fun x => if String.eqb (name x) (name p)
                                then 1 else 0) l) as H0.
  { intros l0. apply zsum_nonneg. apply Forall_forall. intros x _.
    destruct (String.eqb (name x) (name p)); lia. }
  induction l as [|x l IH]; [inversion Hp|].
  simpl. apply elem_of_cons in Hp as [<-|Hp].
  - rewrite String.eqb_refl. specialize (H0 l). lia.
  - specialize (IH Hp). destruct (String.eqb (name x) (name p)); lia.
Qed.

Section NonPreemptiveLive.

Variable key : Process -> num.
Variable why : string.
Variable l : list Process.
Hypothesis Hvalid : valid_input l.
Variable nm : string.

Lemma np_sim_body_tally s D :
  np_sim_inv l s D ->
  ticks_of nm (timeline_of (V1.np_sim_body key why s).1)
  = tally nm (sim_procs (V1.np_sim_body key why s).2)
    - tally nm (sim_procs s).
Proof.
  intros (Hs & _). destruct Hvalid as [Hv Hids].
  unfold V1.np_sim_body.
  destruct (reduce1 _ _) as [[i cp]|] eqn:Er.
  - apply reduce1_elem in Er; [|apply pick_choice].
    apply elem_of_filter_bool in Er as [Hi Hr].
    apply elem_of_indexed in Hi. simpl in Hr.
    apply andb_true_iff in Hr as [_ Hnot]. apply negb_true_iff in Hnot.
    destruct (statics_valid _ _ _ _ Hs Hv Hi) as [Ha Hb].
    pose proof (lookup_lt_Some _ _ _ Hi) as Hil.
    cbv zeta.
    match goal with
    | |- context [run_ticks ?rq ?k ?l ?i ?t ?msg] =>
        destruct (run_ticks_exact rq k l i t msg cp Hi)
          as (evs & E & Hlen & _ & Hinfo);
        rewrite E
    end.
    rewrite list_lookup_insert_eq by exact Hil.
    rewrite list_insert_insert_eq. cbn [fst snd sim_procs].
    rewrite timeline_of_app, ticks_of_app, (timeline_of_same _ _ Hinfo),
      ticks_of_run, Hlen.
    rewrite (tally_complete nm _ i cp) by (auto; reflexivity).
    unfold timeline_of. simpl.
    destruct (String.eqb (name cp) nm); lia.
  - simpl. lia.
Qed.

Lemma np_sim_loop_tally : forall fuel s D evs s',
  np_sim_inv l s D ->
  V1.np_sim_loop key why fuel s = Some (evs, s') ->
  ticks_of nm (timeline_of evs)
  = tally nm (sim_procs s') - tally nm (sim_procs s)
  /\ (exists D', np_sim_inv l s' D')
  /\ (length l <= sim_completed s')%nat.
Proof.
  induction fuel as [|fuel IH]; intros s D evs s' Hinv Hloop;
    assert (length (sim_procs s) = length l) as Hl
      by (apply statics_length, Hinv);
    cbn [V1.np_sim_loop] in Hloop; rewrite Hl in Hloop;
    destruct (Nat.ltb_spec (sim_completed s) (length l)) as [Hlt|Hge];
    try discriminate;
    try (injection Hloop as <- <-; split; [simpl; lia|];
         split; [eauto|lia]).
  destruct (np_sim_body_inv key why l Hvalid s D Hinv Hlt)
    as (D' & Hinv' & _).
  pose proof (np_sim_body_tally s D Hinv) as Hb.
  destruct (V1.np_sim_body key why s) as [evs0 s1]. simpl in *.
  destruct (V1.np_sim_loop key why fuel s1) as [[evs1 s2]|] eqn:El;
    simpl in Hloop; [|discriminate].
  injection Hloop as <- <-.
  destruct (IH _ _ _ _ Hinv' El) as (Ht & Hrest).
  split; [|exact Hrest].
  rewrite timeline_of_app, ticks_of_app. lia.
Qed.

Lemma sim_np_tally fuel evs :
  V1.sim_np key why fuel l = Some evs ->
  ticks_of nm (timeline_of evs) = bursts nm l + named nm l.
Proof.
  assert ((l = [] /\ V1.sim_np key why fuel l = Some [])
          \/ V1.sim_np key why fuel l
             = V1.finish <$> V1.np_sim_loop key why fuel
                               (mkSim (cloneProcesses l) 0 0 None))
    as [[-> ->]| ->].
  { unfold V1.sim_np. destruct l; [left|right]; auto. }
  { intros [= <-]. reflexivity. }
  destruct (V1.np_sim_loop key why fuel _) as [[evs' s']|] eqn:Eloop;
    [|discriminate].
  simpl. intros [= <-].
  assert (np_sim_inv l (mkSim (cloneProcesses l) 0 0 None) []) as Hinit.
  { destruct Hvalid as [Hv _]. rewrite Forall_lookup in Hv.
    unfold np_sim_inv; simpl. split; [reflexivity|].
    split; [constructor|]. split; [reflexivity|].
    intros i. split; [intros Hi; inversion Hi|].
    intros (p & Hp & Hc). unfold is_completed in Hc.
    rewrite (vp_state p (Hv _ _ Hp)) in Hc. discriminate. }
  destruct (np_sim_loop_tally _ _ _ _ _ Hinit Eloop)
    as (Ht & (D & (Hs & Hnd & Hlen & Hex)) & Hge).
  unfold V1.finish. simpl.
  rewrite timeline_of_app, ticks_of_app, Ht. simpl.
  rewrite (tally_none nm (cloneProcesses l)).
  2:{ destruct Hvalid as [Hv _]. eapply Forall_impl; [exact Hv|].
      intros p Hp. unfold is_completed. rewrite (vp_state p Hp).
      reflexivity. }
  rewrite tally_all.
  - rewrite (bursts_statics nm _ _ Hs), (named_statics nm _ _ Hs).
    unfold timeline_of. simpl. lia.
  - apply Forall_lookup. intros i p Hp.
    assert (i ∈ D) as HiD.
    { apply (indices_full D (length l)); auto; [|lia|].
      - intros j Hj. apply Hex in Hj as (y & Hy & _).
        rewrite <- (statics_length _ _ Hs). eapply lookup_lt_Some; eauto.
      - rewrite <- (statics_length _ _ Hs). eapply lookup_lt_Some; eauto. }
    apply Hex in HiD as (y & Hy & Hc). congruence.
Qed.

End NonPreemptiveLive.

Lemma fcfs_sim_loop_tally nm n : forall queue l t c,
  fcfs_marked l queue -> NoDup queue ->
  Forall (fun i => (i < length l)%nat) queue ->
  (c + length queue = n)%nat ->
  ticks_of nm (timeline_of (V1.fcfs_sim_loop n queue l t c).1.1)
  = tally nm (V1.fcfs_sim_loop n queue l t c).1.2 - tally nm l
  /\ fcfs_marked (V1.fcfs_sim_loop n queue l t c).1.2 []
  /\ statics <$> (V1.fcfs_sim_loop n queue l t c).1.2 = statics <$> l.
Proof.
  induction queue as [|i rest IH]; intros l t c Hm Hnq Hlt Hc;
    cbn [V1.fcfs_sim_loop].
  { destruct (c <? n)%nat; simpl; (split; [lia|split; [exact Hm|reflexivity]]). }
  simpl in Hc.
  destruct (Nat.ltb_spec c n) as [_|?]; [|lia].
  apply NoDup_cons in Hnq as [Hir Hnq].
  apply Forall_cons in Hlt as [Hil Hlt].
  destruct (lookup_lt_is_Some_2 _ _ Hil) as [cp Hi]. rewrite Hi.
  destruct (Hm i cp Hi) as [(_ & _ & Hcn)|(Hsc & Hrem & Hb & _)].
  { exfalso. apply Hcn. left. }
  cbv zeta.
  match goal with
  | |- context [run_ticks ?rq ?k ?l ?i ?t ?msg] =>
      destruct (run_ticks_exact rq k l i t msg cp Hi)
        as (ticks & E & Hlen & _ & Hinfo);
      rewrite E
  end.
  rewrite list_lookup_insert_eq by exact Hil.
  rewrite list_insert_insert_eq.
  set (t2 := Z.max t (arrivalTime cp) + Z.of_nat (Z.to_nat (burstTime cp))).
  set (p2 := set_state (commit _ t2) Completed).
  set (l2 := <[i := p2]> l).
  assert (fcfs_marked l2 rest) as Hm2.
  { intros j x Hx. apply list_lookup_insert_Some in Hx
      as [(-> & <- & _)|(Hne & Hx)].
    - left. repeat split; auto. unfold p2. simpl.
      rewrite Z2Nat.id by lia. lia.
    - destruct (Hm j x Hx) as [(?&?&Hn)|(?&?&?&Hin)].
      + left. repeat split; auto. intros Hc'. apply Hn. right. exact Hc'.
      + right. repeat split; auto.
        apply elem_of_cons in Hin as [?|?]; [congruence|assumption]. }
  assert (Forall (fun i => (i < length l2)%nat) rest) as Hlt2
    by (unfold l2; rewrite length_insert; exact Hlt).
  destruct (IH l2 t2 (S c) Hm2 Hnq Hlt2 ltac:(lia)) as (Ht & Hend & Hst).
  destruct (V1.fcfs_sim_loop n rest l2 t2 (S c)) as [[evs l'] t'].
  simpl in Ht, Hend, Hst |- *.
  split; [|split; [exact Hend|]].
  - rewrite !timeline_of_app, !ticks_of_app, timeline_of_idle, ticks_of_idle.
    rewrite (timeline_of_same _ _ Hinfo), ticks_of_run, Hlen.
    change (timeline_of (?ev :: evs))
      with ((info_of <$> runningProcess ev) :: timeline_of evs).
    cbn [runningProcess fmap option_fmap option_map ticks_of foldr].
    fold (ticks_of nm (timeline_of evs)). rewrite Ht.
    unfold l2. rewrite (tally_complete nm l i cp p2) by
      (auto; unfold is_completed; rewrite ?Hsc; reflexivity).
    cbn [info_of ti_processName].
    change (name p2) with (name cp).
    destruct (String.eqb (name cp) nm); lia.
  - rewrite Hst. unfold l2. eapply fmap_insert_same; eauto.
Qed.

Lemma simulateFCFS_tally nm l :
  valid_input l ->
  ticks_of nm (timeline_of (V1.simulateFCFS l)) = bursts nm l + named nm l.
Proof.
  intros [Hv Hids]. unfold V1.simulateFCFS.
  destruct l as [|x l0] eqn:El; [reflexivity|].
  rewrite <- El in *. clear El x l0. cbv zeta. unfold cloneProcesses.
  set (sorted := js_sort cmp_arrival_id l).
  assert (sorted ≡ₚ l) as HP by apply js_sort_perm.
  assert (Forall valid_process sorted) as Hvs by (rewrite HP; exact Hv).
  assert (fcfs_marked sorted (seq 0 (length sorted))) as Hm.
  { intros j x Hx. right. rewrite Forall_lookup in Hvs.
    destruct (Hvs _ _ Hx). repeat split; auto.
    apply elem_of_seq. apply lookup_lt_Some in Hx. lia. }
  destruct (fcfs_sim_loop_tally nm (length sorted) (seq 0 (length sorted))
              sorted 0 0%nat Hm (NoDup_seq _ _)) as (Ht & Hend & Hst).
  { apply Forall_forall. intros i Hi. apply elem_of_seq in Hi. lia. }
  { rewrite length_seq. lia. }
  destruct (V1.fcfs_sim_loop _ _ _ _ _) as [[evs l'] t'].
  simpl in Ht, Hend, Hst.
  rewrite timeline_of_app, ticks_of_app, Ht.
  rewrite (tally_none nm sorted).
  2:{ eapply Forall_impl; [exact Hvs|]. intros p Hp.
      unfold is_completed. rewrite (vp_state p Hp). reflexivity. }
  rewrite tally_all.
  - rewrite (bursts_statics nm _ _ Hst), (named_statics nm _ _ Hst).
    unfold bursts, named. rewrite !(zsum_perm _ _ _ HP).
    unfold timeline_of. simpl. lia.
  - apply Forall_lookup. intros i p Hp.
    destruct (Hend i p Hp) as [(Hs & _)|(_ & _ & _ & Hin)];
      [|inversion Hin].
    unfold is_completed. rewrite Hs. reflexivity.
Qed.

(** X20 (runLiveSimulation with simulateFCFS, simulateSJF and
    simulatePriorityNonPreemptive).  On every valid input the chart the
    live simulation accumulates from a non-preemptive generator gives every
    name one tick more per process than its burst time: the generator
    yields a completion event with the running process at the time of its
    last tick, and the step adds it to the chart as a second entry over
    that tick.  So for a non-empty input the live chart is never the chart
    of the batch engine. *)
Theorem X20_live_chart_counts_a_tick_too_many (pol : Policy)
    (timeQuantum : Z) (l : list Process) :
  valid_input l -> pol = FCFS \/ pol = SJF \/ pol = PriorityNP ->
  (exists fuel evs, run_stepwise pol timeQuantum fuel l = Some evs)
  /\ forall fuel evs,
       run_stepwise pol timeQuantum fuel l = Some evs ->
       forall algorithmName,
         (forall nm,
            duration_of nm (ls_ganttChart (live_run algorithmName l evs))
            = bursts nm l + named nm l)
         /\ (l <> [] ->
             forall f r, run_batch pol timeQuantum f l = Some r ->
               ls_ganttChart (live_run algorithmName l evs) <> ganttChart r).
Proof.
  intros Hv Hpol.
  assert (forall key why, exists fuel evs,
            V1.sim_np key why fuel l = Some evs) as Hex.
  { intros key why. destruct (decide (l = [])) as [->|Hne];
      [exists 0%nat, []; reflexivity|].
    destruct (sim_np_ok key why l Hv Hne) as (fuel & evs & _ & H & _).
    eauto. }
  split.
  { destruct Hpol as [->|[->| ->]]; [exists 0%nat; simpl; eauto|apply Hex..]. }
  intros fuel evs Hrun algorithmName.
  assert (forall nm,
            duration_of nm (ls_ganttChart (live_run algorithmName l evs))
            = bursts nm l + named nm l) as Hd.
  { intros nm. rewrite live_run_duration.
    destruct Hpol as [->|[->| ->]]; simpl in Hrun.
    - injection Hrun as <-. apply simulateFCFS_tally. exact Hv.
    - eapply sim_np_tally; eauto.
    - eapply sim_np_tally; eauto. }
  split; [exact Hd|].
  intros Hne f r Hr Heq.
  destruct (run_batch_ok pol timeQuantum l Hv)
    as (f0 & r0 & Hr0 & _ & Hok & _).
  rewrite <- (run_batch_fuel _ _ _ _ _ _ _ Hr Hr0) in Hok.
  destruct Hok as (_ & _ & Hdur & _).
  { intros E. destruct Hpol as [->|[->| ->]]; discriminate. }
  destruct l as [|p l0]; [easy|].
  specialize (Hd (name p)). rewrite Heq, Hdur in Hd.
  pose proof (named_pos (name p) (p :: l0) p
                ltac:(apply elem_of_cons; auto) eq_refl).
  lia.
Qed.

Lemma X20_live_chart_counts_a_tick_too_many_witness :
  valid_input example_input
  /\ (exists fuel evs, run_stepwise FCFS 2 fuel example_input = Some evs)
  /\ forall fuel evs,
       run_stepwise FCFS 2 fuel example_input = Some evs ->
       forall algorithmName,
         (forall nm,
            duration_of nm
              (ls_ganttChart (live_run algorithmName example_input evs))
            = bursts nm example_input + named nm example_input)
         /\ (example_input <> [] ->
             forall f r, run_batch FCFS 2 f example_input = Some r ->
               ls_ganttChart (live_run algorithmName example_input evs)
               <> ganttChart r).
Proof.
  split; [exact example_input_valid|].
  exact (X20_live_chart_counts_a_tick_too_many FCFS 2 example_input
           example_input_valid (or_introl eq_refl)).
Defined.

(** * The selection policies *)

Lemma num_ltb_irrefl a : num_ltb a a = false.
Proof. destruct a; simpl; [apply Z.ltb_irrefl|reflexivity]. Qed.

Lemma num_ltb_trans a b c :
  num_ltb a b = true -> num_ltb b c = true -> num_ltb a c = true.
Proof.
  destruct a, b, c; simpl; try discriminate; auto.
  rewrite !Z.ltb_lt. lia.
Qed.

Lemma num_ltb_total a b :
  num_ltb a b = false -> num_ltb b a = false -> a = b.
Proof.
  destruct a, b; simpl; try discriminate; auto.
  rewrite !Z.ltb_ge. intros. f_equal. lia.
Qed.

Lemma num_ltb_asym a b : num_ltb a b = true -> num_ltb b a = false.
Proof.
  destruct a, b; simpl; try discriminate; auto.
  rewrite Z.ltb_lt, Z.ltb_ge. lia.
Qed.

Lemma precedes_refl key p : precedes key p p.
Proof. split; [apply num_ltb_irrefl|lia]. Qed.

Lemma precedes_trans key p q r :
  precedes key p q -> precedes key q r -> precedes key p r.
Proof.
  intros [H1 H2] [H3 H4]. split.
  - destruct (num_ltb (key r) (key p)) eqn:E; [|reflexivity].
    destruct (num_ltb (key q) (key r)) eqn:E2.
    + rewrite (num_ltb_trans _ _ _ E2 E) in H1. discriminate.
    + rewrite (num_ltb_total _ _ E2 H3) in H1. congruence.
  - intros E.
    assert (num_ltb (key p) (key q) = false) as E1.
    { destruct (num_ltb (key p) (key q)) eqn:E1; [|reflexivity].
      destruct (num_ltb (key q) (key r)) eqn:E2.
      - rewrite (num_ltb_trans _ _ _ E1 E2) in E. discriminate.
      - rewrite (num_ltb_total _ _ E2 H3) in E1. congruence. }
    assert (num_ltb (key q) (key r) = false) as E2.
    { destruct (num_ltb (key q) (key r)) eqn:E2; [|reflexivity].
      rewrite (num_ltb_total _ _ E1 H1) in E. congruence. }
    specialize (H2 E1). specialize (H4 E2). lia.
Qed.

Lemma pick_min key a b :
  precedes key (pick key a b).2 a.2 /\ precedes key (pick key a b).2 b.2.
Proof.
  unfold pick.
  destruct (num_ltb (key a.2) (key b.2)) eqn:E1.
  - split; [apply precedes_refl|]. split; [apply num_ltb_asym; exact E1|].
    congruence.
  - destruct (num_ltb (key b.2) (key a.2)) eqn:E2.
    + split; [|apply precedes_refl]. split; [exact E1|congruence].
    + destruct (Z.ltb_spec (arrivalTime a.2) (arrivalTime b.2)).
      * split; [apply precedes_refl|]. split; [exact E2|lia].
      * split; [|apply precedes_refl]. split; [exact E1|lia].
Qed.

Lemma fold_pick_min key : forall rest x0 y,
  y ∈ x0 :: rest -> precedes key (fold_left (pick key) rest x0).2 y.2.
Proof.
  induction rest as [|z rest IH]; intros x0 y Hy; simpl.
  - apply list_elem_of_singleton in Hy as ->. apply precedes_refl.
  - destruct (pick_min key x0 z) as [H1 H2].
    apply elem_of_cons in Hy as [->|Hy].
    + eapply precedes_trans; [apply IH; left|exact H1].
    + apply elem_of_cons in Hy as [->|Hy].
      * eapply precedes_trans; [apply IH; left|exact H2].
      * apply IH. right. exact Hy.
Qed.

(** The selection takes a process that goes first among the ready ones. *)
Lemma reduce1_pick_min key ready x y :
  reduce1 (pick key) ready = Some x -> y ∈ ready -> precedes key x.2 y.2.
Proof.
  destruct ready as [|x0 rest]; [discriminate|]. simpl.
  intros [= <-] Hy. apply fold_pick_min. exact Hy.
Qed.

Section NonPreemptivePolicy.

Variable key : Process -> num.
Variable l : list Process.
Hypothesis Hvalid : valid_input l.
Hypothesis Hkey : forall p c, key (commit p c) = key p.

Lemma precedes_commit_l p q c :
  precedes key p q -> precedes key (commit p c) q.
Proof. unfold precedes. rewrite Hkey. auto. Qed.

Lemma precedes_commit_r p q c :
  precedes key p q -> precedes key p (commit q c).
Proof. unfold precedes. rewrite Hkey. auto. Qed.

Lemma np_body_policy s D :
  np_inv l s D ->
  policy_kept key (bs_procs s) (bs_done s) (bs_time s) ->
  policy_kept key (bs_procs (V1.np_body key s)) (bs_done (V1.np_body key s))
              (bs_time (V1.np_body key s)).
Proof.
  intros (Hs & _) Hpol. destruct Hvalid as [Hv Hids].
  unfold V1.np_body.
  destruct (reduce1 _ _) as [[i cp]|] eqn:Er.
  - pose proof (fun y => reduce1_pick_min key _ _ y Er) as Hmin.
    apply reduce1_elem in Er; [|apply pick_choice].
    apply elem_of_filter_bool in Er as [Hi Hr].
    apply elem_of_indexed in Hi. simpl in Hr.
    apply andb_true_iff in Hr as [Harr Hnot].
    apply Z.leb_le in Harr. apply negb_true_iff in Hnot.
    destruct (statics_valid _ _ _ _ Hs Hv Hi) as [Ha Hb].
    destruct (Z.ltb_spec (bs_time s) (arrivalTime cp)); [lia|].
    pose proof (lookup_lt_Some _ _ _ Hi) as Hil.
    simpl.
    set (cp' := commit cp (bs_time s + burstTime cp)).
    assert (start_of cp' = bs_time s) as Hstart
      by (unfold start_of, cp'; simpl; lia).
    assert (forall (j : nat) q, j <> i -> bs_procs s !! j = Some q ->
              (id q =? id cp) = false) as Hother.
    { intros j q Hne Hq. apply Z.eqb_neq. intros E. apply Hne.
      eapply (same_id_same_index _ _ _ _ _ _ Hs Hids Hq Hi E). }
    intros a b p q Hp Hq Hab Hd.
    apply list_lookup_insert_Some in Hp as [(Eai & <- & _)|(Hai & Hp)];
      apply list_lookup_insert_Some in Hq as [(Ebi & <- & _)|(Hbi & Hq)];
      try congruence; try subst a; try subst b.
    + (* the process that has just run, and another one *)
      fold cp'. split; [simpl; lia|]. rewrite Hstart. intros Hbq.
      destruct (mem_id (id q) (bs_done s)) eqn:Eq.
      * left. split.
        -- simpl. rewrite (Hother b q) by auto. exact Eq.
        -- destruct (Hpol b i q cp Hq Hi ltac:(auto) Eq) as [Hc _]. exact Hc.
      * right. apply precedes_commit_l.
        apply (Hmin (b, q)). apply elem_of_filter_bool.
        split; [apply elem_of_indexed; exact Hq|]. simpl.
        rewrite Eq. apply andb_true_iff. split; [apply Z.leb_le; lia|].
        reflexivity.
    + (* an earlier process, and the one that has just run *)
      fold cp'. simpl in Hd. rewrite (Hother a p) in Hd by auto.
      simpl in Hd.
      destruct (Hpol a i p cp Hp Hi ltac:(auto) Hd) as [Hc Hw].
      split; [lia|]. intros Hbq.
      destruct (Hw Hbq) as [[Hcd _]|Hpre]; [congruence|].
      right. apply precedes_commit_r. exact Hpre.
    + (* two other processes *)
      simpl in Hd. rewrite (Hother a p) in Hd by auto. simpl in Hd.
      destruct (Hpol a b p q Hp Hq Hab Hd) as [Hc Hw].
      split; [lia|]. intros Hbq.
      destruct (Hw Hbq) as [[Hqd Hqc]|Hpre]; [left|right; exact Hpre].
      split; [|exact Hqc]. simpl. rewrite Hqd. apply orb_true_r.
  - simpl. intros a b p q Hp Hq Hab Hd.
    destruct (Hpol a b p q Hp Hq Hab Hd) as [Hc Hw]. split; [lia|exact Hw].
Qed.

Lemma np_loop_policy : forall fuel s D s',
  np_inv l s D ->
  policy_kept key (bs_procs s) (bs_done s) (bs_time s) ->
  V1.np_loop key fuel s = Some s' ->
  policy_kept key (bs_procs s') (bs_done s') (bs_time s')
  /\ (exists D', np_inv l s' D')
  /\ (length l <= bs_completed s')%nat.
Proof.
  induction fuel as [|fuel IH]; intros s D s' Hinv Hpol Hloop;
    assert (length (bs_procs s) = length l) as Hl
      by (apply statics_length, Hinv);
    cbn [V1.np_loop] in Hloop; rewrite Hl in Hloop;
    destruct (Nat.ltb_spec (bs_completed s) (length l)) as [Hlt|Hge];
    try discriminate;
    try (injection Hloop as <-; split; [exact Hpol|]; split; [eauto|lia]).
  destruct (np_body_inv key l Hvalid s D Hinv Hlt) as (D' & Hinv' & _).
  eapply IH; eauto. eapply np_body_policy; eauto.
Qed.

Lemma run_np_policy nm fuel r :
  V1.run_np key nm fuel l = Some r ->
  forall (i j : nat) p q,
    processes r !! i = Some p -> processes r !! j = Some q -> i <> j ->
    arrivalTime q <= start_of p -> start_of p < completionTime q ->
    precedes key p q.
Proof.
  assert ((l = [] /\ V1.run_np key nm fuel l = Some (createEmptyResult nm))
          \/ V1.run_np key nm fuel l
             = V1.result_of nm <$> V1.np_loop key fuel
                 (mkB (cloneProcesses l) 0 0 [] []))
    as [[_ ->]| ->].
  { unfold V1.run_np. destruct l; [left|right]; auto. }
  { intros [= <-] i j p q Hp. inversion Hp. }
  destruct (V1.np_loop key fuel _) as [s'|] eqn:Eloop; [|discriminate].
  simpl. intros [= <-] i j p q Hp Hq Hij Harr Hlate. simpl in Hp, Hq.
  destruct (np_loop_policy _ _ _ _ (np_init_inv l)
              ltac:(intros ? ? ? ? _ _ _ Hd; discriminate) Eloop)
    as (Hpol & (D & Hinv) & Hge).
  destruct Hinv as (Hs & Hnd & Hlen & Hin & _).
  assert (mem_id (id p) (bs_done s') = true) as Hd.
  { assert (i ∈ D) as HiD.
    { apply (indices_full D (length l)); auto; [|lia|].
      - intros k Hk. destruct (Hin k Hk) as (y & Hy & _).
        rewrite <- (statics_length _ _ Hs). eapply lookup_lt_Some; eauto.
      - rewrite <- (statics_length _ _ Hs). eapply lookup_lt_Some; eauto. }
    destruct (Hin i HiD) as (y & Hy & _ & Hyd). rewrite Hp in Hy.
    injection Hy as <-. apply mem_id_spec. exact Hyd. }
  destruct (Hpol i j p q Hp Hq Hij Hd) as [_ Hw].
  destruct (Hw Harr) as [[_ Hc]|Hpre]; [lia|exact Hpre].
Qed.

End NonPreemptivePolicy.

(** X21 (runSJF).  On every valid input runSJF returns, and it never
    starts a job while a shorter one waits: if the process [q] had arrived
    when [p] was started and had not completed yet, the burst time of [p]
    is at most that of [q], and on equal burst times [p] arrived no later
    than [q]. *)
Theorem X21_sjf_starts_the_shortest_waiting_job (timeQuantum : Z)
    (l : list Process) :
  valid_input l ->
  (exists fuel r, run_batch SJF timeQuantum fuel l = Some r)
  /\ forall fuel r, run_batch SJF timeQuantum fuel l = Some r ->
       forall (i j : nat) p q,
         processes r !! i = Some p -> processes r !! j = Some q -> i <> j ->
         arrivalTime q <= start_of p -> start_of p < completionTime q ->
         burstTime p <= burstTime q
         /\ (burstTime p = burstTime q -> arrivalTime p <= arrivalTime q).
Proof.
  intros Hv. split.
  { destruct (run_np_ok key_burst l Hv "Non-Preemptive SJF")
      as (fuel & r & Hr & _). eauto. }
  intros fuel r Hr i j p q Hp Hq Hij Harr Hlate.
  destruct (run_np_policy key_burst l Hv ltac:(reflexivity) _ _ _ Hr
              i j p q Hp Hq Hij Harr Hlate) as [H1 H2].
  unfold key_burst in H1, H2. simpl in H1, H2.
  apply Z.ltb_ge in H1. split; [exact H1|].
  intros E. apply H2. apply Z.ltb_ge. lia.
Qed.

Lemma X21_sjf_starts_the_shortest_waiting_job_witness :
  valid_input example_input
  /\ (exists fuel r, run_batch SJF 2 fuel example_input = Some r)
  /\ forall fuel r, run_batch SJF 2 fuel example_input = Some r ->
       forall (i j : nat) p q,
         processes r !! i = Some p -> processes r !! j = Some q -> i <> j ->
         arrivalTime q <= start_of p -> start_of p < completionTime q ->
         burstTime p <= burstTime q
         /\ (burstTime p = burstTime q -> arrivalTime p <= arrivalTime q).
Proof.
  split; [exact example_input_valid|].
  exact (X21_sjf_starts_the_shortest_waiting_job 2 example_input
           example_input_valid).
Defined.


(** X22 (runPriorityNonPreemptive).  On every valid input the engine
    returns, and it never starts a process while a more urgent one waits:
    if [q] had arrived when [p] was started and had not completed yet, the
    priority number of [p] is at most that of [q] (a process without
    priority counts as the least urgent), and on equal priorities [p]
    arrived no later than [q]. *)
Theorem X22_priority_starts_the_most_urgent_waiting_process
    (timeQuantum : Z) (l : list Process) :
  valid_input l ->
  (exists fuel r, run_batch PriorityNP timeQuantum fuel l = Some r)
  /\ forall fuel r, run_batch PriorityNP timeQuantum fuel l = Some r ->
       forall (i j : nat) p q,
         processes r !! i = Some p -> processes r !! j = Some q -> i <> j ->
         arrivalTime q <= start_of p -> start_of p < completionTime q ->
         match priority p, priority q with
         | Some a, Some b =>
             a <= b /\ (a = b -> arrivalTime p <= arrivalTime q)
         | Some _, None => True
         | None, Some _ => False
         | None, None => arrivalTime p <= arrivalTime q
         end.
Proof.
  intros Hv. split.
  { destruct (run_np_ok priority_or_inf l Hv "Non-Preemptive Priority")
      as (fuel & r & Hr & _). eauto. }
  intros fuel r Hr i j p q Hp Hq Hij Harr Hlate.
  destruct (run_np_policy priority_or_inf l Hv ltac:(reflexivity) _ _ _ Hr
              i j p q Hp Hq Hij Harr Hlate) as [H1 H2].
  unfold priority_or_inf in H1, H2.
  destruct (priority p) as [a|], (priority q) as [b|]; simpl in H1, H2.
  - apply Z.ltb_ge in H1. split; [exact H1|].
    intros E. apply H2. apply Z.ltb_ge. lia.
  - exact I.
  - discriminate.
  - apply H2. reflexivity.
Qed.

Lemma X22_priority_starts_the_most_urgent_waiting_process_witness :
  valid_input example_input
  /\ (exists fuel r, run_batch PriorityNP 2 fuel example_input = Some r)
  /\ forall fuel r, run_batch PriorityNP 2 fuel example_input = Some r ->
       forall (i j : nat) p q,
         processes r !! i = Some p -> processes r !! j = Some q -> i <> j ->
         arrivalTime q <= start_of p -> start_of p < completionTime q ->
         match priority p, priority q with
         | Some a, Some b =>
             a <= b /\ (a = b -> arrivalTime p <= arrivalTime q)
         | Some _, None => True
         | None, Some _ => False
         | None, None => arrivalTime p <= arrivalTime q
         end.
Proof.
  split; [exact example_input_valid|].
  exact (X22_priority_starts_the_most_urgent_waiting_process 2 example_input
           example_input_valid).
Defined.

(** * The order of service *)

Lemma served_from_app t a b :
  served_from t (a ++ b)
  <-> served_from t a
      /\ served_from (from_option completionTime t (last a)) b.
Proof.
  revert t. induction a as [|p a IH]; intros t; simpl; [tauto|].
  rewrite IH. 
  assert (from_option completionTime t (last (p :: a))
          = from_option completionTime (completionTime p) (last a)) as ->.
  { destruct a as [|x a]; [reflexivity|].
    rewrite last_cons. destruct (last (x :: a)) eqn:E; [reflexivity|].
    apply last_None in E. discriminate. }
  tauto.
Qed.

Lemma fcfs_fold_served : forall (rest visited : list Process) t tl t0,
  Forall (fun p => 0 <= burstTime p) rest ->
  served_from t0 visited ->
  from_option completionTime t0 (last visited) = t ->
  served_from t0 (fold_left V1.fcfs_body rest (t, tl, visited)).2
  /\ (fold_left V1.fcfs_body rest (t, tl, visited)).1.1
     = from_option completionTime t0
         (last (fold_left V1.fcfs_body rest (t, tl, visited)).2).
Proof.
  induction rest as [|p rest IH]; intros visited t tl t0 Hb Hv Ht.
  - simpl. auto.
  - apply Forall_cons in Hb as [Hp Hb]. cbn [fold_left].
    unfold V1.fcfs_body at 2 4 6.
    set (acc := if t <? arrivalTime p
                then (arrivalTime p, push_n tl (arrivalTime p - t) None)
                else (t, tl)).
    assert (acc.1 = Z.max t (arrivalTime p)) as Hacc.
    { unfold acc. destruct (Z.ltb_spec t (arrivalTime p)); simpl; lia. }
    destruct acc as [t1 tl1]. simpl in Hacc. cbn [completionTime commit].
    apply IH; [exact Hb| |rewrite last_snoc; reflexivity].
    apply served_from_app. split; [exact Hv|]. rewrite Ht. simpl.
    split; [|exact I]. unfold start_of. simpl. lia.
Qed.

Lemma served_from_later : forall (l : list Process) t (i j : nat) p q,
  served_from t l -> Forall (fun p => 0 <= burstTime p) l ->
  l !! i = Some p -> l !! j = Some q -> (i < j)%nat ->
  completionTime p <= start_of q.
Proof.
  assert (forall (l : list Process) t (j : nat) q,
            served_from t l -> Forall (fun p => 0 <= burstTime p) l ->
            l !! j = Some q -> t <= start_of q) as Hge.
  { induction l as [|x l IH]; intros t j q Hs Hb Hq; [inversion Hq|].
    destruct Hs as [Hx Hs]. apply Forall_cons in Hb as [Hbx Hb].
    destruct j as [|j]; simpl in Hq.
    - injection Hq as <-. lia.
    - specialize (IH _ _ _ Hs Hb Hq). unfold start_of in Hx. lia. }
  induction l as [|x l IH]; intros t i j p q Hs Hb Hp Hq Hij;
    [inversion Hp|].
  destruct Hs as [Hx Hs]. apply Forall_cons in Hb as [Hbx Hb].
  destruct j as [|j]; [lia|]. simpl in Hq.
  destruct i as [|i]; simpl in Hp.
  - injection Hp as <-. eapply Hge; eauto.
  - eapply IH; eauto. lia.
Qed.

Lemma sorted_lookup {A} (R : A -> A -> Prop) (l : list A) :
  StronglySorted R l ->
  forall (i j : nat) x y,
    l !! i = Some x -> l !! j = Some y -> (i < j)%nat -> R x y.
Proof.
  induction 1 as [|a l Hs IH Ha]; intros i j x y Hx Hy Hij; [inversion Hx|].
  destruct j as [|j]; [lia|]. simpl in Hy.
  destruct i as [|i]; simpl in Hx.
  - injection Hx as <-. rewrite Forall_forall in Ha. apply Ha.
    eapply list_elem_of_lookup_2; eauto.
  - eapply IH; eauto. lia.
Qed.

(** X23 (runFCFS).  On every valid input the processes of the result of
    runFCFS are served one after the other in the order of the result (by
    arrival time, then by id): the first starts when it arrives, every
    other one when its predecessor has completed or when it arrives if that
    is later; so a process completes before every later one starts. *)
Theorem X23_fcfs_serves_in_order (l : list Process) :
  valid_input l ->
  served_from 0 (processes (V1.runFCFS l))
  /\ forall (i j : nat) p q,
       processes (V1.runFCFS l) !! i = Some p ->
       processes (V1.runFCFS l) !! j = Some q -> (i < j)%nat ->
       by_arrival_id p q /\ completionTime p <= start_of q.
Proof.
  intros Hv.
  destruct (runFCFS_schedule l Hv) as [_ Hsorted].
  assert (served_from 0 (processes (V1.runFCFS l))
          /\ Forall (fun p => 0 <= burstTime p) (processes (V1.runFCFS l)))
    as [Hs Hb].
  { destruct (runFCFS_ok l Hv) as (Hst & _).
    split.
    - unfold V1.runFCFS. destruct l as [|x l0] eqn:El; [exact I|].
      rewrite <- El in *. clear El x l0. cbv zeta. unfold cloneProcesses.
      destruct (fcfs_fold_served (js_sort cmp_arrival_id l) [] 0 [] 0)
        as [H _]; [|exact I|reflexivity|].
      { rewrite js_sort_perm. eapply Forall_impl; [apply Hv|].
        intros p Hp. pose proof (vp_burst p Hp). lia. }
      destruct (fold_left V1.fcfs_body _ _) as [[t tl] l']. exact H.
    - apply Forall_forall. intros p Hp.
      assert (statics p ∈ statics <$> l) as Hin.
      { rewrite <- Hst. apply list_elem_of_fmap_2. exact Hp. }
      apply list_elem_of_fmap in Hin as (p0 & E & Hp0).
      destruct Hv as [Hv _]. rewrite Forall_forall in Hv.
      pose proof (vp_burst p0 (Hv p0 Hp0)). unfold statics in E.
      injection E as _ _ _ ->. lia. }
  split; [exact Hs|].
  intros i j p q Hp Hq Hij. split.
  - eapply (sorted_lookup by_arrival_id); eauto.
  - eapply served_from_later; eauto.
Qed.

Lemma X23_fcfs_serves_in_order_witness :
  valid_input example_input
  /\ served_from 0 (processes (V1.runFCFS example_input))
  /\ forall (i j : nat) p q,
       processes (V1.runFCFS example_input) !! i = Some p ->
       processes (V1.runFCFS example_input) !! j = Some q -> (i < j)%nat ->
       by_arrival_id p q /\ completionTime p <= start_of q.
Proof.
  split; [exact example_input_valid|].
  exact (X23_fcfs_serves_in_order example_input example_input_valid).
Defined.

Section PreemptivePolicy.

Variable key : Process -> num.
Variable why : string.
Hypothesis Hkey : forall p p',
  remainingTime p = remainingTime p' -> priority p = priority p' ->
  key p = key p'.

Lemma pre_sim_body_policy s :
  Forall (event_policy key) (V1.pre_sim_body key why s).1.
Proof.
  unfold V1.pre_sim_body.
  destruct (reduce1 _ _) as [[i rp]|] eqn:Er.
  - pose proof (fun y => reduce1_pick_min key _ _ y Er) as Hmin.
    assert (forall rp2 x,
              remainingTime rp2 = remainingTime rp - 1 ->
              priority rp2 = priority rp -> arrivalTime rp2 = arrivalTime rp ->
              x ∈ snd <$> List.filter
                    (fun ip : nat * Process => negb (same_id ip.2 rp))
                    (List.filter (fun ip : nat * Process =>
                                    V1.ready_now (sim_time s) ip.2)
                                 (indexed (sim_procs s))) ->
              precedes key (set_remainingTime rp2 (remainingTime rp2 + 1)) x)
      as Hgen.
    { intros rp2 x Hr Hp Ha Hx.
      apply list_elem_of_fmap in Hx as ([j x'] & -> & Hx).
      apply elem_of_filter_bool in Hx as [Hx _].
      specialize (Hmin _ Hx). simpl in Hmin. destruct Hmin as [H1 H2].
      assert (key (set_remainingTime rp2 (remainingTime rp2 + 1)) = key rp)
        as Ek by (apply Hkey; simpl; [lia|exact Hp]).
      split; rewrite Ek; simpl; [exact H1|]. rewrite Ha. exact H2. }
    destruct (remainingTime (set_remainingTime rp (remainingTime rp - 1)) =? 0);
      simpl; (constructor; [|constructor]); unfold event_policy; simpl;
      intros x Hx; apply Hgen; auto.
  - apply reduce1_none in Er. rewrite Er. simpl.
    constructor; [reflexivity|constructor].
Qed.

Lemma pre_sim_loop_policy : forall fuel s evs s',
  V1.pre_sim_loop key why fuel s = Some (evs, s') ->
  Forall (event_policy key) evs.
Proof.
  induction fuel as [|fuel IH]; intros s evs s' Hloop;
    cbn [V1.pre_sim_loop] in Hloop;
    destruct (sim_completed s <? length (sim_procs s))%nat;
    try discriminate; try (injection Hloop as <- <-; constructor).
  pose proof (pre_sim_body_policy s) as Hb.
  destruct (V1.pre_sim_body key why s) as [evs0 s1]. simpl in *.
  destruct (V1.pre_sim_loop key why fuel s1) as [[evs1 s2]|] eqn:El;
    simpl in Hloop; [|discriminate].
  injection Hloop as <- <-. apply Forall_app. split; [exact Hb|].
  eapply IH; eauto.
Qed.

Lemma sim_pre_policy fuel l evs :
  V1.sim_pre key why fuel l = Some evs -> Forall (event_policy key) evs.
Proof.
  unfold V1.sim_pre. destruct l as [|x l0]; [intros [= <-]; constructor|].
  destruct (V1.pre_sim_loop key why fuel _) as [[evs' s']|] eqn:Eloop;
    [|discriminate].
  simpl. intros [= <-]. unfold V1.finish. simpl.
  apply Forall_app. split; [eapply pre_sim_loop_policy; eauto|].
  constructor; [reflexivity|constructor].
Qed.

End PreemptivePolicy.

(** X24 (simulateSRTF, simulatePriorityPreemptive).  On every valid input
    the generators end, and in every event the running process is the one
    the policy puts first: it was selected with no more remaining time (no
    larger priority number; no priority counts as the least urgent) than any
    process of the ready queue, and on a tie it arrived no later.  The CPU
    is idle only in events with an empty ready queue. *)
Theorem X24_preemptive_generators_run_the_first_in_order
    (timeQuantum : Z) (l : list Process) :
  valid_input l ->
  ((exists fuel evs, run_stepwise SRTF timeQuantum fuel l = Some evs)
   /\ forall fuel evs, run_stepwise SRTF timeQuantum fuel l = Some evs ->
        forall ev, ev ∈ evs ->
          match runningProcess ev with
          | Some r =>
              forall x, x ∈ readyQueue ev ->
                remainingTime r < remainingTime x
                /\ (remainingTime r + 1 = remainingTime x ->
                    arrivalTime r <= arrivalTime x)
          | None => readyQueue ev = []
          end)
  /\ ((exists fuel evs,
         run_stepwise PriorityP timeQuantum fuel l = Some evs)
      /\ forall fuel evs,
           run_stepwise PriorityP timeQuantum fuel l = Some evs ->
           forall ev, ev ∈ evs ->
             match runningProcess ev with
             | Some r =>
                 forall x, x ∈ readyQueue ev ->
                   match priority r, priority x with
                   | Some a, Some b =>
                       a <= b /\ (a = b -> arrivalTime r <= arrivalTime x)
                   | Some _, None => True
                   | None, Some _ => False
                   | None, None => arrivalTime r <= arrivalTime x
                   end
             | None => readyQueue ev = []
             end).
Proof.
  intros Hv.
  assert (forall key why, exists fuel evs,
            V1.sim_pre key why fuel l = Some evs) as Hex.
  { intros key why. destruct (decide (l = [])) as [->|Hne];
      [exists 0%nat, []; reflexivity|].
    destruct (sim_pre_ok key why l Hv Hne) as (fuel & evs & _ & H & _).
    eauto. }
  split; (split; [apply Hex|]); intros fuel evs Hrun ev Hev.
  - assert (Forall (event_policy key_remaining) evs) as Hall.
    { eapply (sim_pre_policy key_remaining); [|exact Hrun].
      intros p p' Hr _. unfold key_remaining. rewrite Hr. reflexivity. }
    rewrite Forall_forall in Hall. specialize (Hall ev Hev).
    unfold event_policy in Hall.
    destruct (runningProcess ev) as [r|]; [|exact Hall].
    intros x Hx. destruct (Hall x Hx) as [H1 H2].
    unfold key_remaining in H1, H2. simpl in H1, H2.
    apply Z.ltb_ge in H1. split; [lia|].
    intros E. apply H2. apply Z.ltb_ge. lia.
  - assert (Forall (event_policy priority_or_inf) evs) as Hall.
    { eapply (sim_pre_policy priority_or_inf); [|exact Hrun].
      intros p p' _ Hp. unfold priority_or_inf. rewrite Hp. reflexivity. }
    rewrite Forall_forall in Hall. specialize (Hall ev Hev).
    unfold event_policy in Hall.
    destruct (runningProcess ev) as [r|]; [|exact Hall].
    intros x Hx. destruct (Hall x Hx) as [H1 H2].
    unfold priority_or_inf in H1, H2. simpl in H1, H2.
    destruct (priority r) as [a|], (priority x) as [b|]; simpl in H1, H2.
    + apply Z.ltb_ge in H1. split; [exact H1|].
      intros E. apply H2. apply Z.ltb_ge. lia.
    + exact I.
    + discriminate.
    + apply H2. reflexivity.
Qed.

Lemma X24_preemptive_generators_run_the_first_in_order_witness :
  valid_input example_input
  /\ (((exists fuel evs, run_stepwise SRTF 2 fuel example_input = Some evs)
   /\ forall fuel evs, run_stepwise SRTF 2 fuel example_input = Some evs ->
        forall ev, ev ∈ evs ->
          match runningProcess ev with
          | Some r =>
              forall x, x ∈ readyQueue ev ->
                remainingTime r < remainingTime x
                /\ (remainingTime r + 1 = remainingTime x ->
                    arrivalTime r <= arrivalTime x)
          | None => readyQueue ev = []
          end)
  /\ ((exists fuel evs,
         run_stepwise PriorityP 2 fuel example_input = Some evs)
      /\ forall fuel evs,
           run_stepwise PriorityP 2 fuel example_input = Some evs ->
           forall ev, ev ∈ evs ->
             match runningProcess ev with
             | Some r =>
                 forall x, x ∈ readyQueue ev ->
                   match priority r, priority x with
                   | Some a, Some b =>
                       a <= b /\ (a = b -> arrivalTime r <= arrivalTime x)
                   | Some _, None => True
                   | None, Some _ => False
                   | None, None => arrivalTime r <= arrivalTime x
                   end
             | None => readyQueue ev = []
             end)).
Proof.
  split; [exact example_input_valid|].
  exact (X24_preemptive_generators_run_the_first_in_order 2 example_input
           example_input_valid).
Defined.

(** ** [runRoundRobin] of the second revision *)

Section RoundRobinScheduleSecondRevision.

Variable q : Z.
Variable l : list Process.
Hypothesis Hvalid : Forall valid_process l.

(** One iteration: the tick it adds is idle when the last process is
    retired in it. *)
Lemma rr_body_v2_trace s D :
  rr_inv l s D (rr_time s) false ->
  trace_inv l (rr_procs s) (rr_committed s) (rr_timeline s) (rr_time s) 1 ->
  let s' := V2.rr_body q s in
  trace_inv l (rr_procs s') (rr_committed s') (rr_timeline s') (rr_time s') 1
  /\ rr_time s' = rr_time s + 1
  /\ ((rr_completed s < rr_completed s')%nat ->
      just_completed (rr_procs s') (rr_time s') 1)
  /\ ((length l <= rr_completed s')%nat ->
      exists tl0, rr_timeline s' = tl0 ++ [None]).
Proof.
  intros Hinv Htr. pose proof Htr as (_ & _ & Hcomp & _).
  unfold V2.rr_body. cbv zeta.
  rewrite (rr_enqueue_v2_v1 l Hvalid _ _ _ Hinv), rr_retire_v2_core.
  apply (core_enqueue_inv l Hvalid) in Hinv.
  change (rr_time s + 1) with (rr_time (V1.rr_enqueue s) + 1) in Hinv.
  assert (forall (i : nat) p, rr_procs (V1.rr_enqueue s) !! i = Some p ->
            rr_committed (V1.rr_enqueue s) i ->
            completionTime p + 1 <= rr_time (V1.rr_enqueue s)) as Hcomp0
    by exact Hcomp.
  destruct (core_retire_inv (fun p => p) q l keeps_schedule_id Hvalid
              (fun _ => 0) (V1.rr_enqueue s) D _ Hinv)
    as (D1 & H1 & _ & _ & Ht1 & Htl1 & _).
  destruct (rr_retire_trace q (fun _ => 0) (V1.rr_enqueue s) Hcomp0)
    as (R1 & R2 & R3 & R4 & R5).
  set (s1 := core_retire (fun p => p) (fun _ => 0) q (V1.rr_enqueue s)) in *.
  rewrite <- Ht1 in H1.
  destruct (rr_exec_trace l s1 D1 H1)
    as (E1 & E2 & E3 & E4 & E5 & E6 & x & E7 & E8 & E9).
  change (V1.rr_execute (V1.rr_dispatch s1))
    with (core_execute true (V1.rr_dispatch s1)).
  set (s' := core_execute true (V1.rr_dispatch s1)) in *.
  change (rr_procs (V1.rr_enqueue s)) with (rr_procs s) in *.
  change (rr_time (V1.rr_enqueue s)) with (rr_time s) in *.
  change (rr_timeline (V1.rr_enqueue s)) with (rr_timeline s) in *.
  change (rr_completed (V1.rr_enqueue s)) with (rr_completed s) in *.
  assert (forall i, rr_committed (V1.rr_enqueue s) i <-> rr_committed s i)
    as Hsame by (intros i; reflexivity).
  split; [|split; [lia|split]].
  - rewrite E7, E6, Htl1, Ht1.
    replace (rr_time s + 1) with (rr_time s + Z.of_nat (length [x]))
      by (simpl; lia).
    apply (trace_extend l (rr_procs s) _ (rr_committed s) (rr_committed s')
                        _ [x] _ 1 Htr).
    + congruence.
    + intros i p Hp Hci. apply Hsame in Hci.
      destruct (R2 _ _ Hp Hci) as [Hp1 Hc1].
      apply E2; auto.
    + intros i p p' Hp Hp'.
      assert (is_Some (rr_procs s1 !! i)) as [p1 Hp1].
      { apply lookup_lt_is_Some. rewrite R1. eapply lookup_lt_Some; eauto. }
      rewrite (E3 _ _ _ Hp1 Hp'). eapply R3; eauto.
    + intros i p' Hp' Hci. destruct (E4 _ _ Hp' Hci) as [Hp1 Hc1].
      pose proof (R4 _ _ Hp1 Hc1). simpl. lia.
    + intros k y Hk. destruct k as [|k]; [|destruct k; discriminate].
      injection Hk as <-. destruct x as [info|].
      * destruct E8 as (p & ? & ? & ?). exists p. repeat split; auto. lia.
      * intros i p' Hp' Ha.
        assert (rr_committed s' i) as Hci by (apply (E8 i p' Hp'); lia).
        split; [exact Hci|]. destruct (E4 _ _ Hp' Hci) as [Hp1 Hc1].
        pose proof (R4 _ _ Hp1 Hc1). lia.
  - intros Hlt. rewrite E5 in Hlt.
    destruct (R5 Hlt) as (i & p1 & Hp1 & Hc1 & Ec).
    destruct (E2 _ _ Hp1 Hc1) as [Hp' _]. exists p1.
    split; [eapply list_elem_of_lookup_2; eauto|]. lia.
  - intros Hge. rewrite E5 in Hge. exists (rr_timeline s1).
    rewrite E7. f_equal. f_equal.
    destruct H1 as (Hs & _ & Hq & Hrun & _ & Hnd & Hlen & Hex & _).
    assert (forall i p, rr_procs s1 !! i = Some p -> i ∈ D1) as Hall.
    { intros i p Hp. apply (indices_full D1 (length l)); auto; [|lia|].
      - intros j Hj. apply Hex in Hj as (y & Hy & _).
        rewrite <- (statics_length _ _ Hs). eapply lookup_lt_Some; eauto.
      - rewrite <- (statics_length _ _ Hs). eapply lookup_lt_Some; eauto. }
    apply E9.
    + destruct (rr_running s1) as [r|] eqn:Er; [|reflexivity]. exfalso.
      destruct (Hrun r eq_refl) as (_ & p & Hp & _).
      apply Hall, Hex in Hp as (_ & _ & _ & Hn). apply Hn. reflexivity.
    + destruct (rr_queue s1) as [|i qs] eqn:Eq; [reflexivity|]. exfalso.
      destruct (Hq i ltac:(left)) as (p & Hp & _ & Hpos).
      pose proof Hp as Hp'.
      apply Hall, Hex in Hp' as (y & Hy & Hz & _).
      rewrite Hp in Hy. injection Hy as <-. lia.
Qed.

Lemma rr_loop_v2_trace : forall fuel s D s' log,
  rr_inv l s D (rr_time s) false ->
  trace_inv l (rr_procs s) (rr_committed s) (rr_timeline s) (rr_time s) 1 ->
  0 <= rr_time s ->
  ((length l <= rr_completed s)%nat -> l <> [] ->
   just_completed (rr_procs s) (rr_time s) 1 /\ 1 <= rr_time s
   /\ exists tl0, rr_timeline s = tl0 ++ [None]) ->
  V2.rr_loop q fuel s = Some (s', log) ->
  trace_inv l (rr_procs s') (rr_committed s') (rr_timeline s') (rr_time s') 1
  /\ ((length l <= rr_completed s')%nat -> l <> [] ->
      just_completed (rr_procs s') (rr_time s') 1 /\ 1 <= rr_time s'
      /\ exists tl0, rr_timeline s' = tl0 ++ [None]).
Proof.
  induction fuel as [|fuel IH]; intros s D s' log Hinv Htr Ht HJ Hloop;
    assert (length (rr_procs s) = length l) as Hl
      by (apply statics_length, Hinv);
    [rewrite rr_loop_v2_O in Hloop|rewrite rr_loop_v2_S in Hloop];
    rewrite Hl in Hloop;
    destruct (Nat.ltb_spec (rr_completed s) (length l)) as [Hlt|Hge];
    try discriminate;
    try (injection Hloop as <- <-; split; [exact Htr|exact HJ]).
  destruct (rr_body_v2_inv q l Hvalid s D Hinv) as (D' & Hinv').
  destruct (rr_body_v2_trace s D Hinv Htr) as (Htr' & Ht' & HJ' & Hidle).
  set (s1 := V2.rr_body q s) in *.
  assert ((length l <= rr_completed s1)%nat -> l <> [] ->
          just_completed (rr_procs s1) (rr_time s1) 1 /\ 1 <= rr_time s1
          /\ exists tl0, rr_timeline s1 = tl0 ++ [None])
    as HJ1.
  { intros Hge _. split; [apply HJ'; lia|]. split; [lia|auto]. }
  destruct (Z.ltb_spec ceiling_v2 (rr_time s1)).
  - injection Hloop as <- <-. split; [exact Htr'|exact HJ1].
  - apply (IH _ _ _ _ Hinv' Htr' ltac:(lia) HJ1 Hloop).
Qed.

(** The result: the chart is the one of the timeline without its last,
    idle tick, and the total time is the last completion time. *)
Lemma runRoundRobin_v2_schedule r :
  V2.runRoundRobin l q = Some (r, []) ->
  schedule_ok l r 0 /\ statics <$> processes r = statics <$> l.
Proof.
  intros Hrun.
  destruct (decide (l = [])) as [E|Hne].
  { rewrite E in Hrun. injection Hrun as <-.
    split; [|rewrite E; reflexivity].
    split; [easy|]. unfold chart_ok; simpl.
    split; [intros e He; inversion He|].
    split; [intros e He; inversion He|]. intros; lia. }
  assert (exists s', V2.rr_loop q (Z.to_nat (ceiling_v2 + 1)) (V1.rr_init l)
                     = Some (s', []) /\ r = V2.rr_result s')
    as (s' & Hloop & ->).
  { revert Hrun. unfold V2.runRoundRobin. destruct l as [|x l0] eqn:El;
      [easy|].
    destruct (V2.rr_loop q (Z.to_nat (ceiling_v2 + 1)) (V1.rr_init (x :: l0)))
      as [[s' lg]|]; [|discriminate].
    simpl. intros [= <- ->]. eauto. }
  destruct (rr_loop_v2_inv q l Hvalid _ _ _ _ _ (rr_init_inv l Hvalid)
              ltac:(simpl; unfold ceiling_v2; lia) Hloop)
    as (D' & Hinv & Hexit).
  assert (trace_inv l (rr_procs (V1.rr_init l)) (rr_committed (V1.rr_init l))
            (rr_timeline (V1.rr_init l)) (rr_time (V1.rr_init l)) 1) as Htr0.
  { split; [reflexivity|]. split; [intros j info Hj; inversion Hj|].
    split; [|intros j Hj; inversion Hj].
    intros i p Hp (y & Hy & Hz & _). exfalso.
    unfold V1.rr_init, cloneProcesses in Hy. simpl in Hy.
    rewrite Forall_lookup in Hvalid. destruct (Hvalid _ _ Hy). lia. }
  destruct (rr_loop_v2_trace _ _ _ _ _ (rr_init_inv l Hvalid) Htr0
              ltac:(simpl; lia)
              ltac:(simpl; intros Hc; destruct l; [easy|simpl in Hc; lia])
              Hloop)
    as [Htr HJ].
  destruct Hinv as (Hs & _ & _ & _ & _ & Hnd & Hlen & Hex & _).
  split; [|exact Hs].
  destruct Hexit as [(_ & Hge & _)|[[=] _]].
  destruct (HJ Hge Hne) as (Hjc & Hone & tl0 & Etl).
  unfold V2.rr_result, mk_result.
  rewrite buildGanttChart_v2_v1, Etl, buildGanttChart_trailing_idle.
  destruct Htr as (Tlen & Trun & Tdone & Tidle).
  rewrite Etl, length_app in Tlen. simpl in Tlen.
  apply (trace_schedule_ok l (rr_procs s') (rr_committed s') tl0
           (rr_time s' - 1) 0 "Round Robin" (length (rr_procs s')));
    [lia| |].
  - split; [lia|]. split; [|split].
    + intros j info Hj. apply Trun. rewrite Etl.
      apply lookup_app_l_Some. exact Hj.
    + intros i p Hp Hc. pose proof (Tdone i p Hp Hc). lia.
    + intros j Hj. apply Tidle. rewrite Etl.
      apply lookup_app_l_Some. exact Hj.
  - intros _. split; [lia|]. split.
    + intros i p Hp. apply Hex.
      apply (indices_full D' (length l)); auto; [|lia|].
      * intros j Hj. apply Hex in Hj as (y & Hy & _).
        rewrite <- (statics_length _ _ Hs). eapply lookup_lt_Some; eauto.
      * rewrite <- (statics_length _ _ Hs). eapply lookup_lt_Some; eauto.
    + destruct Hjc as (p & Hp & E). exists p. split; [exact Hp|lia].
Qed.

End RoundRobinScheduleSecondRevision.

(** X25 (runRoundRobin, second revision).  On a valid input, when the run
    of the second [runRoundRobin] ends without the safety break, the
    [totalTime] of its result is the latest completion time of its
    processes: the iteration that retires the last process adds an idle
    tick to the timeline, the builder drops it, and the result counts
    [currentTime - 1].  The chart lies within that total time, no segment
    starts before the process it names has arrived, a tick is shown idle
    only when every process that has arrived by then has completed, and
    the result holds the processes of the input in their order. *)
Theorem X25_second_round_robin_ends_at_last_completion (l : list Process)
    (timeQuantum : Z) (r : AlgorithmResult) :
  valid_input l ->
  V2.runRoundRobin l timeQuantum = Some (r, []) ->
  (l <> [] -> totalTime r = max_completion (processes r))
  /\ Forall (fun p => completionTime p <= totalTime r) (processes r)
  /\ chart_ok l r
  /\ statics <$> processes r = statics <$> l.
Proof.
  intros [Hv _] Hrun.
  destruct (runRoundRobin_v2_schedule timeQuantum l Hv r Hrun)
    as [[Ht Hc] Hs].
  assert (l <> [] -> totalTime r = max_completion (processes r)) as Ht'
    by (intros Hne; rewrite (Ht Hne); lia).
  split; [exact Ht'|]. split; [|split; [exact Hc|exact Hs]].
  apply Forall_forall. intros p Hp.
  assert (l <> []) as Hne.
  { intros ->. destruct (processes r); [inversion Hp|discriminate Hs]. }
  pose proof (max_completion_ge (processes r) p Hp).
  rewrite (Ht' Hne). lia.
Qed.

Lemma X25_second_round_robin_ends_at_last_completion_witness :
  valid_input example_input
  /\ exists r,
       V2.runRoundRobin example_input 2 = Some (r, [])
       /\ (example_input <> [] ->
           totalTime r = max_completion (processes r))
       /\ Forall (fun p => completionTime p <= totalTime r) (processes r)
       /\ chart_ok example_input r
       /\ statics <$> processes r = statics <$> example_input.
Proof.
  split; [exact example_input_valid|].
  destruct (V2.runRoundRobin example_input 2) as [[r log]|] eqn:E;
    [|vm_compute in E; discriminate E].
  assert (log = []) as ->.
  { assert (snd <$> V2.runRoundRobin example_input 2 = Some []) as H
      by (vm_compute; reflexivity).
    rewrite E in H. injection H as H. exact H. }
  exists r. split; [reflexivity|].
  exact (X25_second_round_robin_ends_at_last_completion
           example_input 2 r example_input_valid E).
Defined.
